(** * ABAP remediation passes: a shallow embedding and its properties

    The repository rewrites ABAP source text in four sequential passes
    ([process_select], [process_sort], [process_orderby], [process_read]).
    Each pass is a Python function from [str] to [str] built from
    index-based scanning loops, string methods and regular expressions.

    Embedding conventions:
    - a Python [str] is a [list ascii]; the characters are the code
      points 0..255, with [str.isalnum], [str.isspace] and [str.lower]
      as Python defines them on that range;
    - indices are [nat]; the [-1] returned by [find]/[rfind] and by the
      scanners is [None];
    - a subscription [s[i]] is [get s i], which raises [IndexError] out
      of range; the idiom [j < len(s) and s[j] == d] is [peek_is s j d];
    - a loop [while i < len(s) and p(s[i]): i += 1] is [skip_while p s i];
      every other [while] loop runs on fuel and raises [OutOfFuel] when
      it is exhausted; the passes give each loop the length of its text
      plus one.  Computations live in the error monad [res];
    - the methods of [str] and the functions of [re] are total functions
      of the model;
    - [date.today().isoformat()] is the parameter [today] of each pass. *)

From Stdlib Require Import Ascii String List Arith Bool Lia NArith.
Import ListNotations.

Set Implicit Arguments.

(** ** Characters and strings *)

Definition str := list ascii.

Definition L (s : string) : str := list_ascii_of_string s.

Definition chr (n : N) : ascii := ascii_of_N n.
Definition ord (c : ascii) : N := N_of_ascii c.

Definition nl : ascii := chr 10.
Definition cr : ascii := chr 13.
Definition tab : ascii := chr 9.
Definition sp : ascii := chr 32.
Definition dq : ascii := chr 34.       (* the double quote *)
Definition sq : ascii := chr 39.       (* ' *)
Definition bt : ascii := chr 96.       (* ` *)
Definition bar : ascii := chr 124.     (* | *)
Definition star : ascii := chr 42.
Definition dot : ascii := chr 46.
Definition comma : ascii := chr 44.
Definition lpar : ascii := chr 40.
Definition rpar : ascii := chr 41.
Definition tilde : ascii := chr 126.
Definition at_sign : ascii := chr 64.
Definition underscore : ascii := chr 95.
Definition lt_sign : ascii := chr 60.
Definition gt_sign : ascii := chr 62.
Definition eq_sign : ascii := chr 61.

Definition is_chr (d c : ascii) : bool := Ascii.eqb c d.

Definition between (lo hi : N) (c : ascii) : bool :=
  (N.leb lo (ord c) && N.leb (ord c) hi)%bool.

(** [str.isspace] on code points 0..255. *)
Definition isspace (c : ascii) : bool :=
  between 9 13 c || between 28 32 c || N.eqb (ord c) 133 || N.eqb (ord c) 160.

Definition isdecimal (c : ascii) : bool := between 48 57 c.

Definition is_ascii_alpha (c : ascii) : bool :=
  between 65 90 c || between 97 122 c.

(** [str.isalnum] on code points 0..255. *)
Definition isalnum (c : ascii) : bool :=
  isdecimal c || is_ascii_alpha c
  || N.eqb (ord c) 170 || between 178 179 c || N.eqb (ord c) 181
  || between 185 186 c || between 188 190 c
  || between 192 214 c || between 216 246 c || between 248 255 c.

(** [str.lower] on one code point of 0..255. *)
Definition lower_chr (c : ascii) : ascii :=
  if between 65 90 c || between 192 214 c || between 216 222 c
  then chr (ord c + 32) else c.

Definition lower (s : str) : str := map lower_chr s.

Fixpoint str_eqb (a b : str) : bool :=
  match a, b with
  | [], [] => true
  | x :: a', y :: b' => Ascii.eqb x y && str_eqb a' b'
  | _, _ => false
  end.

Definition is_empty (s : str) : bool :=
  match s with [] => true | _ => false end.

(** [s[i:j]], [s[i:]] and [s[:j]] for non-negative bounds. *)
Definition slice (s : str) (i j : nat) : str := firstn (j - i) (skipn i s).
Definition from_ (s : str) (i : nat) : str := skipn i s.
Definition upto (s : str) (j : nat) : str := firstn j s.

(** [j < len(s) and s[j] == d]. *)
Definition peek_is (s : str) (j : nat) (d : ascii) : bool :=
  match nth_error s j with Some c => is_chr d c | None => false end.

(** [j < len(s) and p(s[j])]. *)
Definition peek (p : ascii -> bool) (s : str) (j : nat) : bool :=
  match nth_error s j with Some c => p c | None => false end.

(** Length of the longest prefix whose characters satisfy [p]. *)
Fixpoint span (p : ascii -> bool) (s : str) : nat :=
  match s with
  | c :: s' => if p c then S (span p s') else 0
  | [] => 0
  end.

(** [while i < len(s) and p(s[i]): i += 1]. *)
Definition skip_while (p : ascii -> bool) (s : str) (i : nat) : nat :=
  i + span p (skipn i s).

Fixpoint index_of (p : ascii -> bool) (s : str) : option nat :=
  match s with
  | [] => None
  | c :: s' => if p c then Some 0
               else match index_of p s' with Some k => Some (S k) | None => None end
  end.

(** [s.find(c, i)] for a one-character needle. *)
Definition find_chr (c : ascii) (s : str) (i : nat) : option nat :=
  match index_of (is_chr c) (skipn i s) with
  | Some k => Some (i + k)
  | None => None
  end.

(** [s.rfind(c, 0, hi)] for a one-character needle. *)
Fixpoint rfind_chr (c : ascii) (s : str) (hi : nat) : option nat :=
  match hi with
  | 0 => None
  | S k => if peek_is s k c then Some k else rfind_chr c s k
  end.

Definition contains_chr (c : ascii) (s : str) : bool := existsb (is_chr c) s.

Fixpoint dropwhile (p : ascii -> bool) (s : str) : str :=
  match s with
  | c :: s' => if p c then dropwhile p s' else s
  | [] => []
  end.

Definition lstrip (s : str) : str := dropwhile isspace s.
Definition rstrip (s : str) : str := rev (dropwhile isspace (rev s)).
Definition strip (s : str) : str := lstrip (rstrip s).
Definition rstrip_chr (c : ascii) (s : str) : str := rev (dropwhile (is_chr c) (rev s)).

Fixpoint starts_with (pre s : str) : bool :=
  match pre, s with
  | [], _ => true
  | x :: pre', y :: s' => Ascii.eqb x y && starts_with pre' s'
  | _ :: _, [] => false
  end.

Definition ends_with (suf s : str) : bool := starts_with (rev suf) (rev s).

(** [s.split()]: the maximal runs of non-whitespace characters. *)
Fixpoint split_ws_from (s : str) (buf : str) : list str :=
  match s with
  | [] => if is_empty buf then [] else [rev buf]
  | c :: s' =>
      if isspace c
      then (if is_empty buf then split_ws_from s' []
            else rev buf :: split_ws_from s' [])
      else split_ws_from s' (c :: buf)
  end.

Definition split_ws (s : str) : list str := split_ws_from s [].

(** [s.split(d)] for a one-character separator: empty pieces are kept. *)
Fixpoint split_on_from (d : ascii) (s : str) (buf : str) : list str :=
  match s with
  | [] => [rev buf]
  | c :: s' =>
      if is_chr d c then rev buf :: split_on_from d s' []
      else split_on_from d s' (c :: buf)
  end.

Definition split_on (d : ascii) (s : str) : list str := split_on_from d s [].

(** [sep.join(xs)]. *)
Fixpoint join (sep : str) (xs : list str) : str :=
  match xs with
  | [] => []
  | [x] => x
  | x :: xs' => x ++ sep ++ join sep xs'
  end.

Fixpoint mem_str (x : str) (xs : list str) : bool :=
  match xs with
  | [] => false
  | y :: ys => str_eqb x y || mem_str x ys
  end.

(** ** The error monad *)

Inductive exn : Type := IndexError | OutOfFuel.

Inductive res (A : Type) : Type :=
| Ok (a : A)
| Raise (e : exn).

Arguments Ok {A} a.
Arguments Raise {A} e.

Definition bind {A B : Type} (m : res A) (f : A -> res B) : res B :=
  match m with
  | Ok a => f a
  | Raise e => Raise e
  end.

Notation "x <- m ;; k" := (bind m (fun x => k))
  (at level 61, m at next level, right associativity).

(** [s[i]]. *)
Definition get {A : Type} (s : list A) (i : nat) : res A :=
  match nth_error s i with
  | Some c => Ok c
  | None => Raise IndexError
  end.

(** ** Regular expressions

    The fragment of Python's [re] the passes use, with its backtracking
    semantics: alternatives and optional parts are tried in priority
    order, repetitions are greedy, [search] returns the leftmost match.
    Repetition is only ever applied to a one-character class. *)

Inductive re : Type :=
| Eps
| Chr (p : ascii -> bool)          (* one character satisfying [p] *)
| WordB                            (* \b *)
| Bol                              (* ^ *)
| Eol                              (* $ *)
| Seq (a b : re)
| Alt (a b : re)
| Opt (a : re)                     (* (?:a)? *)
| Rep (min : nat) (p : ascii -> bool)   (* [p]* is [Rep 0 p], [p]+ is [Rep 1 p] *)
| Grp (g : nat) (a : re).          (* capturing group number [g] *)

Definition groups := list (nat * (nat * nat)).

Definition is_word_char (c : ascii) : bool := isalnum c || is_chr underscore c.

Definition word_before (s : str) (i : nat) : bool :=
  match i with
  | 0 => false
  | S j => peek is_word_char s j
  end.

Fixpoint rep_down {X : Type} (k : nat -> option X) (i min r : nat) : option X :=
  if r <? min then None
  else match k (i + r) with
       | Some x => Some x
       | None => match r with
                 | 0 => None
                 | S r' => rep_down k i min r'
                 end
       end.

Fixpoint rx {X : Type} (r : re) (s : str) (i : nat) (g : groups)
  (k : nat -> groups -> option X) : option X :=
  match r with
  | Eps => k i g
  | Chr p =>
      match nth_error s i with
      | Some c => if p c then k (S i) g else None
      | None => None
      end
  | WordB => if xorb (word_before s i) (peek is_word_char s i) then k i g else None
  | Bol => if i =? 0 then k i g else None
  | Eol =>
      if (i =? length s) || ((S i =? length s) && peek_is s i nl)
      then k i g else None
  | Seq a b => rx a s i g (fun j g' => rx b s j g' k)
  | Alt a b =>
      match rx a s i g k with
      | Some x => Some x
      | None => rx b s i g k
      end
  | Opt a =>
      match rx a s i g k with
      | Some x => Some x
      | None => k i g
      end
  | Rep min p => rep_down (fun j => k j g) i min (span p (skipn i s))
  | Grp n a => rx a s i g (fun j g' => k j ((n, (i, j)) :: g'))
  end.

(** A match: start, end, captured groups. *)
Definition rmatch := (nat * nat * groups)%type.

Definition m_start (m : rmatch) : nat := fst (fst m).
Definition m_end (m : rmatch) : nat := snd (fst m).

Fixpoint lookup_group (n : nat) (g : groups) : option (nat * nat) :=
  match g with
  | [] => None
  | (k, v) :: g' => if k =? n then Some v else lookup_group n g'
  end.

(** [m.group(n)]; [None] when the group did not take part in the match. *)
Definition group (s : str) (m : rmatch) (n : nat) : option str :=
  match lookup_group n (snd m) with
  | Some (a, b) => Some (slice s a b)
  | None => None
  end.

Definition match_at (r : re) (s : str) (i : nat) : option rmatch :=
  rx r s i [] (fun j g => Some (i, j, g)).

Fixpoint search_loop (r : re) (s : str) (i cnt : nat) : option rmatch :=
  match match_at r s i with
  | Some m => Some m
  | None => match cnt with
            | 0 => None
            | S cnt' => search_loop r s (S i) cnt'
            end
  end.

(** [pattern.search(s, pos)]. *)
Definition search_pos (r : re) (s : str) (pos : nat) : option rmatch :=
  if length s <? pos then None else search_loop r s pos (length s - pos).

(** [re.search(pattern, s)] and [re.match(pattern, s)]. *)
Definition re_search (r : re) (s : str) : option rmatch := search_pos r s 0.
Definition re_match (r : re) (s : str) : option rmatch := match_at r s 0.

(** [re.sub(pattern, repl, s)] with a callable [repl]; matches are taken
    left to right without overlap, and the search moves one character
    on after an empty match. *)
Fixpoint sub_loop (fuel : nat) (r : re) (repl : str -> str) (s : str) (pos : nat) : str :=
  match fuel with
  | 0 => from_ s pos
  | S fuel' =>
      match search_pos r s pos with
      | None => from_ s pos
      | Some m =>
          let st := m_start m in
          let en := m_end m in
          if en <=? st
          then slice s pos st ++ repl [] ++ slice s st (S st)
               ++ sub_loop fuel' r repl s (S st)
          else slice s pos st ++ repl (slice s st en) ++ sub_loop fuel' r repl s en
      end
  end.

Definition re_sub (r : re) (repl : str -> str) (s : str) : str :=
  sub_loop (S (length s)) r repl s 0.

(** [re.findall(pattern, s)] for a pattern with one group. *)
Fixpoint findall_loop (fuel : nat) (r : re) (s : str) (pos : nat) : list str :=
  match fuel with
  | 0 => []
  | S fuel' =>
      match search_pos r s pos with
      | None => []
      | Some m =>
          let en := if m_end m <=? m_start m then S (m_start m) else m_end m in
          match group s m 1 with
          | Some x => x :: findall_loop fuel' r s en
          | None => [] :: findall_loop fuel' r s en
          end
      end
  end.

Definition re_findall (r : re) (s : str) : list str :=
  findall_loop (S (length s)) r s 0.

(** Pattern builders. *)

(** A literal word under the [(?i)] flag. *)
Fixpoint ilit_of (w : str) : re :=
  match w with
  | [] => Eps
  | [c] => Chr (fun x => Ascii.eqb (lower_chr x) (lower_chr c))
  | c :: w' => Seq (Chr (fun x => Ascii.eqb (lower_chr x) (lower_chr c))) (ilit_of w')
  end.

Definition ilit (w : string) : re := ilit_of (L w).

Fixpoint seqs (rs : list re) : re :=
  match rs with
  | [] => Eps
  | [r] => r
  | r :: rs' => Seq r (seqs rs')
  end.

Definition ws1 : re := Rep 1 isspace.               (* \s+ *)
Definition ws0 : re := Rep 0 isspace.               (* \s* *)
Definition ident_start (c : ascii) : bool :=        (* [A-Za-z_] *)
  is_ascii_alpha c || is_chr underscore c.
Definition ident : re := Seq (Chr ident_start) (Rep 0 is_word_char).  (* [A-Za-z_]\w* *)

(** ** Scanner primitives

    The four source files repeat the same helpers; they are embedded
    once here.  [is_word_char] and [match_kw_at] are verbatim copies in
    select.py, sort.py, orderby.py and read_statement.py;
    [skip_line_comment], [skip_full_line_star_comment] and
    [get_line_indent_before] are those of sort.py, orderby.py and
    read_statement.py. *)

(** The three flags [in_sq], [in_bt], [in_tpl] of every scanning loop.
    A flag is only set when all three are [False], so at most one is
    [True]: the four reachable combinations are the four constructors. *)
Inductive quote : Type := Code | InSq | InBt | InTpl.

(** The delimiter that closes an open region. *)
Definition delim (q : quote) : ascii :=
  match q with
  | InSq => sq
  | InBt => bt
  | InTpl => bar
  | Code => sq
  end.

(** The region opened by a character read in [Code] state. *)
Definition open_quote (c : ascii) : option quote :=
  if is_chr sq c then Some InSq
  else if is_chr bt c then Some InBt
  else if is_chr bar c then Some InTpl
  else None.

(** One iteration inside a string or template: a doubled delimiter is
    skipped, a single one closes the region. *)
Definition quoted_step (s : str) (i : nat) (q : quote) (c : ascii) : nat * quote :=
  if is_chr (delim q) c
  then (if peek_is s (i + 1) (delim q) then (i + 2, q) else (i + 1, Code))
  else (i + 1, q).

Definition match_kw_at (s : str) (i : nat) (kw : str) : res bool :=
  let n := length kw in
  if length s <? i + n then Ok false
  else if negb (str_eqb (lower (slice s i (i + n))) (lower kw)) then Ok false
  else
    left_ok <- (if i =? 0 then Ok true
                else c <- get s (i - 1) ;; Ok (negb (is_word_char c))) ;;
    right_ok <- (if i + n =? length s then Ok true
                 else c <- get s (i + n) ;; Ok (negb (is_word_char c))) ;;
    Ok (left_ok && right_ok).

Definition skip_line_comment (s : str) (i : nat) : nat :=
  match find_chr nl s i with
  | None => length s
  | Some eol => eol
  end.

Definition skip_full_line_star_comment (s : str) (i : nat) : nat :=
  match find_chr nl s i with
  | None => length s
  | Some eol => eol
  end.

(** [i == 0 or s[i-1] == '\n']. *)
Definition at_bol (s : str) (i : nat) : res bool :=
  match i with
  | 0 => Ok true
  | S j => c <- get s j ;; Ok (is_chr nl c)
  end.

(** [c == '*'] and the star is in the first column. *)
Definition star_at_bol (s : str) (i : nat) (c : ascii) : res bool :=
  if is_chr star c then at_bol s i else Ok false.

Definition is_blank (c : ascii) : bool := is_chr sp c || is_chr tab c.

Definition is_ws4 (c : ascii) : bool :=
  is_chr sp c || is_chr tab c || is_chr cr c || is_chr nl c.

(** Start of the line that contains [pos]. *)
Definition line_start_of (s : str) (pos : nat) : nat :=
  match rfind_chr nl s pos with
  | None => 0
  | Some k => k + 1
  end.

(** [k = ls; while k < pos and s[k] in (' ', '\t'): k += 1]: the value of
    [k] after the loop.  The loop tests [k] against [pos], not against
    the length: the subscription is out of range when the text ends
    before [pos] on blanks only. *)
Definition skip_blanks_upto (s : str) (ls pos : nat) : res nat :=
  let k := ls + span is_blank (slice s ls pos) in
  if (k <? pos) && (length s <=? k) then Raise IndexError else Ok k.

(** Leading blanks of the line that contains [pos], up to [pos]. *)
Definition get_line_indent_before (code : str) (pos : nat) : res str :=
  let ls := line_start_of code pos in
  k <- skip_blanks_upto code ls pos ;;
  Ok (slice code ls k).

(** [find_statement_period] of sort.py, orderby.py and read_statement.py. *)
Fixpoint find_statement_period_loop (fuel : nat) (s : str) (i : nat) (q : quote)
  : res (option nat) :=
  match fuel with
  | 0 => Raise OutOfFuel
  | S fuel' =>
      if length s <=? i then Ok None
      else
        c <- get s i ;;
        match q with
        | Code =>
            if is_chr dq c
            then find_statement_period_loop fuel' s (skip_line_comment s i) Code
            else
              bol <- star_at_bol s i c ;;
              if bol
              then find_statement_period_loop fuel' s (skip_full_line_star_comment s i) Code
              else match open_quote c with
                   | Some q' => find_statement_period_loop fuel' s (i + 1) q'
                   | None =>
                       if is_chr dot c then Ok (Some i)
                       else find_statement_period_loop fuel' s (i + 1) Code
                   end
        | _ =>
            let '(i', q') := quoted_step s i q c in
            find_statement_period_loop fuel' s i' q'
        end
  end.

Definition find_statement_period (s : str) (start : nat) : res (option nat) :=
  find_statement_period_loop (S (length s)) s start Code.

(** [find_kw] of sort.py and orderby.py. *)
Fixpoint find_kw_loop (fuel : nat) (s kw : str) (i : nat) (q : quote)
  : res (option nat) :=
  match fuel with
  | 0 => Raise OutOfFuel
  | S fuel' =>
      if length s <=? i then Ok None
      else
        c <- get s i ;;
        match q with
        | Code =>
            if is_chr dq c
            then find_kw_loop fuel' s kw (skip_line_comment s i + 1) Code
            else
              bol <- star_at_bol s i c ;;
              if bol
              then find_kw_loop fuel' s kw (skip_full_line_star_comment s i + 1) Code
              else match open_quote c with
                   | Some q' => find_kw_loop fuel' s kw (i + 1) q'
                   | None =>
                       hit <- match_kw_at s i kw ;;
                       if hit then Ok (Some i)
                       else find_kw_loop fuel' s kw (i + 1) Code
                   end
        | _ =>
            let '(i', q') := quoted_step s i q c in
            find_kw_loop fuel' s kw i' q'
        end
  end.

Definition find_kw (s kw : str) (start : nat) : res (option nat) :=
  find_kw_loop (S (length s)) s kw start Code.

(** [at_statement_lead] of sort.py and orderby.py. *)
Definition at_statement_lead (s : str) (pos : nat) : res bool :=
  let ls := line_start_of s pos in
  k <- skip_blanks_upto s ls pos ;;
  Ok (if peek_is s k star then false else k =? pos).

(** The scan for the next trigger keyword, shared by the main loops of
    the four passes.  [trigger code scan] is the test each pass makes in
    [Code] state once comments and opening quotes are ruled out. *)
Section Scan.

Variable trigger : str -> nat -> res bool.

Fixpoint scan_loop (fuel : nat) (code : str) (scan : nat) (q : quote)
  : res (option nat) :=
  match fuel with
  | 0 => Raise OutOfFuel
  | S fuel' =>
      if length code <=? scan then Ok None
      else
        c <- get code scan ;;
        match q with
        | Code =>
            if is_chr dq c
            then
              let scan1 := skip_line_comment code scan in
              scan_loop fuel' code (if scan1 <? length code then scan1 + 1 else scan1) Code
            else
              bol <- star_at_bol code scan c ;;
              if bol
              then
                let scan1 := skip_full_line_star_comment code scan in
                scan_loop fuel' code (if scan1 <? length code then scan1 + 1 else scan1) Code
              else match open_quote c with
                   | Some q' => scan_loop fuel' code (scan + 1) q'
                   | None =>
                       hit <- trigger code scan ;;
                       if hit then Ok (Some scan)
                       else scan_loop fuel' code (scan + 1) Code
                   end
        | _ =>
            let '(scan', q') := quoted_step code scan q c in
            scan_loop fuel' code scan' q'
        end
  end.

Definition scan_next (code : str) (i : nat) : res (option nat) :=
  scan_loop (S (length code)) code i Code.

End Scan.

(** [find_next_any_kw] of select.py and orderby.py, over the [find_kw]
    of the file it sits in: the earliest hit among the keywords, the
    first keyword winning a tie. *)
Section FindAny.

Variable find_kw_of : str -> str -> nat -> res (option nat).

Fixpoint find_next_any_kw_loop (s : str) (keywords : list str) (start : nat)
  (best : option (nat * str)) : res (option (nat * str)) :=
  match keywords with
  | [] => Ok best
  | kw :: rest =>
      idx <- find_kw_of s kw start ;;
      let best' :=
        match idx, best with
        | Some k, None => Some (k, kw)
        | Some k, Some (b, _) => if k <? b then Some (k, kw) else best
        | None, _ => best
        end in
      find_next_any_kw_loop s rest start best'
  end.

Definition find_next_any_kw_with (s : str) (keywords : list str) (start : nat)
  : res (option (nat * str)) :=
  find_next_any_kw_loop s keywords start None.

End FindAny.

(** The provenance tag line: the comment marker, the fixed phrase, the
    date and a newline. *)
Definition pwc_tag_line (today : str) : str :=
  dq :: L " Added By Pwc " ++ today ++ [nl].

(** ** Pass 1: select.py *)

Module Select.

Definition not_nl (c : ascii) : bool := negb (is_chr nl c).

Fixpoint skip_ws_and_comments_loop (fuel : nat) (s : str) (i : nat) : res nat :=
  match fuel with
  | 0 => Raise OutOfFuel
  | S fuel' =>
      if length s <=? i then Ok i
      else
        let i1 := skip_while is_ws4 s i in
        if length s <=? i1 then Ok i1
        else
          c <- get s i1 ;;
          bol <- star_at_bol s i1 c ;;
          if bol then skip_ws_and_comments_loop fuel' s (skip_while not_nl s i1)
          else if is_chr dq c
               then skip_ws_and_comments_loop fuel' s (skip_while not_nl s i1)
               else Ok i1
  end.

Definition skip_ws_and_comments (s : str) (i : nat) : res nat :=
  skip_ws_and_comments_loop (S (length s)) s i.

(** select.py writes the comment skip of [find_statement_period] as an
    inline loop. *)
Fixpoint find_statement_period_loop (fuel : nat) (s : str) (i : nat) (q : quote)
  : res (option nat) :=
  match fuel with
  | 0 => Raise OutOfFuel
  | S fuel' =>
      if length s <=? i then Ok None
      else
        c <- get s i ;;
        match q with
        | Code =>
            if is_chr dq c
            then find_statement_period_loop fuel' s (skip_while not_nl s i) Code
            else
              bol <- star_at_bol s i c ;;
              if bol
              then find_statement_period_loop fuel' s (skip_while not_nl s i) Code
              else match open_quote c with
                   | Some q' => find_statement_period_loop fuel' s (i + 1) q'
                   | None =>
                       if is_chr dot c then Ok (Some i)
                       else find_statement_period_loop fuel' s (i + 1) Code
                   end
        | _ =>
            let '(i', q') := quoted_step s i q c in
            find_statement_period_loop fuel' s i' q'
        end
  end.

Definition find_statement_period (s : str) (start : nat) : res (option nat) :=
  find_statement_period_loop (S (length s)) s start Code.

(** [find_kw] of select.py: the three flags are initialised to [False]
    and never set, so quotes do not hide a keyword here. *)
Fixpoint find_kw_loop (fuel : nat) (s kw : str) (i : nat) (q : quote)
  : res (option nat) :=
  match fuel with
  | 0 => Raise OutOfFuel
  | S fuel' =>
      if length s <=? i then Ok None
      else
        c <- get s i ;;
        match q with
        | Code =>
            if is_chr dq c
            then find_kw_loop fuel' s kw (skip_while not_nl s i + 1) Code
            else
              bol <- star_at_bol s i c ;;
              if bol
              then find_kw_loop fuel' s kw (skip_while not_nl s i + 1) Code
              else
                hit <- match_kw_at s i kw ;;
                if hit then Ok (Some i)
                else find_kw_loop fuel' s kw (i + 1) Code
        | _ =>
            let '(i', q') := quoted_step s i q c in
            find_kw_loop fuel' s kw i' q'
        end
  end.

Definition find_kw (s kw : str) (start : nat) : res (option nat) :=
  find_kw_loop (S (length s)) s kw start Code.

Definition find_next_any_kw := find_next_any_kw_with find_kw.

(** [\bUP\s+TO\s+\d+\s+ROWS\b], case-insensitive. *)
Definition up_to_rows_re : re :=
  seqs [WordB; ilit "UP"; ws1; ilit "TO"; ws1; Rep 1 isdecimal; ws1; ilit "ROWS"; WordB].

(** [(?i)\bSINGLE\b]. *)
Definition single_re : re := seqs [WordB; ilit "SINGLE"; WordB].

Definition remove_single (stmt : str) : str := re_sub single_re (fun _ => []) stmt.

Definition remove_any_up_to_rows (stmt : str) : str :=
  re_sub up_to_rows_re (fun _ => []) stmt.

(** [[ \t]+], a run with a tab is kept, a run of spaces becomes one. *)
Definition normalize_spaces (stmt : str) : str :=
  re_sub (Rep 1 is_blank)
    (fun m => if contains_chr nl m || contains_chr tab m then m else [sp]) stmt.

Definition has_endselect_after (s : str) (period_pos : nat) : res bool :=
  i <- skip_ws_and_comments s (period_pos + 1) ;;
  Ok ((i <? length s) && str_eqb (lower (slice s i (i + 10))) (L "endselect.")).

Definition terminators : list str :=
  map L ["from"; "where"; "order"; "group"; "having";
         "bypassing"; "client"; "using"; "for";
         "appending"; "union"; "intersect"; "except";
         "package"; "up"]%string.

Definition insert_phrase : str := L " UP TO 1 ROWS".

(** The word at [scan] is [select], with a boundary on its right. *)
Definition is_select_at (code : str) (scan : nat) : res bool :=
  if str_eqb (lower (slice code scan (scan + 6))) (L "select")
     && (scan + 6 <=? length code)
  then if scan + 6 =? length code then Ok true
       else c <- get code (scan + 6) ;; Ok (negb (is_word_char c))
  else Ok false.

(** The [while True] loop that skips whitespace and comments after
    [select]. *)
Fixpoint after_loop (fuel : nat) (code : str) (after : nat) : res nat :=
  match fuel with
  | 0 => Raise OutOfFuel
  | S fuel' =>
      let n := length code in
      let after1 := skip_while is_ws4 code after in
      let eol1 := match find_chr nl code after1 with
                  | None => n - 1
                  | Some eol => eol
                  end in
      if peek_is code after1 dq then after_loop fuel' code (eol1 + 1)
      else
        bol <- (if peek_is code after1 star then at_bol code after1 else Ok false) ;;
        if bol then after_loop fuel' code (eol1 + 1)
        else Ok after1
  end.

Definition is_single_at (code : str) (after : nat) : res bool :=
  if (after <? length code)
     && str_eqb (lower (slice code after (after + 6))) (L "single")
  then if after + 6 =? length code then Ok true
       else c <- get code (after + 6) ;; Ok (negb (is_word_char c))
  else Ok false.

(** The test for [SELECT SINGLE] at [scan]. *)
Definition trigger (code : str) (scan : nat) : res bool :=
  sel <- is_select_at code scan ;;
  if sel then
    after <- after_loop (S (length code)) code (scan + 6) ;;
    is_single_at code after
  else Ok false.

(** The rewritten statement without its period (steps 1 to 4); the
    insertion point is searched in the cleaned statement. *)
Definition new_stmt_of (stmt : str) : res str :=
  let stmt_wo_single := remove_single stmt in
  let cleaned := remove_any_up_to_rows stmt_wo_single in
  where_idx <- find_kw cleaned (L "where") 0 ;;
  into_idx <- match where_idx with
              | Some _ => Ok None
              | None => find_kw cleaned (L "into") 0
              end ;;
  new_stmt <-
    match where_idx, into_idx with
    | Some w, _ =>
        Ok (rstrip (upto cleaned w) ++ insert_phrase ++ [sp] ++ lstrip (from_ cleaned w))
    | None, Some into =>
        let search_start := skip_while isspace cleaned (into + 4) in
        next <- find_next_any_kw cleaned terminators search_start ;;
        match next with
        | None => Ok (rstrip cleaned ++ insert_phrase)
        | Some (next_idx, _) =>
            Ok (rstrip (upto cleaned next_idx) ++ insert_phrase ++ [sp]
                ++ lstrip (from_ cleaned next_idx))
        end
    | None, None => Ok (rstrip cleaned ++ insert_phrase)
    end ;;
  Ok (strip (normalize_spaces new_stmt)).

(** The text that replaces the statement [code[sel_start:period_pos+1]]. *)
Definition replacement_of (today code : str) (sel_start period_pos : nat) : res str :=
  let stmt := slice code sel_start period_pos in
  indent <- get_line_indent_before code sel_start ;;
  new_stmt <- new_stmt_of stmt ;;
  has_end <- has_endselect_after code period_pos ;;
  let add_endselect := negb has_end in
  let replacement :=
    [indent ++ pwc_tag_line today; new_stmt ++ [dot]]
    ++ (if add_endselect then [[nl] ++ indent ++ L "ENDSELECT."] else []) in
  trailing <-
    (if add_endselect then Ok []
     else k <- skip_ws_and_comments code (period_pos + 1) ;;
          Ok (slice code (period_pos + 1) k)) ;;
  Ok (concat replacement ++ trailing).

(** The main loop.  select.py leaves its inner scan early when a comment
    runs to the end of the text, appending [code[i:]] and returning the
    joined parts: the same result as the exit through "not found". *)
Fixpoint main_loop (fuel : nat) (today code : str) (i : nat) (out_parts : list str)
  : res str :=
  match fuel with
  | 0 => Raise OutOfFuel
  | S fuel' =>
      if length code <=? i then Ok (concat out_parts)
      else
        found <- scan_next trigger code i ;;
        match found with
        | None => Ok (concat (out_parts ++ [from_ code i]))
        | Some sel_start =>
            let out_parts1 := out_parts ++ [slice code i sel_start] in
            period <- find_statement_period code sel_start ;;
            match period with
            | None => Ok (concat (out_parts1 ++ [from_ code sel_start]))
            | Some period_pos =>
                rep <- replacement_of today code sel_start period_pos ;;
                main_loop fuel' today code (period_pos + 1) (out_parts1 ++ [rep])
            end
        end
  end.

Definition process_select (today code : str) : res str :=
  main_loop (S (length code)) today code 0 [].

End Select.

(** ** Field-list tokenizer shared by sort.py and orderby.py

    Both [split_fields] functions start with the same loop that cuts the
    select list at the commas of depth 0; orderby.py additionally turns
    a run of whitespace at depth 0 into one space. *)

Section Tokenize.

Variable collapse_ws : bool.

Fixpoint tokenize_loop (fuel : nat) (s : str) (i : nat) (q : quote)
  (depth : nat) (buf : str) (items : list str) : res (list str * str) :=
  match fuel with
  | 0 => Raise OutOfFuel
  | S fuel' =>
      if length s <=? i then Ok (items, buf)
      else
        c <- get s i ;;
        match q with
        | Code =>
            match open_quote c with
            | Some q' => tokenize_loop fuel' s (i + 1) q' depth (buf ++ [c]) items
            | None =>
                if is_chr lpar c
                then tokenize_loop fuel' s (i + 1) Code (depth + 1) (buf ++ [c]) items
                else if is_chr rpar c
                then tokenize_loop fuel' s (i + 1) Code (Nat.max 0 (depth - 1)) (buf ++ [c]) items
                else if (depth =? 0) && is_chr comma c
                then
                  let item := strip buf in
                  tokenize_loop fuel' s (i + 1) Code depth []
                    (if is_empty item then items else items ++ [item])
                else if collapse_ws && (depth =? 0) && isspace c
                then
                  tokenize_loop fuel' s (i + 1) Code depth
                    (if negb (is_empty buf) && negb (ends_with [sp] buf)
                     then buf ++ [sp] else buf) items
                else tokenize_loop fuel' s (i + 1) Code depth (buf ++ [c]) items
            end
        | _ =>
            if is_chr (delim q) c
            then
              if peek_is s (i + 1) (delim q)
              then
                c1 <- get s (i + 1) ;;
                tokenize_loop fuel' s (i + 2) q depth (buf ++ [c; c1]) items
              else tokenize_loop fuel' s (i + 1) Code depth (buf ++ [c]) items
            else tokenize_loop fuel' s (i + 1) q depth (buf ++ [c]) items
        end
  end.

(** The loop and the flush of the last item. *)
Definition tokenize (s : str) : res (list str) :=
  r <- tokenize_loop (S (length s)) s 0 Code 0 [] [] ;;
  let '(items, buf) := r in
  let last := strip buf in
  Ok (if is_empty last then items else items ++ [last]).

End Tokenize.

(** Keep the first occurrence of each name, compared in lower case. *)
Fixpoint dedupe_loop (fs : list str) (seen : list str) (acc : list str) : list str :=
  match fs with
  | [] => acc
  | f :: fs' =>
      let key := lower f in
      if mem_str key seen then dedupe_loop fs' seen acc
      else dedupe_loop fs' (key :: seen) (acc ++ [f])
  end.

Definition dedupe (fs : list str) : list str := dedupe_loop fs [] [].

(** [(?i)\bas\b]. *)
Definition as_re : re := seqs [WordB; ilit "as"; WordB].

(** [(?i)\bfor\s+all\s+entries\b]. *)
Definition fae_re : re :=
  seqs [WordB; ilit "for"; ws1; ilit "all"; ws1; ilit "entries"; WordB].

(** [not fields or fields == ['*'] or any(f.strip() == '*' for f in fields)]. *)
Definition no_usable_fields (fields : list str) : bool :=
  match fields with
  | [] => true
  | _ => existsb (fun f => str_eqb (strip f) [star]) fields
  end.

(** The line that starts at [start], cut at an inline comment, stripped. *)
Definition code_of_line (s : str) (start : nat) : str :=
  let line := match find_chr nl s start with
              | None => from_ s start
              | Some line_end => slice s start line_end
              end in
  let line1 := match find_chr dq line 0 with
               | None => line
               | Some q => upto line q
               end in
  strip line1.

(** [extract_select_list] of sort.py and orderby.py. *)
Definition extract_select_list (stmt : str) : res str :=
  sel_idx <- find_kw stmt (L "select") 0 ;;
  match sel_idx with
  | None => Ok []
  | Some sel =>
      let i := skip_while isspace stmt (sel + 6) in
      from_idx <- find_kw stmt (L "from") i ;;
      match from_idx with
      | None => Ok []
      | Some f => Ok (strip (slice stmt i f))
      end
  end.

(** ** Pass 2: sort.py *)

Module Sort.

Fixpoint next_executable_line_start_loop (fuel : nat) (s : str) (i : nat) : res nat :=
  match fuel with
  | 0 => Raise OutOfFuel
  | S fuel' =>
      let n := length s in
      if n <=? i then Ok n
      else
        bol <- at_bol s i ;;
        if bol then
          let j := skip_while is_blank s i in
          if n <=? j then Ok n
          else
            c <- get s j ;;
            if is_chr nl c then next_executable_line_start_loop fuel' s (j + 1)
            else if is_chr star c
            then next_executable_line_start_loop fuel' s (skip_full_line_star_comment s j + 1)
            else if is_chr dq c
            then next_executable_line_start_loop fuel' s (skip_line_comment s j + 1)
            else Ok j
        else next_executable_line_start_loop fuel' s (i + 1)
  end.

Definition next_executable_line_start (s : str) (start : nat) : res nat :=
  next_executable_line_start_loop (S (length s)) s start.

(** The pattern of [target_tbl_re]; group 1 is [t1], group 2 is [t2]. *)
Definition target_tbl_re : re :=
  seqs [WordB; Alt (ilit "into") (ilit "appending"); ws1;
        Opt (seqs [ilit "corresponding"; ws1; ilit "fields"; ws1; ilit "of"; ws1]);
        Opt (seqs [ilit "table"; ws1]);
        Alt (seqs [ilit "@data"; ws0; Chr (is_chr lpar); ws0; Grp 1 ident; ws0;
                   Chr (is_chr rpar)])
            (seqs [Opt (Chr (is_chr at_sign)); Grp 2 ident])].

(** [None] stands for both [None] and the empty string, which the
    caller tests together with [not target]. *)
Definition extract_target_table (stmt : str) : option str :=
  match re_search target_tbl_re stmt with
  | None => None
  | Some m =>
      let t := match group stmt m 1 with
               | Some t1 => if is_empty t1 then group stmt m 2 else Some t1
               | None => group stmt m 2
               end in
      match t with
      | Some x => if is_empty x then None else Some x
      | None => None
      end
  end.

(** The regrouping of whitespace-separated tokens when the list has
    no comma. *)
Fixpoint regroup_loop (fuel : nat) (tokens : list str) (k : nat) (items : list str)
  : res (list str) :=
  match fuel with
  | 0 => Raise OutOfFuel
  | S fuel' =>
      if length tokens <=? k then Ok items
      else
        tk <- get tokens k ;;
        if str_eqb (lower tk) (L "as") && (k + 1 <? length tokens)
        then
          nxt <- get tokens (k + 1) ;;
          if negb (match items with [] => true | _ => false end)
          then
            prv <- get tokens (k - 1) ;;
            regroup_loop fuel' tokens (k + 2) (items ++ [prv ++ L " AS " ++ nxt])
          else regroup_loop fuel' tokens (k + 2) (items ++ [L "AS " ++ nxt])
        else regroup_loop fuel' tokens (k + 1) (items ++ [tk])
  end.

(** [^[@]+] and [^[A-Za-z_]\w*$]. *)
Definition host_marker_re : re := seqs [Bol; Rep 1 (is_chr at_sign)].
Definition identifier_re : re := seqs [Bol; ident; Eol].

(** The alias of an item, when [AS] is followed by a usable word. *)
Definition alias_of (t : str) : res (option str) :=
  match re_search as_re t with
  | None => Ok None
  | Some m_as =>
      let alias := strip (from_ t (m_end m_as)) in
      if is_empty alias then Ok None
      else
        a0 <- get (split_ws alias) 0 ;;
        let alias1 := strip (rstrip_chr comma a0) in
        Ok (if is_empty alias1 then None else Some alias1)
  end.

(** One iteration of the loop "Normalize each item to a usable
    component name": the name appended to [out_fields], if any. *)
Definition normalize_item (it : str) : res (option str) :=
  let t := strip it in
  if is_empty t then Ok None
  else
    let t1 :=
      if starts_with [lpar] t && ends_with [rpar] t
      then (let inner := strip (slice t 1 (length t - 1)) in
            if is_empty inner then t else inner)
      else t in
    alias <- alias_of t1 ;;
    match alias with
    | Some a => Ok (Some a)
    | None =>
        t2 <- (if contains_chr tilde t1
               then (let parts := split_on tilde t1 in
                     p <- get parts (length parts - 1) ;; Ok (strip p))
               else Ok t1) ;;
        let t3 := if ends_with [comma] t2 then strip (upto t2 (length t2 - 1)) else t2 in
        if contains_chr lpar t3 || contains_chr rpar t3 then Ok None
        else if str_eqb (lower t3) (L "distinct") then Ok None
        else
          let t4 := re_sub host_marker_re (fun _ => []) t3 in
          match re_match identifier_re t4 with
          | Some _ => Ok (Some t4)
          | None => Ok None
          end
    end.

Fixpoint normalize_items (items : list str) : res (list str) :=
  match items with
  | [] => Ok []
  | it :: rest =>
      f <- normalize_item it ;;
      fs <- normalize_items rest ;;
      Ok (match f with Some x => x :: fs | None => fs end)
  end.

Definition split_fields (field_segment : str) : res (list str) :=
  let s := strip field_segment in
  if is_empty s then Ok []
  else
    let s1 := if starts_with (L "distinct") (lower s) then lstrip (from_ s 8) else s in
    if str_eqb s1 [star] || starts_with [lpar] s1 then Ok [[star]]
    else
      items0 <- tokenize false s1 ;;
      items <- (if negb (contains_chr comma field_segment)
                then (let tokens := split_ws s1 in
                      regroup_loop (S (length tokens)) tokens 0 [])
                else Ok items0) ;;
      out_fields <- normalize_items items ;;
      Ok (dedupe out_fields).

Definition has_for_all_entries (stmt : str) : bool :=
  match re_search fae_re stmt with Some _ => true | None => false end.

(** The pattern [^sort\s+(IDENT)\b] with flags [(?is)], where [IDENT] is an identifier. *)
Definition sort_line_re : re := seqs [Bol; ilit "sort"; ws1; Grp 1 ident; WordB].

Definition is_sort_immediately_next_for_target (s : str) (period_pos : nat)
  (target : str) : res bool :=
  start <- next_executable_line_start s (period_pos + 1) ;;
  if length s <=? start then Ok false
  else
    let line := code_of_line s start in
    match re_match sort_line_re line with
    | None => Ok false
    | Some m =>
        match group line m 1 with
        | Some g1 => Ok (str_eqb (lower g1) (lower target))
        | None => Ok false
        end
    end.

(** The test made at [scan] by the main loop. *)
Definition trigger (code : str) (scan : nat) : res bool :=
  if str_eqb (lower (slice code scan (scan + 6))) (L "select")
  then
    right_ok <- (if scan + 6 =? length code then Ok true
                 else c <- get code (scan + 6) ;; Ok (negb (is_word_char c))) ;;
    if right_ok then at_statement_lead code scan else Ok false
  else Ok false.

(** The text inserted after the period of a qualifying statement, or
    [None] when the statement is left alone. *)
Definition insertion_of (today code : str) (sel_pos period_pos : nat)
  : res (option str) :=
  let stmt := slice code sel_pos period_pos in
  if negb (has_for_all_entries stmt) then Ok None
  else
    match extract_target_table stmt with
    | None => Ok None
    | Some target =>
        sorted <- is_sort_immediately_next_for_target code period_pos target ;;
        if sorted then Ok None
        else
          select_list <- extract_select_list stmt ;;
          fields <- split_fields select_list ;;
          indent <- get_line_indent_before code sel_pos ;;
          let sort_stmt :=
            if no_usable_fields fields
            then indent ++ L "SORT " ++ target ++ [dot]
            else indent ++ L "SORT " ++ target ++ L " BY " ++ join [sp] fields ++ [dot] in
          Ok (Some ([nl] ++ sort_stmt ++ [nl] ++ indent ++ pwc_tag_line today))
    end.

Fixpoint main_loop (fuel : nat) (today code : str) (i : nat) (out_parts : list str)
  : res str :=
  match fuel with
  | 0 => Raise OutOfFuel
  | S fuel' =>
      if length code <=? i then Ok (concat out_parts)
      else
        found <- scan_next trigger code i ;;
        match found with
        | None => Ok (concat (out_parts ++ [from_ code i]))
        | Some sel_pos =>
            let out_parts1 := out_parts ++ [slice code i sel_pos] in
            period <- find_statement_period code sel_pos ;;
            match period with
            | None => Ok (concat (out_parts1 ++ [from_ code sel_pos]))
            | Some period_pos =>
                ins <- insertion_of today code sel_pos period_pos ;;
                let original := slice code sel_pos (period_pos + 1) in
                main_loop fuel' today code (period_pos + 1)
                  (out_parts1 ++ [match ins with
                                  | None => original
                                  | Some insertion => original ++ insertion
                                  end])
            end
        end
  end.

Definition process_sort (today code : str) : res str :=
  main_loop (S (length code)) today code 0 [].

End Sort.

(** ** Pass 3: orderby.py *)

Module Orderby.

(** [find_phrase]: in [Code] state the compiled pattern is searched
    from the current index and the start of the match is returned. *)
Fixpoint find_phrase_loop (fuel : nat) (s : str) (phrase_re : re) (i : nat) (q : quote)
  : res (option nat) :=
  match fuel with
  | 0 => Raise OutOfFuel
  | S fuel' =>
      if length s <=? i then Ok None
      else
        c <- get s i ;;
        match q with
        | Code =>
            if is_chr dq c
            then find_phrase_loop fuel' s phrase_re (skip_line_comment s i + 1) Code
            else
              bol <- star_at_bol s i c ;;
              if bol
              then find_phrase_loop fuel' s phrase_re
                     (skip_full_line_star_comment s i + 1) Code
              else match open_quote c with
                   | Some q' => find_phrase_loop fuel' s phrase_re (i + 1) q'
                   | None =>
                       match search_pos phrase_re s i with
                       | None => Ok None
                       | Some m => Ok (Some (m_start m))
                       end
                   end
        | _ =>
            let '(i', q') := quoted_step s i q c in
            find_phrase_loop fuel' s phrase_re i' q'
        end
  end.

Definition find_phrase (s : str) (phrase_re : re) (start : nat) : res (option nat) :=
  find_phrase_loop (S (length s)) s phrase_re start Code.

(** [[ \t]+] becomes one space unless the run holds a newline. *)
Definition normalize_spaces_preserve_newlines (text : str) : str :=
  re_sub (Rep 1 is_blank) (fun m => if contains_chr nl m then m else [sp]) text.

(** The merge of the space-separated tokens of one item. *)
Fixpoint merge_loop (fuel : nat) (toks : list str) (k : nat) (curr : list str)
  (final_items : list str) : res (list str * list str) :=
  match fuel with
  | 0 => Raise OutOfFuel
  | S fuel' =>
      if length toks <=? k then Ok (curr, final_items)
      else
        tok <- get toks k ;;
        if str_eqb (lower tok) (L "as") && negb (match curr with [] => true | _ => false end)
        then
          if k + 1 <? length toks
          then
            alias <- get toks (k + 1) ;;
            merge_loop fuel' toks (k + 2) [] (final_items ++ [alias])
          else merge_loop fuel' toks (k + 1) curr final_items
        else if str_eqb (lower tok) (L "distinct")
        then merge_loop fuel' toks (k + 1) curr final_items
        else
          let curr1 := curr ++ [tok] in
          if (1 <=? length curr1) && (k + 1 <? length toks)
          then
            nxt <- get toks (k + 1) ;;
            merge_loop fuel' toks (k + 1) [] (final_items ++ [join [sp] curr1])
          else merge_loop fuel' toks (k + 1) curr1 final_items
  end.

Fixpoint merge_items (items : list str) (final_items : list str) : res (list str) :=
  match items with
  | [] => Ok final_items
  | it :: rest =>
      let toks := filter (fun t => negb (is_empty t)) (split_on sp (strip it)) in
      match toks with
      | [] => merge_items rest final_items
      | _ =>
          r <- merge_loop (S (length toks)) toks 0 [] final_items ;;
          let '(curr, final1) := r in
          merge_items rest
            (match curr with [] => final1 | _ => final1 ++ [join [sp] curr] end)
      end
  end.

(** The text taken when an item holds the word [AS]: the first word
    after it, or the text before it when nothing follows. *)
Definition alias_or_head (it : str) (m : rmatch) : res str :=
  let alias := strip (from_ it (m_end m)) in
  alias1 <- (if is_empty alias then Ok [] else get (split_ws alias) 0) ;;
  Ok (if is_empty alias1 then strip (upto it (m_start m)) else alias1).

(** The items of a comma-separated list. *)
Fixpoint comma_items (items : list str) : res (list str) :=
  match items with
  | [] => Ok []
  | it :: rest =>
      x <- match re_search as_re it with
           | Some m => alias_or_head it m
           | None => Ok (strip it)
           end ;;
      xs <- comma_items rest ;;
      Ok (x :: xs)
  end.

Fixpoint clean_up (final_items : list str) : list str :=
  match final_items with
  | [] => []
  | x :: rest =>
      let x1 := strip x in
      if is_empty x1 then clean_up rest
      else if str_eqb (lower x1) (L "distinct") then clean_up rest
      else x1 :: clean_up rest
  end.

Definition split_fields (field_segment : str) : res (list str) :=
  let s := strip field_segment in
  if is_empty s then Ok []
  else if str_eqb s [star] || starts_with [lpar] (lower s) then Ok [[star]]
  else
    items <- tokenize true s ;;
    final0 <- merge_items items [] ;;
    final_items <- (if contains_chr comma field_segment
                    then comma_items items
                    else Ok final0) ;;
    Ok (clean_up final_items).

Definition WHERE_TERMINATORS : list str :=
  map L ["group"; "having"; "order"; "into"; "appending"; "up"; "for"; "bypassing";
         "union"; "intersect"; "except"; "client"; "using"; "package"]%string.

Definition find_next_any_kw := find_next_any_kw_with find_kw.

(** [(?i)\border\s+by\b]; [fae_re] is the shared pattern. *)
Definition order_by_re : re := seqs [WordB; ilit "order"; ws1; ilit "by"; WordB].

Definition has_for_all_entries (stmt : str) : res bool :=
  r <- find_phrase stmt fae_re 0 ;;
  Ok (match r with Some _ => true | None => false end).

Definition has_order_by (stmt : str) : res bool :=
  r <- find_phrase stmt order_by_re 0 ;;
  Ok (match r with Some _ => true | None => false end).

(** The pattern [^IDENT(~IDENT)?$] for a bare, possibly qualified,
    identifier. *)
Definition bare_ident_re : re :=
  seqs [Bol; ident; Opt (Grp 1 (seqs [Chr (is_chr tilde); ident])); Eol].

(** One iteration of the loop "Clean items": the text appended to
    [cleaned], if any. *)
Definition clean_field (f : str) : res (option str) :=
  let t := strip f in
  if is_empty t then Ok None
  else
    let t1 := if ends_with [comma] t then strip (upto t (length t - 1)) else t in
    t2 <- match re_search as_re t1 with
          | Some m => alias_or_head t1 m
          | None => Ok t1
          end ;;
    let t3 :=
      if starts_with [lpar] t2 && ends_with [rpar] t2
      then (let inner := strip (slice t2 1 (length t2 - 1)) in
            match re_match bare_ident_re inner with
            | Some _ => inner
            | None => t2
            end)
      else t2 in
    Ok (Some t3).

Fixpoint clean_fields (fields : list str) : res (list str) :=
  match fields with
  | [] => Ok []
  | f :: rest =>
      t <- clean_field f ;;
      ts <- clean_fields rest ;;
      Ok (match t with Some x => x :: ts | None => ts end)
  end.

Definition orderby_clause_of (fields : list str) : res str :=
  if no_usable_fields fields then Ok (L " ORDER BY PRIMARY KEY")
  else
    cleaned <- clean_fields fields ;;
    let ordered := dedupe cleaned in
    Ok (L " ORDER BY "
        ++ join (L ", ") (match ordered with [] => [L "PRIMARY KEY"] | _ => ordered end)).

(** The offset in [stmt] at which the clause is inserted. *)
Definition insert_pos_of (stmt : str) : res nat :=
  where_idx <- find_kw stmt (L "where") 0 ;;
  match where_idx with
  | Some w =>
      e <- find_next_any_kw stmt WHERE_TERMINATORS (w + 5) ;;
      Ok (match e with Some (end_idx, _) => end_idx | None => length stmt end)
  | None => Ok (length stmt)
  end.

(** The same test as in sort.py. *)
Definition trigger (code : str) (scan : nat) : res bool :=
  if str_eqb (lower (slice code scan (scan + 6))) (L "select")
  then
    right_ok <- (if scan + 6 =? length code then Ok true
                 else c <- get code (scan + 6) ;; Ok (negb (is_word_char c))) ;;
    if right_ok then at_statement_lead code scan else Ok false
  else Ok false.

(** The text that replaces [code[sel_pos:period+1]]. *)
Definition replacement_of (today code : str) (sel_pos period : nat) : res str :=
  let stmt := slice code sel_pos period in
  fae <- has_for_all_entries stmt ;;
  skip <- (if fae then Ok true else has_order_by stmt) ;;
  if skip then Ok (slice code sel_pos (period + 1))
  else
    indent <- get_line_indent_before code sel_pos ;;
    select_list <- extract_select_list stmt ;;
    fields <- split_fields select_list ;;
    orderby_clause <- orderby_clause_of fields ;;
    insert_pos_in_stmt <- insert_pos_of stmt ;;
    let left := rstrip (upto stmt insert_pos_in_stmt) in
    let right := lstrip (from_ stmt insert_pos_in_stmt) in
    let new_stmt0 := left ++ orderby_clause in
    let new_stmt1 := if is_empty right then new_stmt0 else new_stmt0 ++ [sp] ++ right in
    let new_stmt := strip (normalize_spaces_preserve_newlines new_stmt1) in
    Ok (indent ++ pwc_tag_line today ++ new_stmt ++ [dot]).

Fixpoint main_loop (fuel : nat) (today code : str) (i : nat) (out : list str)
  : res str :=
  match fuel with
  | 0 => Raise OutOfFuel
  | S fuel' =>
      if length code <=? i then Ok (concat out)
      else
        found <- scan_next trigger code i ;;
        match found with
        | None => Ok (concat (out ++ [from_ code i]))
        | Some sel_pos =>
            let out1 := out ++ [slice code i sel_pos] in
            period <- find_statement_period code sel_pos ;;
            match period with
            | None => Ok (concat (out1 ++ [from_ code sel_pos]))
            | Some period_pos =>
                rep <- replacement_of today code sel_pos period_pos ;;
                main_loop fuel' today code (period_pos + 1) (out1 ++ [rep])
            end
        end
  end.

Definition process_orderby (today code : str) : res str :=
  main_loop (S (length code)) today code 0 [].

End Orderby.

(** ** Pass 4: read_statement.py *)

Module Read.

Fixpoint prev_executable_line_start_loop (fuel : nat) (s : str) (i : nat)
  : res (option nat) :=
  match fuel with
  | 0 => Raise OutOfFuel
  | S fuel' =>
      if i <=? 0 then Ok None
      else
        let ls := line_start_of s i in
        k <- skip_blanks_upto s ls i ;;
        let up := if 0 <? ls then ls - 1 else 0 in
        if (i <=? k) || peek (fun c => is_chr nl c || is_chr cr c) s k
        then prev_executable_line_start_loop fuel' s up
        else
          c <- get s k ;;
          if is_chr star c then prev_executable_line_start_loop fuel' s up
          else if is_chr dq c then prev_executable_line_start_loop fuel' s up
          else Ok (Some k)
  end.

Definition prev_executable_line_start (s : str) (pos : nat) : res (option nat) :=
  prev_executable_line_start_loop (S (length s)) s pos.

(** [read\s+table\s+(<IDENT>|IDENT)\b] between word boundaries, flags
    [(?is)]; group 1 is [itab]. *)
Definition itab_re : re :=
  seqs [WordB; ilit "read"; ws1; ilit "table"; ws1;
        Grp 1 (Alt (seqs [Chr (is_chr lt_sign); ident; Chr (is_chr gt_sign)]) ident);
        WordB].

Definition index_re : re := seqs [WordB; ilit "index"; WordB].

Definition with_table_key_re : re :=
  seqs [WordB; ilit "with"; ws1; ilit "table"; ws1; ilit "key"; WordB].
Definition with_key_re : re := seqs [WordB; ilit "with"; ws1; ilit "key"; WordB].
Definition table_key_re : re := seqs [WordB; ilit "table"; ws1; ilit "key"; WordB].
Definition key_re : re := seqs [WordB; ilit "key"; WordB].

(** The alternation used by [read_has_key]. *)
Definition any_key_re : re :=
  seqs [WordB;
        Alt (seqs [ilit "with"; ws1; ilit "table"; ws1; ilit "key"])
          (Alt (seqs [ilit "with"; ws1; ilit "key"])
             (Alt (seqs [ilit "table"; ws1; ilit "key"]) (ilit "key")));
        WordB].

Definition components_re : re := seqs [WordB; ilit "components"; WordB].

(** An identifier followed by optional whitespace and an equals sign;
    group 1 is the identifier. *)
Definition assign_re : re := seqs [WordB; Grp 1 ident; ws0; Chr (is_chr eq_sign)].

Definition found (m : option rmatch) : bool :=
  match m with Some _ => true | None => false end.

Definition read_has_index (stmt : str) : bool := found (re_search index_re stmt).

Definition read_has_key (stmt : str) : bool := found (re_search any_key_re stmt).

Definition extract_itab (stmt : str) : option str :=
  match re_search itab_re stmt with
  | Some m => group stmt m 1
  | None => None
  end.

(** [a or b] on two optional matches. *)
Definition or_else (a b : option rmatch) : option rmatch :=
  match a with Some _ => a | None => b end.

Definition is_key_word (fl : str) : bool :=
  mem_str fl (map L ["with"; "table"; "key"; "components"]%string).

Fixpoint key_fields_loop (candidates : list str) (seen : list str) (fields : list str)
  : list str :=
  match candidates with
  | [] => fields
  | f :: rest =>
      let fl := lower f in
      if is_key_word fl then key_fields_loop rest seen fields
      else if mem_str fl seen then key_fields_loop rest seen fields
      else key_fields_loop rest (fl :: seen) (fields ++ [f])
  end.

Definition extract_key_fields (stmt : str) : list str :=
  let search_from := match re_search itab_re stmt with
                     | Some m_itab => m_end m_itab
                     | None => 0
                     end in
  let tail := from_ stmt search_from in
  let m_key :=
    or_else (re_search with_table_key_re tail)
      (or_else (re_search with_key_re tail)
         (or_else (re_search table_key_re tail) (re_search key_re tail))) in
  match m_key with
  | None => []
  | Some mk =>
      let key_start0 := search_from + m_end mk in
      let key_start :=
        match re_search components_re (from_ stmt key_start0) with
        | Some m_comp => key_start0 + m_end m_comp
        | None => key_start0
        end in
      let key_section := from_ stmt key_start in
      let candidates := re_findall assign_re key_section in
      key_fields_loop candidates [] []
  end.

(** [^sort\s+(<\w+>|IDENT)\b] with flags [(?is)]. *)
Definition sort_line_re : re :=
  seqs [Bol; ilit "sort"; ws1;
        Grp 1 (Alt (seqs [Chr (is_chr lt_sign); Rep 1 is_word_char; Chr (is_chr gt_sign)])
                 ident);
        WordB].

Definition is_sort_immediately_before (s : str) (read_pos : nat) (itab : str)
  : res bool :=
  prev_start <- prev_executable_line_start s read_pos ;;
  match prev_start with
  | None => Ok false
  | Some p =>
      let line := code_of_line s p in
      match re_match sort_line_re line with
      | None => Ok false
      | Some m =>
          match group line m 1 with
          | Some g1 => Ok (str_eqb (lower g1) (lower itab))
          | None => Ok false
          end
      end
  end.

(** The test for [READ TABLE] at [scan]. *)
Definition trigger (code : str) (scan : nat) : res bool :=
  rd <- match_kw_at code scan (L "read") ;;
  if rd then
    let j := skip_while is_ws4 code (scan + 4) in
    match_kw_at code j (L "table")
  else Ok false.

(** The text inserted before the statement, or [None] when the
    statement is left alone. *)
Definition insertion_of (today code : str) (read_pos period_pos : nat)
  : res (option str) :=
  let read_stmt := slice code read_pos period_pos in
  match extract_itab read_stmt with
  | None => Ok None
  | Some itab =>
      if is_empty itab then Ok None
      else
        let has_index := read_has_index read_stmt in
        let has_key := read_has_key read_stmt in
        if negb (has_index || has_key) then Ok None
        else
          sorted <- is_sort_immediately_before code read_pos itab ;;
          if sorted then Ok None
          else
            indent <- get_line_indent_before code read_pos ;;
            let sort_stmt :=
              if has_index then indent ++ L "SORT " ++ itab ++ [dot]
              else
                let fields := extract_key_fields read_stmt in
                match fields with
                | [] => indent ++ L "SORT " ++ itab ++ [dot]
                | _ =>
                    let fields_unique := dedupe fields in
                    indent ++ L "SORT " ++ itab ++ L " BY "
                    ++ join [sp] fields_unique ++ [dot]
                end in
            Ok (Some (sort_stmt ++ [nl] ++ indent ++ pwc_tag_line today))
  end.

Fixpoint main_loop (fuel : nat) (today code : str) (i : nat) (out_parts : list str)
  : res str :=
  match fuel with
  | 0 => Raise OutOfFuel
  | S fuel' =>
      if length code <=? i then Ok (concat out_parts)
      else
        found <- scan_next trigger code i ;;
        match found with
        | None => Ok (concat (out_parts ++ [from_ code i]))
        | Some read_pos =>
            let out_parts1 := out_parts ++ [slice code i read_pos] in
            period <- find_statement_period code read_pos ;;
            match period with
            | None => Ok (concat (out_parts1 ++ [from_ code read_pos]))
            | Some period_pos =>
                ins <- insertion_of today code read_pos period_pos ;;
                let original := slice code read_pos (period_pos + 1) in
                main_loop fuel' today code (period_pos + 1)
                  (match ins with
                   | None => out_parts1 ++ [original]
                   | Some insertion => out_parts1 ++ [insertion] ++ [original]
                   end)
            end
        end
  end.

Definition process_read (today code : str) : res str :=
  main_loop (S (length code)) today code 0 [].

End Read.

(** ** The pipeline of app.py *)

Definition remediate (today code : str) : res str :=
  c1 <- Select.process_select today code ;;
  c2 <- Sort.process_sort today c1 ;;
  c3 <- Orderby.process_orderby today c2 ;;
  Read.process_read today c3.

(** ** Vocabulary of the properties *)

(** [returns m]: the computation ends with a value: it neither raises
    [IndexError] nor runs out of fuel. *)
Definition returns {A : Type} (m : res A) : Prop := exists a, m = Ok a.

(** [in_range_result s i m]: the search [m] returns, and an index it
    returns lies between the cursor [i] and the end of the text. *)
Definition in_range_result (s : str) (i : nat) (m : res (option nat)) : Prop :=
  exists r, m = Ok r /\ forall p, r = Some p -> i <= p < length s.

(** [pat in s]. *)
Fixpoint is_infix (pat s : str) : bool :=
  starts_with pat s
  || match s with
     | [] => false
     | _ :: s' => is_infix pat s'
     end.

(** The lines of a text, and the test that one list of lines is a
    subsequence of another: a text obtained from [a] by adding whole
    lines has the lines of [a] as a subsequence of its own. *)
Definition lines (s : str) : list str := split_on nl s.

Fixpoint is_subseq (xs ys : list str) : bool :=
  match xs, ys with
  | [], _ => true
  | _ :: _, [] => false
  | x :: xs', y :: ys' =>
      if str_eqb x y then is_subseq xs' ys' else is_subseq xs ys'
  end.

(** [inserted frag s t]: [t] is [s] with zero or more fragments, each
    satisfying [frag], put between its characters; the characters of
    [s] are all in [t], unchanged and in order. *)
Inductive inserted (frag : str -> Prop) : str -> str -> Prop :=
| ins_done : inserted frag [] []
| ins_keep : forall c s t, inserted frag s t -> inserted frag (c :: s) (c :: t)
| ins_add : forall f s t, frag f -> inserted frag s t -> inserted frag s (f ++ t).

Definition blanks (indent : str) : Prop := Forall (fun c => is_blank c = true) indent.

(** What sort.py inserts: a newline, then a [SORT] statement and the tag
    line, both behind the same indentation. *)
Definition sort_fragment (today f : str) : Prop :=
  exists indent body,
    blanks indent
    /\ f = [nl] ++ (indent ++ L "SORT " ++ body ++ [dot]) ++ [nl]
           ++ indent ++ pwc_tag_line today.

(** What read_statement.py inserts: a [SORT] statement and the tag line,
    both behind the same indentation. *)
Definition read_fragment (today f : str) : Prop :=
  exists indent body,
    blanks indent
    /\ f = (indent ++ L "SORT " ++ body ++ [dot]) ++ [nl]
           ++ indent ++ pwc_tag_line today.

(** The lexical states of section 4.1 of the spec. *)
Inductive lex_state : Type :=
| LCode | LLineComment | LFullLineComment
| LInSingleQuote | LInBacktick | LInPipeTemplate.

Definition lex_of (q : quote) : lex_state :=
  match q with
  | Code => LCode
  | InSq => LInSingleQuote
  | InBt => LInBacktick
  | InTpl => LInPipeTemplate
  end.

Definition region_delim (st : lex_state) : ascii :=
  match st with
  | LInBacktick => bt
  | LInPipeTemplate => bar
  | _ => sq
  end.

(** The state of every character of [s], read from state [st]; [bol]
    tells whether the first character stands in the first column.  A
    double quote in code starts a comment that lasts to the end of the
    line, a star in the first column as well; a delimiter opens a region
    that the same delimiter closes, a doubled delimiter being a literal
    one.  The delimiters belong to the region, the newline that ends a
    comment is code. *)
Fixpoint lex_states (st : lex_state) (bol : bool) (s : str) : list lex_state :=
  match s with
  | [] => []
  | c :: s' =>
      match st with
      | LCode =>
          if is_chr dq c then LLineComment :: lex_states LLineComment false s'
          else if is_chr star c && bol
          then LFullLineComment :: lex_states LFullLineComment false s'
          else match open_quote c with
               | Some q => lex_of q :: lex_states (lex_of q) false s'
               | None => LCode :: lex_states LCode (is_chr nl c) s'
               end
      | LLineComment | LFullLineComment =>
          if is_chr nl c then LCode :: lex_states LCode true s'
          else st :: lex_states st false s'
      | _ =>
          if is_chr (region_delim st) c
          then match s' with
               | c' :: s'' =>
                   if is_chr (region_delim st) c'
                   then st :: st :: lex_states st false s''
                   else st :: lex_states LCode false s'
               | [] => [st]
               end
          else st :: lex_states st false s'
      end
  end.

(** The character at index [i] stands in the first column. *)
Definition first_column (s : str) (i : nat) : bool :=
  match i with
  | 0 => true
  | S j => peek_is s j nl
  end.

(** The state of the character at index [pos] when the text is read in
    code state from index [start]. *)
Definition lex_state_at (s : str) (start pos : nat) : option lex_state :=
  nth_error (lex_states LCode (first_column s start) (skipn start s)) (pos - start).

(** The four passes, to state a property of each of them. *)
Inductive pass : Type := PSelect | PSort | POrderby | PRead.

Definition run (p : pass) : str -> str -> res str :=
  match p with
  | PSelect => Select.process_select
  | PSort => Sort.process_sort
  | POrderby => Orderby.process_orderby
  | PRead => Read.process_read
  end.

Definition trigger_of (p : pass) : str -> nat -> res bool :=
  match p with
  | PSelect => Select.trigger
  | PSort => Sort.trigger
  | POrderby => Orderby.trigger
  | PRead => Read.trigger
  end.

Definition period_of (p : pass) : str -> nat -> res (option nat) :=
  match p with
  | PSelect => Select.find_statement_period
  | _ => find_statement_period
  end.

Definition main_loop_of (p : pass) : nat -> str -> str -> nat -> list str -> res str :=
  match p with
  | PSelect => Select.main_loop
  | PSort => Sort.main_loop
  | POrderby => Orderby.main_loop
  | PRead => Read.main_loop
  end.

Definition period_loop_of (p : pass) : nat -> str -> nat -> quote -> res (option nat) :=
  match p with
  | PSelect => Select.find_statement_period_loop
  | _ => find_statement_period_loop
  end.

(** The offset, in the text that follows the opening of a string or
    template, of the delimiter that closes it: the first delimiter that
    is not half of a doubled one. *)
Fixpoint closing (d : ascii) (s : str) : option nat :=
  match s with
  | [] => None
  | c :: s' =>
      if is_chr d c
      then match s' with
           | c' :: s'' =>
               if is_chr d c' then option_map (fun k => k + 2) (closing d s'')
               else Some 0
           | [] => Some 0
           end
      else option_map S (closing d s')
  end.

(** The region [q], open at index [i], is not closed before the end of
    the text. *)
Definition never_closed (q : quote) (code : str) (i : nat) : bool :=
  match closing (delim q) (from_ code i) with
  | None => true
  | Some _ => false
  end.

(** A comment starts at index [i], at a double quote or at a star in the
    first column, and no newline follows it. *)
Definition open_comment_at (code : str) (i : nat) : Prop :=
  (peek_is code i dq = true
   \/ (peek_is code i star = true /\ at_bol code i = Ok true))
  /\ find_chr nl code i = None.

(** The inputs of the scenarios A to D and the sample date of the spec. *)
Definition sample_date : str := L "2024-06-01".

Definition scenario_A : str := L "SELECT SINGLE f1 FROM t WHERE k = 1.".

Definition scenario_B : str :=
  L "SELECT a, b FROM t FOR ALL ENTRIES IN itab WHERE k = itab-k INTO TABLE @DATA(result).".

Definition scenario_C : str := L "SELECT a FROM t WHERE k = 1.".

Definition scenario_D : str := L "READ TABLE itab WITH KEY f1 = 1 f2 = 2.".

(** A query whose only mention of the bulk marker is inside a literal. *)
Definition quoted_marker : str :=
  L "SELECT a FROM t INTO TABLE r WHERE x = 'for all entries'.".

(** A single-row lookup whose column list is a literal that spells a
    clause keyword. *)
Definition quoted_where : str := L "SELECT SINGLE 'where' FROM t INTO x.".

(** A table read whose only mention of a key is inside a comment. *)
Definition commented_key : str :=
  L "READ TABLE itab " ++ [dq] ++ L " with key" ++ [nl] ++ L "INTO wa.".

(** A table read that does not start its line. *)
Definition read_in_line : str := L "IF a = b. READ TABLE itab INDEX 1. ENDIF.".

(** An indented table read. *)
Definition indented_read : str := L "  READ TABLE itab INDEX 1.".


(** A bulk lookup whose column list is an aggregate without alias. *)
Definition aggregate_bulk_query : str :=
  L "SELECT COUNT(*) FROM t FOR ALL ENTRIES IN itab WHERE k = itab-k INTO TABLE r.".

(** A query without its period. *)
Definition unterminated_query : str := L "SELECT a FROM t".

(** A text that ends inside a literal, and one that ends inside a
    comment. *)
Definition open_literal : str := L "x = 'it''s".
Definition open_comment : str := [dq] ++ L " SELECT a FROM t.".

(** The pipeline run twice, on a text and on what the first run returns. *)
Definition twice (today code : str) : res str :=
  once <- remediate today code ;; remediate today once.

(** ** Vocabulary of the further properties *)

(** [earliest find s keywords start r]: [r] is the smallest index that
    [find] returns for a keyword of the list, with a keyword found
    there; [None] when no keyword is found. *)
Definition earliest (find : str -> str -> nat -> res (option nat)) (s : str)
  (keywords : list str) (start : nat) (r : option (nat * str)) : Prop :=
  match r with
  | None => forall kw, In kw keywords -> find s kw start = Ok None
  | Some (k, kw) =>
      In kw keywords /\ find s kw start = Ok (Some k)
      /\ forall kw' k', In kw' keywords -> find s kw' start = Ok (Some k') -> k <= k'
  end.

Definition is_code (st : lex_state) : bool :=
  match st with LCode => true | _ => false end.

(** The first index whose state is code and where [hit] holds; [sts]
    are the states of the characters from index [k] on. *)
Fixpoint first_code (hit : nat -> bool) (sts : list lex_state) (k : nat) : option nat :=
  match sts with
  | [] => None
  | st :: sts' => if is_code st && hit k then Some k else first_code hit sts' (S k)
  end.

(** The states of the characters from index [i] on, when the scan
    stands at [i] in state [q]. *)
Definition states_from (s : str) (i : nat) (q : quote) : list lex_state :=
  lex_states (lex_of q) (first_column s i) (skipn i s).

(** The first index from [start] on that is in code state, the text
    being read in code state from [start], and where [hit] holds. *)
Definition first_in_code (hit : nat -> bool) (s : str) (start : nat) : option nat :=
  first_code hit (states_from s start Code) start.

Definition is_period (s : str) (k : nat) : bool := peek_is s k dot.

Definition holds (m : res bool) : bool :=
  match m with Ok true => true | _ => false end.

(** The first character of a keyword is not a newline. *)
Definition word_start (kw : str) : bool :=
  match kw with
  | c :: _ => negb (is_chr nl c)
  | [] => false
  end.

(** The character at [i] starts neither a comment nor a string or
    template. *)
Definition plain_at (s : str) (i : nat) : bool :=
  peek (fun c => negb (is_chr dq c) && negb (is_chr star c)
                 && match open_quote c with None => true | Some _ => false end) s i.

Definition is_some {A : Type} (o : option A) : bool :=
  match o with Some _ => true | None => false end.

(** The words a pass looks for before it considers a statement. *)
Definition trigger_words (p : pass) : list str :=
  match p with
  | PSelect => [L "select"; L "single"]
  | PSort => [L "select"]
  | POrderby => [L "select"]
  | PRead => [L "read"; L "table"]
  end.

(** [matches s r i j gs]: the pattern [r] matches the characters of [s]
    from index [i] to index [j], capturing the groups [gs], the last
    captured first. *)
Inductive matches (s : str) : re -> nat -> nat -> groups -> Prop :=
| M_Eps : forall i, matches s Eps i i []
| M_Chr : forall p i c,
    nth_error s i = Some c -> p c = true -> matches s (Chr p) i (S i) []
| M_WordB : forall i,
    xorb (word_before s i) (peek is_word_char s i) = true -> matches s WordB i i []
| M_Bol : matches s Bol 0 0 []
| M_Eol : forall i,
    (i =? length s) || ((S i =? length s) && peek_is s i nl) = true ->
    matches s Eol i i []
| M_Seq : forall a b i j k ga gb,
    matches s a i j ga -> matches s b j k gb -> matches s (Seq a b) i k (gb ++ ga)
| M_AltL : forall a b i j g, matches s a i j g -> matches s (Alt a b) i j g
| M_AltR : forall a b i j g, matches s b i j g -> matches s (Alt a b) i j g
| M_OptSome : forall a i j g, matches s a i j g -> matches s (Opt a) i j g
| M_OptNone : forall a i, matches s (Opt a) i i []
| M_Rep : forall min p i n,
    min <= n -> n <= span p (skipn i s) -> matches s (Rep min p) i (i + n) []
| M_Grp : forall n a i j g,
    matches s a i j g -> matches s (Grp n a) i j ((n, (i, j)) :: g).

(** [[A-Za-z_]\w*] as a test on a whole word. *)
Definition is_identifier (t : str) : bool :=
  match t with
  | c :: t' => ident_start c && forallb is_word_char t'
  | [] => false
  end.

(** The words a pass has to find, in any case, before it changes a
    text. *)
Definition needed_words (p : pass) : list str :=
  match p with
  | PSelect => [L "select"; L "single"]
  | PSort => [L "select"; L "for"; L "all"; L "entries"]
  | POrderby => [L "select"]
  | PRead => [L "read"; L "table"]
  end.

(** The pattern has a capturing group. *)
Fixpoint has_group (r : re) : bool :=
  match r with
  | Seq a b | Alt a b => has_group a || has_group b
  | Opt a => has_group a
  | Grp _ _ => true
  | _ => false
  end.

(** [re.sub] for the pattern [[ \t]+], read off the text: every maximal
    run of blanks is replaced by what [repl] makes of it.  [run] is the
    run read so far. *)
Fixpoint squeeze_from (repl : str -> str) (run : str) (s : str) : str :=
  match s with
  | [] => if is_empty run then [] else repl run
  | c :: s' =>
      if is_blank c then squeeze_from repl (run ++ [c]) s'
      else (if is_empty run then [] else repl run) ++ c :: squeeze_from repl [] s'
  end.

Definition squeeze (repl : str -> str) (s : str) : str := squeeze_from repl [] s.

(** Only blanks stand between the start of the line of [k] and [k]. *)
Definition first_of_line (s : str) (k : nat) : Prop :=
  blanks (slice s (line_start_of s k) k).

(** The character is no blank, no line end and opens no comment. *)
Definition starts_statement (c : ascii) : bool :=
  negb (is_blank c || is_chr nl c || is_chr cr c || is_chr star c || is_chr dq c).

(** The character is no blank, no newline and opens no comment. *)
Definition starts_line_text (c : ascii) : bool :=
  negb (is_blank c || is_chr nl c || is_chr star c || is_chr dq c).

(** No tab, and no blank right after a blank; [prev] tells whether the
    character before the text is a blank. *)
Fixpoint single_spaced (prev : bool) (s : str) : bool :=
  match s with
  | [] => true
  | c :: s' =>
      if is_blank c then negb prev && is_chr sp c && single_spaced true s'
      else single_spaced false s'
  end.

Definition not_blank (c : ascii) : bool := negb (is_blank c).

(** What orderby.py puts for a run of blanks. *)
Definition orderby_repl (m : str) : str := if contains_chr nl m then m else [sp].


(** A character that opens no literal and is no parenthesis. *)
Definition plain_char (c : ascii) : bool :=
  match open_quote c with
  | Some _ => false
  | None => negb (is_chr lpar c) && negb (is_chr rpar c)
  end.

Definition not_empty (s : str) : bool := negb (is_empty s).

(** Every name is a non-empty run of word characters. *)
Definition all_words (names : list str) : Prop :=
  forall n, In n names -> n <> [] /\ forallb is_word_char n = true.



(** ** The endpoint of app.py

    The request and response models and [process_abap_code]; the two
    optional fields may hold [None]. *)

Module App.

Module Payload.
Record t : Type := mk {
  pgm_name : str;
  inc_name : str;
  type : str;
  name : option str;
  class_implementation : option str;
  code : str
}.
End Payload.

Module ResponseModel.
Record t : Type := mk {
  pgm_name : str;
  inc_name : str;
  type : str;
  name : option str;
  class_implementation : option str;
  original_code : str;
  remediated_code : str
}.
End ResponseModel.

Definition process_abap_code (today : str) (payload : Payload.t) : res ResponseModel.t :=
  let original_code := Payload.code payload in
  corrected_code <- remediate today original_code ;;
  Ok (ResponseModel.mk
        (Payload.pgm_name payload)
        (Payload.inc_name payload)
        (Payload.type payload)
        (Payload.name payload)
        (Payload.class_implementation payload)
        original_code
        corrected_code).

Definition remediate_abap (today : str) (payload : Payload.t) : res ResponseModel.t :=
  process_abap_code today payload.

End App.

(** A request whose code is a declaration only. *)
Definition declaration_payload : App.Payload.t :=
  App.Payload.mk (L "ZPROG") (L "ZINC") (L "REPORT") (Some []) None
    (L "DATA lv_count TYPE i.").

(** The text that sort.py puts behind [scenario_B]. *)
Definition scenario_B_insertion : str :=
  [nl] ++ L "SORT result BY a b." ++ [nl] ++ pwc_tag_line sample_date.

(** The text that read_statement.py puts before the statement of
    [indented_read]. *)
Definition indented_read_insertion : str :=
  L "  SORT itab." ++ [nl] ++ L "  " ++ pwc_tag_line sample_date.



(** ** Indentation, places of insertion, items of a column list *)

(** [line_indent code pos indent]: [indent] is the run of blanks at the
    start of the line of [pos]; it ends at the first character that is
    no blank, and at [pos] at the latest. *)
Definition line_indent (code : str) (pos : nat) (indent : str) : Prop :=
  let ls := line_start_of code pos in
  blanks indent
  /\ slice code ls (ls + length indent) = indent
  /\ ls + length indent <= pos
  /\ (ls + length indent = pos \/ peek is_blank code (ls + length indent) = false).

(** A single-row query behind two blanks. *)
Definition indented_single : str := L "  SELECT SINGLE f1 FROM t WHERE k = 1.".

(** A query behind two blanks. *)
Definition indented_query : str := L "  SELECT a FROM t WHERE k = 1.".

(** [put_from code i places]: the text of [code] from index [i] on, with
    the fragment [f] of each place [(p, f)] put right before index
    [p]. *)
Fixpoint put_from (code : str) (i : nat) (places : list (nat * str)) : str :=
  match places with
  | [] => from_ code i
  | (p, f) :: rest => slice code i p ++ f ++ put_from code p rest
  end.

(** The places lie between [lo] and [hi] and go up. *)
Fixpoint places_go_up (lo hi : nat) (places : list (nat * str)) : Prop :=
  match places with
  | [] => True
  | (p, _) :: rest => lo <= p <= hi /\ places_go_up (S p) hi rest
  end.

(** The words [BY f1 f2 ...] of a [SORT] statement, or nothing. *)
Definition by_part (b : str) : Prop :=
  b = [] \/ exists fields : list str, b = L " BY " ++ join [sp] fields.

(** What sort.py puts at index [p]: [p] is right behind the period that
    ends a query found by the pass; the fragment is a newline, the
    [SORT] statement for the target table of the query and the tag line,
    both behind the blanks that stand before the query on its line. *)
Definition sort_place (today code : str) (p : nat) (f : str) : Prop :=
  exists (sel_pos period_pos : nat) (target b : str),
    p = period_pos + 1
    /\ Sort.trigger code sel_pos = Ok true
    /\ find_statement_period code sel_pos = Ok (Some period_pos)
    /\ nth_error code period_pos = Some dot
    /\ Sort.extract_target_table (slice code sel_pos period_pos) = Some target
    /\ blanks (slice code (line_start_of code sel_pos) sel_pos)
    /\ by_part b
    /\ f = [nl] ++ slice code (line_start_of code sel_pos) sel_pos
           ++ L "SORT " ++ target ++ b ++ [dot] ++ [nl]
           ++ slice code (line_start_of code sel_pos) sel_pos ++ pwc_tag_line today.

(** What read_statement.py puts at index [p]: the keyword of a read
    found by the pass stands at [p]; the fragment is the [SORT]
    statement for the table of the read, a newline and the tag line,
    each behind a run of blanks. *)
Definition read_place (today code : str) (p : nat) (f : str) : Prop :=
  exists (period_pos : nat) (itab b indent : str),
    Read.trigger code p = Ok true
    /\ find_statement_period code p = Ok (Some period_pos)
    /\ Read.extract_itab (slice code p period_pos) = Some itab
    /\ blanks indent
    /\ by_part b
    /\ f = indent ++ L "SORT " ++ itab ++ b ++ [dot] ++ [nl]
           ++ indent ++ pwc_tag_line today.

(** A bulk lookup that is followed by another statement on its line. *)
Definition query_before_text : str := scenario_B ++ L " CLEAR wa.".

(** The items of a column list in sort.py: the list without a leading
    [DISTINCT], cut by the tokenizer at the commas that stand outside
    parentheses and literals. *)
Definition sort_items (field_segment : str) : res (list str) :=
  let s := strip field_segment in
  tokenize false (if starts_with (L "distinct") (lower s) then lstrip (from_ s 8) else s).

(** The items of a column list in orderby.py. *)
Definition orderby_items (field_segment : str) : res (list str) :=
  tokenize true (strip field_segment).

(** A call without alias: the item ends with a closing parenthesis, does
    not begin with an opening one and holds no word [AS]. *)
Definition is_bare_call (it : str) : bool :=
  ends_with [rpar] it && negb (starts_with [lpar] it)
  && negb (is_some (re_search as_re it)).



(** * Properties *)

(** ** Basic facts on strings and indices *)

Lemma get_lt {A : Type} (s : list A) (i : nat) :
  i < length s -> exists c, get s i = Ok c /\ nth_error s i = Some c.
Proof.
  intros H. unfold get. destruct (nth_error s i) as [c|] eqn:E.
  - exists c; auto.
  - apply nth_error_None in E. lia.
Qed.

Lemma get_returns {A : Type} (s : list A) (i : nat) :
  i < length s -> returns (get s i).
Proof. intros H. destruct (get_lt s H) as (c & Hc & _). exists c; exact Hc. Qed.

Lemma is_chr_true (d c : ascii) : is_chr d c = true -> c = d.
Proof. unfold is_chr. apply Ascii.eqb_eq. Qed.

Lemma peek_is_lt (s : str) (j : nat) (d : ascii) :
  peek_is s j d = true -> j < length s /\ nth_error s j = Some d.
Proof.
  unfold peek_is. destruct (nth_error s j) as [c|] eqn:E; [|discriminate].
  intros H. apply is_chr_true in H. subst c. split; auto.
  apply nth_error_Some. congruence.
Qed.

Lemma peek_lt (p : ascii -> bool) (s : str) (j : nat) :
  peek p s j = true -> j < length s.
Proof.
  unfold peek. destruct (nth_error s j) eqn:E; [|discriminate].
  intros _. apply nth_error_Some. congruence.
Qed.

Lemma span_le (p : ascii -> bool) (s : str) : span p s <= length s.
Proof. induction s as [|c s IH]; simpl; [lia|]. destruct (p c); simpl; lia. Qed.

Lemma span_pos (p : ascii -> bool) (s : str) (c : ascii) :
  nth_error s 0 = Some c -> p c = true -> 0 < span p s.
Proof.
  destruct s as [|x s]; simpl; [discriminate|]. intros [= ->] ->. lia.
Qed.

Lemma skip_while_ge (p : ascii -> bool) (s : str) (i : nat) : i <= skip_while p s i.
Proof. unfold skip_while. lia. Qed.

Lemma skip_while_le (p : ascii -> bool) (s : str) (i : nat) :
  i <= length s -> skip_while p s i <= length s.
Proof.
  intros H. unfold skip_while. pose proof (span_le p (skipn i s)) as Hs.
  rewrite length_skipn in Hs. lia.
Qed.

Lemma nth_error_skipn_0 (s : str) (i : nat) : nth_error (skipn i s) 0 = nth_error s i.
Proof. rewrite nth_error_skipn. f_equal. lia. Qed.

Lemma skip_while_gt (p : ascii -> bool) (s : str) (i : nat) (c : ascii) :
  nth_error s i = Some c -> p c = true -> i < skip_while p s i.
Proof.
  intros Hn Hp. unfold skip_while.
  assert (0 < span p (skipn i s)); [|lia].
  apply span_pos with c; [rewrite nth_error_skipn_0|]; assumption.
Qed.

Lemma index_of_bound (p : ascii -> bool) (s : str) (k : nat) :
  index_of p s = Some k -> k < length s /\ exists c, nth_error s k = Some c /\ p c = true.
Proof.
  revert k. induction s as [|x s IH]; simpl; intros k; [discriminate|].
  destruct (p x) eqn:E.
  - intros [= <-]. split; [lia|]. exists x; auto.
  - destruct (index_of p s) as [j|]; [|discriminate].
    intros [= <-]. destruct (IH j eq_refl) as (Hlt & c & Hc & Hp).
    split; [lia|]. exists c; auto.
Qed.

Lemma find_chr_bound (d : ascii) (s : str) (i e : nat) :
  find_chr d s i = Some e -> i <= e < length s /\ nth_error s e = Some d.
Proof.
  unfold find_chr. destruct (index_of (is_chr d) (skipn i s)) as [k|] eqn:E; [|discriminate].
  intros [= <-]. apply index_of_bound in E. destruct E as (Hlt & c & Hc & Hp).
  rewrite length_skipn in Hlt. rewrite nth_error_skipn in Hc.
  apply is_chr_true in Hp. subst c. split; [lia|exact Hc].
Qed.

Lemma skip_line_comment_le (s : str) (i : nat) : skip_line_comment s i <= length s.
Proof.
  unfold skip_line_comment. destruct (find_chr nl s i) as [e|] eqn:E; [|lia].
  apply find_chr_bound in E. lia.
Qed.

Lemma skip_line_comment_gt (s : str) (i : nat) (c : ascii) :
  nth_error s i = Some c -> c <> nl -> i < skip_line_comment s i.
Proof.
  intros Hn Hc. unfold skip_line_comment.
  destruct (find_chr nl s i) as [e|] eqn:E.
  - apply find_chr_bound in E. destruct E as [Hb He].
    assert (e <> i) by (intros ->; congruence). lia.
  - apply nth_error_Some. congruence.
Qed.

Lemma dq_not_nl (c : ascii) : is_chr dq c = true -> c <> nl.
Proof. intros H ->. discriminate H. Qed.

Lemma star_not_nl (c : ascii) : is_chr star c = true -> c <> nl.
Proof. intros H ->. discriminate H. Qed.

Lemma not_nl_of (c d : ascii) : is_chr d c = true -> d <> nl -> Select.not_nl c = true.
Proof.
  intros H Hd. apply is_chr_true in H. subst c. unfold Select.not_nl, is_chr.
  destruct (Ascii.eqb d nl) eqn:E; [|reflexivity]. apply Ascii.eqb_eq in E. contradiction.
Qed.

Lemma at_bol_returns (s : str) (i : nat) : i <= length s -> returns (at_bol s i).
Proof.
  intros H. destruct i as [|j]; simpl.
  - eexists; reflexivity.
  - assert (Hj : j < length s) by lia.
    destruct (get_lt s Hj) as (c & Hc & _). rewrite Hc. eexists; reflexivity.
Qed.

Lemma star_at_bol_returns (s : str) (i : nat) (c : ascii) :
  i <= length s -> returns (star_at_bol s i c).
Proof.
  intros H. unfold star_at_bol. destruct (is_chr star c).
  - apply at_bol_returns; assumption.
  - eexists; reflexivity.
Qed.

(** Inside the text the loop over the leading blanks stays in range. *)
Lemma skip_blanks_upto_ok (s : str) (ls pos : nat) :
  pos <= length s ->
  skip_blanks_upto s ls pos = Ok (ls + span is_blank (slice s ls pos)).
Proof.
  intros H. unfold skip_blanks_upto.
  destruct (_ <? pos) eqn:E1; [|reflexivity].
  destruct (length s <=? _) eqn:E2; [|reflexivity].
  apply Nat.ltb_lt in E1. apply Nat.leb_le in E2. lia.
Qed.

Lemma star_at_bol_true (s : str) (i : nat) (c : ascii) :
  star_at_bol s i c = Ok true -> is_chr star c = true.
Proof. unfold star_at_bol. destruct (is_chr star c); [reflexivity|discriminate]. Qed.

Lemma quoted_step_gt (s : str) (i : nat) (q : quote) (c : ascii) :
  i < fst (quoted_step s i q c).
Proof.
  unfold quoted_step. destruct (is_chr (delim q) c); [destruct (peek_is s (i + 1) (delim q))|];
    simpl; lia.
Qed.

Lemma match_kw_at_returns (s : str) (i : nat) (kw : str) : returns (match_kw_at s i kw).
Proof.
  unfold match_kw_at.
  destruct (Nat.ltb_spec (length s) (i + length kw)) as [H|H]; [eexists; reflexivity|].
  destruct (negb _); [eexists; reflexivity|].
  destruct (Nat.eqb_spec i 0) as [H0|H0]; cbn [bind].
  - destruct (Nat.eqb_spec (i + length kw) (length s)) as [H1|H1]; cbn [bind].
    + eexists; reflexivity.
    + assert (Hlt : i + length kw < length s) by lia.
      destruct (get_lt s Hlt) as (c & Hc & _). rewrite Hc. eexists; reflexivity.
  - assert (Hl : i - 1 < length s) by lia.
    destruct (get_lt s Hl) as (c & Hc & _). rewrite Hc. cbn [bind].
    destruct (Nat.eqb_spec (i + length kw) (length s)) as [H1|H1]; cbn [bind].
    + eexists; reflexivity.
    + assert (Hlt : i + length kw < length s) by lia.
      destruct (get_lt s Hlt) as (c' & Hc' & _). rewrite Hc'. eexists; reflexivity.
Qed.

(** ** Every scanning loop makes progress and stays in range *)

Lemma in_range_none (s : str) (i : nat) : in_range_result s i (Ok None).
Proof. exists None. split; [reflexivity|discriminate]. Qed.

Lemma in_range_some (s : str) (i p : nat) :
  i <= p < length s -> in_range_result s i (Ok (Some p)).
Proof. intros H. exists (Some p). split; [reflexivity|]. intros ? [= <-]. exact H. Qed.

Lemma in_range_weaken (s : str) (i j : nat) (m : res (option nat)) :
  i <= j -> in_range_result s j m -> in_range_result s i m.
Proof.
  intros Hij (r & Hr & Hb). exists r. split; [exact Hr|].
  intros p Hp. specialize (Hb p Hp). lia.
Qed.

Lemma in_range_returns (s : str) (i : nat) (m : res (option nat)) :
  in_range_result s i m -> returns m.
Proof. intros (r & Hr & _). exists r; exact Hr. Qed.

Lemma find_statement_period_loop_spec : forall fuel s i q,
  length s - i < fuel ->
  in_range_result s i (find_statement_period_loop fuel s i q).
Proof.
  induction fuel as [|fuel IH]; intros s i q Hf; [lia|].
  cbn [find_statement_period_loop].
  destruct (Nat.leb_spec (length s) i) as [Hge|Hlt]; [apply in_range_none|].
  destruct (get_lt s Hlt) as (c & Hc & Hn). rewrite Hc. cbn [bind].
  assert (Hrec : forall j q', i < j -> in_range_result s i (find_statement_period_loop fuel s j q')).
  { intros j q' Hj. apply in_range_weaken with j; [lia|]. apply IH. lia. }
  destruct q.
  - destruct (is_chr dq c) eqn:Edq.
    + apply Hrec. apply skip_line_comment_gt with c; [exact Hn|apply dq_not_nl; exact Edq].
    + destruct (star_at_bol_returns s c (Nat.lt_le_incl _ _ Hlt)) as [b Hb].
      rewrite Hb. cbn [bind]. destruct b.
      * apply Hrec. apply skip_line_comment_gt with c; [exact Hn|].
        apply star_not_nl. apply star_at_bol_true with s i. exact Hb.
      * destruct (open_quote c); [apply Hrec; lia|].
        destruct (is_chr dot c); [apply in_range_some; lia|apply Hrec; lia].
  - pose proof (quoted_step_gt s i InSq c) as Hq.
    destruct (quoted_step s i InSq c) as [i' q']. apply Hrec. exact Hq.
  - pose proof (quoted_step_gt s i InBt c) as Hq.
    destruct (quoted_step s i InBt c) as [i' q']. apply Hrec. exact Hq.
  - pose proof (quoted_step_gt s i InTpl c) as Hq.
    destruct (quoted_step s i InTpl c) as [i' q']. apply Hrec. exact Hq.
Qed.

Lemma find_statement_period_spec (s : str) (start : nat) :
  in_range_result s start (find_statement_period s start).
Proof. apply find_statement_period_loop_spec. lia. Qed.

Lemma find_kw_loop_returns : forall fuel s kw i q,
  length s - i < fuel -> returns (find_kw_loop fuel s kw i q).
Proof.
  induction fuel as [|fuel IH]; intros s kw i q Hf; [lia|].
  cbn [find_kw_loop].
  destruct (Nat.leb_spec (length s) i) as [Hge|Hlt]; [eexists; reflexivity|].
  destruct (get_lt s Hlt) as (c & Hc & Hn). rewrite Hc. cbn [bind].
  assert (Hrec : forall j q', i < j -> returns (find_kw_loop fuel s kw j q')).
  { intros j q' Hj. apply IH. lia. }
  destruct q.
  - destruct (is_chr dq c) eqn:Edq.
    + apply Hrec.
      pose proof (skip_line_comment_gt s i Hn (dq_not_nl Edq)). lia.
    + destruct (star_at_bol_returns s c (Nat.lt_le_incl _ _ Hlt)) as [b Hb].
      rewrite Hb. cbn [bind]. destruct b.
      * apply Hrec.
        pose proof (skip_line_comment_gt s i Hn
                      (star_not_nl (star_at_bol_true s i c Hb))) as Hgt.
        unfold skip_full_line_star_comment, skip_line_comment in *. lia.
      * destruct (open_quote c); [apply Hrec; lia|].
        destruct (match_kw_at_returns s i kw) as [hit Hhit]. rewrite Hhit. cbn [bind].
        destruct hit; [eexists; reflexivity|apply Hrec; lia].
  - pose proof (quoted_step_gt s i InSq c) as Hq.
    destruct (quoted_step s i InSq c) as [i' q']. apply Hrec. exact Hq.
  - pose proof (quoted_step_gt s i InBt c) as Hq.
    destruct (quoted_step s i InBt c) as [i' q']. apply Hrec. exact Hq.
  - pose proof (quoted_step_gt s i InTpl c) as Hq.
    destruct (quoted_step s i InTpl c) as [i' q']. apply Hrec. exact Hq.
Qed.

Lemma find_kw_returns (s kw : str) (start : nat) : returns (find_kw s kw start).
Proof. apply find_kw_loop_returns. lia. Qed.

Section ScanFacts.

Variable trigger : str -> nat -> res bool.

Hypothesis trigger_returns :
  forall code scan, scan < length code -> returns (trigger code scan).

Lemma scan_loop_spec : forall fuel code scan q,
  length code - scan < fuel ->
  in_range_result code scan (scan_loop trigger fuel code scan q).
Proof.
  induction fuel as [|fuel IH]; intros s i q Hf; [lia|].
  cbn [scan_loop].
  destruct (Nat.leb_spec (length s) i) as [Hge|Hlt]; [apply in_range_none|].
  destruct (get_lt s Hlt) as (c & Hc & Hn). rewrite Hc. cbn [bind].
  assert (Hrec : forall j q', i < j -> in_range_result s i (scan_loop trigger fuel s j q')).
  { intros j q' Hj. apply in_range_weaken with j; [lia|]. apply IH. lia. }
  destruct q.
  - destruct (is_chr dq c) eqn:Edq.
    + apply Hrec.
      pose proof (skip_line_comment_gt s i Hn (dq_not_nl Edq)).
      destruct (skip_line_comment s i <? length s); lia.
    + destruct (star_at_bol_returns s c (Nat.lt_le_incl _ _ Hlt)) as [b Hb].
      rewrite Hb. cbn [bind]. destruct b.
      * apply Hrec.
        pose proof (skip_line_comment_gt s i Hn
                      (star_not_nl (star_at_bol_true s i c Hb))) as Hgt.
        unfold skip_full_line_star_comment, skip_line_comment in *.
        destruct (_ <? length s); lia.
      * destruct (open_quote c); [apply Hrec; lia|].
        destruct (trigger_returns s Hlt) as [hit Hhit]. rewrite Hhit. cbn [bind].
        destruct hit; [apply in_range_some; lia|apply Hrec; lia].
  - pose proof (quoted_step_gt s i InSq c) as Hq.
    destruct (quoted_step s i InSq c) as [i' q']. apply Hrec. exact Hq.
  - pose proof (quoted_step_gt s i InBt c) as Hq.
    destruct (quoted_step s i InBt c) as [i' q']. apply Hrec. exact Hq.
  - pose proof (quoted_step_gt s i InTpl c) as Hq.
    destruct (quoted_step s i InTpl c) as [i' q']. apply Hrec. exact Hq.
Qed.

Lemma scan_next_spec (code : str) (i : nat) :
  in_range_result code i (scan_next trigger code i).
Proof. apply scan_loop_spec. lia. Qed.

End ScanFacts.

Section FindAnyFacts.

Variable find_kw_of : str -> str -> nat -> res (option nat).

Hypothesis find_kw_of_returns : forall s kw start, returns (find_kw_of s kw start).

Lemma find_next_any_kw_loop_returns : forall keywords s start best,
  returns (find_next_any_kw_loop find_kw_of s keywords start best).
Proof.
  induction keywords as [|kw rest IH]; intros s start best; cbn [find_next_any_kw_loop].
  - eexists; reflexivity.
  - destruct (find_kw_of_returns s kw start) as [idx Hidx]. rewrite Hidx. cbn [bind].
    apply IH.
Qed.

Lemma find_next_any_kw_with_returns (s : str) (keywords : list str) (start : nat) :
  returns (find_next_any_kw_with find_kw_of s keywords start).
Proof. apply find_next_any_kw_loop_returns. Qed.

End FindAnyFacts.

Lemma tokenize_loop_returns (collapse : bool) : forall fuel s i q depth buf items,
  length s - i < fuel -> returns (tokenize_loop collapse fuel s i q depth buf items).
Proof.
  induction fuel as [|fuel IH]; intros s i q depth buf items Hf; [lia|].
  cbn [tokenize_loop].
  destruct (Nat.leb_spec (length s) i) as [Hge|Hlt]; [eexists; reflexivity|].
  destruct (get_lt s Hlt) as (c & Hc & Hn). rewrite Hc. cbn [bind].
  assert (Hrec : forall j q' d b it, i < j ->
            returns (tokenize_loop collapse fuel s j q' d b it)).
  { intros j q' d b it Hj. apply IH. lia. }
  assert (Hq : forall q', returns
            (if is_chr (delim q') c
             then if peek_is s (i + 1) (delim q')
                  then c1 <- get s (i + 1) ;;
                       tokenize_loop collapse fuel s (i + 2) q' depth (buf ++ [c; c1]) items
                  else tokenize_loop collapse fuel s (i + 1) Code depth (buf ++ [c]) items
             else tokenize_loop collapse fuel s (i + 1) q' depth (buf ++ [c]) items)).
  { intros q'. destruct (is_chr (delim q') c); [|apply Hrec; lia].
    destruct (peek_is s (i + 1) (delim q')) eqn:Ep; [|apply Hrec; lia].
    apply peek_is_lt in Ep. destruct Ep as [Hl _].
    destruct (get_lt s Hl) as (c1 & Hc1 & _). rewrite Hc1. cbn [bind]. apply Hrec. lia. }
  destruct q; [|apply Hq|apply Hq|apply Hq].
  destruct (open_quote c); [apply Hrec; lia|].
  repeat match goal with
         | |- returns (if ?b then _ else _) => destruct b
         end; apply Hrec; lia.
Qed.

Lemma tokenize_returns (collapse : bool) (s : str) : returns (tokenize collapse s).
Proof.
  unfold tokenize.
  destruct (@tokenize_loop_returns collapse (S (length s)) s 0 Code 0 [] []) as [[items buf] H];
    [lia|].
  rewrite H. cbn [bind]. eexists; reflexivity.
Qed.

(** Steps a [returns] goal through a bind whose first computation is
    known to return. *)
Ltac bind_ret H :=
  let x := fresh "x" in
  let E := fresh "E" in
  destruct H as [x E]; rewrite E; cbn [bind].

Lemma returns_ok {A : Type} (a : A) : returns (Ok a).
Proof. exists a; reflexivity. Qed.

Lemma span_firstn_Forall (p : ascii -> bool) : forall (m : nat) (l : str),
  Forall (fun c => p c = true) (firstn (span p (firstn m l)) l).
Proof.
  induction m as [|m IH]; intros [|c l]; simpl; try constructor.
  destruct (p c) eqn:E; simpl; constructor; [exact E|apply IH].
Qed.

(** [get_line_indent_before] returns for a position inside the text,
    and what it returns is made of blanks. *)
Lemma get_line_indent_before_spec (code : str) (pos : nat) :
  pos <= length code ->
  exists indent, get_line_indent_before code pos = Ok indent /\ blanks indent.
Proof.
  intros H. unfold get_line_indent_before.
  rewrite (skip_blanks_upto_ok code (line_start_of code pos) H). cbn [bind].
  eexists. split; [reflexivity|].
  unfold blanks, slice.
  replace (line_start_of code pos + _ - line_start_of code pos)
    with (span is_blank (firstn (pos - line_start_of code pos)
                           (skipn (line_start_of code pos) code))) by lia.
  apply span_firstn_Forall.
Qed.

Lemma at_statement_lead_returns (s : str) (pos : nat) :
  pos <= length s -> returns (at_statement_lead s pos).
Proof.
  intros H. unfold at_statement_lead.
  rewrite (skip_blanks_upto_ok s (line_start_of s pos) H). cbn [bind].
  apply returns_ok.
Qed.

Lemma str_eqb_eq (a b : str) : str_eqb a b = true -> a = b.
Proof.
  revert b. induction a as [|x a IH]; intros [|y b]; simpl; try discriminate; auto.
  intros H. apply andb_prop in H. destruct H as [H1 H2].
  apply Ascii.eqb_eq in H1. subst y. f_equal. apply IH. exact H2.
Qed.

Lemma length_slice (s : str) (i j : nat) :
  length (slice s i j) = Nat.min (j - i) (length s - i).
Proof. unfold slice. rewrite length_firstn, length_skipn. reflexivity. Qed.

(** A slice that spells a six-letter keyword lies inside the text. *)
Lemma keyword6_in_range (code kw : str) (scan : nat) :
  length kw = 6 ->
  str_eqb (lower (slice code scan (scan + 6))) kw = true ->
  scan + 6 <= length code.
Proof.
  intros Hk H. apply str_eqb_eq in H. apply (f_equal (@length ascii)) in H.
  unfold lower in H. rewrite length_map, length_slice, Hk in H. lia.
Qed.

(** The test "the word at [scan] is followed by a non-word character or
    by the end of the text" returns once the word is in range. *)
Lemma right_boundary_returns (code : str) (k : nat) :
  k <= length code ->
  returns (if k =? length code then Ok true
           else c <- get code k ;; Ok (negb (is_word_char c))).
Proof.
  intros H. destruct (Nat.eqb_spec k (length code)) as [E|E]; [apply returns_ok|].
  assert (Hlt : k < length code) by lia.
  destruct (get_lt code Hlt) as (c & Hc & _). rewrite Hc. apply returns_ok.
Qed.

(** *** select.py *)

Lemma select_skip_ws_and_comments_loop_returns : forall fuel s i,
  length s - i < fuel -> returns (Select.skip_ws_and_comments_loop fuel s i).
Proof.
  induction fuel as [|fuel IH]; intros s i Hf; [lia|].
  cbn [Select.skip_ws_and_comments_loop].
  destruct (Nat.leb_spec (length s) i) as [Hge|Hlt]; [apply returns_ok|].
  pose proof (skip_while_ge is_ws4 s i) as Hi1.
  destruct (Nat.leb_spec (length s) (skip_while is_ws4 s i)) as [Hge1|Hlt1];
    [apply returns_ok|].
  destruct (get_lt s Hlt1) as (c & Hc & Hn). rewrite Hc. cbn [bind].
  bind_ret (star_at_bol_returns s c (Nat.lt_le_incl _ _ Hlt1)).
  destruct x.
  - apply IH.
    assert (skip_while is_ws4 s i < skip_while Select.not_nl s (skip_while is_ws4 s i)).
    { apply skip_while_gt with c; [exact Hn|].
      apply not_nl_of with star; [eapply star_at_bol_true; exact E|discriminate]. }
    lia.
  - destruct (is_chr dq c) eqn:Edq; [|apply returns_ok].
    apply IH.
    assert (skip_while is_ws4 s i < skip_while Select.not_nl s (skip_while is_ws4 s i)).
    { apply skip_while_gt with c; [exact Hn|].
      apply not_nl_of with dq; [exact Edq|discriminate]. }
    lia.
Qed.

Lemma select_skip_ws_and_comments_returns (s : str) (i : nat) :
  returns (Select.skip_ws_and_comments s i).
Proof. apply select_skip_ws_and_comments_loop_returns. lia. Qed.

Lemma select_find_statement_period_loop_spec : forall fuel s i q,
  length s - i < fuel ->
  in_range_result s i (Select.find_statement_period_loop fuel s i q).
Proof.
  induction fuel as [|fuel IH]; intros s i q Hf; [lia|].
  cbn [Select.find_statement_period_loop].
  destruct (Nat.leb_spec (length s) i) as [Hge|Hlt]; [apply in_range_none|].
  destruct (get_lt s Hlt) as (c & Hc & Hn). rewrite Hc. cbn [bind].
  assert (Hrec : forall j q', i < j ->
            in_range_result s i (Select.find_statement_period_loop fuel s j q')).
  { intros j q' Hj. apply in_range_weaken with j; [lia|]. apply IH. lia. }
  destruct q.
  - destruct (is_chr dq c) eqn:Edq.
    + apply Hrec. apply skip_while_gt with c; [exact Hn|].
      apply not_nl_of with dq; [exact Edq|discriminate].
    + destruct (star_at_bol_returns s c (Nat.lt_le_incl _ _ Hlt)) as [b Hb].
      rewrite Hb. cbn [bind]. destruct b.
      * apply Hrec. apply skip_while_gt with c; [exact Hn|].
        apply not_nl_of with star; [apply star_at_bol_true with s i; exact Hb|discriminate].
      * destruct (open_quote c); [apply Hrec; lia|].
        destruct (is_chr dot c); [apply in_range_some; lia|apply Hrec; lia].
  - pose proof (quoted_step_gt s i InSq c) as Hq.
    destruct (quoted_step s i InSq c) as [i' q']. apply Hrec. exact Hq.
  - pose proof (quoted_step_gt s i InBt c) as Hq.
    destruct (quoted_step s i InBt c) as [i' q']. apply Hrec. exact Hq.
  - pose proof (quoted_step_gt s i InTpl c) as Hq.
    destruct (quoted_step s i InTpl c) as [i' q']. apply Hrec. exact Hq.
Qed.

Lemma select_find_statement_period_spec (s : str) (start : nat) :
  in_range_result s start (Select.find_statement_period s start).
Proof. apply select_find_statement_period_loop_spec. lia. Qed.

Lemma select_find_kw_loop_returns : forall fuel s kw i q,
  length s - i < fuel -> returns (Select.find_kw_loop fuel s kw i q).
Proof.
  induction fuel as [|fuel IH]; intros s kw i q Hf; [lia|].
  cbn [Select.find_kw_loop].
  destruct (Nat.leb_spec (length s) i) as [Hge|Hlt]; [apply returns_ok|].
  destruct (get_lt s Hlt) as (c & Hc & Hn). rewrite Hc. cbn [bind].
  assert (Hrec : forall j q', i < j -> returns (Select.find_kw_loop fuel s kw j q')).
  { intros j q' Hj. apply IH. lia. }
  destruct q.
  - destruct (is_chr dq c) eqn:Edq.
    + apply Hrec. pose proof (skip_while_ge Select.not_nl s i). lia.
    + bind_ret (star_at_bol_returns s c (Nat.lt_le_incl _ _ Hlt)).
      destruct x.
      * apply Hrec. pose proof (skip_while_ge Select.not_nl s i). lia.
      * bind_ret (match_kw_at_returns s i kw).
        destruct x; [apply returns_ok|apply Hrec; lia].
  - pose proof (quoted_step_gt s i InSq c) as Hq.
    destruct (quoted_step s i InSq c) as [i' q']. apply Hrec. exact Hq.
  - pose proof (quoted_step_gt s i InBt c) as Hq.
    destruct (quoted_step s i InBt c) as [i' q']. apply Hrec. exact Hq.
  - pose proof (quoted_step_gt s i InTpl c) as Hq.
    destruct (quoted_step s i InTpl c) as [i' q']. apply Hrec. exact Hq.
Qed.

Lemma select_find_kw_returns (s kw : str) (start : nat) :
  returns (Select.find_kw s kw start).
Proof. apply select_find_kw_loop_returns. lia. Qed.

Lemma select_after_loop_returns : forall fuel code after,
  length code - after < fuel -> returns (Select.after_loop fuel code after).
Proof.
  induction fuel as [|fuel IH]; intros code after Hf; [lia|].
  cbn [Select.after_loop].
  pose proof (skip_while_ge is_ws4 code after) as Hge.
  set (after1 := skip_while is_ws4 code after) in *.
  assert (Hnext : after1 < length code ->
            after1 < match find_chr nl code after1 with
                     | Some eol => eol
                     | None => length code - 1
                     end + 1).
  { intros Hl. destruct (find_chr nl code after1) as [e|] eqn:E; [|lia].
    apply find_chr_bound in E. lia. }
  destruct (peek_is code after1 dq) eqn:Edq.
  - apply peek_is_lt in Edq. destruct Edq as [Hl _].
    apply IH. specialize (Hnext Hl). lia.
  - destruct (peek_is code after1 star) eqn:Est; cbn [bind].
    + apply peek_is_lt in Est. destruct Est as [Hl _].
      bind_ret (at_bol_returns code (Nat.lt_le_incl _ _ Hl)).
      destruct x; [|apply returns_ok].
      apply IH. specialize (Hnext Hl). lia.
    + apply returns_ok.
Qed.

Lemma select_trigger_returns (code : str) (scan : nat) :
  scan < length code -> returns (Select.trigger code scan).
Proof.
  intros _. unfold Select.trigger, Select.is_select_at.
  destruct (str_eqb _ _ && (scan + 6 <=? length code)) eqn:Esel; cbn [bind].
  - apply andb_prop in Esel. destruct Esel as [_ Esel]. apply Nat.leb_le in Esel.
    bind_ret (right_boundary_returns code Esel).
    destruct x; [|apply returns_ok].
    bind_ret (@select_after_loop_returns (S (length code)) code (scan + 6) ltac:(lia)).
    unfold Select.is_single_at.
    destruct ((x <? length code) && _) eqn:Esingle; [|apply returns_ok].
    apply andb_prop in Esingle. destruct Esingle as [_ Esingle].
    apply right_boundary_returns.
    apply keyword6_in_range with (L "single"); [reflexivity|exact Esingle].
  - apply returns_ok.
Qed.

Lemma select_new_stmt_of_returns (stmt : str) : returns (Select.new_stmt_of stmt).
Proof.
  unfold Select.new_stmt_of.
  bind_ret (select_find_kw_returns
              (Select.remove_any_up_to_rows (Select.remove_single stmt)) (L "where") 0).
  destruct x as [w|]; cbn [bind].
  - apply returns_ok.
  - bind_ret (select_find_kw_returns
                (Select.remove_any_up_to_rows (Select.remove_single stmt)) (L "into") 0).
    destruct x as [into|]; cbn [bind]; [|apply returns_ok].
    unfold Select.find_next_any_kw.
    match goal with
    | |- context [find_next_any_kw_with Select.find_kw ?s ?ks ?st] =>
        bind_ret (@find_next_any_kw_with_returns Select.find_kw select_find_kw_returns s ks st)
    end.
    destruct x as [[next_idx kw]|]; cbn [bind]; apply returns_ok.
Qed.

Lemma select_replacement_of_returns (today code : str) (sel_start period_pos : nat) :
  sel_start <= length code ->
  returns (Select.replacement_of today code sel_start period_pos).
Proof.
  intros Hpos. unfold Select.replacement_of.
  destruct (get_line_indent_before_spec code Hpos) as (indent & Hindent & _).
  rewrite Hindent. cbn [bind].
  bind_ret (select_new_stmt_of_returns (slice code sel_start period_pos)).
  unfold Select.has_endselect_after.
  bind_ret (select_skip_ws_and_comments_returns code (period_pos + 1)). 
  match goal with
  | |- context [negb ?b] => destruct b
  end; cbn [negb bind]; apply returns_ok.
Qed.

Lemma select_main_loop_returns : forall fuel today code i out_parts,
  length code - i < fuel -> returns (Select.main_loop fuel today code i out_parts).
Proof.
  induction fuel as [|fuel IH]; intros today code i out_parts Hf; [lia|].
  cbn [Select.main_loop].
  destruct (Nat.leb_spec (length code) i) as [Hge|Hlt]; [apply returns_ok|].
  destruct (@scan_next_spec Select.trigger select_trigger_returns code i) as (found & Hfound & Hb).
  rewrite Hfound. cbn [bind].
  destruct found as [sel_start|]; [|apply returns_ok].
  specialize (Hb sel_start eq_refl).
  destruct (select_find_statement_period_spec code sel_start) as (period & Hperiod & Hp).
  rewrite Hperiod. cbn [bind].
  destruct period as [period_pos|]; [|apply returns_ok].
  specialize (Hp period_pos eq_refl).
  bind_ret (@select_replacement_of_returns today code sel_start period_pos ltac:(lia)).
  apply IH. lia.
Qed.

Lemma process_select_returns (today code : str) :
  returns (Select.process_select today code).
Proof. apply select_main_loop_returns. lia. Qed.

(** *** Field lists *)

Lemma dropwhile_head (p : ascii -> bool) (s : str) (c : ascii) (t : str) :
  dropwhile p s = c :: t -> p c = false.
Proof.
  induction s as [|x s IH]; simpl; [discriminate|].
  destruct (p x) eqn:E; [exact IH|]. intros [= -> _]. exact E.
Qed.

Lemma split_ws_from_buf (s buf : str) : buf <> [] -> split_ws_from s buf <> [].
Proof.
  revert buf. induction s as [|c s IH]; intros buf Hb; simpl.
  - destruct buf; [contradiction|]. simpl. discriminate.
  - destruct (isspace c).
    + destruct buf; [contradiction|]. simpl. discriminate.
    + apply IH. discriminate.
Qed.

(** A stripped text that is not empty has a first word. *)
Lemma first_word_returns (s : str) :
  is_empty (strip s) = false -> returns (get (split_ws (strip s)) 0).
Proof.
  intros H. unfold strip, lstrip in *.
  destruct (dropwhile isspace (rstrip s)) as [|c t] eqn:E; [discriminate|].
  apply dropwhile_head in E.
  unfold split_ws. cbn [split_ws_from]. rewrite E.
  pose proof (@split_ws_from_buf t [c] ltac:(discriminate)) as Hne.
  destruct (split_ws_from t [c]) as [|w ws]; [contradiction|].
  apply returns_ok.
Qed.

Lemma split_on_from_nonempty (d : ascii) (s buf : str) :
  0 < length (split_on_from d s buf).
Proof.
  revert buf. induction s as [|c s IH]; intros buf; simpl; [lia|].
  destruct (is_chr d c); simpl; [lia|apply IH].
Qed.

Lemma dedupe_loop_incl : forall fs seen acc f,
  In f (dedupe_loop fs seen acc) -> In f acc \/ In f fs.
Proof.
  induction fs as [|x fs IH]; intros seen acc f; simpl; [auto|].
  destruct (mem_str (lower x) seen); intros H; apply IH in H.
  - tauto.
  - destruct H as [H|H]; [|tauto].
    apply in_app_or in H. simpl in H. tauto.
Qed.

Lemma dedupe_incl (fs : list str) (f : str) : In f (dedupe fs) -> In f fs.
Proof.
  intros H. apply dedupe_loop_incl in H. simpl in H. tauto.
Qed.

(** *** sort.py *)

Lemma sort_next_executable_line_start_loop_returns : forall fuel s i,
  length s - i < fuel -> returns (Sort.next_executable_line_start_loop fuel s i).
Proof.
  induction fuel as [|fuel IH]; intros s i Hf; [lia|].
  cbn [Sort.next_executable_line_start_loop].
  destruct (Nat.leb_spec (length s) i) as [Hge|Hlt]; [apply returns_ok|].
  bind_ret (at_bol_returns s (Nat.lt_le_incl _ _ Hlt)).
  destruct x; [|apply IH; lia].
  pose proof (skip_while_ge is_blank s i) as Hj.
  destruct (Nat.leb_spec (length s) (skip_while is_blank s i)) as [Hge1|Hlt1];
    [apply returns_ok|].
  destruct (get_lt s Hlt1) as (c & Hc & Hn). rewrite Hc. cbn [bind].
  destruct (is_chr nl c); [apply IH; lia|].
  destruct (is_chr star c) eqn:Est.
  { apply IH.
    assert (skip_while is_blank s i < skip_full_line_star_comment s (skip_while is_blank s i)).
    { apply skip_line_comment_gt with c; [exact Hn|apply star_not_nl; exact Est]. }
    lia. }
  destruct (is_chr dq c) eqn:Edq; [|apply returns_ok].
  apply IH.
  assert (skip_while is_blank s i < skip_line_comment s (skip_while is_blank s i)).
  { apply skip_line_comment_gt with c; [exact Hn|apply dq_not_nl; exact Edq]. }
  lia.
Qed.

Lemma sort_next_executable_line_start_returns (s : str) (start : nat) :
  returns (Sort.next_executable_line_start s start).
Proof. apply sort_next_executable_line_start_loop_returns. lia. Qed.

Lemma extract_select_list_returns (stmt : str) : returns (extract_select_list stmt).
Proof.
  unfold extract_select_list.
  bind_ret (find_kw_returns stmt (L "select") 0).
  destruct x as [sel|]; [|apply returns_ok].
  bind_ret (find_kw_returns stmt (L "from") (skip_while isspace stmt (sel + 6))).
  destruct x; apply returns_ok.
Qed.

Lemma sort_regroup_loop_returns : forall fuel tokens k items,
  length tokens - k < fuel -> returns (Sort.regroup_loop fuel tokens k items).
Proof.
  induction fuel as [|fuel IH]; intros tokens k items Hf; [lia|].
  cbn [Sort.regroup_loop].
  destruct (Nat.leb_spec (length tokens) k) as [Hge|Hlt]; [apply returns_ok|].
  destruct (get_lt tokens Hlt) as (tk & Htk & _). rewrite Htk. cbn [bind].
  destruct (str_eqb (lower tk) (L "as") && (k + 1 <? length tokens)) eqn:Eas;
    [|apply IH; lia].
  apply andb_prop in Eas. destruct Eas as [_ Hk1]. apply Nat.ltb_lt in Hk1.
  destruct (get_lt tokens Hk1) as (nxt & Hnxt & _). rewrite Hnxt. cbn [bind].
  destruct items as [|it items]; cbn [negb]; [apply IH; lia|].
  assert (Hp : k - 1 < length tokens) by lia.
  destruct (get_lt tokens Hp) as (prv & Hprv & _). rewrite Hprv. cbn [bind].
  apply IH. lia.
Qed.

Lemma sort_alias_of_returns (t : str) : returns (Sort.alias_of t).
Proof.
  unfold Sort.alias_of. destruct (re_search as_re t) as [m|]; [|apply returns_ok].
  destruct (is_empty (strip (from_ t (m_end m)))) eqn:E; [apply returns_ok|].
  bind_ret (first_word_returns (from_ t (m_end m)) E). apply returns_ok.
Qed.

Lemma sort_normalize_item_returns (it : str) : returns (Sort.normalize_item it).
Proof.
  unfold Sort.normalize_item.
  destruct (is_empty (strip it)); [apply returns_ok|].
  match goal with
  | |- context [Sort.alias_of ?t] => bind_ret (sort_alias_of_returns t)
  end.
  destruct x as [a|]; [apply returns_ok|].
  match goal with
  | |- context [contains_chr tilde ?t] => destruct (contains_chr tilde t)
  end; cbn [bind].
  - cbv zeta.
    match goal with
    | |- context [get (split_on tilde ?t) ?k] =>
        assert (Hl : k < length (split_on tilde t))
          by (pose proof (split_on_from_nonempty tilde t []); unfold split_on; lia);
        destruct (get_lt _ Hl) as (pz & Hpz & _); rewrite Hpz; cbn [bind]
    end.
    repeat match goal with
           | |- returns (if ?b then _ else _) => destruct b
           | |- returns (match ?b with Some _ => _ | None => _ end) => destruct b
           end; apply returns_ok.
  - repeat match goal with
           | |- returns (if ?b then _ else _) => destruct b
           | |- returns (match ?b with Some _ => _ | None => _ end) => destruct b
           end; apply returns_ok.
Qed.

Lemma sort_normalize_items_returns (items : list str) :
  returns (Sort.normalize_items items).
Proof.
  induction items as [|it rest IH]; cbn [Sort.normalize_items]; [apply returns_ok|].
  bind_ret (sort_normalize_item_returns it). bind_ret IH. apply returns_ok.
Qed.

Lemma sort_split_fields_returns (seg : str) : returns (Sort.split_fields seg).
Proof.
  unfold Sort.split_fields.
  destruct (is_empty (strip seg)); [apply returns_ok|].
  match goal with
  | |- returns (if ?b then _ else _) => destruct b; [apply returns_ok|]
  end.
  match goal with
  | |- context [tokenize false ?t] => bind_ret (tokenize_returns false t)
  end.
  destruct (negb (contains_chr comma seg)); cbn [bind].
  - match goal with
    | |- context [Sort.regroup_loop ?f ?tk 0 []] =>
        bind_ret (@sort_regroup_loop_returns f tk 0 [] ltac:(lia))
    end.
    bind_ret (sort_normalize_items_returns x0). apply returns_ok.
  - bind_ret (sort_normalize_items_returns x). apply returns_ok.
Qed.

Lemma sort_is_sort_immediately_next_returns (s : str) (period_pos : nat) (target : str) :
  returns (Sort.is_sort_immediately_next_for_target s period_pos target).
Proof.
  unfold Sort.is_sort_immediately_next_for_target.
  bind_ret (sort_next_executable_line_start_returns s (period_pos + 1)).
  destruct (length s <=? x); [apply returns_ok|].
  destruct (re_match Sort.sort_line_re (code_of_line s x)) as [m|]; [|apply returns_ok].
  destruct (group (code_of_line s x) m 1); apply returns_ok.
Qed.

Lemma select_lead_trigger_returns (code : str) (scan : nat) :
  returns (Sort.trigger code scan).
Proof.
  unfold Sort.trigger.
  destruct (str_eqb (lower (slice code scan (scan + 6))) (L "select")) eqn:E;
    [|apply returns_ok].
  assert (Hr : scan + 6 <= length code)
    by (apply keyword6_in_range with (L "select"); [reflexivity|exact E]).
  bind_ret (right_boundary_returns code Hr).
  destruct x; [|apply returns_ok].
  apply at_statement_lead_returns. lia.
Qed.

(** [insertion_of] returns, and what it returns is a [SORT] statement
    and a tag line behind the indentation of the query. *)
Lemma sort_insertion_of_spec (today code : str) (sel_pos period_pos : nat) :
  sel_pos <= length code ->
  exists r, Sort.insertion_of today code sel_pos period_pos = Ok r
            /\ forall ins, r = Some ins -> sort_fragment today ins.
Proof.
  intros Hpos. unfold Sort.insertion_of.
  destruct (negb (Sort.has_for_all_entries (slice code sel_pos period_pos)));
    [exists None; split; [reflexivity|discriminate]|].
  destruct (Sort.extract_target_table (slice code sel_pos period_pos)) as [target|];
    [|exists None; split; [reflexivity|discriminate]].
  bind_ret (sort_is_sort_immediately_next_returns code period_pos target).
  destruct x; [exists None; split; [reflexivity|discriminate]|].
  bind_ret (extract_select_list_returns (slice code sel_pos period_pos)).
  bind_ret (sort_split_fields_returns x).
  destruct (get_line_indent_before_spec code Hpos) as (indent & Hindent & Hblanks).
  rewrite Hindent. cbn [bind].
  eexists. split; [reflexivity|]. intros ins [= <-].
  exists indent.
  destruct (no_usable_fields x0).
  - exists target. split; [exact Hblanks|reflexivity].
  - exists (target ++ L " BY " ++ join [sp] x0). split; [exact Hblanks|].
    rewrite <- (app_assoc target). rewrite <- (app_assoc (L " BY ")). reflexivity.
Qed.

(** *** Insertions *)

Lemma inserted_refl (frag : str -> Prop) (s : str) : inserted frag s s.
Proof. induction s; constructor; assumption. Qed.

Lemma inserted_app (frag : str -> Prop) (s1 t1 s2 t2 : str) :
  inserted frag s1 t1 -> inserted frag s2 t2 -> inserted frag (s1 ++ s2) (t1 ++ t2).
Proof.
  intros H1 H2. induction H1 as [|c s t H IH|f s t Hf H IH]; simpl.
  - exact H2.
  - constructor. exact IH.
  - rewrite <- app_assoc. constructor; assumption.
Qed.

Lemma inserted_before (frag : str -> Prop) (f s : str) :
  frag f -> inserted frag s (f ++ s).
Proof. intros H. constructor; [exact H|apply inserted_refl]. Qed.

(** The characters of the source are kept, in order. *)
Lemma inserted_length (frag : str -> Prop) (s t : str) :
  inserted frag s t -> length s <= length t.
Proof.
  induction 1 as [|c s t H IH|f s t Hf H IH]; simpl; [lia|lia|].
  rewrite length_app. lia.
Qed.

Lemma concat_snoc (out : list str) (x : str) : concat (out ++ [x]) = concat out ++ x.
Proof. rewrite concat_app. simpl. rewrite app_nil_r. reflexivity. Qed.

Lemma from_split (code : str) (i j : nat) :
  i <= j -> from_ code i = slice code i j ++ from_ code j.
Proof.
  intros H. unfold from_, slice.
  replace (skipn j code) with (skipn (j - i) (skipn i code)).
  - symmetry. apply firstn_skipn.
  - rewrite skipn_skipn. f_equal. lia.
Qed.

Lemma from_beyond (code : str) (i : nat) : length code <= i -> from_ code i = [].
Proof. intros H. unfold from_. apply skipn_all2. exact H. Qed.

Lemma from_0 (code : str) : from_ code 0 = code.
Proof. reflexivity. Qed.

(** The main loop of sort.py returns, and it returns what it had
    collected followed by the rest of the text with fragments inserted. *)
Lemma sort_main_loop_spec : forall fuel today code i out_parts,
  length code - i < fuel ->
  exists t, Sort.main_loop fuel today code i out_parts = Ok (concat out_parts ++ t)
            /\ inserted (sort_fragment today) (from_ code i) t.
Proof.
  induction fuel as [|fuel IH]; intros today code i out_parts Hf; [lia|].
  cbn [Sort.main_loop].
  destruct (Nat.leb_spec (length code) i) as [Hge|Hlt].
  { exists []. rewrite app_nil_r, from_beyond by exact Hge. split; [reflexivity|constructor]. }
  destruct (@scan_next_spec Sort.trigger (fun c k _ => select_lead_trigger_returns c k) code i)
    as (found & Hfound & Hb).
  rewrite Hfound. cbn [bind].
  destruct found as [sel_pos|].
  2:{ exists (from_ code i). rewrite concat_snoc. split; [reflexivity|apply inserted_refl]. }
  specialize (Hb sel_pos eq_refl).
  destruct (find_statement_period_spec code sel_pos) as (period & Hperiod & Hp).
  rewrite Hperiod. cbn [bind].
  destruct period as [period_pos|].
  2:{ exists (from_ code i). rewrite !concat_snoc, <- app_assoc.
      rewrite <- from_split by lia. split; [reflexivity|apply inserted_refl]. }
  specialize (Hp period_pos eq_refl).
  destruct (@sort_insertion_of_spec today code sel_pos period_pos ltac:(lia))
    as (ins & Hins & Hfrag).
  rewrite Hins. cbn [bind].
  match goal with
  | |- context [Sort.main_loop fuel today code (period_pos + 1) ?out] =>
      destruct (IH today code (period_pos + 1) out ltac:(lia)) as (t & Ht & Hi)
  end.
  rewrite Ht, !concat_snoc.
  rewrite (@from_split code i sel_pos) by lia.
  rewrite (@from_split code sel_pos (period_pos + 1)) by lia.
  destruct ins as [insertion|].
  - exists (slice code i sel_pos
            ++ slice code sel_pos (period_pos + 1) ++ insertion ++ t).
    split; [rewrite <- !app_assoc; reflexivity|].
    apply inserted_app; [apply inserted_refl|].
    apply inserted_app; [apply inserted_refl|].
    constructor; [apply Hfrag; reflexivity|exact Hi].
  - exists (slice code i sel_pos ++ slice code sel_pos (period_pos + 1) ++ t).
    split; [rewrite <- !app_assoc; reflexivity|].
    apply inserted_app; [apply inserted_refl|].
    apply inserted_app; [apply inserted_refl|exact Hi].
Qed.

Lemma process_sort_spec (today code : str) :
  exists out, Sort.process_sort today code = Ok out
              /\ inserted (sort_fragment today) code out.
Proof.
  destruct (@sort_main_loop_spec (S (length code)) today code 0 [] ltac:(lia))
    as (t & Ht & Hi).
  exists t. split; [exact Ht|exact Hi].
Qed.

Lemma process_sort_returns (today code : str) : returns (Sort.process_sort today code).
Proof. destruct (process_sort_spec today code) as (out & H & _). exists out; exact H. Qed.

(** *** orderby.py *)

Lemma orderby_find_phrase_loop_returns : forall fuel s r i q,
  length s - i < fuel -> returns (Orderby.find_phrase_loop fuel s r i q).
Proof.
  induction fuel as [|fuel IH]; intros s r i q Hf; [lia|].
  cbn [Orderby.find_phrase_loop].
  destruct (Nat.leb_spec (length s) i) as [Hge|Hlt]; [apply returns_ok|].
  destruct (get_lt s Hlt) as (c & Hc & Hn). rewrite Hc. cbn [bind].
  assert (Hrec : forall j q', i < j -> returns (Orderby.find_phrase_loop fuel s r j q')).
  { intros j q' Hj. apply IH. lia. }
  destruct q.
  - destruct (is_chr dq c) eqn:Edq.
    + apply Hrec.
      assert (i < skip_line_comment s i)
        by (apply skip_line_comment_gt with c; [exact Hn|apply dq_not_nl; exact Edq]).
      lia.
    + bind_ret (star_at_bol_returns s c (Nat.lt_le_incl _ _ Hlt)).
      destruct x.
      * apply Hrec.
        assert (i < skip_full_line_star_comment s i).
        { apply skip_line_comment_gt with c; [exact Hn|].
          apply star_not_nl. eapply star_at_bol_true; exact E. }
        lia.
      * destruct (open_quote c); [apply Hrec; lia|].
        destruct (search_pos r s i); apply returns_ok.
  - pose proof (quoted_step_gt s i InSq c) as Hq.
    destruct (quoted_step s i InSq c) as [i' q']. apply Hrec. exact Hq.
  - pose proof (quoted_step_gt s i InBt c) as Hq.
    destruct (quoted_step s i InBt c) as [i' q']. apply Hrec. exact Hq.
  - pose proof (quoted_step_gt s i InTpl c) as Hq.
    destruct (quoted_step s i InTpl c) as [i' q']. apply Hrec. exact Hq.
Qed.

Lemma orderby_find_phrase_returns (s : str) (r : re) (start : nat) :
  returns (Orderby.find_phrase s r start).
Proof. apply orderby_find_phrase_loop_returns. lia. Qed.

Lemma orderby_merge_loop_returns : forall fuel toks k curr final_items,
  length toks - k < fuel -> returns (Orderby.merge_loop fuel toks k curr final_items).
Proof.
  induction fuel as [|fuel IH]; intros toks k curr final_items Hf; [lia|].
  cbn [Orderby.merge_loop].
  destruct (Nat.leb_spec (length toks) k) as [Hge|Hlt]; [apply returns_ok|].
  destruct (get_lt toks Hlt) as (tok & Htok & _). rewrite Htok. cbn [bind].
  destruct (str_eqb (lower tok) (L "as") && _).
  - destruct (Nat.ltb_spec (k + 1) (length toks)) as [Hk|Hk]; [|apply IH; lia].
    destruct (get_lt toks Hk) as (al & Hal & _). rewrite Hal. cbn [bind].
    apply IH. lia.
  - destruct (str_eqb (lower tok) (L "distinct")); [apply IH; lia|].
    destruct ((1 <=? length (curr ++ [tok])) && (k + 1 <? length toks)) eqn:En;
      [|apply IH; lia].
    apply andb_prop in En. destruct En as [_ Hk]. apply Nat.ltb_lt in Hk.
    destruct (get_lt toks Hk) as (nxt & Hnxt & _). rewrite Hnxt. cbn [bind].
    apply IH. lia.
Qed.

Lemma orderby_merge_items_returns : forall items final_items,
  returns (Orderby.merge_items items final_items).
Proof.
  induction items as [|it rest IH]; intros final_items; cbn [Orderby.merge_items];
    [apply returns_ok|].
  destruct (filter _ (split_on sp (strip it))) as [|tk toks] eqn:Et; [apply IH|].
  bind_ret (@orderby_merge_loop_returns (S (length (tk :: toks))) (tk :: toks) 0 []
              final_items ltac:(lia)).
  destruct x as [curr final1]. apply IH.
Qed.

Lemma orderby_alias_or_head_returns (it : str) (m : rmatch) :
  returns (Orderby.alias_or_head it m).
Proof.
  unfold Orderby.alias_or_head.
  destruct (is_empty (strip (from_ it (m_end m)))) eqn:E; cbn [bind]; [apply returns_ok|].
  bind_ret (first_word_returns (from_ it (m_end m)) E). apply returns_ok.
Qed.

Lemma orderby_comma_items_returns (items : list str) :
  returns (Orderby.comma_items items).
Proof.
  induction items as [|it rest IH]; cbn [Orderby.comma_items]; [apply returns_ok|].
  destruct (re_search as_re it) as [m|]; cbn [bind].
  - bind_ret (orderby_alias_or_head_returns it m). bind_ret IH. apply returns_ok.
  - bind_ret IH. apply returns_ok.
Qed.

Lemma orderby_split_fields_returns (seg : str) : returns (Orderby.split_fields seg).
Proof.
  unfold Orderby.split_fields.
  destruct (is_empty (strip seg)); [apply returns_ok|].
  destruct (str_eqb (strip seg) [star] || _); [apply returns_ok|].
  bind_ret (tokenize_returns true (strip seg)).
  bind_ret (orderby_merge_items_returns x []).
  destruct (contains_chr comma seg); cbn [bind]; [|apply returns_ok].
  bind_ret (orderby_comma_items_returns x). apply returns_ok.
Qed.

Lemma orderby_clean_field_returns (f : str) : returns (Orderby.clean_field f).
Proof.
  unfold Orderby.clean_field.
  destruct (is_empty (strip f)); [apply returns_ok|].
  cbv zeta.
  match goal with
  | |- context [re_search as_re ?t] => destruct (re_search as_re t) as [m|] eqn:Em
  end; cbn [bind]; [|apply returns_ok].
  match goal with
  | |- context [Orderby.alias_or_head ?t m] =>
      bind_ret (orderby_alias_or_head_returns t m)
  end.
  apply returns_ok.
Qed.

Lemma orderby_clean_fields_returns (fields : list str) :
  returns (Orderby.clean_fields fields).
Proof.
  induction fields as [|f rest IH]; cbn [Orderby.clean_fields]; [apply returns_ok|].
  bind_ret (orderby_clean_field_returns f). bind_ret IH. apply returns_ok.
Qed.

Lemma orderby_clause_of_returns (fields : list str) :
  returns (Orderby.orderby_clause_of fields).
Proof.
  unfold Orderby.orderby_clause_of.
  destruct (no_usable_fields fields); [apply returns_ok|].
  bind_ret (orderby_clean_fields_returns fields). apply returns_ok.
Qed.

Lemma orderby_insert_pos_of_returns (stmt : str) : returns (Orderby.insert_pos_of stmt).
Proof.
  unfold Orderby.insert_pos_of.
  bind_ret (find_kw_returns stmt (L "where") 0).
  destruct x as [w|]; [|apply returns_ok].
  unfold Orderby.find_next_any_kw.
  bind_ret (@find_next_any_kw_with_returns find_kw find_kw_returns stmt
              Orderby.WHERE_TERMINATORS (w + 5)).
  apply returns_ok.
Qed.

Lemma orderby_trigger_returns (code : str) (scan : nat) :
  returns (Orderby.trigger code scan).
Proof. exact (select_lead_trigger_returns code scan). Qed.

Lemma orderby_replacement_of_returns (today code : str) (sel_pos period : nat) :
  sel_pos <= length code ->
  returns (Orderby.replacement_of today code sel_pos period).
Proof.
  intros Hpos.
  unfold Orderby.replacement_of, Orderby.has_for_all_entries, Orderby.has_order_by.
  bind_ret (orderby_find_phrase_returns (slice code sel_pos period) fae_re 0).
  assert (Hskip : returns
            (if match x with Some _ => true | None => false end then Ok true
             else r <- Orderby.find_phrase (slice code sel_pos period)
                         Orderby.order_by_re 0 ;;
                  Ok match r with Some _ => true | None => false end)).
  { destruct x; [apply returns_ok|].
    bind_ret (orderby_find_phrase_returns (slice code sel_pos period)
                Orderby.order_by_re 0).
    apply returns_ok. }
  bind_ret Hskip.
  destruct x0; [apply returns_ok|].
  destruct (get_line_indent_before_spec code Hpos) as (indent & Hindent & _).
  rewrite Hindent. cbn [bind].
  bind_ret (extract_select_list_returns (slice code sel_pos period)).
  bind_ret (orderby_split_fields_returns x0).
  bind_ret (orderby_clause_of_returns x1).
  bind_ret (orderby_insert_pos_of_returns (slice code sel_pos period)).
  apply returns_ok.
Qed.

Lemma orderby_main_loop_returns : forall fuel today code i out,
  length code - i < fuel -> returns (Orderby.main_loop fuel today code i out).
Proof.
  induction fuel as [|fuel IH]; intros today code i out Hf; [lia|].
  cbn [Orderby.main_loop].
  destruct (Nat.leb_spec (length code) i) as [Hge|Hlt]; [apply returns_ok|].
  destruct (@scan_next_spec Orderby.trigger (fun c k _ => orderby_trigger_returns c k) code i)
    as (found & Hfound & Hb).
  rewrite Hfound. cbn [bind].
  destruct found as [sel_pos|]; [|apply returns_ok].
  specialize (Hb sel_pos eq_refl).
  destruct (find_statement_period_spec code sel_pos) as (period & Hperiod & Hp).
  rewrite Hperiod. cbn [bind].
  destruct period as [period_pos|]; [|apply returns_ok].
  specialize (Hp period_pos eq_refl).
  bind_ret (@orderby_replacement_of_returns today code sel_pos period_pos ltac:(lia)).
  apply IH. lia.
Qed.

Lemma process_orderby_returns (today code : str) :
  returns (Orderby.process_orderby today code).
Proof. apply orderby_main_loop_returns. lia. Qed.

(** *** read_statement.py *)

Lemma rfind_chr_bound (c : ascii) (s : str) : forall hi k,
  rfind_chr c s hi = Some k -> k < hi.
Proof.
  induction hi as [|h IH]; intros k; simpl; [discriminate|].
  destruct (peek_is s h c).
  - intros [= <-]. lia.
  - intros H. apply IH in H. lia.
Qed.

Lemma line_start_of_le (s : str) (pos : nat) : line_start_of s pos <= pos.
Proof.
  unfold line_start_of. destruct (rfind_chr nl s pos) as [k|] eqn:E; [|lia].
  apply rfind_chr_bound in E. lia.
Qed.

Lemma read_prev_executable_line_start_loop_returns : forall fuel s i,
  i < fuel -> i <= length s -> returns (Read.prev_executable_line_start_loop fuel s i).
Proof.
  induction fuel as [|fuel IH]; intros s i Hf Hi; [lia|].
  cbn [Read.prev_executable_line_start_loop].
  destruct (Nat.leb_spec i 0) as [H0|H0]; [apply returns_ok|].
  pose proof (line_start_of_le s i) as Hls.
  rewrite (skip_blanks_upto_ok s (line_start_of s i) Hi). cbn [bind].
  set (ls := line_start_of s i) in *.
  set (k := ls + span is_blank (slice s ls i)).
  assert (Hup : (if 0 <? ls then ls - 1 else 0) < i).
  { destruct (Nat.ltb_spec 0 ls); lia. }
  destruct ((i <=? k) || peek (fun c => is_chr nl c || is_chr cr c) s k) eqn:E.
  - apply IH; lia.
  - apply orb_false_elim in E. destruct E as [E _]. apply Nat.leb_gt in E.
    assert (Hk : k < length s) by lia.
    destruct (get_lt s Hk) as (c & Hc & _). rewrite Hc. cbn [bind].
    destruct (is_chr star c); [apply IH; lia|].
    destruct (is_chr dq c); [apply IH; lia|apply returns_ok].
Qed.

Lemma read_is_sort_immediately_before_returns (s : str) (read_pos : nat) (itab : str) :
  read_pos <= length s -> returns (Read.is_sort_immediately_before s read_pos itab).
Proof.
  intros H. unfold Read.is_sort_immediately_before, Read.prev_executable_line_start.
  bind_ret (@read_prev_executable_line_start_loop_returns (S (length s)) s read_pos
              ltac:(lia) H).
  destruct x as [p|]; [|apply returns_ok].
  destruct (re_match Read.sort_line_re (code_of_line s p)) as [m|]; [|apply returns_ok].
  destruct (group (code_of_line s p) m 1); apply returns_ok.
Qed.

Lemma read_trigger_returns (code : str) (scan : nat) : returns (Read.trigger code scan).
Proof.
  unfold Read.trigger.
  bind_ret (match_kw_at_returns code scan (L "read")).
  destruct x; [apply match_kw_at_returns|apply returns_ok].
Qed.

(** [insertion_of] returns, and what it returns is a [SORT] statement
    and a tag line behind the indentation of the read. *)
Lemma read_insertion_of_spec (today code : str) (read_pos period_pos : nat) :
  read_pos <= length code ->
  exists r, Read.insertion_of today code read_pos period_pos = Ok r
            /\ forall ins, r = Some ins -> read_fragment today ins.
Proof.
  intros Hpos. unfold Read.insertion_of.
  destruct (Read.extract_itab (slice code read_pos period_pos)) as [itab|];
    [|exists None; split; [reflexivity|discriminate]].
  destruct (is_empty itab); [exists None; split; [reflexivity|discriminate]|].
  cbv zeta.
  destruct (negb _); [exists None; split; [reflexivity|discriminate]|].
  bind_ret (read_is_sort_immediately_before_returns code itab Hpos).
  destruct x; [exists None; split; [reflexivity|discriminate]|].
  destruct (get_line_indent_before_spec code Hpos) as (indent & Hindent & Hblanks).
  rewrite Hindent. cbn [bind].
  eexists. split; [reflexivity|]. intros ins [= <-].
  exists indent.
  destruct (Read.read_has_index (slice code read_pos period_pos)).
  - exists itab. split; [exact Hblanks|reflexivity].
  - destruct (Read.extract_key_fields (slice code read_pos period_pos)) as [|f fs].
    + exists itab. split; [exact Hblanks|reflexivity].
    + exists (itab ++ L " BY " ++ join [sp] (dedupe (f :: fs))).
      split; [exact Hblanks|].
      rewrite <- (app_assoc itab). rewrite <- (app_assoc (L " BY ")). reflexivity.
Qed.

(** The main loop of read_statement.py returns, and it returns what it
    had collected followed by the rest of the text with fragments
    inserted. *)
Lemma read_main_loop_spec : forall fuel today code i out_parts,
  length code - i < fuel ->
  exists t, Read.main_loop fuel today code i out_parts = Ok (concat out_parts ++ t)
            /\ inserted (read_fragment today) (from_ code i) t.
Proof.
  induction fuel as [|fuel IH]; intros today code i out_parts Hf; [lia|].
  cbn [Read.main_loop].
  destruct (Nat.leb_spec (length code) i) as [Hge|Hlt].
  { exists []. rewrite app_nil_r, from_beyond by exact Hge. split; [reflexivity|constructor]. }
  destruct (@scan_next_spec Read.trigger (fun c k _ => read_trigger_returns c k) code i)
    as (found & Hfound & Hb).
  rewrite Hfound. cbn [bind].
  destruct found as [read_pos|].
  2:{ exists (from_ code i). rewrite concat_snoc. split; [reflexivity|apply inserted_refl]. }
  specialize (Hb read_pos eq_refl).
  destruct (find_statement_period_spec code read_pos) as (period & Hperiod & Hp).
  rewrite Hperiod. cbn [bind].
  destruct period as [period_pos|].
  2:{ exists (from_ code i). rewrite !concat_snoc, <- app_assoc.
      rewrite <- from_split by lia. split; [reflexivity|apply inserted_refl]. }
  specialize (Hp period_pos eq_refl).
  destruct (@read_insertion_of_spec today code read_pos period_pos ltac:(lia))
    as (ins & Hins & Hfrag).
  rewrite Hins. cbn [bind].
  match goal with
  | |- context [Read.main_loop fuel today code (period_pos + 1) ?out] =>
      destruct (IH today code (period_pos + 1) out ltac:(lia)) as (t & Ht & Hi)
  end.
  rewrite Ht.
  rewrite (@from_split code i read_pos) by lia.
  rewrite (@from_split code read_pos (period_pos + 1)) by lia.
  destruct ins as [insertion|].
  - exists (slice code i read_pos
            ++ insertion ++ slice code read_pos (period_pos + 1) ++ t).
    split.
    + rewrite !concat_app. simpl. rewrite !app_nil_r, <- !app_assoc. reflexivity.
    + apply inserted_app; [apply inserted_refl|].
      constructor; [apply Hfrag; reflexivity|].
      apply inserted_app; [apply inserted_refl|exact Hi].
  - exists (slice code i read_pos ++ slice code read_pos (period_pos + 1) ++ t).
    split; [rewrite !concat_snoc, <- !app_assoc; reflexivity|].
    apply inserted_app; [apply inserted_refl|].
    apply inserted_app; [apply inserted_refl|exact Hi].
Qed.

Lemma process_read_spec (today code : str) :
  exists out, Read.process_read today code = Ok out
              /\ inserted (read_fragment today) code out.
Proof.
  destruct (@read_main_loop_spec (S (length code)) today code 0 [] ltac:(lia))
    as (t & Ht & Hi).
  exists t. split; [exact Ht|exact Hi].
Qed.

Lemma process_read_returns (today code : str) : returns (Read.process_read today code).
Proof. destruct (process_read_spec today code) as (out & H & _). exists out; exact H. Qed.

Lemma remediate_returns (today code : str) : returns (remediate today code).
Proof.
  unfold remediate.
  bind_ret (process_select_returns today code).
  bind_ret (process_sort_returns today x).
  bind_ret (process_orderby_returns today x0).
  apply process_read_returns.
Qed.

(** ** Unterminated statements and unclosed regions *)

Lemma trigger_of_returns (p : pass) (code : str) (scan : nat) :
  scan < length code -> returns (trigger_of p code scan).
Proof.
  intros H. destruct p; cbn [trigger_of].
  - apply select_trigger_returns; exact H.
  - apply select_lead_trigger_returns.
  - apply orderby_trigger_returns.
  - apply read_trigger_returns.
Qed.

Lemma run_returns (p : pass) (today code : str) : returns (run p today code).
Proof.
  destruct p; cbn [run].
  - apply process_select_returns.
  - apply process_sort_returns.
  - apply process_orderby_returns.
  - apply process_read_returns.
Qed.

Lemma main_loop_of_returns (p : pass) (fuel : nat) (today code : str) :
  length code < fuel -> returns (main_loop_of p fuel today code 0 []).
Proof.
  intros H. destruct p; cbn [main_loop_of].
  - apply select_main_loop_returns. lia.
  - destruct (@sort_main_loop_spec fuel today code 0 [] ltac:(lia)) as (t & Ht & _).
    eexists; exact Ht.
  - apply orderby_main_loop_returns. lia.
  - destruct (@read_main_loop_spec fuel today code 0 [] ltac:(lia)) as (t & Ht & _).
    eexists; exact Ht.
Qed.

Lemma run_empty (p : pass) (today : str) : run p today [] = Ok [].
Proof. destruct p; reflexivity. Qed.

(** When the scan finds no trigger the rest of the text is emitted as
    it is. *)
Lemma main_loop_no_trigger (p : pass) (fuel : nat) (today code : str) (i : nat)
  (out_parts : list str) :
  i < length code ->
  scan_next (trigger_of p) code i = Ok None ->
  main_loop_of p (S fuel) today code i out_parts = Ok (concat out_parts ++ from_ code i).
Proof.
  intros Hi Hscan. apply Nat.leb_gt in Hi.
  destruct p; cbn [main_loop_of trigger_of Select.main_loop Sort.main_loop
                   Orderby.main_loop Read.main_loop] in *;
    rewrite Hi, Hscan; cbn [bind]; rewrite concat_snoc; reflexivity.
Qed.

(** When the triggering statement has no period the rest of the text is
    emitted as it is. *)
Lemma main_loop_unterminated (p : pass) (fuel : nat) (today code : str) (i sel : nat)
  (out_parts : list str) :
  i < length code ->
  scan_next (trigger_of p) code i = Ok (Some sel) ->
  period_of p code sel = Ok None ->
  main_loop_of p (S fuel) today code i out_parts = Ok (concat out_parts ++ from_ code i).
Proof.
  intros Hi Hscan Hperiod.
  assert (Hsel : i <= sel).
  { destruct (@scan_next_spec (trigger_of p) (trigger_of_returns p) code i)
      as (r & Hr & Hb).
    rewrite Hscan in Hr. injection Hr as <-. specialize (Hb sel eq_refl). lia. }
  apply Nat.leb_gt in Hi.
  destruct p; cbn [main_loop_of trigger_of period_of Select.main_loop Sort.main_loop
                   Orderby.main_loop Read.main_loop] in *;
    rewrite Hi, Hscan; cbn [bind]; rewrite Hperiod; cbn [bind];
    rewrite !concat_snoc, <- app_assoc, <- from_split by exact Hsel; reflexivity.
Qed.

Lemma skipn_cons (s : str) (c : ascii) : forall i,
  nth_error s i = Some c -> skipn i s = c :: skipn (i + 1) s.
Proof.
  induction s as [|x s IH]; intros [|i] Hn; simpl in *; try discriminate.
  - injection Hn as ->. reflexivity.
  - apply IH. exact Hn.
Qed.

Lemma skipn_eq_cons (s : str) (c : ascii) (t : str) : forall i,
  skipn i s = c :: t -> nth_error s i = Some c /\ t = skipn (i + 1) s.
Proof.
  induction s as [|x s IH]; intros [|i] H; simpl in *; try discriminate.
  - injection H as -> ->. split; reflexivity.
  - apply IH. exact H.
Qed.

(** Inside a region that is never closed, one iteration moves forward
    and stays in the region. *)
Lemma quoted_step_never_closed (q : quote) (code : str) (i : nat) (c : ascii) :
  nth_error code i = Some c ->
  never_closed q code i = true ->
  exists j, quoted_step code i q c = (j, q) /\ i < j /\ never_closed q code j = true.
Proof.
  unfold never_closed, from_, quoted_step. intros Hn H.
  rewrite (skipn_cons code i Hn) in H. cbn [closing] in H.
  destruct (is_chr (delim q) c).
  - destruct (skipn (i + 1) code) as [|c' s''] eqn:Es; [discriminate|].
    apply skipn_eq_cons in Es. destruct Es as [Hn' ->].
    destruct (is_chr (delim q) c') eqn:Ed; [|discriminate].
    unfold peek_is. rewrite Hn', Ed.
    exists (i + 2). split; [reflexivity|]. split; [lia|].
    replace (i + 2) with (i + 1 + 1) by lia.
    destruct (closing (delim q) (skipn (i + 1 + 1) code)); [discriminate|reflexivity].
  - exists (i + 1). split; [reflexivity|]. split; [lia|].
    destruct (closing (delim q) (skipn (i + 1) code)); [discriminate|reflexivity].
Qed.

(** A string or template that is still open and is never closed keeps
    the scan in that state to the end of the text. *)
Lemma scan_loop_never_closed (trigger : str -> nat -> res bool) : forall fuel code i q,
  q <> Code -> never_closed q code i = true -> length code - i < fuel ->
  scan_loop trigger fuel code i q = Ok None.
Proof.
  induction fuel as [|fuel IH]; intros code i q Hq Hopen Hf; [lia|].
  cbn [scan_loop].
  destruct (Nat.leb_spec (length code) i) as [Hge|Hlt]; [reflexivity|].
  destruct (get_lt code Hlt) as (c & Hc & Hn). rewrite Hc. cbn [bind].
  destruct (quoted_step_never_closed q code i Hn Hopen) as (j & Hj & Hlt' & Hnext).
  destruct q; [contradiction| | |]; rewrite Hj; apply IH; try assumption; lia.
Qed.

Lemma period_loop_never_closed (p : pass) : forall fuel code i q,
  q <> Code -> never_closed q code i = true -> length code - i < fuel ->
  period_loop_of p fuel code i q = Ok None.
Proof.
  induction fuel as [|fuel IH]; intros code i q Hq Hopen Hf; [lia|].
  assert (Hstep : forall loop : nat -> str -> nat -> quote -> res (option nat),
            (forall j, i < length code -> i < j -> never_closed q code j = true ->
                       loop fuel code j q = Ok None) ->
            (if length code <=? i then Ok None
             else c <- get code i ;;
                  let '(i', q') := quoted_step code i q c in loop fuel code i' q') = Ok None).
  { intros loop Hl.
    destruct (Nat.leb_spec (length code) i) as [Hge|Hlt]; [reflexivity|].
    destruct (get_lt code Hlt) as (c & Hc & Hn). rewrite Hc. cbn [bind].
    destruct (quoted_step_never_closed q code i Hn Hopen) as (j & Hj & Hlt' & Hnext).
    rewrite Hj. apply Hl; assumption. }
  assert (Hrec : forall j, i < length code -> i < j -> never_closed q code j = true ->
                           period_loop_of p fuel code j q = Ok None).
  { intros j Hi Hj Hn. apply IH; [exact Hq|exact Hn|lia]. }
  destruct p; cbn [period_loop_of Select.find_statement_period_loop
                   find_statement_period_loop] in *;
    destruct q; try contradiction; apply (Hstep _ Hrec).
Qed.

Lemma open_comment_at_facts (code : str) (i : nat) :
  open_comment_at code i ->
  exists c, i < length code /\ get code i = Ok c /\ nth_error code i = Some c
            /\ (is_chr dq c = true
                \/ (is_chr dq c = false /\ star_at_bol code i c = Ok true))
            /\ skip_line_comment code i = length code.
Proof.
  intros [Hc Hnl].
  assert (Hlt : i < length code).
  { destruct Hc as [Hc|[Hc _]]; apply peek_is_lt in Hc; tauto. }
  destruct (get_lt code Hlt) as (c & Hg & Hn). exists c.
  split; [exact Hlt|]. split; [exact Hg|]. split; [exact Hn|]. split.
  - unfold peek_is in Hc. rewrite Hn in Hc.
    destruct (is_chr dq c) eqn:Edq; [left; reflexivity|right].
    split; [reflexivity|].
    destruct Hc as [Hc|[Hc Hb]]; [discriminate|].
    unfold star_at_bol. rewrite Hc. exact Hb.
  - unfold skip_line_comment. rewrite Hnl. reflexivity.
Qed.

(** A comment that is not followed by a newline takes the scan to the
    end of the text. *)
Lemma scan_loop_open_comment (trigger : str -> nat -> res bool) (fuel : nat)
  (code : str) (i : nat) :
  open_comment_at code i ->
  scan_loop trigger (S (S fuel)) code i Code = Ok None.
Proof.
  intros H. destruct (open_comment_at_facts H) as (c & Hlt & Hg & _ & Hk & Hs).
  cbn [scan_loop].
  assert (Hi : (length code <=? i) = false) by (apply Nat.leb_gt; exact Hlt).
  rewrite Hi, Hg. cbn [bind].
  unfold skip_full_line_star_comment. fold (skip_line_comment code i).
  destruct Hk as [Hk|[Hk Hb]]; rewrite Hk; [|rewrite Hb; cbn [bind]];
    rewrite Hs, Nat.ltb_irrefl, Nat.leb_refl; reflexivity.
Qed.

Lemma skip_while_not_nl_open (code : str) (i : nat) :
  i <= length code -> find_chr nl code i = None ->
  skip_while Select.not_nl code i = length code.
Proof.
  intros Hi H. unfold skip_while, find_chr in *.
  assert (Hs : forall s, index_of (is_chr nl) s = None -> span Select.not_nl s = length s).
  { induction s as [|x s IH]; simpl; [reflexivity|].
    unfold Select.not_nl at 1. destruct (is_chr nl x); [discriminate|].
    destruct (index_of (is_chr nl) s); [discriminate|].
    intros _. simpl. f_equal. apply IH. reflexivity. }
  destruct (index_of (is_chr nl) (skipn i code)) eqn:E; [discriminate|].
  rewrite (Hs _ E), length_skipn. lia.
Qed.

(** ... and the search for the period as well. *)
Lemma period_loop_open_comment (p : pass) (fuel : nat) (code : str) (i : nat) :
  open_comment_at code i ->
  period_loop_of p (S (S fuel)) code i Code = Ok None.
Proof.
  intros H. destruct (open_comment_at_facts H) as (c & Hlt & Hg & _ & Hk & Hs).
  assert (Hs' : skip_while Select.not_nl code i = length code).
  { apply skip_while_not_nl_open; [lia|]. destruct H as [_ H]. exact H. }
  assert (Hi : (length code <=? i) = false) by (apply Nat.leb_gt; exact Hlt).
  destruct p; cbn [period_loop_of Select.find_statement_period_loop
                   find_statement_period_loop];
    rewrite Hi, Hg; cbn [bind];
    unfold skip_full_line_star_comment; fold (skip_line_comment code i);
    (destruct Hk as [Hk|[Hk Hb]]; rewrite Hk; [|rewrite Hb; cbn [bind]]);
    rewrite ?Hs, ?Hs', Nat.leb_refl; reflexivity.
Qed.

(** ** A period is only recognized in code state *)

Lemma span_not_nl_find (t : str) :
  span Select.not_nl t
  = match index_of (is_chr nl) t with Some k => k | None => length t end.
Proof.
  induction t as [|x t IH]; simpl; [reflexivity|].
  unfold Select.not_nl at 1. destruct (is_chr nl x); simpl; [reflexivity|].
  rewrite IH. destruct (index_of (is_chr nl) t); reflexivity.
Qed.

Lemma skip_while_not_nl_eq (s : str) (i : nat) :
  i <= length s -> skip_while Select.not_nl s i = skip_line_comment s i.
Proof.
  intros H. unfold skip_while, skip_line_comment, find_chr.
  rewrite span_not_nl_find.
  destruct (index_of (is_chr nl) (skipn i s)); [reflexivity|].
  rewrite length_skipn. lia.
Qed.

(** select.py and the other three files search the period alike. *)
Lemma select_period_loop_eq : forall fuel s i q,
  Select.find_statement_period_loop fuel s i q = find_statement_period_loop fuel s i q.
Proof.
  induction fuel as [|fuel IH]; intros s i q; [reflexivity|].
  cbn [Select.find_statement_period_loop find_statement_period_loop].
  destruct (Nat.leb_spec (length s) i) as [Hge|Hlt]; [reflexivity|].
  destruct (get s i) as [c|e]; cbn [bind]; [|reflexivity].
  unfold skip_full_line_star_comment. fold (skip_line_comment s i).
  rewrite skip_while_not_nl_eq by lia.
  destruct q.
  - destruct (is_chr dq c); [apply IH|].
    destruct (star_at_bol s i c) as [b|e]; cbn [bind]; [|reflexivity].
    destruct b; [apply IH|].
    destruct (open_quote c); [apply IH|].
    destruct (is_chr dot c); [reflexivity|apply IH].
  - destruct (quoted_step s i InSq c). apply IH.
  - destruct (quoted_step s i InBt c). apply IH.
  - destruct (quoted_step s i InTpl c). apply IH.
Qed.

(** Outside code the column of the first character does not matter. *)
Lemma lex_states_bol (st : lex_state) (b b' : bool) (s : str) :
  st <> LCode -> lex_states st b s = lex_states st b' s.
Proof. intros H. destruct s; destruct st; try contradiction; reflexivity. Qed.

(** A comment covers the characters before the next newline; the scan
    is back in code at that newline. *)
Lemma lex_states_comment (st : lex_state) (b b' : bool) : forall t,
  st = LLineComment \/ st = LFullLineComment ->
  lex_states st b t
  = repeat st (span Select.not_nl t)
    ++ lex_states LCode b' (skipn (span Select.not_nl t) t).
Proof.
  intros t Hst. revert b. induction t as [|x t IH]; intros b; [reflexivity|].
  cbn [span]. unfold Select.not_nl at 1 3.
  assert (Hstep : lex_states st b (x :: t)
                  = if is_chr nl x then LCode :: lex_states LCode true t
                    else st :: lex_states st false t).
  { destruct Hst as [-> | ->]; reflexivity. }
  rewrite Hstep. destruct (is_chr nl x) eqn:E; cbn [negb].
  - apply is_chr_true in E. subst x. reflexivity.
  - cbn [repeat skipn app]. f_equal. apply IH.
Qed.

Lemma first_column_next (s : str) (i : nat) (c : ascii) :
  nth_error s i = Some c -> first_column s (i + 1) = is_chr nl c.
Proof.
  intros Hn. replace (i + 1) with (S i) by lia. cbn [first_column].
  unfold peek_is. rewrite Hn. reflexivity.
Qed.

Lemma at_bol_first_column (s : str) (i : nat) (b : bool) :
  at_bol s i = Ok b -> first_column s i = b.
Proof.
  destruct i as [|j]; cbn [at_bol first_column].
  - intros [= <-]. reflexivity.
  - unfold get, peek_is. destruct (nth_error s j); cbn [bind]; [|discriminate].
    intros [= <-]. reflexivity.
Qed.

(** What the search for the period returns is a period, and the
    character there is in code state. *)
Lemma period_loop_in_code : forall fuel s i q p,
  find_statement_period_loop fuel s i q = Ok (Some p) ->
  i <= p
  /\ nth_error s p = Some dot
  /\ nth_error (lex_states (lex_of q) (first_column s i) (skipn i s)) (p - i)
     = Some LCode.
Proof.
  induction fuel as [|fuel IH]; intros s i q p H; [discriminate|].
  cbn [find_statement_period_loop] in H.
  destruct (Nat.leb_spec (length s) i) as [Hge|Hlt]; [discriminate|].
  destruct (get_lt s Hlt) as (c & Hc & Hn). rewrite Hc in H. cbn [bind] in H.
  rewrite (skipn_cons s i Hn).
  assert (Hcomment : forall st,
            st = LLineComment \/ st = LFullLineComment ->
            is_chr nl c = false ->
            find_statement_period_loop fuel s (skip_line_comment s i) Code = Ok (Some p) ->
            i <= p /\ nth_error s p = Some dot
            /\ nth_error (st :: lex_states st false (skipn (i + 1) s)) (p - i)
               = Some LCode).
  { intros st Hst Hnl Hrec. apply IH in Hrec. destruct Hrec as (Hle & Hdot & Hstate).
    assert (He : skip_line_comment s i
                 = i + 1 + span Select.not_nl (skipn (i + 1) s)).
    { rewrite <- skip_while_not_nl_eq by lia. unfold skip_while.
      rewrite (skipn_cons s i Hn). cbn [span]. unfold Select.not_nl at 1.
      rewrite Hnl. cbn [negb]. lia. }
    split; [lia|]. split; [exact Hdot|].
    rewrite (lex_states_comment false (first_column s (skip_line_comment s i))
               (skipn (i + 1) s) Hst).
    replace (p - i)
      with (S (span Select.not_nl (skipn (i + 1) s) + (p - skip_line_comment s i)))
      by lia.
    cbn [nth_error]. rewrite nth_error_app2 by (rewrite repeat_length; lia).
    rewrite repeat_length, skipn_skipn.
    replace (span Select.not_nl (skipn (i + 1) s) + (i + 1))
      with (skip_line_comment s i) by lia.
    replace (span Select.not_nl (skipn (i + 1) s) + (p - skip_line_comment s i)
             - span Select.not_nl (skipn (i + 1) s))
      with (p - skip_line_comment s i) by lia.
    exact Hstate. }
  assert (Hnext : forall q' st b,
            find_statement_period_loop fuel s (i + 1) q' = Ok (Some p) ->
            lex_states (lex_of q') (first_column s (i + 1)) (skipn (i + 1) s)
            = lex_states (lex_of q') b (skipn (i + 1) s) ->
            i <= p /\ nth_error s p = Some dot
            /\ nth_error (st :: lex_states (lex_of q') b (skipn (i + 1) s)) (p - i)
               = Some LCode).
  { intros q' st b Hrec Hb. apply IH in Hrec. destruct Hrec as (Hle & Hdot & Hstate).
    split; [lia|]. split; [exact Hdot|].
    replace (p - i) with (S (p - (i + 1))) by lia. cbn [nth_error].
    rewrite <- Hb. exact Hstate. }
  assert (Hregion : forall q',
            q' <> Code ->
            (let '(i', q'') := quoted_step s i q' c in
             find_statement_period_loop fuel s i' q'') = Ok (Some p) ->
            delim q' = region_delim (lex_of q') ->
            i <= p /\ nth_error s p = Some dot
            /\ nth_error (lex_states (lex_of q') (first_column s i)
                            (c :: skipn (i + 1) s)) (p - i) = Some LCode).
  { intros q' Hq Hrec Hd.
    assert (Hstep : lex_states (lex_of q') (first_column s i) (c :: skipn (i + 1) s)
                    = if is_chr (region_delim (lex_of q')) c
                      then match skipn (i + 1) s with
                           | c' :: s'' =>
                               if is_chr (region_delim (lex_of q')) c'
                               then lex_of q' :: lex_of q'
                                    :: lex_states (lex_of q') false s''
                               else lex_of q'
                                    :: lex_states LCode false (skipn (i + 1) s)
                           | [] => [lex_of q']
                           end
                      else lex_of q' :: lex_states (lex_of q') false (skipn (i + 1) s)).
    { destruct q'; [contradiction| | |]; reflexivity. }
    rewrite Hstep. clear Hstep. unfold quoted_step in Hrec. rewrite Hd in Hrec.
    destruct (is_chr (region_delim (lex_of q')) c) eqn:Ec.
    - unfold peek_is in Hrec.
      destruct (nth_error s (i + 1)) as [c'|] eqn:Hn'.
      + rewrite (skipn_cons s (i + 1) Hn').
        destruct (is_chr (region_delim (lex_of q')) c') eqn:Ec'.
        * apply IH in Hrec. destruct Hrec as (Hle & Hdot & Hstate).
          split; [lia|]. split; [exact Hdot|].
          replace (p - i) with (S (S (p - (i + 2)))) by lia. cbn [nth_error].
          replace (i + 1 + 1) with (i + 2) by lia.
          rewrite (@lex_states_bol (lex_of q') false (first_column s (i + 2)));
            [exact Hstate|destruct q'; [contradiction| | |]; discriminate].
        * rewrite <- (skipn_cons s (i + 1) Hn').
          apply (Hnext Code (lex_of q') false Hrec).
          cbn [lex_of]. rewrite (first_column_next s i Hn).
          apply is_chr_true in Ec. subst c.
          destruct q'; [contradiction| | |]; reflexivity.
      + apply IH in Hrec. destruct Hrec as (Hle & Hdot & _).
        assert (p < length s) by (apply nth_error_Some; congruence).
        apply nth_error_None in Hn'. lia.
    - apply (Hnext q' (lex_of q') false Hrec).
      apply lex_states_bol. destruct q'; [contradiction| | |]; discriminate. }
  destruct q.
  2:{ apply (Hregion InSq); [discriminate|exact H|reflexivity]. }
  2:{ apply (Hregion InBt); [discriminate|exact H|reflexivity]. }
  2:{ apply (Hregion InTpl); [discriminate|exact H|reflexivity]. }
  cbn [lex_of lex_states].
  destruct (is_chr dq c) eqn:Edq.
  { apply Hcomment; [left; reflexivity| |exact H].
    apply is_chr_true in Edq. subst c. reflexivity. }
  destruct (star_at_bol s i c) as [b|e] eqn:Eb; cbn [bind] in H; [|discriminate].
  unfold star_at_bol in Eb.
  destruct (is_chr star c) eqn:Estar; cbn [andb].
  - apply at_bol_first_column in Eb. rewrite Eb. destruct b.
    + apply Hcomment; [right; reflexivity| |exact H].
      apply is_chr_true in Estar. subst c. reflexivity.
    + apply is_chr_true in Estar. subst c. cbn [open_quote is_chr] in *.
      change (open_quote star) with (@None quote) in *. cbv iota in H.
      change (is_chr dot star) with false in H. cbv iota in H.
      apply (Hnext Code LCode (is_chr nl star) H).
      cbn [lex_of]. rewrite (first_column_next s i Hn). reflexivity.
  - injection Eb as <-.
    destruct (open_quote c) as [q'|] eqn:Eq.
    + apply (Hnext q' (lex_of q') false H).
      apply lex_states_bol. unfold open_quote in Eq.
      destruct (is_chr sq c); [injection Eq as <-; discriminate|].
      destruct (is_chr bt c); [injection Eq as <-; discriminate|].
      destruct (is_chr bar c); [injection Eq as <-; discriminate|discriminate].
    + destruct (is_chr dot c) eqn:Edot.
      * injection H as <-. apply is_chr_true in Edot. subst c.
        split; [lia|]. split; [exact Hn|].
        rewrite Nat.sub_diag. reflexivity.
      * apply (Hnext Code LCode (is_chr nl c) H).
        cbn [lex_of]. rewrite (first_column_next s i Hn). reflexivity.
Qed.

(** The second sentence of C2 holds in the four passes: the index that
    [find_statement_period] returns holds a period, and that period is
    in code state: not in a literal, a template or a comment. *)
Theorem period_only_in_code_state : forall (p : pass) (code : str) (start pos : nat),
  period_of p code start = Ok (Some pos) ->
  nth_error code pos = Some dot /\ lex_state_at code start pos = Some LCode.
Proof.
  intros p code start pos H.
  assert (H' : find_statement_period_loop (S (length code)) code start Code
               = Ok (Some pos)).
  { destruct p; cbn [period_of] in H; try exact H.
    unfold Select.find_statement_period in H. rewrite select_period_loop_eq in H.
    exact H. }
  apply period_loop_in_code in H'. destruct H' as (_ & Hdot & Hstate).
  split; [exact Hdot|exact Hstate].
Qed.

(** ** The key list of sort.py *)

Lemma contains_chr_In (c : ascii) (s : str) : contains_chr c s = true <-> In c s.
Proof.
  unfold contains_chr. rewrite existsb_exists. split.
  - intros (x & Hx & E). apply is_chr_true in E. subst x. exact Hx.
  - intros H. exists c. split; [exact H|]. unfold is_chr. apply Ascii.eqb_refl.
Qed.

Lemma In_skipn {A : Type} (x : A) (n : nat) (l : list A) : In x (skipn n l) -> In x l.
Proof.
  revert l. induction n as [|n IH]; intros l H; [exact H|].
  destruct l as [|y l]; [exact H|]. right. apply IH. exact H.
Qed.

Lemma In_firstn {A : Type} (x : A) (n : nat) (l : list A) : In x (firstn n l) -> In x l.
Proof.
  revert l. induction n as [|n IH]; intros l H; [contradiction|].
  destruct l as [|y l]; [exact H|]. destruct H as [H|H]; [left; exact H|right; apply IH; exact H].
Qed.

Lemma In_slice (c : ascii) (s : str) (i j : nat) : In c (slice s i j) -> In c s.
Proof. unfold slice. intros H. apply In_firstn, In_skipn in H. exact H. Qed.

(** Deleting the matches of a pattern adds no character. *)
Lemma sub_loop_delete_incl (r : re) (s : str) (c : ascii) : forall fuel pos,
  In c (sub_loop fuel r (fun _ => []) s pos) -> In c s.
Proof.
  induction fuel as [|fuel IH]; intros pos; cbn [sub_loop].
  - apply In_skipn.
  - destruct (search_pos r s pos) as [m|]; [|apply In_skipn].
    destruct (m_end m <=? m_start m); intros H; apply in_app_or in H;
      destruct H as [H|H].
    + apply In_slice in H. exact H.
    + simpl in H. apply in_app_or in H. destruct H as [H|H].
      * apply In_slice in H. exact H.
      * apply IH in H. exact H.
    + apply In_slice in H. exact H.
    + simpl in H. apply IH in H. exact H.
Qed.


(** A name that [normalize_item] keeps is an alias, or has no
    parenthesis. *)
Lemma sort_normalize_item_no_paren (it f : str) :
  Sort.normalize_item it = Ok (Some f) ->
  (exists t, Sort.alias_of t = Ok (Some f))
  \/ (contains_chr lpar f = false /\ contains_chr rpar f = false).
Proof.
  unfold Sort.normalize_item.
  destruct (is_empty (strip it)); [discriminate|].
  match goal with
  | |- context [Sort.alias_of ?t] => destruct (Sort.alias_of t) as [[a|]|] eqn:Ea
  end; cbn [bind]; [| |discriminate].
  { intros [= <-]. left. eexists. exact Ea. }
  match goal with
  | |- (t2 <- ?m ;; _) = _ -> _ => destruct m as [t2|]; cbn [bind]; [|discriminate]
  end.
  cbv zeta.
  match goal with
  | |- context [contains_chr lpar ?t || contains_chr rpar ?t] =>
      set (t3 := t); destruct (contains_chr lpar t3 || contains_chr rpar t3) eqn:Ep
  end; [discriminate|].
  destruct (str_eqb (lower t3) (L "distinct")); [discriminate|].
  destruct (re_match Sort.identifier_re _); [|discriminate].
  intros [= <-]. right.
  apply orb_false_elim in Ep. destruct Ep as [El Er].
  split.
  - destruct (contains_chr lpar (re_sub Sort.host_marker_re (fun _ => []) t3)) eqn:E;
      [|reflexivity].
    apply contains_chr_In in E. apply sub_loop_delete_incl in E.
    apply contains_chr_In in E. congruence.
  - destruct (contains_chr rpar (re_sub Sort.host_marker_re (fun _ => []) t3)) eqn:E;
      [|reflexivity].
    apply contains_chr_In in E. apply sub_loop_delete_incl in E.
    apply contains_chr_In in E. congruence.
Qed.

(** ** Evaluation of the passes on the scenarios *)

Ltac fold_app :=
  let f := eval cbv in (@app ascii) in
  change f with (@app ascii).

(** Runs a pass on a closed text with a symbolic date. *)
Ltac run_pass :=
  intros; vm_compute; fold_app; rewrite <- ?app_assoc; reflexivity.

(** The search for the period steps over literals and comments. *)
Example period_after_literal :
  find_statement_period (L "a = 'x.y' . b") 0 = Ok (Some 10).
Proof. vm_compute. reflexivity. Qed.

Example period_after_comment :
  find_statement_period (L "a " ++ [dq] ++ L " c." ++ [nl] ++ L "  .") 0 = Ok (Some 9).
Proof. vm_compute. reflexivity. Qed.

Example period_after_comment_select :
  Select.find_statement_period (L "a " ++ [dq] ++ L " c." ++ [nl] ++ L "  .") 0
  = Ok (Some 9).
Proof. vm_compute. reflexivity. Qed.

Example states_of_a_literal :
  lex_state_at (L "a = 'x.y' . b") 0 6 = Some LInSingleQuote
  /\ lex_state_at (L "a = 'x.y' . b") 0 10 = Some LCode.
Proof. split; vm_compute; reflexivity. Qed.

(** The target of a bulk lookup is read from its [INTO] clause. *)
Example target_of_corresponding_fields :
  Sort.extract_target_table
    (L "SELECT a FROM t INTO CORRESPONDING FIELDS OF TABLE @lt_x WHERE k = 1")
  = Some (L "lt_x").
Proof. vm_compute. reflexivity. Qed.

(** The pattern for the table of a read asks for a word boundary after
    the name, which a field symbol followed by a blank does not have. *)
Example field_symbol_is_not_matched :
  Read.extract_itab (L "READ TABLE <fs> INDEX 1") = None.
Proof. vm_compute. reflexivity. Qed.

(** Without commas sort.py takes the whitespace-separated words as
    items: the argument of a call written with blanks is a word. *)
Example sort_fields_of_spaced_call :
  Sort.split_fields (L "MAX( a ) b") = Ok [L "a"; L "b"].
Proof. vm_compute. reflexivity. Qed.

Example sort_fields_of_comma_list :
  Sort.split_fields (L "x~a AS u, MAX(c), (d), e~f, @g")
  = Ok [L "u"; L "d"; L "f"; L "g"].
Proof. vm_compute. reflexivity. Qed.

Example orderby_fields_of_comma_list :
  Orderby.split_fields (L "MAX(a), b AS c") = Ok [L "MAX(a)"; L "c"].
Proof. vm_compute. reflexivity. Qed.








(** C2. Keywords inside literals and comments do drive rewrites: the
    marker phrase inside a single-quoted literal makes [process_sort]
    insert a [SORT] statement; a [where] inside a literal makes
    [process_select] put [UP TO 1 ROWS] into that literal; a [key] inside
    a comment makes [process_read] insert a [SORT] statement. *)
Theorem quoted_keywords_trigger_rewrites : forall today,
  Sort.process_sort today quoted_marker
  = Ok (quoted_marker ++ [nl] ++ L "SORT r BY a." ++ [nl] ++ pwc_tag_line today)
  /\ Select.process_select today quoted_where
     = Ok (pwc_tag_line today ++ L "SELECT ' UP TO 1 ROWS where' FROM t INTO x."
           ++ [nl] ++ L "ENDSELECT.")
  /\ Read.process_read today commented_key
     = Ok (L "SORT itab." ++ [nl] ++ pwc_tag_line today ++ commented_key).
Proof. intros today. split; [|split]; run_pass. Qed.

(** On the scenarios A to D the second run changes nothing; scenario E
    of the spec is the case of scenario B. *)
Example scenarios_run_twice :
  twice sample_date scenario_A = remediate sample_date scenario_A
  /\ twice sample_date scenario_B = remediate sample_date scenario_B
  /\ twice sample_date scenario_C = remediate sample_date scenario_C
  /\ twice sample_date scenario_D = remediate sample_date scenario_D.
Proof. repeat split; vm_compute; reflexivity. Qed.

(** C1. A second run of the pipeline on the output of the first inserts
    a second [SORT] before a read that did not start its line. *)
Theorem remediate_twice_differs :
  exists once twice,
    remediate sample_date read_in_line = Ok once
    /\ remediate sample_date once = Ok twice
    /\ once = L "IF a = b. SORT itab." ++ [nl] ++ pwc_tag_line sample_date
              ++ L "READ TABLE itab INDEX 1. ENDIF."
    /\ twice = L "IF a = b. SORT itab." ++ [nl] ++ pwc_tag_line sample_date
               ++ L "SORT itab." ++ [nl] ++ pwc_tag_line sample_date
               ++ L "READ TABLE itab INDEX 1. ENDIF."
    /\ once <> twice.
Proof.
  eexists. eexists. split; [|split; [|split; [|split]]].
  - vm_compute; reflexivity.
  - vm_compute; reflexivity.
  - vm_compute; reflexivity.
  - vm_compute; reflexivity.
  - vm_compute; discriminate.
Qed.

(** ** The properties of every pass *)

(** C3. Every pass returns a text for every input: no subscription is
    out of range and no loop runs out of fuel.  The empty text is
    returned as it is.  When the statement found at [sel] has no period,
    the pass emits what it had collected followed by the rest of the
    text from its cursor on, unchanged, and stops; the later passes
    still run, as the pipeline returns too. *)
Theorem every_pass_returns : forall (p : pass) (today code : str),
  (exists out, run p today code = Ok out)
  /\ run p today [] = Ok []
  /\ (exists out, remediate today code = Ok out)
  /\ (forall fuel i sel out_parts,
        i < length code ->
        scan_next (trigger_of p) code i = Ok (Some sel) ->
        period_of p code sel = Ok None ->
        main_loop_of p (S fuel) today code i out_parts
        = Ok (concat out_parts ++ from_ code i)).
Proof.
  intros p today code. split; [|split; [|split]].
  - apply run_returns.
  - apply run_empty.
  - apply remediate_returns.
  - intros fuel i sel out_parts. apply main_loop_unterminated.
Qed.

Lemma every_pass_returns_witness :
  Sort.main_loop 1 sample_date unterminated_query 0 [] = Ok unterminated_query.
Proof.
  apply (proj2 (proj2 (proj2 (every_pass_returns PSort sample_date unterminated_query)))
           0 0 0 []).
  - vm_compute. lia.
  - vm_compute. reflexivity.
  - vm_compute. reflexivity.
Defined.

(** C9. Every pass terminates on every text: any fuel above the length
    of the text is enough for the main loop, and the pipeline returns.
    A string or template that is never closed keeps the scan and the
    search for the period in that state to the end of the text; a
    comment without a newline after it takes both to the end; and a
    pass whose scan, or whose search for the period, reaches the end
    emits the rest of the text as it is. *)
Theorem every_pass_terminates : forall (p : pass) (today code : str),
  (forall fuel, length code < fuel ->
     exists out, main_loop_of p fuel today code 0 [] = Ok out)
  /\ (exists out, remediate today code = Ok out)
  /\ (forall fuel i q,
        q <> Code -> never_closed q code i = true -> length code - i < fuel ->
        scan_loop (trigger_of p) fuel code i q = Ok None
        /\ period_loop_of p fuel code i q = Ok None)
  /\ (forall fuel i,
        open_comment_at code i ->
        scan_loop (trigger_of p) (S (S fuel)) code i Code = Ok None
        /\ period_loop_of p (S (S fuel)) code i Code = Ok None)
  /\ (forall fuel i out_parts,
        i < length code ->
        scan_next (trigger_of p) code i = Ok None
        \/ (exists sel, scan_next (trigger_of p) code i = Ok (Some sel)
                        /\ period_of p code sel = Ok None) ->
        main_loop_of p (S fuel) today code i out_parts
        = Ok (concat out_parts ++ from_ code i)).
Proof.
  intros p today code. split; [|split; [|split; [|split]]].
  - intros fuel H. apply main_loop_of_returns. exact H.
  - apply remediate_returns.
  - intros fuel i q Hq Hopen Hf. split.
    + apply scan_loop_never_closed; assumption.
    + apply period_loop_never_closed; assumption.
  - intros fuel i H. split.
    + apply scan_loop_open_comment. exact H.
    + apply period_loop_open_comment. exact H.
  - intros fuel i out_parts Hi [H|(sel & H1 & H2)].
    + apply main_loop_no_trigger; assumption.
    + apply main_loop_unterminated with sel; assumption.
Qed.

Lemma every_pass_terminates_witness :
  (exists out, Read.main_loop 11 sample_date open_literal 0 [] = Ok out)
  /\ (scan_loop Read.trigger 6 open_literal 5 InSq = Ok None
      /\ find_statement_period_loop 6 open_literal 5 InSq = Ok None)
  /\ (scan_loop Read.trigger 2 open_comment 0 Code = Ok None
      /\ find_statement_period_loop 2 open_comment 0 Code = Ok None)
  /\ Read.main_loop 1 sample_date open_comment 0 [] = Ok open_comment.
Proof.
  split; [|split; [|split]].
  - apply (proj1 (every_pass_terminates PRead sample_date open_literal) 11).
    vm_compute. lia.
  - apply (proj1 (proj2 (proj2 (every_pass_terminates PRead sample_date open_literal)))
             6 5 InSq).
    + discriminate.
    + vm_compute. reflexivity.
    + vm_compute. lia.
  - apply (proj1 (proj2 (proj2 (proj2
             (every_pass_terminates PRead sample_date open_comment)))) 0 0).
    split; [left|]; vm_compute; reflexivity.
  - apply (proj2 (proj2 (proj2 (proj2
             (every_pass_terminates PRead sample_date open_comment)))) 0 0 []).
    + vm_compute. lia.
    + left. vm_compute. reflexivity.
Defined.

(** ** Expressions in the column list *)


(** * Further properties *)

Section FindAnyOrder.

Variable find_kw_of : str -> str -> nat -> res (option nat).

Lemma find_next_any_kw_loop_earliest : forall keywords s start best r,
  find_next_any_kw_loop find_kw_of s keywords start best = Ok r ->
  match r with
  | None => best = None /\ forall kw, In kw keywords -> find_kw_of s kw start = Ok None
  | Some (k, kw) =>
      (best = Some (k, kw) \/ (In kw keywords /\ find_kw_of s kw start = Ok (Some k)))
      /\ (forall b w, best = Some (b, w) -> k <= b)
      /\ (forall kw' k', In kw' keywords -> find_kw_of s kw' start = Ok (Some k') -> k <= k')
  end.
Proof.
  induction keywords as [|kw rest IH]; intros s start best r; cbn [find_next_any_kw_loop].
  - intros [= <-]. destruct best as [[b w]|].
    + split; [left; reflexivity|]. split.
      * intros b' w' [= <- <-]. lia.
      * intros kw' k' [].
    + split; [reflexivity|]. intros kw' [].
  - destruct (find_kw_of s kw start) as [idx|e] eqn:E; cbn [bind]; [|discriminate].
    intros H. apply IH in H. destruct r as [[k w]|].
    + destruct H as (Hsrc & Hbest & Hmin).
      assert (Hidx : forall k', idx = Some k' -> k <= k').
      { intros k' ->. destruct best as [[b w0]|].
        - destruct (Nat.ltb_spec k' b) as [Hlt|Hge].
          + apply (Hbest k' kw). reflexivity.
          + specialize (Hbest b w0 eq_refl). lia.
        - apply (Hbest k' kw). reflexivity. }
      split; [|split].
      * destruct Hsrc as [Hsrc|[Hin Hf]]; [|right; split; [right; exact Hin|exact Hf]].
        destruct idx as [k'|]; [|left; destruct best as [[b w0]|]; exact Hsrc].
        destruct best as [[b w0]|].
        -- destruct (k' <? b); [|left; exact Hsrc].
           injection Hsrc as <- <-. right. split; [left; reflexivity|exact E].
        -- injection Hsrc as <- <-. right. split; [left; reflexivity|exact E].
      * intros b w0 ->. destruct idx as [k'|]; [|apply (Hbest b w0); reflexivity].
        destruct (Nat.ltb_spec k' b) as [Hlt|Hge].
        -- specialize (Hbest k' kw eq_refl). lia.
        -- apply (Hbest b w0). reflexivity.
      * intros kw' k' [<-|Hin] Hf; [|apply (Hmin kw' k' Hin Hf)].
        rewrite E in Hf. injection Hf as Hf. apply Hidx. exact Hf.
    + destruct H as (Hb & Hnone).
      destruct idx as [k'|].
      * destruct best as [[b w0]|]; [destruct (k' <? b)|]; discriminate.
      * split; [destruct best as [[b w0]|]; [discriminate|reflexivity]|].
        intros kw' [<-|Hin]; [exact E|apply Hnone; exact Hin].
Qed.

Lemma find_next_any_kw_with_earliest (s : str) (keywords : list str) (start : nat)
  (r : option (nat * str)) :
  find_next_any_kw_with find_kw_of s keywords start = Ok r ->
  earliest find_kw_of s keywords start r.
Proof.
  intros H. apply find_next_any_kw_loop_earliest in H. unfold earliest.
  destruct r as [[k kw]|].
  - destruct H as ([H|[Hin Hf]] & _ & Hmin); [discriminate|].
    split; [exact Hin|]. split; [exact Hf|exact Hmin].
  - destruct H as [_ H]. exact H.
Qed.

End FindAnyOrder.

(** X4. [find_next_any_kw] of select.py and of orderby.py returns the
    keyword that [find_kw] finds earliest, with its index, and [None]
    only when [find_kw] finds none of the keywords. *)
Theorem find_next_any_kw_earliest : forall (s : str) (keywords : list str) (start : nat),
  (exists r, Select.find_next_any_kw s keywords start = Ok r
             /\ earliest Select.find_kw s keywords start r)
  /\ (exists r, Orderby.find_next_any_kw s keywords start = Ok r
                /\ earliest find_kw s keywords start r).
Proof.
  intros s keywords start. split.
  - destruct (@find_next_any_kw_with_returns Select.find_kw select_find_kw_returns
                s keywords start) as [r Hr].
    exists r. split; [exact Hr|]. apply find_next_any_kw_with_earliest. exact Hr.
  - destruct (@find_next_any_kw_with_returns find_kw find_kw_returns s keywords start)
      as [r Hr].
    exists r. split; [exact Hr|]. apply find_next_any_kw_with_earliest. exact Hr.
Qed.

Lemma str_eqb_refl (a : str) : str_eqb a a = true.
Proof. induction a as [|x a IH]; simpl; [reflexivity|]. rewrite Ascii.eqb_refl. exact IH. Qed.

Lemma mem_str_In (x : str) (xs : list str) : mem_str x xs = true <-> In x xs.
Proof.
  induction xs as [|y ys IH]; simpl; [split; [discriminate|contradiction]|].
  rewrite orb_true_iff, IH. split.
  - intros [H|H]; [left; symmetry; apply str_eqb_eq; exact H|right; exact H].
  - intros [->|H]; [left; apply str_eqb_refl|right; exact H].
Qed.

Lemma mem_str_not_In (x : str) (xs : list str) : mem_str x xs = false <-> ~ In x xs.
Proof.
  rewrite <- mem_str_In. destruct (mem_str x xs); split; intros H; try discriminate; auto.
  exfalso. apply H. reflexivity.
Qed.

(** The names kept so far are pairwise distinct in lower case, and
    [seen] holds their lower-case forms. *)
Lemma dedupe_loop_spec : forall fs seen acc,
  (forall x, In x seen <-> In x (map lower acc)) ->
  NoDup (map lower acc) ->
  NoDup (map lower (dedupe_loop fs seen acc))
  /\ (forall f, In f acc \/ In f fs -> In (lower f) (map lower (dedupe_loop fs seen acc))).
Proof.
  induction fs as [|f fs IH]; intros seen acc Hseen Hnd; cbn [dedupe_loop].
  - split; [exact Hnd|]. intros f [H|[]]. apply in_map. exact H.
  - destruct (mem_str (lower f) seen) eqn:E.
    + destruct (IH seen acc Hseen Hnd) as [H1 H2]. split; [exact H1|].
      intros g [Hg|[<-|Hg]]; [apply H2; left; exact Hg| |apply H2; right; exact Hg].
      apply mem_str_In, Hseen in E. apply in_map_iff in E. destruct E as (a & Ha & Hin).
      rewrite <- Ha. apply H2. left. exact Hin.
    + apply mem_str_not_In in E.
      assert (Hseen' : forall x, In x (lower f :: seen) <-> In x (map lower (acc ++ [f]))).
      { intros x. rewrite map_app, in_app_iff. simpl. rewrite Hseen. tauto. }
      assert (Hnd' : NoDup (map lower (acc ++ [f]))).
      { rewrite map_app. simpl. apply NoDup_app; [exact Hnd|repeat constructor; intros []|].
        intros x Hx [<-|[]]. apply E, Hseen. exact Hx. }
      destruct (IH (lower f :: seen) (acc ++ [f]) Hseen' Hnd') as [H1 H2].
      split; [exact H1|].
      intros g [Hg|[<-|Hg]]; apply H2.
      * left. apply in_or_app. left. exact Hg.
      * left. apply in_or_app. right. left. reflexivity.
      * right. exact Hg.
Qed.

(** A list whose names are pairwise distinct in lower case is kept as
    it is. *)
Lemma dedupe_loop_distinct : forall fs seen acc,
  (forall x, In x seen <-> In x (map lower acc)) ->
  NoDup (map lower (acc ++ fs)) ->
  dedupe_loop fs seen acc = acc ++ fs.
Proof.
  induction fs as [|f fs IH]; intros seen acc Hseen Hnd; cbn [dedupe_loop].
  - rewrite app_nil_r. reflexivity.
  - assert (E : mem_str (lower f) seen = false).
    { apply mem_str_not_In. intros Hin. apply Hseen in Hin.
      rewrite map_app in Hnd. simpl in Hnd. apply NoDup_remove_2 in Hnd.
      apply Hnd. apply in_or_app. left. exact Hin. }
    rewrite E.
    replace (acc ++ f :: fs) with ((acc ++ [f]) ++ fs) in * by (rewrite <- app_assoc; reflexivity).
    apply IH; [|exact Hnd].
    intros x. rewrite map_app, in_app_iff. simpl. rewrite Hseen. tauto.
Qed.

Lemma dedupe_distinct (fs : list str) : NoDup (map lower fs) -> dedupe fs = fs.
Proof.
  intros H. unfold dedupe. apply (dedupe_loop_distinct fs [] []); [|exact H].
  intros x. simpl. tauto.
Qed.

Lemma dedupe_NoDup (fs : list str) : NoDup (map lower (dedupe fs)).
Proof.
  apply (dedupe_loop_spec fs [] []); [intros x; simpl; tauto|constructor].
Qed.

Lemma dedupe_loop_acc : forall fs seen acc,
  dedupe_loop fs seen acc = acc ++ dedupe_loop fs seen [].
Proof.
  induction fs as [|f fs IH]; intros seen acc; cbn [dedupe_loop].
  - rewrite app_nil_r. reflexivity.
  - destruct (mem_str (lower f) seen); [apply IH|].
    rewrite (IH _ (acc ++ [f])), (IH _ ([] ++ [f])), <- app_assoc. reflexivity.
Qed.

(** The names kept are in the order of the list, and none of them was
    seen before. *)
Lemma dedupe_loop_subseq : forall fs seen,
  is_subseq (dedupe_loop fs seen []) fs = true
  /\ forall x, In x (dedupe_loop fs seen []) -> ~ In (lower x) seen.
Proof.
  induction fs as [|f fs IH]; intros seen; cbn [dedupe_loop].
  - split; [reflexivity|intros x []].
  - destruct (mem_str (lower f) seen) eqn:E.
    + destruct (IH seen) as [H1 H2]. split; [|exact H2].
      destruct (dedupe_loop fs seen []) as [|x r] eqn:Er; [reflexivity|].
      cbn [is_subseq]. destruct (str_eqb x f) eqn:Ex; [|exact H1].
      apply str_eqb_eq in Ex. subst x. exfalso.
      apply (H2 f); [left; reflexivity|]. apply mem_str_In. exact E.
    + rewrite dedupe_loop_acc. cbn [app].
      destruct (IH (lower f :: seen)) as [H1 H2]. split.
      * cbn [is_subseq]. rewrite str_eqb_refl. exact H1.
      * intros x [<-|Hx]; [apply mem_str_not_In; exact E|].
        intros Hin. apply (H2 x Hx). right. exact Hin.
Qed.

(** X15. The removal of duplicates keeps, in their order, the first
    occurrence of every name compared in lower case, and changes
    nothing when applied again. *)
Theorem dedupe_keeps_first_of_each : forall fs : list str,
  NoDup (map lower (dedupe fs))
  /\ (forall f, In f fs -> In (lower f) (map lower (dedupe fs)))
  /\ is_subseq (dedupe fs) fs = true
  /\ dedupe (dedupe fs) = dedupe fs.
Proof.
  intros fs. split; [apply dedupe_NoDup|]. split; [|split].
  - intros f H. apply (dedupe_loop_spec fs [] []); [intros x; simpl; tauto|constructor|].
    right. exact H.
  - apply dedupe_loop_subseq.
  - apply dedupe_distinct. apply dedupe_NoDup.
Qed.

(* read: key_fields_loop *)
Lemma key_fields_loop_keeps (a : str) : forall cs sn fl,
  In a fl -> In a (Read.key_fields_loop cs sn fl).
Proof.
  induction cs as [|c cs IHc]; intros sn fl Hin; cbn [Read.key_fields_loop];
    [exact Hin|].
  destruct (Read.is_key_word (lower c)); [apply IHc; exact Hin|].
  destruct (mem_str (lower c) sn); apply IHc; [exact Hin|].
  apply in_or_app. left. exact Hin.
Qed.

Lemma key_fields_loop_spec : forall candidates seen fields,
  (forall x, In x seen <-> In x (map lower fields)) ->
  NoDup (map lower fields) ->
  (forall f, In f fields -> Read.is_key_word (lower f) = false) ->
  NoDup (map lower (Read.key_fields_loop candidates seen fields))
  /\ (forall f, In f (Read.key_fields_loop candidates seen fields) ->
                Read.is_key_word (lower f) = false /\ (In f fields \/ In f candidates))
  /\ (forall f, In f candidates -> Read.is_key_word (lower f) = false ->
                In (lower f) (map lower (Read.key_fields_loop candidates seen fields))).
Proof.
  induction candidates as [|f rest IH]; intros seen fields Hseen Hnd Hkw;
    cbn [Read.key_fields_loop].
  - split; [exact Hnd|]. split.
    + intros f H. split; [apply Hkw; exact H|left; exact H].
    + intros f [].
  - destruct (Read.is_key_word (lower f)) eqn:Ek.
    { destruct (IH seen fields Hseen Hnd Hkw) as (H1 & H2 & H3).
      split; [exact H1|]. split.
      - intros g Hg. destruct (H2 g Hg) as [Hk [Hin|Hin]]; split; auto.
        right. right. exact Hin.
      - intros g [<-|Hg] Hk; [congruence|apply H3; assumption]. }
    destruct (mem_str (lower f) seen) eqn:E.
    { destruct (IH seen fields Hseen Hnd Hkw) as (H1 & H2 & H3).
      split; [exact H1|]. split.
      - intros g Hg. destruct (H2 g Hg) as [Hk [Hin|Hin]]; split; auto.
        right. right. exact Hin.
      - intros g [<-|Hg] Hk; [|apply H3; assumption].
        apply mem_str_In, Hseen in E.
        apply in_map_iff in E. destruct E as (a & Ha & Hin). rewrite <- Ha.
        apply in_map. apply key_fields_loop_keeps. exact Hin. }
    apply mem_str_not_In in E.
    assert (Hseen' : forall x, In x (lower f :: seen) <-> In x (map lower (fields ++ [f]))).
    { intros x. rewrite map_app, in_app_iff. simpl. rewrite Hseen. tauto. }
    assert (Hnd' : NoDup (map lower (fields ++ [f]))).
    { rewrite map_app. simpl. apply NoDup_app; [exact Hnd|repeat constructor; intros []|].
      intros x Hx [<-|[]]. apply E, Hseen. exact Hx. }
    assert (Hkw' : forall g, In g (fields ++ [f]) -> Read.is_key_word (lower g) = false).
    { intros g Hg. apply in_app_or in Hg. destruct Hg as [Hg|[<-|[]]]; [apply Hkw; exact Hg|exact Ek]. }
    destruct (IH (lower f :: seen) (fields ++ [f]) Hseen' Hnd' Hkw') as (H1 & H2 & H3).
    split; [exact H1|]. split.
    + intros g Hg. destruct (H2 g Hg) as [Hk [Hin|Hin]]; split; auto.
      * apply in_app_or in Hin. destruct Hin as [Hin|[<-|[]]]; [left; exact Hin|right; left; reflexivity].
      * right. right. exact Hin.
    + intros g [<-|Hg] Hk; [|apply H3; assumption].
      apply in_map. apply key_fields_loop_keeps.
      apply in_or_app. right. left. reflexivity.
Qed.

Lemma first_code_skip (hit : nat -> bool) (st : lex_state) (sts : list lex_state) :
  is_code st = false ->
  forall n k, first_code hit (repeat st n ++ sts) k = first_code hit sts (k + n).
Proof.
  intros Hst. induction n as [|n IH]; intros k; cbn [repeat app first_code].
  - f_equal. lia.
  - rewrite Hst. cbn [andb]. rewrite IH. f_equal. lia.
Qed.

Lemma first_code_skip1 (hit : nat -> bool) (st : lex_state) (sts : list lex_state) (k : nat) :
  is_code st = false ->
  first_code hit (st :: sts) k = first_code hit sts (k + 1).
Proof. intros H. apply (@first_code_skip hit st sts H 1 k). Qed.

Lemma states_from_end (s : str) (i : nat) (q : quote) :
  length s <= i -> states_from s i q = [].
Proof.
  intros H. unfold states_from. rewrite skipn_all2 by exact H. reflexivity.
Qed.

Lemma lex_of_not_code (q : quote) : q <> Code -> is_code (lex_of q) = false.
Proof. destruct q; [contradiction| | |]; reflexivity. Qed.

Lemma open_quote_not_code (c : ascii) (q : quote) : open_quote c = Some q -> q <> Code.
Proof.
  unfold open_quote.
  destruct (is_chr sq c); [intros [= <-]; discriminate|].
  destruct (is_chr bt c); [intros [= <-]; discriminate|].
  destruct (is_chr bar c); [intros [= <-]; discriminate|discriminate].
Qed.

Lemma open_quote_chr (c : ascii) (q : quote) :
  open_quote c = Some q -> is_chr dq c = false /\ is_chr star c = false /\ is_chr nl c = false.
Proof.
  unfold open_quote.
  destruct (is_chr sq c) eqn:E1; [apply is_chr_true in E1; subst c; intros _; repeat split|].
  destruct (is_chr bt c) eqn:E2; [apply is_chr_true in E2; subst c; intros _; repeat split|].
  destruct (is_chr bar c) eqn:E3; [apply is_chr_true in E3; subst c; intros _; repeat split|].
  discriminate.
Qed.

(** In code state a character that opens a string or a template belongs
    to the region it opens. *)
Lemma states_from_open (s : str) (i : nat) (c : ascii) (q : quote) :
  nth_error s i = Some c -> open_quote c = Some q ->
  states_from s i Code = lex_of q :: states_from s (i + 1) q.
Proof.
  intros Hn Ho. unfold states_from. rewrite (skipn_cons s i Hn).
  destruct (open_quote_chr c Ho) as (Hdq & Hstar & _).
  cbn [lex_of lex_states]. rewrite Hdq, Hstar, Ho. cbn [andb]. f_equal.
  apply lex_states_bol. intros H. apply (open_quote_not_code c Ho).
  destruct q; try discriminate. reflexivity.
Qed.

(** In code state a character that starts neither a comment nor a
    region is code. *)
Lemma states_from_plain (s : str) (i : nat) (c : ascii) :
  nth_error s i = Some c -> is_chr dq c = false ->
  is_chr star c && first_column s i = false -> open_quote c = None ->
  states_from s i Code = LCode :: states_from s (i + 1) Code.
Proof.
  intros Hn Hdq Hstar Ho. unfold states_from. rewrite (skipn_cons s i Hn).
  cbn [lex_of lex_states]. rewrite Hdq, Hstar, Ho.
  rewrite (first_column_next s i Hn). reflexivity.
Qed.

Lemma states_from_nl (s : str) (i : nat) :
  nth_error s i = Some nl -> states_from s i Code = LCode :: states_from s (i + 1) Code.
Proof. intros Hn. apply states_from_plain with nl; [exact Hn|reflexivity..]. Qed.

Lemma skip_line_comment_span (s : str) (i : nat) (c : ascii) :
  nth_error s i = Some c -> is_chr nl c = false ->
  skip_line_comment s i = i + 1 + span Select.not_nl (skipn (i + 1) s).
Proof.
  intros Hn Hnl.
  assert (Hlt : i < length s) by (apply nth_error_Some; congruence).
  rewrite <- skip_while_not_nl_eq by lia. unfold skip_while.
  rewrite (skipn_cons s i Hn). cbn [span]. unfold Select.not_nl at 1.
  rewrite Hnl. cbn [negb]. lia.
Qed.

(** A comment that starts at [i] covers the characters up to the end of
    the line; the scan is in code state again at the newline. *)
Lemma states_from_comment (s : str) (i : nat) (c : ascii) :
  nth_error s i = Some c ->
  is_chr dq c = true \/ (is_chr star c && first_column s i = true) ->
  exists st, is_code st = false
             /\ states_from s i Code
                = repeat st (skip_line_comment s i - i)
                  ++ states_from s (skip_line_comment s i) Code.
Proof.
  intros Hn Hc.
  assert (Hnl : is_chr nl c = false).
  { destruct Hc as [Hc|Hc].
    - apply is_chr_true in Hc. subst c. reflexivity.
    - apply andb_prop in Hc. destruct Hc as [Hc _].
      apply is_chr_true in Hc. subst c. reflexivity. }
  pose proof (skip_line_comment_span s i Hn Hnl) as He.
  assert (Hstep : exists st, (st = LLineComment \/ st = LFullLineComment)
            /\ states_from s i Code = st :: lex_states st false (skipn (i + 1) s)).
  { unfold states_from. rewrite (skipn_cons s i Hn). cbn [lex_of lex_states].
    destruct (is_chr dq c) eqn:Edq.
    - exists LLineComment. split; [left; reflexivity|reflexivity].
    - destruct Hc as [Hc|Hc]; [discriminate|]. rewrite Hc.
      exists LFullLineComment. split; [right; reflexivity|reflexivity]. }
  destruct Hstep as (st & Hst & Hstep). exists st. split.
  { destruct Hst as [-> | ->]; reflexivity. }
  rewrite Hstep.
  rewrite (lex_states_comment false (first_column s (skip_line_comment s i))
             (skipn (i + 1) s) Hst).
  replace (skip_line_comment s i - i)
    with (S (span Select.not_nl (skipn (i + 1) s))) by lia.
  cbn [repeat app]. f_equal. f_equal. unfold states_from. cbn [lex_of].
  rewrite skipn_skipn. f_equal. f_equal. lia.
Qed.

(** One iteration inside a string or template covers one character, or
    the two of a doubled delimiter. *)
Lemma states_from_quoted (s : str) (i : nat) (c : ascii) (q : quote) :
  nth_error s i = Some c -> q <> Code ->
  states_from s i q
  = repeat (lex_of q) (fst (quoted_step s i q c) - i)
    ++ states_from s (fst (quoted_step s i q c)) (snd (quoted_step s i q c)).
Proof.
  intros Hn Hq. unfold states_from. rewrite (skipn_cons s i Hn).
  assert (Hd : delim q = region_delim (lex_of q)) by (destruct q; reflexivity).
  assert (Hstep : lex_states (lex_of q) (first_column s i) (c :: skipn (i + 1) s)
                  = if is_chr (region_delim (lex_of q)) c
                    then match skipn (i + 1) s with
                         | c' :: s'' =>
                             if is_chr (region_delim (lex_of q)) c'
                             then lex_of q :: lex_of q :: lex_states (lex_of q) false s''
                             else lex_of q :: lex_states LCode false (skipn (i + 1) s)
                         | [] => [lex_of q]
                         end
                    else lex_of q :: lex_states (lex_of q) false (skipn (i + 1) s)).
  { destruct q; [contradiction| | |]; reflexivity. }
  rewrite Hstep. clear Hstep. unfold quoted_step. rewrite Hd.
  destruct (is_chr (region_delim (lex_of q)) c) eqn:Ec.
  - unfold peek_is. destruct (nth_error s (i + 1)) as [c'|] eqn:Hn'.
    + rewrite (skipn_cons s (i + 1) Hn').
      destruct (is_chr (region_delim (lex_of q)) c') eqn:Ec'; cbn [fst snd].
      * replace (i + 2 - i) with 2 by lia. cbn [repeat app].
        replace (i + 1 + 1) with (i + 2) by lia. f_equal. f_equal.
        apply lex_states_bol. destruct q; [contradiction| | |]; discriminate.
      * replace (i + 1 - i) with 1 by lia. cbn [repeat app lex_of].
        rewrite <- (skipn_cons s (i + 1) Hn'). f_equal.
        rewrite (first_column_next s i Hn).
        apply is_chr_true in Ec. subst c. destruct q; [contradiction| | |]; reflexivity.
    + cbn [fst snd]. replace (i + 1 - i) with 1 by lia. cbn [repeat app lex_of].
      apply nth_error_None in Hn'. rewrite skipn_all2 by exact Hn'. reflexivity.
  - cbn [fst snd]. replace (i + 1 - i) with 1 by lia. cbn [repeat app]. f_equal.
    apply lex_states_bol. destruct q; [contradiction| | |]; discriminate.
Qed.

Lemma star_at_bol_first_column (s : str) (i : nat) (c : ascii) (b : bool) :
  star_at_bol s i c = Ok b -> is_chr star c && first_column s i = b.
Proof.
  unfold star_at_bol. destruct (is_chr star c); cbn [andb].
  - apply at_bol_first_column.
  - intros [= <-]. reflexivity.
Qed.

(** The search for the period returns the first period in code state. *)
Lemma period_loop_first : forall fuel s i q r,
  find_statement_period_loop fuel s i q = Ok r ->
  r = first_code (is_period s) (states_from s i q) i.
Proof.
  induction fuel as [|fuel IH]; intros s i q r H; [discriminate|].
  cbn [find_statement_period_loop] in H.
  destruct (Nat.leb_spec (length s) i) as [Hge|Hlt].
  { injection H as <-. rewrite states_from_end by exact Hge. reflexivity. }
  destruct (get_lt s Hlt) as (c & Hc & Hn). rewrite Hc in H. cbn [bind] in H.
  assert (Hregion : forall q', q' <> Code ->
            (let '(i', q'') := quoted_step s i q' c in
             find_statement_period_loop fuel s i' q'') = Ok r ->
            r = first_code (is_period s) (states_from s i q') i).
  { intros q' Hq Hrec. rewrite (states_from_quoted s i Hn Hq).
    rewrite first_code_skip by (apply lex_of_not_code; exact Hq).
    pose proof (quoted_step_gt s i q' c) as Hgt.
    destruct (quoted_step s i q' c) as [i' q'']. cbn [fst snd] in *.
    apply IH in Hrec. rewrite Hrec. f_equal. lia. }
  destruct q; [|apply Hregion; [discriminate|exact H]..].
  destruct (is_chr dq c) eqn:Edq.
  { destruct (states_from_comment s i Hn (or_introl Edq)) as (st & Hst & Hs).
    rewrite Hs, first_code_skip by exact Hst. apply IH in H. rewrite H. f_equal.
    pose proof (skip_line_comment_gt s i Hn (dq_not_nl Edq)). lia. }
  destruct (star_at_bol s i c) as [b|e] eqn:Eb; cbn [bind] in H; [|discriminate].
  pose proof (star_at_bol_first_column s i c Eb) as Hb. destruct b.
  { destruct (states_from_comment s i Hn (or_intror Hb)) as (st & Hst & Hs).
    rewrite Hs, first_code_skip by exact Hst. apply IH in H. rewrite H. f_equal.
    pose proof (skip_line_comment_gt s i Hn
                  (star_not_nl (star_at_bol_true s i c Eb))) as Hgt.
    unfold skip_full_line_star_comment, skip_line_comment in *. lia. }
  destruct (open_quote c) as [q'|] eqn:Eo.
  { rewrite (states_from_open s i Hn Eo).
    rewrite first_code_skip1
      by (apply lex_of_not_code; apply (open_quote_not_code c Eo)).
    apply IH in H. exact H. }
  rewrite (states_from_plain s i Hn Edq Hb Eo). cbn [first_code is_code andb].
  unfold is_period at 1, peek_is. rewrite Hn.
  destruct (is_chr dot c).
  - injection H as <-. reflexivity.
  - apply IH in H. rewrite H. f_equal. lia.
Qed.

(** X1. In each of the four passes [find_statement_period] returns the
    first index from [start] on that holds a period in code state, the
    text being read in code state from [start]; it returns [None]
    when there is no such index. *)
Theorem find_statement_period_is_first : forall (p : pass) (code : str) (start : nat),
  period_of p code start = Ok (first_in_code (is_period code) code start).
Proof.
  intros p code start.
  assert (H : find_statement_period code start
              = Ok (first_in_code (is_period code) code start)).
  { destruct (find_statement_period_spec code start) as (r & Hr & _).
    rewrite Hr. f_equal. apply period_loop_first with (1 := Hr). }
  destruct p; cbn [period_of]; try exact H.
  unfold Select.find_statement_period. rewrite select_period_loop_eq. exact H.
Qed.

Lemma skip_line_comment_nl (s : str) (i : nat) :
  skip_line_comment s i < length s -> nth_error s (skip_line_comment s i) = Some nl.
Proof.
  unfold skip_line_comment. destruct (find_chr nl s i) as [e|] eqn:E; [|lia].
  intros _. apply find_chr_bound in E. apply E.
Qed.

(** A comment, with the newline that ends it, holds no hit when the
    newline is none. *)
Lemma first_code_comment (hit : nat -> bool) (s : str) (i : nat) (c : ascii) :
  nth_error s i = Some c ->
  is_chr dq c = true \/ (is_chr star c && first_column s i = true) ->
  i < skip_line_comment s i ->
  (forall k, nth_error s k = Some nl -> hit k = false) ->
  first_code hit (states_from s i Code) i
  = first_code hit (states_from s (skip_line_comment s i) Code) (skip_line_comment s i)
  /\ first_code hit (states_from s i Code) i
     = first_code hit (states_from s (skip_line_comment s i + 1) Code)
         (skip_line_comment s i + 1).
Proof.
  intros Hn Hc Hgt Hnl.
  destruct (states_from_comment s i Hn Hc) as (st & Hst & Hs).
  assert (H1 : first_code hit (states_from s i Code) i
               = first_code hit (states_from s (skip_line_comment s i) Code)
                   (skip_line_comment s i)).
  { rewrite Hs, first_code_skip by exact Hst. f_equal. lia. }
  split; [exact H1|]. rewrite H1.
  destruct (Nat.ltb_spec (skip_line_comment s i) (length s)) as [Hlt|Hge].
  - pose proof (skip_line_comment_nl s i Hlt) as He.
    rewrite (states_from_nl s _ He). cbn [first_code is_code andb].
    rewrite (Hnl _ He). f_equal. lia.
  - rewrite !states_from_end by lia. reflexivity.
Qed.

Section ScanFirst.

Variable trigger : str -> nat -> res bool.

Hypothesis trigger_at_nl :
  forall code k, nth_error code k = Some nl -> holds (trigger code k) = false.

(** The scan returns the first index in code state where the trigger
    test holds. *)
Lemma scan_loop_first : forall fuel code i q r,
  scan_loop trigger fuel code i q = Ok r ->
  r = first_code (fun k => holds (trigger code k)) (states_from code i q) i.
Proof.
  induction fuel as [|fuel IH]; intros s i q r H; [discriminate|].
  cbn [scan_loop] in H.
  destruct (Nat.leb_spec (length s) i) as [Hge|Hlt].
  { injection H as <-. rewrite states_from_end by exact Hge. reflexivity. }
  destruct (get_lt s Hlt) as (c & Hc & Hn). rewrite Hc in H. cbn [bind] in H.
  assert (Hregion : forall q', q' <> Code ->
            (let '(i', q'') := quoted_step s i q' c in
             scan_loop trigger fuel s i' q'') = Ok r ->
            r = first_code (fun k => holds (trigger s k)) (states_from s i q') i).
  { intros q' Hq Hrec. rewrite (states_from_quoted s i Hn Hq).
    rewrite first_code_skip by (apply lex_of_not_code; exact Hq).
    pose proof (quoted_step_gt s i q' c) as Hgt.
    destruct (quoted_step s i q' c) as [i' q'']. cbn [fst snd] in *.
    apply IH in Hrec. rewrite Hrec. f_equal. lia. }
  assert (Hcomment : is_chr dq c = true \/ (is_chr star c && first_column s i = true) ->
            scan_loop trigger fuel s
              (if skip_line_comment s i <? length s
               then skip_line_comment s i + 1 else skip_line_comment s i) Code = Ok r ->
            r = first_code (fun k => holds (trigger s k)) (states_from s i Code) i).
  { intros Hk Hrec.
    assert (Hgt : i < skip_line_comment s i).
    { apply skip_line_comment_gt with c; [exact Hn|].
      destruct Hk as [Hk|Hk]; [apply dq_not_nl; exact Hk|].
      apply andb_prop in Hk. apply star_not_nl. apply Hk. }
    destruct (@first_code_comment (fun k => holds (trigger s k)) s i c Hn Hk Hgt
                (trigger_at_nl s)) as [H1 H2].
    apply IH in Hrec. rewrite Hrec.
    destruct (skip_line_comment s i <? length s); symmetry; assumption. }
  destruct q; [|apply Hregion; [discriminate|exact H]..].
  destruct (is_chr dq c) eqn:Edq; [apply Hcomment; [left; reflexivity|exact H]|].
  destruct (star_at_bol s i c) as [b|e] eqn:Eb; cbn [bind] in H; [|discriminate].
  pose proof (star_at_bol_first_column s i c Eb) as Hb. destruct b.
  { apply Hcomment; [right; exact Hb|exact H]. }
  destruct (open_quote c) as [q'|] eqn:Eo.
  { rewrite (states_from_open s i Hn Eo).
    rewrite first_code_skip1
      by (apply lex_of_not_code; apply (open_quote_not_code c Eo)).
    apply IH in H. exact H. }
  rewrite (states_from_plain s i Hn Edq Hb Eo). cbn [first_code is_code andb].
  destruct (trigger s i) as [hit|e]; cbn [bind] in H; [|discriminate].
  destruct hit; cbn [holds].
  - injection H as <-. reflexivity.
  - apply IH in H. rewrite H. f_equal. lia.
Qed.

End ScanFirst.

Lemma slice_at (s : str) (k n : nat) (c : ascii) :
  nth_error s k = Some c ->
  slice s k (k + S n) = c :: slice s (k + 1) (k + 1 + n).
Proof.
  intros Hn. unfold slice. rewrite (skipn_cons s k Hn).
  replace (k + S n - k) with (S n) by lia.
  replace (k + 1 + n - (k + 1)) with n by lia. reflexivity.
Qed.

(** A word in lower case that starts with a letter is not spelled at a
    newline. *)
Lemma keyword_not_at_nl (s : str) (k n : nat) (c : ascii) (w : str) :
  nth_error s k = Some nl -> Ascii.eqb nl c = false ->
  str_eqb (lower (slice s k (k + S n))) (c :: w) = false.
Proof.
  intros Hn Hc. rewrite (slice_at s k n Hn). cbn [lower map str_eqb].
  change (lower_chr nl) with nl. rewrite Hc. reflexivity.
Qed.

Lemma select_trigger_at_nl (code : str) (k : nat) :
  nth_error code k = Some nl -> holds (Select.trigger code k) = false.
Proof.
  intros Hn. unfold Select.trigger, Select.is_select_at.
  replace (k + 6) with (k + S 5) by lia.
  change (L "select") with ("s"%char :: L "elect").
  rewrite (@keyword_not_at_nl code k 5 "s"%char (L "elect") Hn eq_refl).
  reflexivity.
Qed.

Lemma sort_trigger_at_nl (code : str) (k : nat) :
  nth_error code k = Some nl -> holds (Sort.trigger code k) = false.
Proof.
  intros Hn. unfold Sort.trigger.
  replace (k + 6) with (k + S 5) by lia.
  change (L "select") with ("s"%char :: L "elect").
  rewrite (@keyword_not_at_nl code k 5 "s"%char (L "elect") Hn eq_refl).
  reflexivity.
Qed.

Lemma lower_chr_nl (c : ascii) : lower_chr c = nl -> c = nl.
Proof.
  destruct c as [[] [] [] [] [] [] [] []]; vm_compute; intros H;
    first [reflexivity | discriminate H].
Qed.

Lemma match_kw_at_nl (s kw : str) (k : nat) :
  nth_error s k = Some nl -> word_start kw = true ->
  holds (match_kw_at s k kw) = false.
Proof.
  intros Hn Hw. unfold match_kw_at.
  destruct kw as [|c w]; [discriminate|]. cbn [word_start] in Hw.
  destruct (length s <? k + length (c :: w)); [reflexivity|].
  cbn [length]. rewrite (slice_at s k (length w) Hn). cbn [lower map str_eqb].
  change (lower_chr nl) with nl.
  destruct (Ascii.eqb nl (lower_chr c)) eqn:E.
  - apply Ascii.eqb_eq in E. symmetry in E. apply lower_chr_nl in E. subst c.
    discriminate Hw.
  - reflexivity.
Qed.

Lemma read_trigger_at_nl (code : str) (k : nat) :
  nth_error code k = Some nl -> holds (Read.trigger code k) = false.
Proof.
  intros Hn. unfold Read.trigger.
  pose proof (@match_kw_at_nl code (L "read") k Hn eq_refl) as H.
  destruct (match_kw_at code k (L "read")) as [[|]|e]; cbn [bind holds] in *;
    [discriminate|reflexivity|reflexivity].
Qed.

Lemma trigger_of_at_nl (p : pass) (code : str) (k : nat) :
  nth_error code k = Some nl -> holds (trigger_of p code k) = false.
Proof.
  intros Hn. destruct p; cbn [trigger_of].
  - apply select_trigger_at_nl; exact Hn.
  - apply sort_trigger_at_nl; exact Hn.
  - apply sort_trigger_at_nl; exact Hn.
  - apply read_trigger_at_nl; exact Hn.
Qed.

Lemma scan_next_first_trigger (p : pass) (code : str) (i : nat) :
  scan_next (trigger_of p) code i
  = Ok (first_in_code (fun k => holds (trigger_of p code k)) code i).
Proof.
  destruct (@scan_next_spec (trigger_of p) (trigger_of_returns p) code i) as (r & Hr & _).
  rewrite Hr. f_equal.
  apply (@scan_loop_first (trigger_of p) (trigger_of_at_nl p)) with (1 := Hr).
Qed.




(** X2. The scan of a main loop stops at the first index from [i] on that
    is in code state and where the trigger test of the pass holds. *)
Theorem scan_finds_first_trigger_in_code : forall (p : pass) (code : str) (i : nat),
  scan_next (trigger_of p) code i
  = Ok (first_in_code (fun k => holds (trigger_of p code k)) code i).
Proof. exact scan_next_first_trigger. Qed.

Lemma find_phrase_plain (s : str) (r : re) (start : nat) :
  plain_at s start = true ->
  Orderby.find_phrase s r start = Ok (option_map m_start (search_pos r s start)).
Proof.
  unfold plain_at, peek. intros H.
  destruct (nth_error s start) as [c|] eqn:Hn; [|discriminate].
  assert (Hlt : start < length s) by (apply nth_error_Some; congruence).
  apply andb_prop in H. destruct H as [H Ho]. apply andb_prop in H. destruct H as [Hdq Hst].
  apply negb_true_iff in Hdq, Hst.
  unfold Orderby.find_phrase. cbn [Orderby.find_phrase_loop].
  apply Nat.leb_gt in Hlt. rewrite Hlt. unfold get. rewrite Hn. cbn [bind].
  rewrite Hdq. unfold star_at_bol. rewrite Hst. cbn [bind].
  destruct (open_quote c); [discriminate|].
  destruct (search_pos r s start); reflexivity.
Qed.

(** A [select] trigger stands on a letter. *)
Lemma select_word_plain (code : str) (scan : nat) :
  str_eqb (lower (slice code scan (scan + 6))) (L "select") = true ->
  forall period, scan < period -> plain_at (slice code scan period) 0 = true.
Proof.
  intros H period Hp.
  pose proof (keyword6_in_range code (L "select") scan eq_refl H) as Hr.
  assert (Hlt : scan < length code) by lia.
  destruct (get_lt code Hlt) as (c & _ & Hn).
  replace (scan + 6) with (scan + S 5) in H by lia.
  rewrite (slice_at code scan 5 Hn) in H. cbn [lower map] in H.
  change (L "select") with ("s"%char :: L "elect") in H. cbn [str_eqb] in H.
  apply andb_prop in H. destruct H as [H _]. apply Ascii.eqb_eq in H.
  unfold plain_at, peek, slice. rewrite (skipn_cons code scan Hn).
  destruct (period - scan) as [|m] eqn:E; [lia|]. cbn [firstn nth_error].
  clear - H. destruct c as [[] [] [] [] [] [] [] []]; vm_compute in H; try discriminate H;
    vm_compute; reflexivity.
Qed.

Lemma orderby_trigger_word (code : str) (scan : nat) :
  Orderby.trigger code scan = Ok true ->
  str_eqb (lower (slice code scan (scan + 6))) (L "select") = true.
Proof.
  unfold Orderby.trigger.
  destruct (str_eqb (lower (slice code scan (scan + 6))) (L "select"));
    [reflexivity|discriminate].
Qed.

Lemma orderby_skips_marked :
  forall (today code : str) (sel_pos period : nat),
  Orderby.trigger code sel_pos = Ok true -> sel_pos < period ->
  is_some (re_search fae_re (slice code sel_pos period))
  || is_some (re_search Orderby.order_by_re (slice code sel_pos period)) = true ->
  Orderby.replacement_of today code sel_pos period
  = Ok (slice code sel_pos (period + 1)).
Proof.
  intros today code sel_pos period Ht Hp Hm.
  pose proof (@select_word_plain code sel_pos (@orderby_trigger_word code sel_pos Ht)
                period Hp) as Hplain.
  unfold Orderby.replacement_of, Orderby.has_for_all_entries, Orderby.has_order_by.
  rewrite !(@find_phrase_plain _ _ _ Hplain). cbn [bind].
  unfold re_search in Hm.
  destruct (search_pos fae_re (slice code sel_pos period) 0); cbn [option_map bind];
    [reflexivity|].
  destruct (search_pos Orderby.order_by_re (slice code sel_pos period) 0);
    cbn [option_map bind]; [reflexivity|discriminate Hm].
Qed.

Lemma starts_with_app (pat post : str) : starts_with pat (pat ++ post) = true.
Proof.
  induction pat as [|x pat IH]; simpl; [reflexivity|].
  rewrite Ascii.eqb_refl. exact IH.
Qed.

Lemma is_infix_here (pat s : str) : starts_with pat s = true -> is_infix pat s = true.
Proof. intros H. destruct s; simpl in *; rewrite H; reflexivity. Qed.

Lemma is_infix_cons (pat : str) (c : ascii) (s : str) :
  is_infix pat s = true -> is_infix pat (c :: s) = true.
Proof. intros H. cbn [is_infix]. rewrite H. apply orb_true_r. Qed.

Lemma is_infix_app_r (pat a b : str) : is_infix pat b = true -> is_infix pat (a ++ b) = true.
Proof.
  intros H. induction a as [|x a IH]; [exact H|]. simpl app. apply is_infix_cons. exact IH.
Qed.

Lemma starts_with_app_l (pat a b : str) :
  starts_with pat a = true -> starts_with pat (a ++ b) = true.
Proof.
  revert a. induction pat as [|x pat IH]; intros [|y a]; simpl; try reflexivity;
    try discriminate.
  intros H. apply andb_prop in H. destruct H as [H1 H2]. rewrite H1. apply IH. exact H2.
Qed.

Lemma is_infix_app_l (pat a b : str) : is_infix pat a = true -> is_infix pat (a ++ b) = true.
Proof.
  induction a as [|x a IH]; intros H.
  - simpl in H. rewrite orb_false_r in H. destruct pat; [|discriminate].
    destruct b; reflexivity.
  - cbn [is_infix] in H. apply orb_prop in H. destruct H as [H|H].
    + apply is_infix_here. apply (starts_with_app_l pat (x :: a) b H).
    + simpl app. apply is_infix_cons. apply IH. exact H.
Qed.

Lemma is_infix_mid (pat pre post : str) : is_infix pat (pre ++ pat ++ post) = true.
Proof. apply is_infix_app_r. apply is_infix_here. apply starts_with_app. Qed.

Lemma is_infix_slice (s : str) (i j : nat) : is_infix (slice s i j) s = true.
Proof.
  unfold slice. rewrite <- (firstn_skipn i s) at 2.
  rewrite <- (firstn_skipn (j - i) (skipn i s)) at 2.
  apply is_infix_mid.
Qed.

Lemma lower_slice (s : str) (i j : nat) : lower (slice s i j) = slice (lower s) i j.
Proof. unfold lower, slice. rewrite skipn_map, firstn_map. reflexivity. Qed.

(** A word spelled by a slice of the text, in any case, is in the
    text in lower case. *)
Lemma spelled_in (s kw : str) (i j : nat) :
  str_eqb (lower (slice s i j)) kw = true -> is_infix kw (lower s) = true.
Proof.
  intros H. apply str_eqb_eq in H. rewrite <- H, lower_slice. apply is_infix_slice.
Qed.

Lemma match_kw_at_spelled (s kw : str) (i : nat) :
  match_kw_at s i kw = Ok true -> is_infix (lower kw) (lower s) = true.
Proof.
  unfold match_kw_at.
  destruct (length s <? i + length kw); [discriminate|].
  destruct (str_eqb (lower (slice s i (i + length kw))) (lower kw)) eqn:E;
    cbn [negb]; [|discriminate].
  intros _. apply spelled_in with i (i + length kw). exact E.
Qed.

Lemma bind_ok {A B : Type} (m : res A) (k : A -> res B) (b : B) :
  (x <- m ;; k x) = Ok b -> exists a, m = Ok a /\ k a = Ok b.
Proof. destruct m as [a|e]; cbn [bind]; [|discriminate]. intros H. exists a. auto. Qed.

Lemma trigger_spells_words (p : pass) (code : str) (scan : nat) :
  trigger_of p code scan = Ok true ->
  forall kw, In kw (trigger_words p) -> is_infix kw (lower code) = true.
Proof.
  intros H kw Hin.
  assert (Hlead : forall c k, Sort.trigger c k = Ok true ->
                              is_infix (L "select") (lower c) = true).
  { intros c k. unfold Sort.trigger.
    destruct (str_eqb (lower (slice c k (k + 6))) (L "select")) eqn:E; [|discriminate].
    intros _. apply spelled_in with k (k + 6). exact E. }
  destruct p; cbn [trigger_of trigger_words] in *.
  - unfold Select.trigger, Select.is_select_at in H.
    destruct (str_eqb (lower (slice code scan (scan + 6))) (L "select")) eqn:E;
      cbn [andb] in H; [|discriminate].
    destruct Hin as [<-|[<-|[]]]; [apply spelled_in with scan (scan + 6); exact E|].
    apply bind_ok in H. destruct H as (b & _ & H).
    destruct b; [|discriminate].
    apply bind_ok in H. destruct H as (after & _ & H).
    unfold Select.is_single_at in H.
    destruct (str_eqb (lower (slice code after (after + 6))) (L "single")) eqn:E2.
    + apply spelled_in with after (after + 6). exact E2.
    + rewrite andb_false_r in H. discriminate.
  - destruct Hin as [<-|[]]. apply Hlead with scan. exact H.
  - destruct Hin as [<-|[]]. apply Hlead with scan. exact H.
  - unfold Read.trigger in H. apply bind_ok in H. destruct H as (b & Hb & H).
    destruct b; [|discriminate].
    destruct Hin as [<-|[<-|[]]].
    + apply (match_kw_at_spelled code (L "read") scan Hb).
    + apply (match_kw_at_spelled code (L "table") _ H).
Qed.

Lemma rep_down_some {X : Type} (k : nat -> option X) (i min : nat) : forall r x,
  rep_down k i min r = Some x -> exists n, min <= n <= r /\ k (i + n) = Some x.
Proof.
  induction r as [|r IH]; intros x; cbn [rep_down].
  - destruct (Nat.ltb_spec 0 min) as [Hlt|Hge]; [discriminate|].
    destruct (k (i + 0)) as [y|] eqn:E; [|discriminate].
    intros [= <-]. exists 0. split; [lia|exact E].
  - destruct (Nat.ltb_spec (S r) min) as [Hlt|Hge]; [discriminate|].
    destruct (k (i + S r)) as [y|] eqn:E.
    + intros [= <-]. exists (S r). split; [lia|exact E].
    + intros H. apply IH in H. destruct H as (n & Hn & Hk). exists n. split; [lia|exact Hk].
Qed.

(** What the engine accepts is a match. *)
Lemma rx_matches {X : Type} (s : str) : forall (r : re) (i : nat) (g : groups)
  (k : nat -> groups -> option X) (x : X),
  rx r s i g k = Some x ->
  exists j gs, matches s r i j gs /\ k j (gs ++ g) = Some x.
Proof.
  induction r as [|p| | | |a IHa b IHb|a IHa b IHb|a IHa|min p|n a IHa];
    intros i g k x; cbn [rx].
  - intros H. exists i, []. split; [constructor|exact H].
  - destruct (nth_error s i) as [c|] eqn:Hn; [|discriminate].
    destruct (p c) eqn:Hp; [|discriminate].
    intros H. exists (S i), []. split; [apply M_Chr with c; assumption|exact H].
  - destruct (xorb _ _) eqn:E; [|discriminate].
    intros H. exists i, []. split; [constructor; exact E|exact H].
  - destruct (Nat.eqb_spec i 0) as [->|]; [|discriminate].
    intros H. exists 0, []. split; [constructor|exact H].
  - destruct (_ || _) eqn:E; [|discriminate].
    intros H. exists i, []. split; [constructor; exact E|exact H].
  - intros H. apply IHa in H. destruct H as (j & ga & Ha & H).
    apply IHb in H. destruct H as (j' & gb & Hb & H).
    exists j', (gb ++ ga). split; [apply M_Seq with j; assumption|].
    rewrite <- app_assoc. exact H.
  - destruct (rx a s i g k) as [y|] eqn:E.
    + intros [= <-]. apply IHa in E. destruct E as (j & ga & Ha & H).
      exists j, ga. split; [apply M_AltL; exact Ha|exact H].
    + intros H. apply IHb in H. destruct H as (j & gb & Hb & H).
      exists j, gb. split; [apply M_AltR; exact Hb|exact H].
  - destruct (rx a s i g k) as [y|] eqn:E.
    + intros [= <-]. apply IHa in E. destruct E as (j & ga & Ha & H).
      exists j, ga. split; [apply M_OptSome; exact Ha|exact H].
    + intros H. exists i, []. split; [apply M_OptNone|exact H].
  - intros H. apply rep_down_some in H. destruct H as (n & Hn & H).
    exists (i + n), []. split; [apply M_Rep; lia|exact H].
  - intros H. apply IHa in H. destruct H as (j & ga & Ha & H).
    exists j, ((n, (i, j)) :: ga). split; [apply M_Grp; exact Ha|exact H].
Qed.

Lemma match_at_matches (r : re) (s : str) (i : nat) (m : rmatch) :
  match_at r s i = Some m ->
  exists j gs, m = (i, j, gs) /\ matches s r i j gs.
Proof.
  unfold match_at. intros H. apply rx_matches in H.
  destruct H as (j & gs & Hm & H). injection H as <-.
  exists j, gs. rewrite app_nil_r. split; [reflexivity|exact Hm].
Qed.

Lemma search_loop_matches (r : re) (s : str) : forall cnt i m,
  search_loop r s i cnt = Some m ->
  exists a j gs, m = (a, j, gs) /\ i <= a /\ matches s r a j gs.
Proof.
  induction cnt as [|cnt IH]; intros i m; cbn [search_loop];
    destruct (match_at r s i) as [m'|] eqn:E.
  - intros [= <-]. apply match_at_matches in E. destruct E as (j & gs & -> & Hm).
    exists i, j, gs. auto.
  - discriminate.
  - intros [= <-]. apply match_at_matches in E. destruct E as (j & gs & -> & Hm).
    exists i, j, gs. auto.
  - intros H. apply IH in H. destruct H as (a & j & gs & -> & Ha & Hm).
    exists a, j, gs. split; [reflexivity|]. split; [lia|exact Hm].
Qed.

Lemma search_pos_matches (r : re) (s : str) (pos : nat) (m : rmatch) :
  search_pos r s pos = Some m ->
  exists a j gs, m = (a, j, gs) /\ pos <= a /\ matches s r a j gs.
Proof.
  unfold search_pos. destruct (length s <? pos); [discriminate|].
  apply search_loop_matches.
Qed.


Lemma matches_seqs_cons (s : str) (r : re) (rs : list re) (i j : nat) (gs : groups) :
  matches s (seqs (r :: rs)) i j gs ->
  exists m ga gb, matches s r i m ga /\ matches s (seqs rs) m j gb /\ gs = gb ++ ga.
Proof.
  destruct rs as [|r' rs]; cbn [seqs].
  - intros H. exists j, gs, []. split; [exact H|]. split; [constructor|reflexivity].
  - intros H. inversion H; subst. eexists _, _, _. split; [eassumption|].
    split; [eassumption|reflexivity].
Qed.

Lemma slice_split (s : str) (i j k : nat) :
  i <= j <= k -> slice s i k = slice s i j ++ slice s j k.
Proof.
  intros H. unfold slice at 1. fold (from_ s i). rewrite (@from_split s i j) by lia.
  rewrite firstn_app, length_slice.
  destruct (Nat.le_gt_cases j (length s)) as [Hj|Hj].
  - rewrite firstn_all2 by (rewrite length_slice; lia).
    f_equal. unfold slice, from_. f_equal. lia.
  - assert (E1 : from_ s j = []) by (apply from_beyond; lia).
    assert (E2 : slice s j k = [])
      by (unfold slice; rewrite skipn_all2 by lia; apply firstn_nil).
    rewrite E1, E2, firstn_nil, !app_nil_r. apply firstn_all2. rewrite length_slice. lia.
Qed.

(** A literal word matches its own spelling, in any case. *)
Lemma matches_ilit_of (s : str) : forall (w : str) (i j : nat) (gs : groups),
  matches s (ilit_of w) i j gs ->
  gs = [] /\ j = i + length w /\ lower (slice s i j) = lower w.
Proof.
  assert (Hchr : forall c i j gs,
            matches s (Chr (fun x => Ascii.eqb (lower_chr x) (lower_chr c))) i j gs ->
            gs = [] /\ j = i + 1 /\ lower (slice s i j) = [lower_chr c]).
  { intros c i j gs H. inversion H as [|p i0 c0 Hn Hp| | | | | | | | | |]; subst.
    split; [reflexivity|]. split; [lia|].
    unfold slice. rewrite (skipn_cons s i Hn).
    replace (S i - i) with 1 by lia. cbn [firstn lower map].
    apply Ascii.eqb_eq in Hp. rewrite Hp. reflexivity. }
  induction w as [|c w IH]; intros i j gs; cbn [ilit_of].
  - intros H. inversion H; subst. split; [reflexivity|]. split; [cbn; lia|].
    unfold slice. rewrite Nat.sub_diag. reflexivity.
  - destruct w as [|c' w'].
    + intros H. apply Hchr in H. destruct H as (-> & -> & H).
      split; [reflexivity|]. split; [reflexivity|exact H].
    + intros H. inversion H as [| | | | |a b i0 m k0 ga gb Ha Hb| | | | | |]; subst.
      apply Hchr in Ha. destruct Ha as (-> & -> & Ha).
      apply IH in Hb. destruct Hb as (-> & -> & Hb).
      split; [reflexivity|]. split; [cbn [length]; lia|].
      assert (Hs : slice s i (i + 1 + length (c' :: w'))
                   = slice s i (i + 1) ++ slice s (i + 1) (i + 1 + length (c' :: w')))
        by (apply slice_split; lia).
      rewrite Hs. unfold lower in *. rewrite map_app, Ha, Hb. reflexivity.
Qed.

Lemma matches_ilit (s : str) (w : string) (i j : nat) (gs : groups) :
  matches s (ilit w) i j gs ->
  gs = [] /\ j = i + length (L w) /\ lower (slice s i j) = lower (L w).
Proof. apply matches_ilit_of. Qed.

Lemma matches_ilit_spelled (s : str) (w : string) (i j : nat) (gs : groups) :
  matches s (ilit w) i j gs -> is_infix (lower (L w)) (lower s) = true.
Proof.
  intros H. apply matches_ilit in H. destruct H as (_ & _ & H).
  rewrite <- H, lower_slice. apply is_infix_slice.
Qed.

Lemma matches_alt (s : str) (a b : re) (i j : nat) (g : groups) :
  matches s (Alt a b) i j g -> matches s a i j g \/ matches s b i j g.
Proof. intros H. inversion H; subst; [left|right]; assumption. Qed.

Lemma matches_opt (s : str) (a : re) (i j : nat) (g : groups) :
  matches s (Opt a) i j g -> matches s a i j g \/ (j = i /\ g = []).
Proof. intros H. inversion H; subst; [left; assumption|right; split; reflexivity]. Qed.

Lemma matches_grp (s : str) (n : nat) (a : re) (i j : nat) (g : groups) :
  matches s (Grp n a) i j g -> exists g', g = (n, (i, j)) :: g' /\ matches s a i j g'.
Proof. intros H. inversion H; subst. eexists. split; [reflexivity|assumption]. Qed.

Lemma matches_seq (s : str) (a b : re) (i j : nat) (gs : groups) :
  matches s (Seq a b) i j gs ->
  exists m ga gb, matches s a i m ga /\ matches s b m j gb /\ gs = gb ++ ga.
Proof.
  intros H. inversion H; subst. eexists _, _, _. split; [eassumption|].
  split; [eassumption|reflexivity].
Qed.

Ltac seqs_inv H :=
  let m := fresh "m" in
  let ga := fresh "ga" in
  let gb := fresh "gb" in
  let Hh := fresh "Hhead" in
  let Hg := fresh "Hg" in
  first [apply matches_seqs_cons in H | apply matches_seq in H];
  destruct H as (m & ga & gb & Hh & H & Hg).

Lemma is_infix_of_slice (pat t : str) (i j : nat) :
  is_infix pat (slice t i j) = true -> is_infix pat t = true.
Proof.
  intros H. rewrite <- (firstn_skipn i t).
  apply is_infix_app_r. rewrite <- (firstn_skipn (j - i) (skipn i t)).
  apply is_infix_app_l. exact H.
Qed.

Lemma is_infix_lower_slice (pat s : str) (i j : nat) :
  is_infix pat (lower (slice s i j)) = true -> is_infix pat (lower s) = true.
Proof. rewrite lower_slice. apply is_infix_of_slice. Qed.

(** The bulk marker is spelled where its pattern matches. *)
Lemma fae_spelled (s : str) (m : rmatch) :
  re_search fae_re s = Some m ->
  forall kw, In kw [L "for"; L "all"; L "entries"] -> is_infix kw (lower s) = true.
Proof.
  unfold re_search. intros H. apply search_pos_matches in H.
  destruct H as (a & j & gs & _ & _ & H). unfold fae_re in H.
  seqs_inv H. seqs_inv H. seqs_inv H. seqs_inv H. seqs_inv H. seqs_inv H.
  intros kw [<-|[<-|[<-|[]]]].
  - exact (@matches_ilit_spelled _ _ _ _ _ Hhead0).
  - exact (@matches_ilit_spelled _ _ _ _ _ Hhead2).
  - exact (@matches_ilit_spelled _ _ _ _ _ Hhead4).
Qed.

Lemma index_spelled (s : str) :
  Read.read_has_index s = true -> is_infix (L "index") (lower s) = true.
Proof.
  unfold Read.read_has_index, Read.found, re_search.
  destruct (search_pos Read.index_re s 0) as [m|] eqn:E; [|discriminate].
  intros _. apply search_pos_matches in E.
  destruct E as (a & j & gs & _ & _ & H). unfold Read.index_re in H.
  seqs_inv H. seqs_inv H. apply (@matches_ilit_spelled _ _ _ _ _ Hhead0).
Qed.

Lemma key_spelled (s : str) :
  Read.read_has_key s = true -> is_infix (L "key") (lower s) = true.
Proof.
  unfold Read.read_has_key, Read.found, re_search.
  destruct (search_pos Read.any_key_re s 0) as [m|] eqn:E; [|discriminate].
  intros _. apply search_pos_matches in E.
  destruct E as (a & j & gs & _ & _ & H). unfold Read.any_key_re in H.
  seqs_inv H. seqs_inv H.
  apply matches_alt in Hhead0. destruct Hhead0 as [H1|H1].
  { seqs_inv H1. seqs_inv H1. seqs_inv H1. seqs_inv H1.
    apply (@matches_ilit_spelled _ _ _ _ _ H1). }
  apply matches_alt in H1. destruct H1 as [H2|H2].
  { seqs_inv H2. seqs_inv H2. apply (@matches_ilit_spelled _ _ _ _ _ H2). }
  apply matches_alt in H2. destruct H2 as [H3|H3].
  { seqs_inv H3. seqs_inv H3. apply (@matches_ilit_spelled _ _ _ _ _ H3). }
  apply (@matches_ilit_spelled _ _ _ _ _ H3).
Qed.

(** sort.py changes nothing when no statement holds the bulk marker. *)
Lemma sort_main_loop_unchanged (today code : str) :
  (forall sel period, Sort.has_for_all_entries (slice code sel period) = false) ->
  forall fuel i out_parts,
  length code - i < fuel ->
  Sort.main_loop fuel today code i out_parts = Ok (concat out_parts ++ from_ code i).
Proof.
  intros Hno. induction fuel as [|fuel IH]; intros i out_parts Hf; [lia|].
  cbn [Sort.main_loop].
  destruct (Nat.leb_spec (length code) i) as [Hge|Hlt].
  { rewrite from_beyond by exact Hge. rewrite app_nil_r. reflexivity. }
  destruct (@scan_next_spec Sort.trigger (fun c k _ => select_lead_trigger_returns c k) code i)
    as (found & Hfound & Hb).
  rewrite Hfound. cbn [bind].
  destruct found as [sel_pos|]; [|rewrite concat_snoc; reflexivity].
  specialize (Hb sel_pos eq_refl).
  destruct (find_statement_period_spec code sel_pos) as (period & Hperiod & Hp).
  rewrite Hperiod. cbn [bind].
  destruct period as [period_pos|].
  2:{ rewrite !concat_snoc, <- app_assoc, <- from_split by lia. reflexivity. }
  specialize (Hp period_pos eq_refl).
  unfold Sort.insertion_of. rewrite Hno. cbn [negb bind].
  rewrite IH by lia. rewrite !concat_snoc, <- !app_assoc.
  rewrite <- (@from_split code sel_pos (period_pos + 1)) by lia.
  rewrite <- (@from_split code i sel_pos) by lia. reflexivity.
Qed.

(** read_statement.py changes nothing when no statement holds [INDEX]
    or [KEY]. *)
Lemma read_main_loop_unchanged (today code : str) :
  (forall pos period, Read.read_has_index (slice code pos period)
                      || Read.read_has_key (slice code pos period) = false) ->
  forall fuel i out_parts,
  length code - i < fuel ->
  Read.main_loop fuel today code i out_parts = Ok (concat out_parts ++ from_ code i).
Proof.
  intros Hno. induction fuel as [|fuel IH]; intros i out_parts Hf; [lia|].
  cbn [Read.main_loop].
  destruct (Nat.leb_spec (length code) i) as [Hge|Hlt].
  { rewrite from_beyond by exact Hge. rewrite app_nil_r. reflexivity. }
  destruct (@scan_next_spec Read.trigger (fun c k _ => read_trigger_returns c k) code i)
    as (found & Hfound & Hb).
  rewrite Hfound. cbn [bind].
  destruct found as [read_pos|]; [|rewrite concat_snoc; reflexivity].
  specialize (Hb read_pos eq_refl).
  destruct (find_statement_period_spec code read_pos) as (period & Hperiod & Hp).
  rewrite Hperiod. cbn [bind].
  destruct period as [period_pos|].
  2:{ rewrite !concat_snoc, <- app_assoc, <- from_split by lia. reflexivity. }
  specialize (Hp period_pos eq_refl).
  assert (Hins : Read.insertion_of today code read_pos period_pos = Ok None).
  { unfold Read.insertion_of.
    destruct (Read.extract_itab (slice code read_pos period_pos)) as [itab|];
      [|reflexivity].
    destruct (is_empty itab); [reflexivity|].
    cbv zeta. rewrite Hno. reflexivity. }
  rewrite Hins. cbn [bind].
  rewrite IH by lia. rewrite !concat_snoc, <- !app_assoc.
  rewrite <- (@from_split code read_pos (period_pos + 1)) by lia.
  rewrite <- (@from_split code i read_pos) by lia. reflexivity.
Qed.

Lemma first_code_none (hit : nat -> bool) :
  (forall k, hit k = false) -> forall sts k, first_code hit sts k = None.
Proof.
  intros H. induction sts as [|st sts IH]; intros k; cbn [first_code]; [reflexivity|].
  rewrite H, andb_false_r. apply IH.
Qed.

(** A pass whose trigger test holds nowhere returns the text. *)
Lemma run_without_trigger (p : pass) (today code : str) :
  (forall k, holds (trigger_of p code k) = false) -> run p today code = Ok code.
Proof.
  intros H.
  destruct code as [|c code'] eqn:Ec; [apply run_empty|]. rewrite <- Ec in *.
  assert (Hlen : 0 < length code) by (rewrite Ec; cbn; lia).
  assert (Hscan : scan_next (trigger_of p) code 0 = Ok None).
  { rewrite scan_next_first_trigger. f_equal.
    apply first_code_none. exact H. }
  pose proof (@main_loop_no_trigger p (length code) today code 0 [] Hlen Hscan) as Hm.
  destruct p; exact Hm.
Qed.

Lemma holds_true (m : res bool) : holds m = true -> m = Ok true.
Proof. destruct m as [[|]|e]; try discriminate. reflexivity. Qed.

Lemma untouched_without_word (p : pass) (today code kw : str) :
  In kw (needed_words p) -> is_infix kw (lower code) = false ->
  run p today code = Ok code.
Proof.
  intros Hin Hkw.
  assert (Htrig : In kw (trigger_words p) -> run p today code = Ok code).
  { intros Hw. apply run_without_trigger. intros k.
    destruct (holds (trigger_of p code k)) eqn:E; [|reflexivity].
    apply holds_true in E.
    rewrite (trigger_spells_words p code k E kw Hw) in Hkw. discriminate. }
  destruct p; cbn [needed_words trigger_words] in *; try (apply Htrig; exact Hin).
  destruct Hin as [<-|Hin]; [apply Htrig; left; reflexivity|].
  cbn [run]. unfold Sort.process_sort.
  rewrite sort_main_loop_unchanged; [reflexivity| |lia].
  intros sel period. unfold Sort.has_for_all_entries.
  destruct (re_search fae_re (slice code sel period)) as [m|] eqn:E; [|reflexivity].
  pose proof (@fae_spelled _ _ E kw Hin) as Hs.
  apply is_infix_lower_slice in Hs. congruence.
Qed.

Lemma remediate_without_words (today code : str) :
  is_infix (L "select") (lower code) = false ->
  is_infix (L "read") (lower code) = false ->
  remediate today code = Ok code.
Proof.
  intros Hs Hr. unfold remediate.
  pose proof (@untouched_without_word PSelect today code (L "select")
                (or_introl eq_refl) Hs) as H1.
  pose proof (@untouched_without_word PSort today code (L "select")
                (or_introl eq_refl) Hs) as H2.
  pose proof (@untouched_without_word POrderby today code (L "select")
                (or_introl eq_refl) Hs) as H3.
  pose proof (@untouched_without_word PRead today code (L "read")
                (or_introl eq_refl) Hr) as H4.
  cbn [run] in *. rewrite H1. cbn [bind]. rewrite H2. cbn [bind].
  rewrite H3. cbn [bind]. exact H4.
Qed.

(** X6. A pass returns a text unchanged when one of the words it looks
    for is spelled nowhere in it, in any case.  The texts are those of
    [str]: their characters have code points below 256. *)
Theorem a_pass_needs_its_words : forall (p : pass) (today code kw : str),
  In kw (needed_words p) -> is_infix kw (lower code) = false ->
  run p today code = Ok code.
Proof. intros p today code kw. apply untouched_without_word. Qed.

Lemma a_pass_needs_its_words_witness :
  run PSort sample_date scenario_C = Ok scenario_C.
Proof.
  apply (@a_pass_needs_its_words PSort sample_date scenario_C (L "entries")).
  - cbn. tauto.
  - vm_compute. reflexivity.
Defined.

(** X7. read_statement.py returns a text unchanged when it spells neither
    [index] nor [key].  The texts are those of [str]: their characters
    have code points below 256. *)
Theorem read_needs_index_or_key : forall (today code : str),
  is_infix (L "index") (lower code) = false ->
  is_infix (L "key") (lower code) = false ->
  Read.process_read today code = Ok code.
Proof.
  intros today code Hi Hk. unfold Read.process_read.
  rewrite read_main_loop_unchanged; [reflexivity| |lia].
  intros pos period. apply orb_false_intro.
  - destruct (Read.read_has_index (slice code pos period)) eqn:E; [|reflexivity].
    apply index_spelled, is_infix_lower_slice in E. congruence.
  - destruct (Read.read_has_key (slice code pos period)) eqn:E; [|reflexivity].
    apply key_spelled, is_infix_lower_slice in E. congruence.
Qed.

Lemma read_needs_index_or_key_witness :
  Read.process_read sample_date (L "READ TABLE itab INTO wa.")
  = Ok (L "READ TABLE itab INTO wa.").
Proof.
  apply (@read_needs_index_or_key sample_date (L "READ TABLE itab INTO wa."));
    vm_compute; reflexivity.
Defined.











Lemma matches_no_group (s : str) (r : re) (i j : nat) (gs : groups) :
  matches s r i j gs -> has_group r = false -> gs = [].
Proof.
  induction 1; cbn [has_group]; intros Hg; try reflexivity;
    try (apply orb_false_elim in Hg; destruct Hg as [Hg1 Hg2]); auto.
  - rewrite IHmatches1, IHmatches2 by assumption. reflexivity.
  - discriminate.
Qed.

Lemma forallb_firstn_span (p : ascii -> bool) : forall (l : str) (n : nat),
  n <= span p l -> forallb p (firstn n l) = true.
Proof.
  induction l as [|c l IH]; intros [|n] Hn; cbn [firstn forallb]; try reflexivity.
  cbn [span] in Hn. destruct (p c) eqn:E; [|lia]. cbn [andb]. apply IH. lia.
Qed.

(** What the identifier pattern matches is an identifier. *)
Lemma matches_ident (s : str) (i j : nat) (gs : groups) :
  matches s ident i j gs -> gs = [] /\ i < j /\ is_identifier (slice s i j) = true.
Proof.
  intros H. split; [apply (matches_no_group H); reflexivity|].
  unfold ident in H.
  inversion H as [| | | | |a b i0 m k0 ga gb Ha Hb| | | | | |]; subst.
  inversion Ha as [|p i0 c Hn Hp| | | | | | | | | |]; subst.
  inversion Hb as [| | | | | | | | | |mn p i0 n Hmin Hsp|]; subst.
  split; [lia|].
  unfold slice. rewrite (skipn_cons s i Hn).
  replace (S i + n - i) with (S n) by lia. cbn [firstn is_identifier].
  rewrite Hp. cbn [andb]. apply forallb_firstn_span.
  replace (i + 1) with (S i) by lia. exact Hsp.
Qed.

Lemma group_of (s : str) (a j : nat) (gs : groups) (n x y : nat) :
  lookup_group n gs = Some (x, y) -> group s (a, j, gs) n = Some (slice s x y).
Proof. unfold group. cbn [snd]. intros ->. reflexivity. Qed.

(** Clears the matches of patterns without group: they capture nothing. *)
Ltac no_groups :=
  repeat match goal with
         | H : matches _ _ _ _ _ |- _ =>
             let E := fresh "E" in
             pose proof (matches_no_group H eq_refl) as E; subst; clear H
         end.

(** The target table that sort.py reads from a statement is an
    identifier spelled in the statement. *)
Lemma extract_target_table_ident (stmt t : str) :
  Sort.extract_target_table stmt = Some t ->
  is_identifier t = true /\ is_infix t stmt = true.
Proof.
  unfold Sort.extract_target_table, re_search.
  destruct (search_pos Sort.target_tbl_re stmt 0) as [m|] eqn:E; [|discriminate].
  apply search_pos_matches in E. destruct E as (a & j & gs & -> & _ & H).
  unfold Sort.target_tbl_re in H.
  seqs_inv H. seqs_inv H. seqs_inv H. seqs_inv H. seqs_inv H.
  cbn [seqs] in H. no_groups. rewrite !app_nil_r.
  apply matches_alt in H. destruct H as [H|H].
  - seqs_inv H. seqs_inv H. seqs_inv H. seqs_inv H. seqs_inv H. seqs_inv H.
    cbn [seqs] in H. no_groups.
    match goal with
    | Hg : matches _ (Grp 1 ident) _ _ _ |- _ =>
        apply matches_grp in Hg; destruct Hg as (g' & -> & Hid)
    end.
    apply matches_ident in Hid. destruct Hid as (-> & Hlt & Hid).
    cbn [app]. unfold group. cbn [snd lookup_group Nat.eqb].
    match type of Hid with
    | is_identifier (slice stmt ?x ?y) = true =>
        destruct (slice stmt x y) as [|c t1] eqn:Et; [discriminate Hid|]
    end.
    cbn [is_empty]. intros [= <-]. split; [exact Hid|].
    rewrite <- Et. apply is_infix_slice.
  - seqs_inv H. cbn [seqs] in H. no_groups.
    apply matches_grp in H. destruct H as (g' & -> & Hid).
    apply matches_ident in Hid. destruct Hid as (-> & Hlt & Hid).
    cbn [app]. unfold group. cbn [snd lookup_group Nat.eqb].
    match type of Hid with
    | is_identifier (slice stmt ?x ?y) = true =>
        destruct (slice stmt x y) as [|c t1] eqn:Et; [discriminate Hid|]
    end.
    cbn [is_empty]. intros [= <-]. split; [exact Hid|].
    rewrite <- Et. apply is_infix_slice.
Qed.

Lemma matches_chr (s : str) (p : ascii -> bool) (i j : nat) (gs : groups) :
  matches s (Chr p) i j gs ->
  gs = [] /\ j = S i /\ exists c, nth_error s i = Some c /\ p c = true.
Proof.
  intros H. inversion H; subst. split; [reflexivity|]. split; [reflexivity|].
  eexists. split; eassumption.
Qed.

Lemma matches_wordb (s : str) (i j : nat) (gs : groups) :
  matches s WordB i j gs ->
  gs = [] /\ j = i /\ xorb (word_before s i) (peek is_word_char s i) = true.
Proof. intros H. inversion H; subst. auto. Qed.

Lemma slice_one (s : str) (i : nat) (c : ascii) :
  nth_error s i = Some c -> slice s i (S i) = [c].
Proof.
  intros Hn. unfold slice. rewrite (skipn_cons s i Hn).
  replace (S i - i) with 1 by lia. reflexivity.
Qed.

(** The table that read_statement.py reads from a statement is spelled
    in the statement; it is an identifier, or an identifier in angle
    brackets that a word character follows. *)
(** X22. The table that read_statement.py reads from a statement is
    spelled in the statement; it is an identifier, or a field symbol
    that a word character follows. *)
Theorem read_itab_is_name_or_field_symbol (stmt t : str) :
  Read.extract_itab stmt = Some t ->
  is_infix t stmt = true
  /\ (is_identifier t = true
      \/ exists name c,
           t = [lt_sign] ++ name ++ [gt_sign] /\ is_identifier name = true
           /\ is_word_char c = true /\ is_infix (t ++ [c]) stmt = true).
Proof.
  unfold Read.extract_itab, re_search.
  destruct (search_pos Read.itab_re stmt 0) as [m|] eqn:E; [|discriminate].
  apply search_pos_matches in E. destruct E as (a & j & gs & -> & _ & H).
  unfold Read.itab_re in H.
  seqs_inv H. seqs_inv H. seqs_inv H. seqs_inv H. seqs_inv H. seqs_inv H.
  cbn [seqs] in H.
  apply matches_wordb in H. destruct H as (-> & -> & Hb).
  match goal with
  | Hg : matches _ (Grp 1 _) _ _ _ |- _ =>
      apply matches_grp in Hg; destruct Hg as (g' & -> & Halt)
  end.
  revert Halt. no_groups. intros Halt.
  cbn [app]. unfold group. cbn [snd lookup_group Nat.eqb]. intros [= <-].
  split; [apply is_infix_slice|].
  apply matches_alt in Halt. destruct Halt as [Hfs|Hid].
  - right. seqs_inv Hfs. seqs_inv Hfs. cbn [seqs] in Hfs.
    apply matches_chr in Hhead. destruct Hhead as (-> & -> & c1 & Hn1 & Hc1).
    apply matches_chr in Hfs. destruct Hfs as (-> & -> & c2 & Hn2 & Hc2).
    apply matches_ident in Hhead0. destruct Hhead0 as (-> & Hlt & Hid).
    apply is_chr_true in Hc1, Hc2. subst c1 c2.
    match type of Hn2 with
    | nth_error stmt ?k = _ => set (e := k) in *
    end.
    match type of Hn1 with
    | nth_error stmt ?k = _ => set (b := k) in *
    end.
    unfold word_before in Hb. cbn [peek] in Hb. unfold peek in Hb at 1.
    rewrite Hn2 in Hb. change (is_word_char gt_sign) with false in Hb.
    cbn [xorb] in Hb. unfold peek in Hb.
    destruct (nth_error stmt (S e)) as [c|] eqn:Hn3; [|discriminate].
    assert (Ht : slice stmt b (S e)
                 = [lt_sign] ++ slice stmt (S b) e ++ [gt_sign]).
    { rewrite (@slice_split stmt b (S b) (S e)) by lia.
      rewrite (slice_one stmt b Hn1). f_equal.
      rewrite (@slice_split stmt (S b) e (S e)) by lia.
      rewrite (slice_one stmt e Hn2). reflexivity. }
    exists (slice stmt (S b) e), c.
    split; [exact Ht|]. split; [exact Hid|]. split; [exact Hb|].
    rewrite <- (slice_one stmt (S e) Hn3).
    rewrite <- (@slice_split stmt b (S e) (S (S e))) by lia.
    apply is_infix_slice.
  - left. apply matches_ident in Hid. apply Hid.
Qed.

(** The names that [re.findall] collects in front of an equals sign
    are identifiers. *)
Lemma findall_assign_ident (s : str) : forall fuel pos x,
  In x (findall_loop fuel Read.assign_re s pos) -> is_identifier x = true.
Proof.
  induction fuel as [|fuel IH]; intros pos x; cbn [findall_loop]; [intros []|].
  destruct (search_pos Read.assign_re s pos) as [m|] eqn:E; [|intros []].
  apply search_pos_matches in E. destruct E as (a & j & gs & -> & _ & H).
  unfold Read.assign_re in H.
  seqs_inv H. seqs_inv H. seqs_inv H. cbn [seqs] in H. no_groups.
  match goal with
  | Hg : matches _ (Grp 1 ident) _ _ _ |- _ =>
      apply matches_grp in Hg; destruct Hg as (g' & -> & Hid)
  end.
  apply matches_ident in Hid. destruct Hid as (-> & Hlt & Hid).
  cbn [app]. unfold group. cbn [snd lookup_group Nat.eqb].
  intros [<-|Hin]; [exact Hid|]. apply IH in Hin. exact Hin.
Qed.

Lemma read_key_fields_spec : forall stmt : str,
  NoDup (map lower (Read.extract_key_fields stmt))
  /\ (forall f, In f (Read.extract_key_fields stmt) ->
                is_identifier f = true /\ Read.is_key_word (lower f) = false)
  /\ dedupe (Read.extract_key_fields stmt) = Read.extract_key_fields stmt.
Proof.
  intros stmt.
  assert (H : NoDup (map lower (Read.extract_key_fields stmt))
              /\ forall f, In f (Read.extract_key_fields stmt) ->
                           is_identifier f = true /\ Read.is_key_word (lower f) = false).
  { unfold Read.extract_key_fields. cbv zeta.
    match goal with
    | |- context [match ?m with Some _ => _ | None => _ end] =>
        match m with
        | Read.or_else _ _ => destruct m as [mk|]
        end
    end.
    - match goal with
      | |- context [Read.key_fields_loop ?c [] []] =>
          destruct (@key_fields_loop_spec c [] []) as (H1 & H2 & _)
      end.
      + intros x. simpl. tauto.
      + constructor.
      + intros f [].
      + split; [exact H1|]. intros f Hf. destruct (H2 f Hf) as [Hk [[]|Hc]].
        split; [|exact Hk]. unfold re_findall in Hc.
        apply findall_assign_ident in Hc. exact Hc.
    - split; [constructor|intros f []]. }
  destruct H as [H1 H2]. split; [exact H1|]. split; [exact H2|].
  apply dedupe_distinct. exact H1.
Qed.


Lemma match_at_rep1 (p : ascii -> bool) (s : str) (i : nat) :
  match_at (Rep 1 p) s i
  = if 1 <=? span p (skipn i s) then Some (i, i + span p (skipn i s), []) else None.
Proof.
  unfold match_at. cbn [rx].
  destruct (span p (skipn i s)) as [|n]; reflexivity.
Qed.

Lemma span_0_index (p : ascii -> bool) (t : str) :
  span p t = 0 -> index_of p t = match t with [] => None | _ :: t' => option_map S (index_of p t') end.
Proof.
  destruct t as [|c t']; cbn [span index_of]; [reflexivity|].
  destruct (p c); [discriminate|]. intros _. destruct (index_of p t'); reflexivity.
Qed.

(** The leftmost match of [p+] starts at the first character that
    satisfies [p] and covers the run that starts there. *)
Lemma search_loop_rep1 (p : ascii -> bool) (s : str) : forall cnt i,
  cnt = length s - i -> i <= length s ->
  search_loop (Rep 1 p) s i cnt
  = match index_of p (skipn i s) with
    | Some k => Some (i + k, i + k + span p (skipn (i + k) s), [])
    | None => None
    end.
Proof.
  induction cnt as [|cnt IH]; intros i Hc Hi; cbn [search_loop]; rewrite match_at_rep1.
  - rewrite skipn_all2 by lia. reflexivity.
  - assert (Hlt : i < length s) by lia.
    destruct (get_lt s Hlt) as (c & _ & Hn).
    rewrite (skipn_cons s i Hn). cbn [span index_of].
    destruct (p c) eqn:E.
    + cbn [Nat.leb]. rewrite Nat.add_0_r, (skipn_cons s i Hn). cbn [span]. rewrite E.
      reflexivity.
    + cbn [Nat.leb]. rewrite IH by lia. replace (S i) with (i + 1) by lia.
      destruct (index_of p (skipn (i + 1) s)) as [k|]; [|reflexivity].
      replace (i + 1 + k) with (i + S k) by lia. reflexivity.
Qed.

Lemma search_pos_rep1 (p : ascii -> bool) (s : str) (pos : nat) :
  pos <= length s ->
  search_pos (Rep 1 p) s pos
  = match index_of p (skipn pos s) with
    | Some k => Some (pos + k, pos + k + span p (skipn (pos + k) s), [])
    | None => None
    end.
Proof.
  intros H. unfold search_pos.
  destruct (Nat.ltb_spec (length s) pos) as [Hlt|Hge]; [lia|].
  apply search_loop_rep1; [reflexivity|exact H].
Qed.

Lemma squeeze_from_plain (repl : str -> str) : forall (a : str) (t : str),
  index_of is_blank a = None ->
  squeeze_from repl [] (a ++ t) = a ++ squeeze_from repl [] t.
Proof.
  induction a as [|c a IH]; intros t H; [reflexivity|].
  cbn [index_of] in H. cbn [app squeeze_from].
  destruct (is_blank c); [discriminate|].
  destruct (index_of is_blank a) eqn:E; [discriminate|].
  cbn [is_empty app]. f_equal. apply IH. reflexivity.
Qed.

Lemma squeeze_from_run (repl : str -> str) : forall (t run : str),
  squeeze_from repl run t
  = (if is_empty (run ++ firstn (span is_blank t) t) then []
     else repl (run ++ firstn (span is_blank t) t))
    ++ squeeze_from repl [] (skipn (span is_blank t) t).
Proof.
  induction t as [|c t IH]; intros run; cbn [span squeeze_from].
  - cbn [firstn skipn squeeze_from]. rewrite !app_nil_r. reflexivity.
  - destruct (is_blank c) eqn:E.
    + rewrite IH. cbn [firstn skipn]. rewrite <- app_assoc. reflexivity.
    + cbn [firstn skipn squeeze_from]. rewrite E, app_nil_r. reflexivity.
Qed.

Lemma index_of_firstn (p : ascii -> bool) : forall (t : str) (k : nat),
  index_of p t = Some k -> index_of p (firstn k t) = None /\ 0 < span p (skipn k t).
Proof.
  induction t as [|c t IH]; intros k; cbn [index_of]; [discriminate|].
  destruct (p c) eqn:E.
  - intros [= <-]. cbn [firstn skipn span index_of]. rewrite E. split; [reflexivity|lia].
  - destruct (index_of p t) as [j|]; [|discriminate].
    intros [= <-]. cbn [firstn skipn index_of]. rewrite E.
    destruct (IH j eq_refl) as [H1 H2]. rewrite H1. split; [reflexivity|exact H2].
Qed.


(** [re.sub] on runs of blanks is [squeeze]. *)
Lemma sub_loop_blank_runs (repl : str -> str) (s : str) : forall fuel pos,
  length s - pos < fuel -> pos <= length s ->
  sub_loop fuel (Rep 1 is_blank) repl s pos = squeeze_from repl [] (skipn pos s).
Proof.
  induction fuel as [|fuel IH]; intros pos Hf Hp; [lia|].
  cbn [sub_loop]. rewrite search_pos_rep1 by exact Hp.
  destruct (index_of is_blank (skipn pos s)) as [k|] eqn:E.
  - destruct (index_of_firstn is_blank (skipn pos s) E) as [Hpre Hrun].
    pose proof (index_of_bound is_blank (skipn pos s) E) as [Hk _].
    rewrite length_skipn in Hk.
    rewrite skipn_skipn in Hrun.
    replace (k + pos) with (pos + k) in Hrun by lia.
    set (n := span is_blank (skipn (pos + k) s)) in *.
    cbn [m_start m_end fst snd].
    destruct (Nat.leb_spec (pos + k + n) (pos + k)) as [Hle|Hgt]; [lia|].
    pose proof (span_le is_blank (skipn (pos + k) s)) as Hn.
    rewrite length_skipn in Hn. fold n in Hn.
    rewrite IH by lia.
    assert (Hsplit : skipn pos s = slice s pos (pos + k) ++ skipn (pos + k) s).
    { rewrite <- (firstn_skipn k (skipn pos s)) at 1. rewrite skipn_skipn.
      unfold slice. f_equal; f_equal; lia. }
    rewrite Hsplit at 1.
    assert (Hpre' : index_of is_blank (slice s pos (pos + k)) = None).
    { unfold slice. replace (pos + k - pos) with k by lia. exact Hpre. }
    rewrite squeeze_from_plain by exact Hpre'.
    f_equal.
    rewrite (squeeze_from_run repl (skipn (pos + k) s) []). fold n. cbn [app].
    assert (Hrunslice : firstn n (skipn (pos + k) s) = slice s (pos + k) (pos + k + n)).
    { unfold slice. f_equal. lia. }
    rewrite Hrunslice.
    destruct (slice s (pos + k) (pos + k + n)) as [|c r] eqn:Er.
    { apply (f_equal (@length ascii)) in Er. rewrite length_slice in Er.
      cbn in Er. lia. }
    cbn [is_empty]. f_equal.
    rewrite skipn_skipn. f_equal. f_equal. lia.
  - unfold from_. rewrite <- (app_nil_r (skipn pos s)) at 2.
    rewrite squeeze_from_plain by exact E. cbn [squeeze_from is_empty].
    rewrite app_nil_r. reflexivity.
Qed.

Lemma re_sub_blank_runs (repl : str -> str) (s : str) :
  re_sub (Rep 1 is_blank) repl s = squeeze repl s.
Proof. unfold re_sub, squeeze. apply sub_loop_blank_runs; lia. Qed.

Lemma squeeze_from_snoc_plain (repl : str -> str) (c : ascii) (b : str) :
  is_blank c = false ->
  forall a run,
  squeeze_from repl run (a ++ c :: b)
  = squeeze_from repl run (a ++ [c]) ++ squeeze_from repl [] b.
Proof.
  intros Hc. induction a as [|x a IH]; intros run; cbn [app squeeze_from].
  - rewrite Hc. cbn [squeeze_from is_empty]. rewrite <- app_assoc. reflexivity.
  - destruct (is_blank x); [apply IH|].
    rewrite IH, <- app_assoc. reflexivity.
Qed.

Lemma blank_is_space (c : ascii) : is_blank c = true -> isspace c = true.
Proof.
  unfold is_blank. intros H. apply orb_prop in H.
  destruct H as [H|H]; apply is_chr_true in H; subst c; reflexivity.
Qed.

Lemma not_space_not_blank (c : ascii) : isspace c = false -> is_blank c = false.
Proof.
  intros H. destruct (is_blank c) eqn:E; [|reflexivity].
  apply blank_is_space in E. congruence.
Qed.

Lemma dropwhile_app_stop (p : ascii -> bool) (c : ascii) (v : str) :
  p c = false -> forall u, dropwhile p (u ++ c :: v) = dropwhile p u ++ c :: v.
Proof.
  intros Hc. induction u as [|x u IH]; cbn [app dropwhile].
  - rewrite Hc. reflexivity.
  - destruct (p x); [exact IH|reflexivity].
Qed.

Lemma lstrip_keep (a b : str) (c : ascii) :
  isspace c = false -> lstrip (a ++ c :: b) = lstrip a ++ c :: b.
Proof. intros H. unfold lstrip. apply dropwhile_app_stop. exact H. Qed.

Lemma rstrip_keep (a b : str) (c : ascii) :
  isspace c = false -> rstrip (a ++ c :: b) = a ++ c :: rstrip b.
Proof.
  intros H. unfold rstrip. rewrite rev_app_distr. cbn [rev]. rewrite <- app_assoc.
  cbn [app]. rewrite dropwhile_app_stop by exact H.
  rewrite rev_app_distr. cbn [rev]. rewrite rev_involutive, <- app_assoc. reflexivity.
Qed.

(** What [rstrip] returns is empty or ends with a character that is no
    whitespace. *)
Lemma rstrip_shape (s : str) :
  rstrip s = [] \/ exists a c, rstrip s = a ++ [c] /\ isspace c = false.
Proof.
  unfold rstrip. destruct (dropwhile isspace (rev s)) as [|c t] eqn:E.
  - left. reflexivity.
  - right. exists (rev t), c. split; [reflexivity|].
    apply dropwhile_head with (rev s) t. exact E.
Qed.

(** A phrase put after a right-stripped text, behind one space, is in
    the statement after the runs of blanks are replaced and the
    statement is stripped. *)
Lemma phrase_kept (repl : str -> str) (x y m : str) (c1 c2 : ascii) :
  isspace c1 = false -> isspace c2 = false ->
  squeeze repl (sp :: c1 :: m ++ [c2]) = sp :: c1 :: m ++ [c2] ->
  is_infix (c1 :: m ++ [c2])
    (strip (squeeze repl (rstrip x ++ (sp :: c1 :: m ++ [c2]) ++ y))) = true.
Proof.
  intros H1 H2 Hp.
  assert (Hsq : exists sx, squeeze repl (rstrip x ++ (sp :: c1 :: m ++ [c2]) ++ y)
                           = sx ++ (sp :: c1 :: m ++ [c2]) ++ squeeze repl y).
  { assert (Hpy : squeeze repl ((sp :: c1 :: m ++ [c2]) ++ y)
                  = (sp :: c1 :: m ++ [c2]) ++ squeeze repl y).
    { unfold squeeze in *.
      replace ((sp :: c1 :: m ++ [c2]) ++ y) with ((sp :: c1 :: m) ++ c2 :: y)
        by (cbn [app]; rewrite <- app_assoc; reflexivity).
      rewrite squeeze_from_snoc_plain by (apply not_space_not_blank; exact H2).
      cbn [app] in *. rewrite Hp. reflexivity. }
    destruct (rstrip_shape x) as [->|(a & c & -> & Hc)].
    - exists []. exact Hpy.
    - exists (squeeze repl (a ++ [c])). unfold squeeze in *.
      rewrite <- app_assoc. cbn [app].
      rewrite squeeze_from_snoc_plain by (apply not_space_not_blank; exact Hc).
      f_equal. exact Hpy. }
  destruct Hsq as [sx ->]. unfold strip.
  replace (sx ++ (sp :: c1 :: m ++ [c2]) ++ squeeze repl y)
    with ((sx ++ sp :: c1 :: m) ++ c2 :: squeeze repl y)
    by (cbn [app]; rewrite <- !app_assoc; reflexivity).
  rewrite rstrip_keep by exact H2.
  replace ((sx ++ sp :: c1 :: m) ++ c2 :: rstrip (squeeze repl y))
    with ((sx ++ [sp]) ++ c1 :: (m ++ c2 :: rstrip (squeeze repl y)))
    by (rewrite <- !app_assoc; reflexivity).
  rewrite lstrip_keep by exact H1.
  replace (c1 :: m ++ c2 :: rstrip (squeeze repl y))
    with ((c1 :: m ++ [c2]) ++ rstrip (squeeze repl y))
    by (cbn [app]; rewrite <- app_assoc; reflexivity).
  apply is_infix_mid.
Qed.

Lemma select_phrase_kept (x y : str) :
  is_infix (L "UP TO 1 ROWS")
    (strip (Select.normalize_spaces (rstrip x ++ Select.insert_phrase ++ y))) = true.
Proof.
  unfold Select.normalize_spaces. rewrite re_sub_blank_runs.
  apply (@phrase_kept _ x y (L "P TO 1 ROW") "U"%char "S"%char); reflexivity.
Qed.

(** The statement that select.py builds has the row limit in it. *)
Lemma select_new_stmt_row_limit : forall stmt : str,
  exists new_stmt, Select.new_stmt_of stmt = Ok new_stmt
                   /\ is_infix (L "UP TO 1 ROWS") new_stmt = true.
Proof.
  intros stmt. unfold Select.new_stmt_of. cbv zeta.
  set (cleaned := Select.remove_any_up_to_rows (Select.remove_single stmt)).
  destruct (select_find_kw_returns cleaned (L "where") 0) as [where_idx Hw].
  rewrite Hw. cbn [bind].
  destruct where_idx as [w|]; cbn [bind].
  { eexists. split; [reflexivity|]. apply select_phrase_kept. }
  destruct (select_find_kw_returns cleaned (L "into") 0) as [into_idx Hi].
  rewrite Hi. cbn [bind].
  destruct into_idx as [into|]; cbn [bind].
  2:{ eexists. split; [reflexivity|].
      rewrite <- (app_nil_r Select.insert_phrase). apply select_phrase_kept. }
  unfold Select.find_next_any_kw.
  match goal with
  | |- context [find_next_any_kw_with Select.find_kw ?s ?ks ?st] =>
      destruct (@find_next_any_kw_with_returns Select.find_kw select_find_kw_returns s ks st)
        as [next Hn]
  end.
  rewrite Hn. cbn [bind].
  destruct next as [[next_idx kw]|]; cbn [bind].
  - eexists. split; [reflexivity|]. apply select_phrase_kept.
  - eexists. split; [reflexivity|].
    rewrite <- (app_nil_r Select.insert_phrase). apply select_phrase_kept.
Qed.

Lemma orderby_phrase_kept (x y : str) :
  is_infix (L "ORDER BY")
    (strip (Orderby.normalize_spaces_preserve_newlines (rstrip x ++ L " ORDER BY" ++ y)))
  = true.
Proof.
  unfold Orderby.normalize_spaces_preserve_newlines. rewrite re_sub_blank_runs.
  apply (@phrase_kept _ x y (L "RDER B") "O"%char "Y"%char); reflexivity.
Qed.

Lemma rfind_chr_last (c : ascii) (s : str) : forall hi,
  forall j, match rfind_chr c s hi with Some k => k < j | None => True end ->
            j < hi -> peek_is s j c = false.
Proof.
  induction hi as [|h IH]; intros j Hk Hj; [lia|].
  cbn [rfind_chr] in Hk. destruct (peek_is s h c) eqn:E.
  - lia.
  - destruct (Nat.eq_dec j h) as [->|Hne]; [exact E|]. apply IH; [exact Hk|lia].
Qed.

Lemma rfind_chr_same (c : ascii) (s : str) : forall hi k,
  k <= hi -> (forall j, k <= j < hi -> peek_is s j c = false) ->
  rfind_chr c s hi = rfind_chr c s k.
Proof.
  induction hi as [|h IH]; intros k Hk Hno.
  - replace k with 0 by lia. reflexivity.
  - destruct (Nat.eq_dec k (S h)) as [->|Hne]; [reflexivity|].
    cbn [rfind_chr]. rewrite (Hno h) by lia. apply IH; [lia|].
    intros j Hj. apply Hno. lia.
Qed.

(** An index between the start of a line and a position of that line
    is on the same line. *)
Lemma line_start_of_same (s : str) (pos k : nat) :
  line_start_of s pos <= k <= pos -> line_start_of s k = line_start_of s pos.
Proof.
  intros Hk. unfold line_start_of in *.
  assert (Hno : forall j, k <= j < pos -> peek_is s j nl = false).
  { intros j Hj. apply (@rfind_chr_last nl s pos); [|lia].
    destruct (rfind_chr nl s pos); [lia|exact I]. }
  rewrite (@rfind_chr_same nl s pos k) by (try apply Hno; lia). reflexivity.
Qed.

Lemma span_stops (p : ascii -> bool) : forall (t : str) (c : ascii),
  nth_error t (span p t) = Some c -> p c = false.
Proof.
  induction t as [|x t IH]; intros c; cbn [span]; [discriminate|].
  destruct (p x) eqn:E.
  - cbn [nth_error]. apply IH.
  - cbn [nth_error]. intros [= <-]. exact E.
Qed.

Lemma nth_error_slice (s : str) (i j n : nat) :
  n < j - i -> nth_error (slice s i j) n = nth_error s (i + n).
Proof.
  intros H. unfold slice. rewrite nth_error_firstn.
  destruct (Nat.ltb_spec n (j - i)) as [_|Hge]; [|lia].
  apply nth_error_skipn.
Qed.

Lemma span_firstn_blank (s : str) (ls pos : nat) :
  blanks (slice s ls (ls + span is_blank (slice s ls pos))).
Proof.
  unfold blanks, slice.
  replace (ls + span is_blank (firstn (pos - ls) (skipn ls s)) - ls)
    with (span is_blank (firstn (pos - ls) (skipn ls s))) by lia.
  apply span_firstn_Forall.
Qed.

(** The first character after the leading blanks of a line. *)
Lemma after_blanks (s : str) (ls pos : nat) (c : ascii) :
  ls + span is_blank (slice s ls pos) < pos ->
  nth_error s (ls + span is_blank (slice s ls pos)) = Some c ->
  is_blank c = false.
Proof.
  intros Hlt Hn. apply span_stops with (slice s ls pos).
  rewrite nth_error_slice by lia. exact Hn.
Qed.

Lemma prev_executable_line_start_loop_sound (s : str) : forall fuel i k,
  i <= length s ->
  Read.prev_executable_line_start_loop fuel s i = Ok (Some k) ->
  k < i /\ first_of_line s k
  /\ exists c, nth_error s k = Some c /\ starts_statement c = true.
Proof.
  induction fuel as [|fuel IH]; intros i k Hi H; [discriminate|].
  cbn [Read.prev_executable_line_start_loop] in H.
  destruct (Nat.leb_spec i 0) as [H0|H0]; [discriminate|].
  pose proof (line_start_of_le s i) as Hls.
  rewrite (skip_blanks_upto_ok s (line_start_of s i) Hi) in H. cbn [bind] in H.
  set (ls := line_start_of s i) in *.
  set (k0 := ls + span is_blank (slice s ls i)) in *.
  assert (Hup : (if 0 <? ls then ls - 1 else 0) < i).
  { destruct (Nat.ltb_spec 0 ls); lia. }
  assert (Hrec : Read.prev_executable_line_start_loop fuel s
                   (if 0 <? ls then ls - 1 else 0) = Ok (Some k) ->
                 k < i /\ first_of_line s k
                 /\ exists c, nth_error s k = Some c /\ starts_statement c = true).
  { intros Hr. apply IH in Hr; [|lia]. destruct Hr as (Hk & Hf & Hc).
    split; [lia|]. split; assumption. }
  destruct ((i <=? k0) || peek (fun c => is_chr nl c || is_chr cr c) s k0) eqn:E;
    [apply Hrec; exact H|].
  apply orb_false_elim in E. destruct E as [E1 E2]. apply Nat.leb_gt in E1.
  assert (Hk : k0 < length s) by lia.
  destruct (get_lt s Hk) as (c & Hc & Hn). rewrite Hc in H. cbn [bind] in H.
  destruct (is_chr star c) eqn:Es; [apply Hrec; exact H|].
  destruct (is_chr dq c) eqn:Ed; [apply Hrec; exact H|].
  injection H as <-. split; [exact E1|]. split.
  - unfold first_of_line.
    rewrite (@line_start_of_same s i k0) by (fold ls; unfold k0; lia).
    apply span_firstn_blank.
  - exists c. split; [exact Hn|]. unfold starts_statement.
    unfold peek in E2. rewrite Hn in E2. apply orb_false_elim in E2.
    destruct E2 as [E2 E3].
    rewrite (@after_blanks s ls i c E1 Hn), E2, E3, Es, Ed. reflexivity.
Qed.

(** X24. An index that [prev_executable_line_start] returns is before
    [pos], is the first character after the blanks of its line and
    starts a statement; when text stands before [pos] on its own
    line, the start of that text is returned. *)
Theorem read_prev_executable_line : forall (s : str) (pos : nat),
  pos <= length s ->
  (forall k, Read.prev_executable_line_start s pos = Ok (Some k) ->
     k < pos /\ first_of_line s k
     /\ exists c, nth_error s k = Some c /\ starts_statement c = true)
  /\ (forall c,
        line_start_of s pos + span is_blank (slice s (line_start_of s pos) pos) < pos ->
        nth_error s (line_start_of s pos
                     + span is_blank (slice s (line_start_of s pos) pos)) = Some c ->
        starts_statement c = true ->
        Read.prev_executable_line_start s pos
        = Ok (Some (line_start_of s pos
                    + span is_blank (slice s (line_start_of s pos) pos)))).
Proof.
  intros s pos Hpos. split.
  - intros k. apply prev_executable_line_start_loop_sound. exact Hpos.
  - intros c Hlt Hn Hc.
    unfold Read.prev_executable_line_start. cbn [Read.prev_executable_line_start_loop].
    destruct (Nat.leb_spec pos 0) as [H0|H0]; [lia|].
    rewrite (skip_blanks_upto_ok s (line_start_of s pos) Hpos). cbn [bind].
    apply Nat.leb_gt in Hlt. rewrite Hlt. cbn [orb].
    unfold starts_statement in Hc. apply negb_true_iff in Hc.
    apply orb_false_elim in Hc. destruct Hc as [Hc Hdq].
    apply orb_false_elim in Hc. destruct Hc as [Hc Hstar].
    apply orb_false_elim in Hc. destruct Hc as [Hc Hcr].
    apply orb_false_elim in Hc. destruct Hc as [_ Hnl].
    unfold peek, get. rewrite Hn, Hnl, Hcr. cbn [orb bind]. rewrite Hstar, Hdq.
    reflexivity.
Qed.

Lemma read_prev_executable_line_witness :
  Read.prev_executable_line_start read_in_line 10 = Ok (Some 0).
Proof.
  apply (proj2 (@read_prev_executable_line read_in_line 10 ltac:(vm_compute; lia))
           "I"%char).
  - vm_compute. lia.
  - vm_compute. reflexivity.
  - vm_compute. reflexivity.
Defined.

Lemma at_bol_line_start (s : str) (i : nat) :
  at_bol s i = Ok true -> line_start_of s i = i.
Proof.
  unfold line_start_of. destruct i as [|h]; cbn [at_bol rfind_chr]; [reflexivity|].
  unfold get, peek_is. destruct (nth_error s h) as [c|]; cbn [bind]; [|discriminate].
  intros [= ->]. lia.
Qed.

Lemma skip_while_span_slice (p : ascii -> bool) (s : str) (i : nat) :
  Forall (fun c => p c = true) (slice s i (skip_while p s i)).
Proof.
  unfold skip_while, slice. replace (i + span p (skipn i s) - i) with (span p (skipn i s)) by lia.
  generalize (skipn i s). induction l as [|c l IH]; cbn [span firstn]; [constructor|].
  destruct (p c) eqn:E; cbn [firstn]; constructor; [exact E|exact IH].
Qed.

Lemma skip_while_stops (p : ascii -> bool) (s : str) (i : nat) (c : ascii) :
  nth_error s (skip_while p s i) = Some c -> p c = false.
Proof.
  unfold skip_while. rewrite <- nth_error_skipn. apply span_stops.
Qed.

Lemma blanks_no_nl (s : str) (i j : nat) :
  blanks (slice s i j) -> j <= length s ->
  forall k, i <= k < j -> peek_is s k nl = false.
Proof.
  intros Hb Hj k Hk. unfold blanks in Hb. rewrite Forall_forall in Hb.
  unfold peek_is. destruct (nth_error s k) as [c|] eqn:Hn; [|reflexivity].
  assert (Hin : In c (slice s i j)).
  { apply nth_error_In with (k - i). rewrite nth_error_slice by lia.
    rewrite <- Hn. f_equal. lia. }
  apply Hb in Hin. unfold is_blank in Hin. apply orb_prop in Hin.
  destruct Hin as [H|H]; apply is_chr_true in H; subst c; reflexivity.
Qed.

(** The leading blanks of a line lead to its first character. *)
Lemma first_of_line_after_blanks (s : str) (i : nat) :
  at_bol s i = Ok true -> skip_while is_blank s i <= length s ->
  first_of_line s (skip_while is_blank s i).
Proof.
  intros Hb Hj. unfold first_of_line.
  assert (Hbl : blanks (slice s i (skip_while is_blank s i)))
    by apply skip_while_span_slice.
  assert (Hls : line_start_of s (skip_while is_blank s i) = i).
  { rewrite <- (at_bol_line_start s i Hb) at 2. unfold line_start_of.
    rewrite (@rfind_chr_same nl s (skip_while is_blank s i) i);
      [reflexivity|apply skip_while_ge|].
    apply blanks_no_nl; assumption. }
  rewrite Hls. exact Hbl.
Qed.

Lemma next_executable_line_start_loop_sound (s : str) : forall fuel i j,
  i <= length s ->
  Sort.next_executable_line_start_loop fuel s i = Ok j ->
  i <= j <= length s
  /\ (j < length s ->
      first_of_line s j /\ exists c, nth_error s j = Some c /\ starts_line_text c = true).
Proof.
  induction fuel as [|fuel IH]; intros i j Hi H; [discriminate|].
  cbn [Sort.next_executable_line_start_loop] in H.
  destruct (Nat.leb_spec (length s) i) as [Hge|Hlt].
  { injection H as <-. split; [lia|]. intros Hj. lia. }
  assert (Hrec : forall i', i < i' -> i' <= length s \/ length s < i' ->
            Sort.next_executable_line_start_loop fuel s i' = Ok j ->
            i <= j <= length s
            /\ (j < length s ->
                first_of_line s j
                /\ exists c, nth_error s j = Some c /\ starts_line_text c = true)).
  { intros i' Hi' Hcase Hr. destruct Hcase as [Hle|Hgt].
    - apply IH in Hr; [|exact Hle]. destruct Hr as [Hb Hp]. split; [lia|exact Hp].
    - destruct fuel as [|fuel']; [discriminate|].
      cbn [Sort.next_executable_line_start_loop] in Hr.
      destruct (Nat.leb_spec (length s) i') as [_|Hc]; [|lia].
      injection Hr as <-. split; [lia|]. intros Hj. lia. }
  destruct (at_bol s i) as [b|e] eqn:Eb; cbn [bind] in H; [|discriminate].
  destruct b; [|apply (Hrec (i + 1)); [lia|left; lia|exact H]].
  pose proof (skip_while_ge is_blank s i) as Hge.
  pose proof (@skip_while_le is_blank s i ltac:(lia)) as Hle.
  set (j0 := skip_while is_blank s i) in *.
  destruct (Nat.leb_spec (length s) j0) as [Hend|Hin].
  { injection H as <-. split; [lia|]. intros Hj. lia. }
  destruct (get_lt s Hin) as (c & Hc & Hn). rewrite Hc in H. cbn [bind] in H.
  destruct (is_chr nl c) eqn:Enl; [apply (Hrec (j0 + 1)); [lia|left; lia|exact H]|].
  destruct (is_chr star c) eqn:Es.
  { pose proof (skip_line_comment_le s j0) as Hl.
    pose proof (skip_line_comment_gt s j0 Hn (star_not_nl Es)) as Hg.
    unfold skip_full_line_star_comment in H. fold (skip_line_comment s j0) in H.
    apply (Hrec (skip_line_comment s j0 + 1)); [lia|lia|exact H]. }
  destruct (is_chr dq c) eqn:Ed.
  { pose proof (skip_line_comment_le s j0) as Hl.
    pose proof (skip_line_comment_gt s j0 Hn (dq_not_nl Ed)) as Hg.
    apply (Hrec (skip_line_comment s j0 + 1)); [lia|lia|exact H]. }
  injection H as <-. split; [lia|]. intros _. split.
  - apply first_of_line_after_blanks; [exact Eb|exact Hle].
  - exists c. split; [exact Hn|]. unfold starts_line_text.
    rewrite (skip_while_stops is_blank s i Hn), Enl, Es, Ed. reflexivity.
Qed.

(** X20. [next_executable_line_start] returns an index between [start] and
    the end of the text; an index before the end is the first
    character after the blanks of its line, and that character is no
    newline and opens no comment. *)
Theorem sort_next_executable_line : forall (s : str) (start : nat),
  start <= length s ->
  exists j, Sort.next_executable_line_start s start = Ok j
            /\ start <= j <= length s
            /\ (j < length s ->
                first_of_line s j
                /\ exists c, nth_error s j = Some c /\ starts_line_text c = true).
Proof.
  intros s start H.
  destruct (sort_next_executable_line_start_returns s start) as [j Hj].
  exists j. split; [exact Hj|].
  apply next_executable_line_start_loop_sound with (S (length s)); assumption.
Qed.

Lemma sort_next_executable_line_witness :
  exists j, Sort.next_executable_line_start (L "a." ++ [nl] ++ L "* c" ++ [nl] ++ L "  b.") 2
            = Ok j
            /\ 2 <= j <= 11
            /\ (j < 11 ->
                first_of_line (L "a." ++ [nl] ++ L "* c" ++ [nl] ++ L "  b.") j
                /\ exists c, nth_error (L "a." ++ [nl] ++ L "* c" ++ [nl] ++ L "  b.") j
                             = Some c /\ starts_line_text c = true).
Proof.
  apply (@sort_next_executable_line (L "a." ++ [nl] ++ L "* c" ++ [nl] ++ L "  b.") 2).
  vm_compute. lia.
Defined.

Lemma rep_down_first {X : Type} (k : nat -> option X) (i min r : nat) (x : X) :
  min <= r -> k (i + r) = Some x -> rep_down k i min r = Some x.
Proof.
  intros Hm Hk. destruct r as [|r]; cbn [rep_down].
  - destruct (Nat.ltb_spec 0 min) as [Hlt|_]; [lia|]. rewrite Hk. reflexivity.
  - destruct (Nat.ltb_spec (S r) min) as [Hlt|_]; [lia|]. rewrite Hk. reflexivity.
Qed.

Lemma span_app_stop (p : ascii -> bool) (c : ascii) (r : str) :
  p c = false -> forall a, forallb p a = true -> span p (a ++ c :: r) = length a.
Proof.
  intros Hc. induction a as [|x a IH]; cbn [forallb app span length]; intros H.
  - rewrite Hc. reflexivity.
  - apply andb_prop in H. destruct H as [Hx Ha]. rewrite Hx, IH by exact Ha. reflexivity.
Qed.

Lemma skipn_app_length {A : Type} (a b : list A) : skipn (length a) (a ++ b) = b.
Proof. induction a as [|x a IH]; [reflexivity|exact IH]. Qed.

Lemma nth_error_app_length {A : Type} (a b : list A) (n : nat) :
  nth_error (a ++ b) (length a + n) = nth_error b n.
Proof. induction a as [|x a IH]; [reflexivity|exact IH]. Qed.

Lemma ident_start_word (c : ascii) : ident_start c = true -> is_word_char c = true.
Proof.
  unfold ident_start, is_word_char, isalnum. intros H. apply orb_prop in H.
  destruct H as [H|H]; rewrite H; rewrite ?orb_true_r; reflexivity.
Qed.

Lemma word_char_not_space (c : ascii) : is_word_char c = true -> isspace c = false.
Proof.
  destruct c as [[] [] [] [] [] [] [] []]; vm_compute; intros H;
    first [reflexivity | discriminate H].
Qed.

Lemma word_char_plain (c : ascii) :
  is_word_char c = true -> is_chr nl c = false /\ is_chr dq c = false.
Proof.
  intros H. split.
  - destruct (is_chr nl c) eqn:E; [|reflexivity].
    apply is_chr_true in E. subst c. discriminate H.
  - destruct (is_chr dq c) eqn:E; [|reflexivity].
    apply is_chr_true in E. subst c. discriminate H.
Qed.

Lemma identifier_chars (t : str) :
  is_identifier t = true ->
  exists c t', t = c :: t' /\ ident_start c = true /\ forallb is_word_char t = true.
Proof.
  destruct t as [|c t']; cbn [is_identifier]; [discriminate|].
  intros H. apply andb_prop in H. destruct H as [Hc Ht].
  exists c, t'. split; [reflexivity|]. split; [exact Hc|].
  cbn [forallb]. rewrite (ident_start_word c Hc), Ht. reflexivity.
Qed.

Lemma last_word_char (t : str) :
  forallb is_word_char t = true -> t <> [] ->
  peek is_word_char t (length t - 1) = true.
Proof.
  intros H Hne. rewrite forallb_forall in H. unfold peek.
  destruct (nth_error t (length t - 1)) as [c|] eqn:E.
  - apply H. apply nth_error_In with (length t - 1). exact E.
  - apply nth_error_None in E. destruct t; [contradiction|]. cbn [length] in E. lia.
Qed.

(** The pattern of the [SORT] line matches a line that starts with
    [SORT], one space and an identifier, and captures the identifier. *)
Lemma sort_line_matches (target r : str) (u : ascii) :
  is_identifier target = true -> is_word_char u = false ->
  exists m, re_match Sort.sort_line_re (L "SORT " ++ target ++ u :: r) = Some m
            /\ group (L "SORT " ++ target ++ u :: r) m 1 = Some target.
Proof.
  intros Hid Hu.
  destruct (identifier_chars target Hid) as (c & t' & -> & Hc & Hw).
  cbn [forallb] in Hw. apply andb_prop in Hw. destruct Hw as [Hcw Hw].
  set (line := L "SORT " ++ (c :: t') ++ u :: r).
  exists (0, 6 + length t', [(1, (5, 6 + length t'))]).
  assert (Hskip6 : skipn 6 line = t' ++ u :: r) by reflexivity.
  assert (Hfinal : xorb (word_before line (6 + length t'))
                     (peek is_word_char line (6 + length t')) = true).
  { assert (Hpeek : peek is_word_char line (6 + length t') = false).
    { unfold peek. rewrite <- nth_error_skipn, Hskip6.
      rewrite <- (Nat.add_0_r (length t')), nth_error_app_length.
      cbn [nth_error]. exact Hu. }
    rewrite Hpeek, xorb_false_r. cbn [word_before plus].
    unfold peek. change (S (S (S (S (S (length t')))))) with (5 + length t').
    rewrite <- nth_error_skipn.
    change (skipn 5 line) with ((c :: t') ++ u :: r).
    assert (Hlast : peek is_word_char (c :: t') (length t') = true).
    { replace (length t') with (length (c :: t') - 1) by (cbn; lia).
      apply last_word_char; [cbn [forallb]; rewrite Hcw, Hw; reflexivity|discriminate]. }
    unfold peek in Hlast.
    rewrite nth_error_app1 by (cbn [length]; lia). exact Hlast. }
  split.
  - unfold re_match, match_at, Sort.sort_line_re. cbn [seqs ilit L ilit_of
      list_ascii_of_string rx Nat.eqb].
    change (nth_error line 0) with (Some "S"%char).
    change (nth_error line 1) with (Some "O"%char).
    change (nth_error line 2) with (Some "R"%char).
    change (nth_error line 3) with (Some "T"%char).
    cbn [lower_chr]. cbv beta.
    replace (Ascii.eqb (lower_chr "S") (lower_chr "s")) with true by reflexivity.
    replace (Ascii.eqb (lower_chr "O") (lower_chr "o")) with true by reflexivity.
    replace (Ascii.eqb (lower_chr "R") (lower_chr "r")) with true by reflexivity.
    replace (Ascii.eqb (lower_chr "T") (lower_chr "t")) with true by reflexivity.
    unfold ws1. cbn [rx].
    change (skipn 4 line) with (" "%char :: c :: t' ++ u :: r).
    cbn [span]. change (isspace " ") with true. cbv iota.
    rewrite (word_char_not_space c Hcw).
    apply rep_down_first; [lia|].
    unfold ident. cbn [rx].
    change (nth_error line (4 + 1)) with (Some c). cbv beta iota. rewrite Hc.
    change (skipn (S (4 + 1)) line) with (t' ++ u :: r).
    rewrite (@span_app_stop is_word_char u r Hu t' Hw).
    apply rep_down_first; [lia|].
    change (S (4 + 1) + length t') with (6 + length t').
    rewrite Hfinal. reflexivity.
  - unfold group. cbn [snd lookup_group Nat.eqb]. f_equal.
    unfold slice. change (skipn 5 line) with ((c :: t') ++ u :: r).
    replace (6 + length t' - 5) with (length (c :: t')) by (cbn [length]; lia).
    rewrite firstn_app, firstn_all, Nat.sub_diag. cbn [firstn]. apply app_nil_r.
Qed.

Lemma index_of_app_skip (p : ascii -> bool) (t : str) : forall w,
  forallb (fun c => negb (p c)) w = true ->
  index_of p (w ++ t) = option_map (fun k => length w + k) (index_of p t).
Proof.
  induction w as [|x w IH]; cbn [forallb app index_of length]; intros H.
  - destruct (index_of p t); reflexivity.
  - apply andb_prop in H. destruct H as [Hx Hw]. apply negb_true_iff in Hx.
    rewrite Hx, IH by exact Hw. destruct (index_of p t); reflexivity.
Qed.

(** Cutting a text at the first character that satisfies [p] keeps a
    prefix that holds no such character. *)
Lemma cut_keeps_prefix (p : ascii -> bool) (w t : str) :
  forallb (fun c => negb (p c)) w = true ->
  exists r, match index_of p (w ++ t) with
            | Some k => firstn k (w ++ t)
            | None => w ++ t
            end = w ++ r.
Proof.
  intros H. rewrite (index_of_app_skip p t w H).
  destruct (index_of p t) as [k|]; cbn [option_map].
  - exists (firstn k t). rewrite firstn_app, firstn_all2 by lia.
    f_equal. f_equal. lia.
  - exists t. reflexivity.
Qed.

(** [code_of_line] keeps the start of a line up to a character that is
    no whitespace, when no comment starts before it. *)
Lemma code_of_line_prefix (x t w0 : str) (c0 cl : ascii) :
  isspace c0 = false -> isspace cl = false ->
  forallb (fun c => negb (is_chr nl c)) (c0 :: w0 ++ [cl]) = true ->
  forallb (fun c => negb (is_chr dq c)) (c0 :: w0 ++ [cl]) = true ->
  exists r, code_of_line (x ++ (c0 :: w0 ++ [cl]) ++ t) (length x) = (c0 :: w0 ++ [cl]) ++ r.
Proof.
  intros H0 Hl Hnl Hdq. unfold code_of_line, find_chr.
  rewrite skipn_app_length.
  set (w := c0 :: w0 ++ [cl]) in *.
  assert (Hline : exists r0,
            match
              match index_of (is_chr nl) (w ++ t) with
              | Some k => Some (length x + k)
              | None => None
              end
            with
            | Some line_end => slice (x ++ w ++ t) (length x) line_end
            | None => from_ (x ++ w ++ t) (length x)
            end = w ++ r0).
  { destruct (cut_keeps_prefix (is_chr nl) w t Hnl) as [r0 Hr0].
    exists r0. rewrite <- Hr0.
    destruct (index_of (is_chr nl) (w ++ t)) as [k|].
    - unfold slice. rewrite skipn_app_length. f_equal. lia.
    - unfold from_. apply skipn_app_length. }
  destruct Hline as [r0 ->]. cbn [skipn].
  destruct (cut_keeps_prefix (is_chr dq) w r0 Hdq) as [r1 Hr1].
  assert (Hcut : match
                   match index_of (is_chr dq) (w ++ r0) with
                   | Some k => Some (0 + k)
                   | None => None
                   end
                 with
                 | Some q => upto (w ++ r0) q
                 | None => w ++ r0
                 end = w ++ r1).
  { rewrite <- Hr1. destruct (index_of (is_chr dq) (w ++ r0)); reflexivity. }
  rewrite Hcut. exists (rstrip r1). unfold strip, w.
  replace ((c0 :: w0 ++ [cl]) ++ r1) with ((c0 :: w0) ++ cl :: r1)
    by (cbn [app]; rewrite <- app_assoc; reflexivity).
  rewrite rstrip_keep by exact Hl.
  change ((c0 :: w0) ++ cl :: rstrip r1) with ([] ++ c0 :: (w0 ++ cl :: rstrip r1)).
  rewrite lstrip_keep by exact H0. cbn [lstrip dropwhile app].
  rewrite <- app_assoc. reflexivity.
Qed.

Lemma at_bol_after (s : str) (i : nat) (d : ascii) :
  nth_error s i = Some d -> at_bol s (i + 1) = Ok (is_chr nl d).
Proof.
  intros H. rewrite Nat.add_1_r. cbn [at_bol]. unfold get. rewrite H. reflexivity.
Qed.

Lemma blanks_forallb (indent : str) : blanks indent -> forallb is_blank indent = true.
Proof. unfold blanks. intros H. apply forallb_forall. apply Forall_forall. exact H. Qed.

(** After a statement that ends its line, the next executable line is
    the line that follows when it starts a statement. *)
Lemma next_line_after_period (p' indent rest : str) (d c : ascii) :
  is_chr nl d = false -> blanks indent -> starts_line_text c = true ->
  Sort.next_executable_line_start (p' ++ d :: nl :: indent ++ c :: rest) (length p' + 1)
  = Ok (length p' + 1 + 1 + length indent).
Proof.
  intros Hd Hb Hc. unfold Sort.next_executable_line_start.
  set (s := p' ++ d :: nl :: indent ++ c :: rest).
  assert (Hlen : length s = length p' + 2 + length indent + 1 + length rest).
  { unfold s. rewrite length_app. cbn [length]. rewrite length_app. cbn [length]. lia. }
  assert (Hn0 : nth_error s (length p') = Some d).
  { unfold s. rewrite <- (Nat.add_0_r (length p')), nth_error_app_length. reflexivity. }
  assert (Hn1 : nth_error s (length p' + 1) = Some nl).
  { unfold s. rewrite nth_error_app_length. reflexivity. }
  assert (Hskip : skipn (length p' + 1 + 1) s = indent ++ c :: rest).
  { unfold s. replace (length p' + 1 + 1) with (2 + length p') by lia.
    rewrite <- skipn_skipn, skipn_app_length. reflexivity. }
  unfold starts_line_text in Hc. apply negb_true_iff in Hc.
  apply orb_false_elim in Hc. destruct Hc as [Hc Hdq].
  apply orb_false_elim in Hc. destruct Hc as [Hc Hstar].
  apply orb_false_elim in Hc. destruct Hc as [Hblank Hnl].
  assert (Hj : skip_while is_blank s (length p' + 1 + 1)
               = length p' + 1 + 1 + length indent).
  { unfold skip_while. rewrite Hskip.
    rewrite (@span_app_stop is_blank c rest Hblank indent (blanks_forallb Hb)).
    reflexivity. }
  assert (Hnc : nth_error s (length p' + 1 + 1 + length indent) = Some c).
  { rewrite <- nth_error_skipn, Hskip.
    rewrite <- (Nat.add_0_r (length indent)), nth_error_app_length. reflexivity. }
  assert (Hloop : forall f,
            Sort.next_executable_line_start_loop (S (S f)) s (length p' + 1)
            = Ok (length p' + 1 + 1 + length indent)).
  { intros f. cbn [Sort.next_executable_line_start_loop].
    destruct (Nat.leb_spec (length s) (length p' + 1)) as [Hbad|_]; [lia|].
    rewrite (at_bol_after s (length p') Hn0), Hd. cbn [bind].
    destruct (Nat.leb_spec (length s) (length p' + 1 + 1)) as [Hbad|_]; [lia|].
    rewrite (at_bol_after s (length p' + 1) Hn1). cbn [bind is_chr].
    change (Ascii.eqb nl nl) with true. cbv iota.
    rewrite Hj.
    destruct (Nat.leb_spec (length s) (length p' + 1 + 1 + length indent)) as [Hbad|_];
      [lia|].
    unfold get. rewrite Hnc. cbn [bind]. rewrite Hnl, Hstar, Hdq. reflexivity. }
  destruct (length s) as [|f] eqn:El; [lia|]. apply Hloop.
Qed.

Lemma slice_app_prefix (a b : str) (i j : nat) :
  j <= length a -> slice (a ++ b) i j = slice a i j.
Proof.
  intros H. unfold slice.
  destruct (Nat.le_gt_cases i (length a)) as [Hi|Hi].
  - rewrite skipn_app. rewrite firstn_app.
    replace (j - i - length (skipn i a)) with 0 by (rewrite length_skipn; lia).
    cbn [firstn]. apply app_nil_r.
  - replace (j - i) with 0 by lia. reflexivity.
Qed.

Lemma slice_upto (s : str) (n i j : nat) : j <= n -> slice (upto s n) i j = slice s i j.
Proof.
  intros H. unfold slice, upto. rewrite skipn_firstn_comm, firstn_firstn.
  f_equal. lia.
Qed.

Lemma upto_snoc (s : str) (n : nat) (c : ascii) :
  nth_error s n = Some c -> upto s (n + 1) = upto s n ++ [c].
Proof.
  intros H. unfold upto. revert n H.
  induction s as [|x s IH]; intros [|n] H; cbn in *; try discriminate.
  - injection H as ->. reflexivity.
  - f_equal. apply IH. exact H.
Qed.

Lemma get_line_indent_before_blanks (code indent : str) (pos : nat) :
  get_line_indent_before code pos = Ok indent -> blanks indent.
Proof.
  unfold get_line_indent_before, skip_blanks_upto.
  destruct (_ && _); cbn [bind]; [discriminate|].
  intros [= <-]. apply span_firstn_blank.
Qed.

Lemma forallb_imp {A : Type} (p q : A -> bool) (l : list A) :
  (forall x, p x = true -> q x = true) -> forallb p l = true -> forallb q l = true.
Proof.
  intros H. induction l as [|x l IH]; cbn [forallb]; [reflexivity|].
  intros Hl. apply andb_prop in Hl. destruct Hl as [Hx Hl].
  rewrite (H x Hx), IH by exact Hl. reflexivity.
Qed.

(** A [SORT] statement for an identifier holds neither a newline nor
    the start of a comment up to the character after the name. *)
Lemma sort_head_plain (target w : str) (d : ascii) :
  forallb is_word_char target = true ->
  forallb (fun c => negb (is_chr nl c)) w = true ->
  forallb (fun c => negb (is_chr d c)) w = true ->
  (d = nl \/ d = dq) ->
  forallb (fun c => negb (is_chr d c)) (L "SORT " ++ target ++ w) = true.
Proof.
  intros Ht Hnl Hd Hcase. rewrite !forallb_app. rewrite Hd, andb_true_r.
  apply andb_true_intro. split.
  - destruct Hcase as [-> | ->]; reflexivity.
  - apply forallb_imp with is_word_char; [|exact Ht].
    intros c Hc. destruct (word_char_plain c Hc) as [H1 H2].
    destruct Hcase as [-> | ->]; [rewrite H1|rewrite H2]; reflexivity.
Qed.

(** Brings two concatenations to the same bracketing. *)
Ltac norm_app :=
  repeat first [progress cbn [app L list_ascii_of_string] | rewrite <- app_assoc];
  reflexivity.

(** X21. After sort.py has put its [SORT] statement behind a statement,
    the same decision on the new text inserts nothing. *)
Theorem sort_recognises_its_own_insertion :
  forall (today code : str) (sel_pos period_pos : nat) (insertion : str),
  nth_error code period_pos = Some dot ->
  Sort.insertion_of today code sel_pos period_pos = Ok (Some insertion) ->
  Sort.insertion_of today
    (upto code (period_pos + 1) ++ insertion ++ from_ code (period_pos + 1))
    sel_pos period_pos
  = Ok None.
Proof.
  intros today code sel_pos period_pos insertion Hdot H.
  assert (Hlt : period_pos < length code) by (apply nth_error_Some; congruence).
  unfold Sort.insertion_of in H.
  destruct (Sort.has_for_all_entries (slice code sel_pos period_pos)) eqn:Efae;
    cbn [negb] in H; [|discriminate].
  destruct (Sort.extract_target_table (slice code sel_pos period_pos)) as [target|] eqn:Et;
    [|discriminate].
  apply bind_ok in H. destruct H as (sorted & _ & H).
  destruct sorted; [discriminate|].
  apply bind_ok in H. destruct H as (select_list & _ & H).
  apply bind_ok in H. destruct H as (fields & _ & H).
  apply bind_ok in H. destruct H as (indent & Hindent & H).
  apply get_line_indent_before_blanks in Hindent.
  destruct (extract_target_table_ident _ Et) as [Hid _].
  destruct (identifier_chars target Hid) as (c0 & t' & Htarget & _ & Hw).
  assert (Hslice : forall x,
            slice (upto code (period_pos + 1) ++ x) sel_pos period_pos
            = slice code sel_pos period_pos).
  { intros x. rewrite slice_app_prefix; [apply slice_upto; lia|].
    unfold upto. rewrite length_firstn. lia. }
  unfold Sort.insertion_of. rewrite Hslice, Efae, Et. cbn [negb].
  assert (Hsorted : Sort.is_sort_immediately_next_for_target
                      (upto code (period_pos + 1) ++ insertion ++ from_ code (period_pos + 1))
                      period_pos target = Ok true).
  { rewrite (upto_snoc code period_pos Hdot).
    assert (Hp' : length (upto code period_pos) = period_pos)
      by (unfold upto; rewrite length_firstn; lia).
    set (p' := upto code period_pos) in *.
    set (rest := from_ code (period_pos + 1)).
    set (tag := pwc_tag_line today) in *.
    assert (Hshape : exists u r,
              is_word_char u = false
              /\ (exists w0 cl t,
                    L "SORT " ++ target ++ u :: r = ("S"%char :: w0 ++ [cl]) ++ t
                    /\ isspace cl = false
                    /\ forallb (fun c => negb (is_chr nl c)) ("S"%char :: w0 ++ [cl]) = true
                    /\ forallb (fun c => negb (is_chr dq c)) ("S"%char :: w0 ++ [cl]) = true
                    /\ forall r', exists r'',
                         ("S"%char :: w0 ++ [cl]) ++ r' = L "SORT " ++ target ++ u :: r'')
              /\ (p' ++ [dot]) ++ insertion ++ rest
                 = p' ++ dot :: nl :: indent ++ L "SORT " ++ target ++ u :: r).
    { injection H as <-.
      destruct (no_usable_fields fields).
      - exists dot, ([nl] ++ indent ++ tag ++ rest). split; [reflexivity|]. split.
        + exists (L "ORT " ++ target), dot, ([nl] ++ indent ++ tag ++ rest).
          split; [norm_app|].
          split; [reflexivity|]. split; [|split].
          * change ("S"%char :: (L "ORT " ++ target) ++ [dot])
              with (L "SORT " ++ target ++ [dot]).
            apply sort_head_plain; [exact Hw|reflexivity|reflexivity|left; reflexivity].
          * change ("S"%char :: (L "ORT " ++ target) ++ [dot])
              with (L "SORT " ++ target ++ [dot]).
            apply sort_head_plain; [exact Hw|reflexivity|reflexivity|right; reflexivity].
          * intros r'. exists r'. norm_app.
        + norm_app.
      - exists sp, (L "BY " ++ join [sp] fields ++ [dot] ++ [nl] ++ indent ++ tag ++ rest).
        split; [reflexivity|]. split.
        + exists (L "ORT " ++ target ++ [sp]), "B"%char,
            (L "Y " ++ join [sp] fields ++ [dot] ++ [nl] ++ indent ++ tag ++ rest).
          split; [norm_app|].
          split; [reflexivity|]. split; [|split].
          * change ("S"%char :: (L "ORT " ++ target ++ [sp]) ++ ["B"%char])
              with (L "SORT " ++ (target ++ [sp]) ++ ["B"%char]).
            rewrite <- app_assoc.
            apply sort_head_plain; [exact Hw|reflexivity|reflexivity|left; reflexivity].
          * change ("S"%char :: (L "ORT " ++ target ++ [sp]) ++ ["B"%char])
              with (L "SORT " ++ (target ++ [sp]) ++ ["B"%char]).
            rewrite <- app_assoc.
            apply sort_head_plain; [exact Hw|reflexivity|reflexivity|right; reflexivity].
          * intros r'. exists ("B"%char :: r'). norm_app.
        + norm_app. }
    destruct Hshape as (u & r & Hu & (w0 & cl & t & Hline & Hcl & Hnl & Hdq & Hback) & Hout).
    rewrite Hout.
    unfold Sort.is_sort_immediately_next_for_target.
    replace (period_pos + 1) with (length p' + 1) by lia.
    assert (Hstart : starts_line_text "S" = true) by reflexivity.
    change (L "SORT " ++ target ++ u :: r)
      with ("S"%char :: L "ORT " ++ target ++ u :: r).
    rewrite (@next_line_after_period p' indent (L "ORT " ++ target ++ u :: r) dot "S"%char
               eq_refl Hindent Hstart).
    cbn [bind].
    change ("S"%char :: L "ORT " ++ target ++ u :: r)
      with (L "SORT " ++ target ++ u :: r).
    set (x := p' ++ dot :: nl :: indent).
    assert (Hx : length x = length p' + 1 + 1 + length indent).
    { unfold x. rewrite length_app. cbn [length]. lia. }
    replace (p' ++ dot :: nl :: indent ++ L "SORT " ++ target ++ u :: r)
      with (x ++ ("S"%char :: w0 ++ [cl]) ++ t)
      by (unfold x; rewrite <- Hline, <- app_assoc; reflexivity).
    rewrite <- Hx.
    destruct (Nat.leb_spec (length (x ++ ("S"%char :: w0 ++ [cl]) ++ t)) (length x))
      as [Hbad|_].
    { rewrite length_app in Hbad. cbn [length app] in Hbad. lia. }
    destruct (@code_of_line_prefix x t w0 "S"%char cl eq_refl Hcl Hnl Hdq) as [r' Hr'].
    rewrite Hr'. destruct (Hback r') as [r'' ->].
    destruct (@sort_line_matches target r'' u Hid Hu) as (m & Hm & Hg).
    rewrite Hm, Hg, str_eqb_refl. reflexivity. }
  rewrite Hsorted. reflexivity.
Qed.

Lemma blank_run_no_nl (run : str) : blanks run -> contains_chr nl run = false.
Proof.
  intros H. destruct (contains_chr nl run) eqn:E; [|reflexivity].
  apply contains_chr_In in E. unfold blanks in H. rewrite Forall_forall in H.
  apply H in E. discriminate E.
Qed.

Lemma blanks_snoc (run : str) (c : ascii) : blanks run -> is_blank c = true -> blanks (run ++ [c]).
Proof. intros H Hc. apply Forall_app. split; [exact H|]. constructor; [exact Hc|constructor]. Qed.

Lemma orderby_repl_run (run : str) :
  blanks run -> run <> [] -> orderby_repl run = [sp].
Proof. intros H _. unfold orderby_repl. rewrite (blank_run_no_nl H). reflexivity. Qed.

Ltac emit_run run Hrun :=
  let H := fresh "Hemit" in
  destruct run as [|?r ?run'];
  [ cbn [is_empty]
  | cbn [is_empty]; rewrite (@orderby_repl_run _ Hrun) by discriminate ].

Lemma squeeze_single_spaced : forall (s run : str),
  blanks run -> single_spaced false (squeeze_from orderby_repl run s) = true.
Proof.
  induction s as [|c s IH]; intros run Hrun; cbn [squeeze_from].
  - emit_run run Hrun; reflexivity.
  - destruct (is_blank c) eqn:E.
    + apply IH. apply blanks_snoc; assumption.
    + emit_run run Hrun; cbn [app single_spaced]; rewrite ?E;
        [|change (is_blank sp) with true; cbn [negb andb is_chr];
          change (Ascii.eqb sp sp) with true; cbn [andb single_spaced]; rewrite ?E];
        apply (IH []); constructor.
Qed.

Lemma squeeze_keeps_text : forall (s run : str),
  blanks run ->
  filter not_blank (squeeze_from orderby_repl run s) = filter not_blank s.
Proof.
  induction s as [|c s IH]; intros run Hrun; cbn [squeeze_from].
  - emit_run run Hrun; reflexivity.
  - assert (Hc : not_blank c = negb (is_blank c)) by reflexivity.
    destruct (is_blank c) eqn:E; cbn [negb] in Hc.
    + cbn [filter]. rewrite Hc. apply IH. apply blanks_snoc; assumption.
    + rewrite filter_app. cbn [filter]. rewrite Hc.
      rewrite (IH [] ltac:(constructor)).
      emit_run run Hrun; reflexivity.
Qed.

Lemma squeeze_fixed : forall (s : str) (prev : bool),
  single_spaced prev s = true ->
  squeeze_from orderby_repl [] s = s
  /\ (prev = true -> squeeze_from orderby_repl [sp] s = sp :: s).
Proof.
  induction s as [|c s IH]; intros prev H; cbn [squeeze_from].
  - split; [reflexivity|]. intros _. reflexivity.
  - cbn [single_spaced] in H. destruct (is_blank c) eqn:E.
    + apply andb_prop in H. destruct H as [H Hs]. apply andb_prop in H.
      destruct H as [Hp Hc]. apply negb_true_iff in Hp. apply is_chr_true in Hc. subst c.
      destruct (IH true Hs) as [_ H2]. split; [apply H2; reflexivity|].
      intros ->. discriminate.
    + destruct (IH false H) as [H1 _]. cbn [is_empty app]. rewrite H1.
      split; [reflexivity|]. intros _. reflexivity.
Qed.

(** X14. [normalize_spaces_preserve_newlines] leaves no tab and no two
    blanks in a row, keeps every other character in place and changes
    nothing when applied again. *)
Theorem orderby_normalize_spaces_collapses : forall text : str,
  single_spaced false (Orderby.normalize_spaces_preserve_newlines text) = true
  /\ filter not_blank (Orderby.normalize_spaces_preserve_newlines text)
     = filter not_blank text
  /\ Orderby.normalize_spaces_preserve_newlines
       (Orderby.normalize_spaces_preserve_newlines text)
     = Orderby.normalize_spaces_preserve_newlines text.
Proof.
  intros text. unfold Orderby.normalize_spaces_preserve_newlines.
  rewrite !re_sub_blank_runs. fold orderby_repl. unfold squeeze.
  pose proof (@squeeze_single_spaced text [] ltac:(constructor)) as H1.
  split; [exact H1|]. split.
  - apply squeeze_keeps_text. constructor.
  - apply (squeeze_fixed _ false H1).
Qed.



(** Without quote or parenthesis the tokenizer of sort.py cuts at every
    comma. *)
Lemma tokenize_loop_plain (s : str) :
  forallb plain_char s = true ->
  forall fuel i buf items,
  length s - i < fuel ->
  exists items' buf',
    tokenize_loop false fuel s i Code 0 buf items = Ok (items', buf')
    /\ (if is_empty (strip buf') then items' else items' ++ [strip buf'])
       = items ++ filter not_empty (map strip (split_on_from comma (skipn i s) (rev buf))).
Proof.
  intros Hs. induction fuel as [|fuel IH]; intros i buf items Hf; [lia|].
  cbn [tokenize_loop].
  destruct (Nat.leb_spec (length s) i) as [Hge|Hlt].
  - exists items, buf. split; [reflexivity|].
    rewrite skipn_all2 by exact Hge. cbn [split_on_from map filter].
    rewrite rev_involutive. unfold not_empty.
    destruct (is_empty (strip buf)); cbn [negb]; rewrite ?app_nil_r; reflexivity.
  - destruct (get_lt s Hlt) as (c & Hget & Hn). rewrite Hget. cbn [bind].
    rewrite (skipn_cons s i Hn).
    assert (Hc : plain_char c = true).
    { rewrite forallb_forall in Hs. apply Hs. eapply nth_error_In. exact Hn. }
    unfold plain_char in Hc. destruct (open_quote c); [discriminate|].
    apply andb_prop in Hc. destruct Hc as [Hl Hr].
    apply negb_true_iff in Hl. apply negb_true_iff in Hr. rewrite Hl, Hr.
    cbn [Nat.eqb andb split_on_from].
    destruct (is_chr comma c) eqn:Ec.
    + destruct (IH (i + 1) [] (if is_empty (strip buf) then items else items ++ [strip buf])
                  ltac:(lia)) as (items' & buf' & Hloop & Hfin).
      exists items', buf'. split; [exact Hloop|]. rewrite Hfin.
      cbn [rev map filter]. rewrite rev_involutive. unfold not_empty at 2.
      destruct (is_empty (strip buf)); cbn [negb]; [reflexivity|].
      rewrite <- app_assoc. reflexivity.
    + destruct (IH (i + 1) (buf ++ [c]) items ltac:(lia)) as (items' & buf' & Hloop & Hfin).
      exists items', buf'. split; [exact Hloop|]. rewrite Hfin.
      rewrite rev_unit. reflexivity.
Qed.

Lemma tokenize_plain (s : str) :
  forallb plain_char s = true ->
  tokenize false s = Ok (filter not_empty (map strip (split_on comma s))).
Proof.
  intros Hs. unfold tokenize.
  destruct (@tokenize_loop_plain s Hs (S (length s)) 0 [] [] ltac:(lia))
    as (items' & buf' & Hloop & Hfin).
  rewrite Hloop. cbn [bind]. rewrite Hfin. reflexivity.
Qed.








Lemma all_words_cons (n : str) (rest : list str) :
  all_words (n :: rest) -> (n <> [] /\ forallb is_word_char n = true) /\ all_words rest.
Proof.
  intros H. split; [apply H; left; reflexivity|].
  intros m Hm. apply H. right. exact Hm.
Qed.









Lemma span_all (p : ascii -> bool) (t : str) : forallb p t = true -> span p t = length t.
Proof.
  induction t as [|c t IH]; cbn [forallb span length]; [reflexivity|].
  intros H. apply andb_prop in H. destruct H as [Hc Ht]. rewrite Hc, (IH Ht). reflexivity.
Qed.





































Lemma ident_start_not_lt (c : ascii) : ident_start c = true -> is_chr lt_sign c = false.
Proof.
  destruct c as [[] [] [] [] [] [] [] []]; vm_compute; intros H;
    first [discriminate H | reflexivity].
Qed.

Lemma read_sort_line_matches (target r : str) (u : ascii) :
  is_identifier target = true -> is_word_char u = false ->
  exists m, re_match Read.sort_line_re (L "SORT " ++ target ++ u :: r) = Some m
            /\ group (L "SORT " ++ target ++ u :: r) m 1 = Some target.
Proof.
  intros Hid Hu.
  destruct (identifier_chars target Hid) as (c & t' & -> & Hc & Hw).
  cbn [forallb] in Hw. apply andb_prop in Hw. destruct Hw as [Hcw Hw].
  set (line := L "SORT " ++ (c :: t') ++ u :: r).
  exists (0, 6 + length t', [(1, (5, 6 + length t'))]).
  assert (Hskip6 : skipn 6 line = t' ++ u :: r) by reflexivity.
  assert (Hfinal : xorb (word_before line (6 + length t'))
                     (peek is_word_char line (6 + length t')) = true).
  { assert (Hpeek : peek is_word_char line (6 + length t') = false).
    { unfold peek. rewrite <- nth_error_skipn, Hskip6.
      rewrite <- (Nat.add_0_r (length t')), nth_error_app_length.
      cbn [nth_error]. exact Hu. }
    rewrite Hpeek, xorb_false_r. cbn [word_before plus].
    unfold peek. change (S (S (S (S (S (length t')))))) with (5 + length t').
    rewrite <- nth_error_skipn.
    change (skipn 5 line) with ((c :: t') ++ u :: r).
    assert (Hlast : peek is_word_char (c :: t') (length t') = true).
    { replace (length t') with (length (c :: t') - 1) by (cbn; lia).
      apply last_word_char; [cbn [forallb]; rewrite Hcw, Hw; reflexivity|discriminate]. }
    unfold peek in Hlast.
    rewrite nth_error_app1 by (cbn [length]; lia). exact Hlast. }
  split.
  - unfold re_match, match_at, Read.sort_line_re. cbn [seqs ilit L ilit_of
      list_ascii_of_string rx Nat.eqb].
    change (nth_error line 0) with (Some "S"%char).
    change (nth_error line 1) with (Some "O"%char).
    change (nth_error line 2) with (Some "R"%char).
    change (nth_error line 3) with (Some "T"%char).
    cbn [lower_chr]. cbv beta.
    replace (Ascii.eqb (lower_chr "S") (lower_chr "s")) with true by reflexivity.
    replace (Ascii.eqb (lower_chr "O") (lower_chr "o")) with true by reflexivity.
    replace (Ascii.eqb (lower_chr "R") (lower_chr "r")) with true by reflexivity.
    replace (Ascii.eqb (lower_chr "T") (lower_chr "t")) with true by reflexivity.
    unfold ws1. cbn [rx].
    change (skipn 4 line) with (" "%char :: c :: t' ++ u :: r).
    cbn [span]. change (isspace " ") with true. cbv iota.
    rewrite (word_char_not_space c Hcw).
    apply rep_down_first; [lia|].
    change (nth_error line (4 + 1)) with (Some c). cbv beta iota.
    rewrite (ident_start_not_lt c Hc).
    unfold ident. cbn [rx].
    change (nth_error line (4 + 1)) with (Some c). cbv beta iota. rewrite Hc.
    change (skipn (S (4 + 1)) line) with (t' ++ u :: r).
    rewrite (@span_app_stop is_word_char u r Hu t' Hw).
    apply rep_down_first; [lia|].
    change (S (4 + 1) + length t') with (6 + length t').
    rewrite Hfinal. reflexivity.
  - unfold group. cbn [snd lookup_group Nat.eqb]. f_equal.
    unfold slice. change (skipn 5 line) with ((c :: t') ++ u :: r).
    replace (6 + length t' - 5) with (length (c :: t')) by (cbn [length]; lia).
    rewrite firstn_app, firstn_all, Nat.sub_diag. cbn [firstn]. apply app_nil_r.
Qed.

Lemma line_start_in (A V : str) (n : nat) :
  (A = [] \/ exists A', A = A' ++ [nl]) ->
  n <= length V ->
  forallb (fun c => negb (is_chr nl c)) (firstn n V) = true ->
  line_start_of (A ++ V) (length A + n) = length A.
Proof.
  intros HA Hn Hno. unfold line_start_of.
  assert (Hsame : rfind_chr nl (A ++ V) (length A + n) = rfind_chr nl (A ++ V) (length A)).
  { apply rfind_chr_same; [lia|]. intros j Hj. unfold peek_is.
    replace j with (length A + (j - length A)) by lia.
    rewrite nth_error_app_length.
    destruct (nth_error V (j - length A)) as [c|] eqn:E; [|reflexivity].
    rewrite forallb_forall in Hno.
    assert (Hin : In c (firstn n V)).
    { apply nth_error_In with (n := j - length A).
      rewrite nth_error_firstn. destruct (Nat.ltb_spec (j - length A) n); [exact E|lia]. }
    apply Hno in Hin. apply negb_true_iff in Hin. exact Hin. }
  rewrite Hsame. destruct HA as [->|(A' & ->)]; [reflexivity|].
  rewrite length_app. cbn [length]. rewrite Nat.add_1_r. cbn [rfind_chr].
  unfold peek_is. rewrite <- !app_assoc.
  rewrite <- (Nat.add_0_r (length A')), nth_error_app_length. cbn [app nth_error].
  change (is_chr nl nl) with true. cbv iota. lia.
Qed.

Lemma prev_loop_empty_line (fuel : nat) (s : str) (i : nat) :
  0 < i -> i <= length s -> line_start_of s i = i ->
  Read.prev_executable_line_start_loop (S fuel) s i
  = Read.prev_executable_line_start_loop fuel s (i - 1).
Proof.
  intros H0 Hi Hls. cbn [Read.prev_executable_line_start_loop].
  destruct (Nat.leb_spec i 0) as [?|_]; [lia|].
  rewrite (skip_blanks_upto_ok s (line_start_of s i) Hi). cbn [bind]. rewrite Hls.
  assert (Hs : slice s i i = []) by (unfold slice; rewrite Nat.sub_diag; reflexivity).
  rewrite Hs. cbn [span]. rewrite Nat.add_0_r.
  rewrite Nat.leb_refl. cbn [orb].
  destruct (Nat.ltb_spec 0 i) as [_|?]; [reflexivity|lia].
Qed.

Lemma prev_loop_line (fuel : nat) (s : str) (i : nat) (b r : str) (c : ascii) :
  i <= length s ->
  slice s (line_start_of s i) i = b ++ c :: r -> blanks b -> is_blank c = false ->
  Read.prev_executable_line_start_loop (S fuel) s i
  = if starts_statement c then Ok (Some (line_start_of s i + length b))
    else Read.prev_executable_line_start_loop fuel s
           (if 0 <? line_start_of s i then line_start_of s i - 1 else 0).
Proof.
  intros Hi Hsl Hb Hc. set (ls := line_start_of s i) in *.
  assert (Hlen : length (slice s ls i) = length b + S (length r)).
  { rewrite Hsl, length_app. reflexivity. }
  rewrite length_slice in Hlen.
  assert (Hk : ls + length b < i) by lia.
  assert (Hn : nth_error s (ls + length b) = Some c).
  { rewrite <- (@nth_error_slice s ls i (length b)) by lia.
    rewrite Hsl, <- (Nat.add_0_r (length b)), nth_error_app_length. reflexivity. }
  cbn [Read.prev_executable_line_start_loop].
  destruct (Nat.leb_spec i 0) as [?|_]; [lia|].
  fold ls. rewrite (skip_blanks_upto_ok s ls Hi). cbn [bind]. rewrite Hsl.
  rewrite (@span_app_stop is_blank c r Hc b (blanks_forallb Hb)).
  destruct (Nat.leb_spec i (ls + length b)) as [?|_]; [lia|]. cbn [orb].
  unfold peek, get. rewrite Hn. cbn [bind]. unfold starts_statement. rewrite Hc. cbn [orb].
  destruct (is_chr nl c); [reflexivity|].
  destruct (is_chr cr c); [reflexivity|]. cbn [orb].
  destruct (is_chr star c); [reflexivity|].
  destruct (is_chr dq c); reflexivity.
Qed.

Lemma slice_mid (X Y Z : str) : slice (X ++ Y ++ Z) (length X) (length X + length Y) = Y.
Proof.
  unfold slice. rewrite skipn_app_length.
  replace (length X + length Y - length X) with (length Y) by lia.
  rewrite firstn_app, firstn_all, Nat.sub_diag. cbn [firstn]. apply app_nil_r.
Qed.

Lemma firstn_length_app {A : Type} (a b : list A) : firstn (length a) (a ++ b) = a.
Proof.
  rewrite firstn_app, firstn_all, Nat.sub_diag. cbn [firstn]. apply app_nil_r.
Qed.

Lemma starts_statement_not_blank (c : ascii) : starts_statement c = true -> is_blank c = false.
Proof.
  unfold starts_statement. intros H. apply negb_true_iff in H.
  destruct (is_blank c); [discriminate H|reflexivity].
Qed.

(** A line of text, a comment line and the position after them: the
    line scanned for above that position is the line of text. *)
Lemma prev_exec_two_lines (A b1 r1 b2 r2 R : str) (c1 : ascii) :
  (A = [] \/ exists A', A = A' ++ [nl]) ->
  blanks b1 -> starts_statement c1 = true ->
  forallb (fun c => negb (is_chr nl c)) (b1 ++ c1 :: r1) = true ->
  blanks b2 ->
  forallb (fun c => negb (is_chr nl c)) (b2 ++ dq :: r2) = true ->
  Read.prev_executable_line_start
    (A ++ (b1 ++ c1 :: r1) ++ nl :: (b2 ++ dq :: r2) ++ nl :: R)
    (length A + length (b1 ++ c1 :: r1) + 1 + length (b2 ++ dq :: r2) + 1)
  = Ok (Some (length A + length b1)).
Proof.
  intros HA Hb1 Hc1 Hno1 Hb2 Hno2.
  set (line1 := b1 ++ c1 :: r1) in *. set (line2 := b2 ++ dq :: r2) in *.
  set (s := A ++ line1 ++ nl :: line2 ++ nl :: R).
  set (A1 := (A ++ line1 ++ nl :: line2) ++ [nl]).
  set (A2 := (A ++ line1) ++ [nl]).
  assert (E1 : s = A1 ++ R).
  { unfold s, A1. repeat (rewrite <- app_assoc; cbn [app]). reflexivity. }
  assert (E2 : s = A2 ++ line2 ++ nl :: R).
  { unfold s, A2. repeat (rewrite <- app_assoc; cbn [app]). reflexivity. }
  assert (E3 : s = A ++ line1 ++ nl :: line2 ++ nl :: R) by reflexivity.
  assert (Hl1 : length A1 = length A + length line1 + 1 + length line2 + 1).
  { unfold A1. rewrite !length_app. cbn [length]. lia. }
  assert (Hl2 : length A2 = length A + length line1 + 1).
  { unfold A2. rewrite !length_app. cbn [length]. lia. }
  assert (Hls : length s = length A1 + length R).
  { rewrite E1, length_app. reflexivity. }
  assert (Hline1 : 0 < length line1).
  { unfold line1. rewrite length_app. cbn [length]. lia. }
  (* the position itself starts a line *)
  assert (P1 : line_start_of s (length A1) = length A1).
  { rewrite E1. rewrite <- (Nat.add_0_r (length A1)) at 1.
    apply line_start_in; [right; eexists; reflexivity|lia|reflexivity]. }
  (* the comment line *)
  assert (P2 : line_start_of s (length A2 + length line2) = length A2).
  { rewrite E2. apply line_start_in; [right; eexists; reflexivity| |].
    - rewrite length_app. lia.
    - rewrite firstn_length_app. exact Hno2. }
  assert (S2 : slice s (length A2) (length A2 + length line2) = line2).
  { rewrite E2. apply slice_mid. }
  (* the line of text *)
  assert (P3 : line_start_of s (length A + length line1) = length A).
  { rewrite E3. apply line_start_in; [exact HA| |].
    - rewrite length_app. lia.
    - rewrite firstn_length_app. exact Hno1. }
  assert (S3 : slice s (length A) (length A + length line1) = line1).
  { rewrite E3. apply slice_mid. }
  unfold Read.prev_executable_line_start. fold s. rewrite <- Hl1.
  replace (S (length s)) with (S (S (S (length s - 2)))) by lia.
  rewrite prev_loop_empty_line by (try exact P1; lia).
  replace (length A1 - 1) with (length A2 + length line2) by lia.
  rewrite (@prev_loop_line _ s _ b2 r2 dq) by
    (first [lia | rewrite P2; exact S2 | exact Hb2 | reflexivity]).
  change (starts_statement dq) with false. cbv iota. rewrite P2.
  destruct (Nat.ltb_spec 0 (length A2)) as [_|?]; [|lia].
  replace (length A2 - 1) with (length A + length line1) by lia.
  rewrite (@prev_loop_line _ s _ b1 r1 c1) by
    (first [lia | rewrite P3; exact S3 | exact Hb1
           | exact (starts_statement_not_blank c1 Hc1)]).
  rewrite Hc1, P3. reflexivity.
Qed.

Lemma blank_not_nl (c : ascii) : is_blank c = true -> is_chr nl c = false.
Proof.
  unfold is_blank. intros H. apply orb_prop in H.
  destruct H as [H|H]; apply is_chr_true in H; subst c; reflexivity.
Qed.

Lemma blanks_plain (b : str) :
  blanks b -> forallb (fun c => negb (is_chr nl c)) b = true.
Proof.
  intros H. apply forallb_forall. intros c Hc. unfold blanks in H.
  rewrite Forall_forall in H. rewrite (blank_not_nl c (H c Hc)). reflexivity.
Qed.

Lemma word_plain_nl (w : str) :
  forallb is_word_char w = true -> forallb (fun c => negb (is_chr nl c)) w = true.
Proof.
  apply forallb_imp. intros c Hc. destruct (word_char_plain c Hc) as [-> _]. reflexivity.
Qed.

Lemma no_nl_of_contains (t : str) :
  contains_chr nl t = false -> forallb (fun c => negb (is_chr nl c)) t = true.
Proof.
  unfold contains_chr. induction t as [|c t IH]; cbn [existsb forallb]; [reflexivity|].
  intros H. apply orb_false_elim in H. destruct H as [-> Ht]. cbn [negb andb]. exact (IH Ht).
Qed.

Lemma join_sp_no_nl : forall names : list str,
  all_words names -> forallb (fun c => negb (is_chr nl c)) (join [sp] names) = true.
Proof.
  induction names as [|n rest IH]; intros H; [reflexivity|].
  apply all_words_cons in H. destruct H as [[_ Hw] Hrest].
  destruct rest as [|m rest]; [exact (word_plain_nl n Hw)|].
  change (join [sp] (n :: m :: rest)) with (n ++ [sp] ++ join [sp] (m :: rest)).
  rewrite !forallb_app, (word_plain_nl n Hw), (IH Hrest). reflexivity.
Qed.

(** The text that the pass puts before a [READ TABLE] which starts its
    line is recognised from the position behind it. *)
Lemma read_sort_recognised (A indent itab h t' today R : str) :
  (A = [] \/ exists A', A = A' ++ [nl]) -> blanks indent ->
  is_identifier itab = true ->
  (h = [dot] \/ h = [sp; "B"%char]) ->
  forallb (fun c => negb (is_chr nl c)) t' = true ->
  forallb (fun c => negb (is_chr nl c)) today = true ->
  Read.is_sort_immediately_before
    ((A ++ indent)
     ++ ((indent ++ L "SORT " ++ itab ++ h ++ t') ++ [nl] ++ indent ++ pwc_tag_line today)
     ++ R)
    (length (A ++ indent)
     + length ((indent ++ L "SORT " ++ itab ++ h ++ t') ++ [nl] ++ indent
               ++ pwc_tag_line today))
    itab
  = Ok true.
Proof.
  intros HA Hind Hid Hh Ht' Htoday.
  destruct (identifier_chars itab Hid) as (c0 & i' & Hitab & _ & Hw).
  pose proof (blanks_plain Hind) as Hind_nl.
  pose proof (word_plain_nl itab Hw) as Hw_nl.
  set (b1 := indent ++ indent).
  set (r1 := L "ORT " ++ itab ++ h ++ t').
  set (r2 := L " Added By Pwc " ++ today).
  assert (Hh_nl : forallb (fun c => negb (is_chr nl c)) h = true)
    by (destruct Hh as [-> | ->]; reflexivity).
  assert (Hb1 : blanks b1) by (apply Forall_app; split; assumption).
  assert (Hno1 : forallb (fun c => negb (is_chr nl c)) (b1 ++ "S"%char :: r1) = true).
  { unfold b1, r1. rewrite !forallb_app. cbn [forallb]. rewrite !forallb_app.
    rewrite Hind_nl, Hw_nl, Hh_nl, Ht'. reflexivity. }
  assert (Hno2 : forallb (fun c => negb (is_chr nl c)) (indent ++ dq :: r2) = true).
  { unfold r2. rewrite !forallb_app. cbn [forallb]. rewrite !forallb_app.
    rewrite Hind_nl, Htoday. reflexivity. }
  assert (Eout : (A ++ indent)
                 ++ ((indent ++ L "SORT " ++ itab ++ h ++ t') ++ [nl] ++ indent
                     ++ pwc_tag_line today) ++ R
                 = A ++ (b1 ++ "S"%char :: r1) ++ nl :: (indent ++ dq :: r2) ++ nl :: R).
  { unfold b1, r1, r2, pwc_tag_line.
    repeat first [progress cbn [app L list_ascii_of_string] | rewrite <- app_assoc].
    reflexivity. }
  assert (Epos : length (A ++ indent)
                 + length ((indent ++ L "SORT " ++ itab ++ h ++ t') ++ [nl] ++ indent
                           ++ pwc_tag_line today)
                 = length A + length (b1 ++ "S"%char :: r1) + 1
                   + length (indent ++ dq :: r2) + 1).
  { unfold b1, r1, r2, pwc_tag_line. cbn [L list_ascii_of_string app].
    repeat (rewrite ?length_app; cbn [length]). lia. }
  unfold Read.is_sort_immediately_before. rewrite Eout, Epos.
  rewrite (@prev_exec_two_lines A b1 r1 indent r2 R "S"%char HA Hb1 eq_refl Hno1 Hind Hno2).
  cbn [bind].
  set (x := A ++ b1).
  assert (Hx : length A + length b1 = length x) by (unfold x; rewrite length_app; reflexivity).
  rewrite Hx.
  assert (Hshape : exists u w0 cl t,
            is_word_char u = false /\ isspace cl = false
            /\ A ++ (b1 ++ "S"%char :: r1) ++ nl :: (indent ++ dq :: r2) ++ nl :: R
               = x ++ ("S"%char :: w0 ++ [cl]) ++ t
            /\ forallb (fun c => negb (is_chr nl c)) ("S"%char :: w0 ++ [cl]) = true
            /\ forallb (fun c => negb (is_chr dq c)) ("S"%char :: w0 ++ [cl]) = true
            /\ forall r', exists r'',
                 ("S"%char :: w0 ++ [cl]) ++ r' = L "SORT " ++ itab ++ u :: r'').
  { destruct Hh as [-> | ->].
    - exists dot, (L "ORT " ++ itab), dot, (t' ++ nl :: (indent ++ dq :: r2) ++ nl :: R).
      split; [reflexivity|]. split; [reflexivity|]. split.
      { unfold x, r1.
        repeat first [progress cbn [app L list_ascii_of_string] | rewrite <- app_assoc].
        reflexivity. }
      split; [|split].
      + change ("S"%char :: (L "ORT " ++ itab) ++ [dot]) with (L "SORT " ++ itab ++ [dot]).
        apply sort_head_plain; [exact Hw|reflexivity|reflexivity|left; reflexivity].
      + change ("S"%char :: (L "ORT " ++ itab) ++ [dot]) with (L "SORT " ++ itab ++ [dot]).
        apply sort_head_plain; [exact Hw|reflexivity|reflexivity|right; reflexivity].
      + intros r'. exists r'.
        repeat first [progress cbn [app L list_ascii_of_string] | rewrite <- app_assoc].
        reflexivity.
    - exists sp, (L "ORT " ++ itab ++ [sp]), "B"%char,
        (t' ++ nl :: (indent ++ dq :: r2) ++ nl :: R).
      split; [reflexivity|]. split; [reflexivity|]. split.
      { unfold x, r1.
        repeat first [progress cbn [app L list_ascii_of_string] | rewrite <- app_assoc].
        reflexivity. }
      split; [|split].
      + change ("S"%char :: (L "ORT " ++ itab ++ [sp]) ++ ["B"%char])
          with (L "SORT " ++ (itab ++ [sp]) ++ ["B"%char]).
        rewrite <- app_assoc.
        apply sort_head_plain; [exact Hw|reflexivity|reflexivity|left; reflexivity].
      + change ("S"%char :: (L "ORT " ++ itab ++ [sp]) ++ ["B"%char])
          with (L "SORT " ++ (itab ++ [sp]) ++ ["B"%char]).
        rewrite <- app_assoc.
        apply sort_head_plain; [exact Hw|reflexivity|reflexivity|right; reflexivity].
      + intros r'. exists ("B"%char :: r').
        repeat first [progress cbn [app L list_ascii_of_string] | rewrite <- app_assoc].
        reflexivity. }
  destruct Hshape as (u & w0 & cl & t & Hu & Hcl & -> & Hnl & Hdq & Hback).
  destruct (@code_of_line_prefix x t w0 "S"%char cl eq_refl Hcl Hnl Hdq) as [r' Hr'].
  rewrite Hr'. destruct (Hback r') as [r'' ->].
  destruct (@read_sort_line_matches itab r'' u Hid Hu) as (m & Hm & Hg).
  rewrite Hm, Hg, str_eqb_refl. reflexivity.
Qed.

Lemma rfind_chr_found (c : ascii) (s : str) : forall hi k,
  rfind_chr c s hi = Some k -> peek_is s k c = true.
Proof.
  induction hi as [|h IH]; intros k; cbn [rfind_chr]; [discriminate|].
  destruct (peek_is s h c) eqn:E; [intros [= <-]; exact E|apply IH].
Qed.

Lemma upto_split (s : str) (i j : nat) :
  i <= j -> j <= length s -> upto s j = upto s i ++ slice s i j.
Proof.
  intros Hij Hj. unfold upto, slice.
  rewrite <- (firstn_skipn i s) at 1. rewrite firstn_app, firstn_firstn.
  rewrite length_firstn. replace (Nat.min j i) with i by lia.
  replace (j - Nat.min i (length s)) with (j - i) by lia. reflexivity.
Qed.

(** The text before the start of a line is empty or ends the line
    before. *)
Lemma before_line_start (s : str) (pos : nat) :
  upto s (line_start_of s pos) = []
  \/ exists A', upto s (line_start_of s pos) = A' ++ [nl].
Proof.
  unfold line_start_of. destruct (rfind_chr nl s pos) as [k|] eqn:E; [|left; reflexivity].
  right. apply rfind_chr_found in E. unfold peek_is in E.
  destruct (nth_error s k) as [c|] eqn:En; [|discriminate E].
  apply is_chr_true in E. subst c. exists (upto s k). apply upto_snoc. exact En.
Qed.

Lemma slice_shift (s ins : str) (p q : nat) :
  p <= length s ->
  slice (upto s p ++ ins ++ from_ s p) (p + length ins) (q + length ins) = slice s p q.
Proof.
  intros Hp. unfold slice, upto, from_. rewrite app_assoc.
  assert (Hl : length (firstn p s ++ ins) = p + length ins).
  { rewrite length_app, length_firstn. lia. }
  replace (q + length ins - (p + length ins)) with (q - p) by lia.
  rewrite <- Hl, skipn_app_length. reflexivity.
Qed.

Lemma identifiers_all_words (names : list str) :
  (forall n, In n names -> is_identifier n = true) -> all_words names.
Proof.
  intros H n Hn. destruct (identifier_chars n (H n Hn)) as (c & t & -> & _ & Hw).
  split; [discriminate|exact Hw].
Qed.

(** X25. After read_statement.py has put its [SORT] statement before a
    [READ TABLE] that starts its line and names the table by an
    identifier, the same decision on the new text inserts nothing,
    provided the date holds no newline. *)
Theorem read_recognises_its_own_insertion :
  forall (today code : str) (read_pos period_pos : nat) (itab insertion : str),
  contains_chr nl today = false ->
  first_of_line code read_pos ->
  Read.extract_itab (slice code read_pos period_pos) = Some itab ->
  is_identifier itab = true ->
  Read.insertion_of today code read_pos period_pos = Ok (Some insertion) ->
  Read.insertion_of today
    (upto code read_pos ++ insertion ++ from_ code read_pos)
    (read_pos + length insertion) (period_pos + length insertion)
  = Ok None.
Proof.
  intros today code read_pos period_pos itab insertion Hnl Hfirst Hit Hid H.
  assert (Hlt : read_pos < length code).
  { destruct (Nat.le_gt_cases (length code) read_pos) as [Hge|Hlt]; [|exact Hlt].
    exfalso. unfold slice in Hit. rewrite skipn_all2 in Hit by exact Hge.
    rewrite firstn_nil in Hit. vm_compute in Hit. discriminate Hit. }
  pose proof (line_start_of_le code read_pos) as Hls.
  destruct (identifier_chars itab Hid) as (c0 & i' & Hitab & _ & _).
  unfold Read.insertion_of in H. cbv zeta in H. rewrite Hit in H.
  assert (Hne : is_empty itab = false) by (rewrite Hitab; reflexivity).
  rewrite Hne in H.
  destruct (negb (Read.read_has_index (slice code read_pos period_pos)
                  || Read.read_has_key (slice code read_pos period_pos))) eqn:Ehk;
    [discriminate H|].
  apply bind_ok in H. destruct H as (sorted & _ & H).
  destruct sorted; [discriminate H|].
  apply bind_ok in H. destruct H as (indent & Hindent & H).
  pose proof (get_line_indent_before_blanks _ _ Hindent) as Hblanks.
  (* the indentation is the text between the line start and READ *)
  assert (Hind : indent = slice code (line_start_of code read_pos) read_pos).
  { unfold get_line_indent_before in Hindent.
    rewrite (skip_blanks_upto_ok code (line_start_of code read_pos)) in Hindent by lia.
    cbn [bind] in Hindent. injection Hindent as <-.
    rewrite (span_all _ _ (blanks_forallb Hfirst)), length_slice.
    f_equal. lia. }
  assert (Hupto : upto code read_pos = upto code (line_start_of code read_pos) ++ indent).
  { rewrite Hind. apply upto_split; lia. }
  (* the inserted SORT statement *)
  assert (Hshape : exists h t',
            (h = [dot] \/ h = [sp; "B"%char])
            /\ forallb (fun c => negb (is_chr nl c)) t' = true
            /\ insertion = (indent ++ L "SORT " ++ itab ++ h ++ t') ++ [nl] ++ indent
                           ++ pwc_tag_line today).
  { injection H as <-.
    destruct (Read.read_has_index (slice code read_pos period_pos)).
    - exists [dot], []. split; [left; reflexivity|]. split; [reflexivity|].
      rewrite app_nil_r. reflexivity.
    - destruct (Read.extract_key_fields (slice code read_pos period_pos)) as [|f fs] eqn:Ef.
      + exists [dot], []. split; [left; reflexivity|]. split; [reflexivity|].
        rewrite app_nil_r. reflexivity.
      + exists [sp; "B"%char], (L "Y " ++ join [sp] (dedupe (f :: fs)) ++ [dot]).
        split; [right; reflexivity|]. split.
        * rewrite !forallb_app. cbn [forallb L list_ascii_of_string].
          rewrite join_sp_no_nl; [reflexivity|].
          apply identifiers_all_words. intros n Hn. apply dedupe_incl in Hn.
          rewrite <- Ef in Hn.
          destruct (read_key_fields_spec (slice code read_pos period_pos))
            as (_ & Hfields & _).
          apply Hfields. exact Hn.
        * repeat first [progress cbn [app L list_ascii_of_string] | rewrite <- app_assoc].
          reflexivity. }
  destruct Hshape as (h & t' & Hh & Ht' & Hins).
  unfold Read.insertion_of. cbv zeta.
  rewrite (@slice_shift code insertion read_pos period_pos) by lia.
  rewrite Hit, Hne, Ehk.
  assert (Hsorted : Read.is_sort_immediately_before
                      (upto code read_pos ++ insertion ++ from_ code read_pos)
                      (read_pos + length insertion) itab = Ok true).
  { pose proof (@read_sort_recognised (upto code (line_start_of code read_pos)) indent
                  itab h t' today (from_ code read_pos)
                  (before_line_start code read_pos) Hblanks Hid Hh Ht'
                  (no_nl_of_contains today Hnl)) as Hrec.
    rewrite <- Hins, <- Hupto in Hrec.
    replace (length (upto code read_pos)) with read_pos in Hrec
      by (unfold upto; rewrite length_firstn; lia).
    exact Hrec. }
  rewrite Hsorted. reflexivity.
Qed.

(** X9. For a request whose code spells neither [select] nor [read] the
    endpoint answers with the fields of the request and with the code,
    unchanged, as original and as remediated code. *)
Theorem endpoint_returns_unrelated_code : forall (today : str) (payload : App.Payload.t),
  is_infix (L "select") (lower (App.Payload.code payload)) = false ->
  is_infix (L "read") (lower (App.Payload.code payload)) = false ->
  App.remediate_abap today payload
  = Ok (App.ResponseModel.mk
          (App.Payload.pgm_name payload)
          (App.Payload.inc_name payload)
          (App.Payload.type payload)
          (App.Payload.name payload)
          (App.Payload.class_implementation payload)
          (App.Payload.code payload)
          (App.Payload.code payload)).
Proof.
  intros today payload Hs Hr. unfold App.remediate_abap, App.process_abap_code.
  cbv zeta. rewrite (remediate_without_words today _ Hs Hr). reflexivity.
Qed.

Lemma endpoint_returns_unrelated_code_witness :
  App.remediate_abap sample_date declaration_payload
  = Ok (App.ResponseModel.mk (L "ZPROG") (L "ZINC") (L "REPORT") (Some []) None
          (L "DATA lv_count TYPE i.") (L "DATA lv_count TYPE i.")).
Proof.
  apply (@endpoint_returns_unrelated_code sample_date declaration_payload);
    vm_compute; reflexivity.
Defined.

Lemma sort_recognises_its_own_insertion_witness :
  Sort.insertion_of sample_date
    (upto scenario_B (84 + 1) ++ scenario_B_insertion ++ from_ scenario_B (84 + 1))
    0 84
  = Ok None.
Proof.
  apply (@sort_recognises_its_own_insertion sample_date scenario_B 0 84
           scenario_B_insertion); vm_compute; reflexivity.
Defined.

Lemma read_recognises_its_own_insertion_witness :
  Read.insertion_of sample_date
    (upto indented_read 2 ++ indented_read_insertion ++ from_ indented_read 2)
    (2 + length indented_read_insertion) (25 + length indented_read_insertion)
  = Ok None.
Proof.
  apply (@read_recognises_its_own_insertion sample_date indented_read 2 25 (L "itab")
           indented_read_insertion).
  - vm_compute. reflexivity.
  - unfold first_of_line, blanks.
    change (Forall (fun c => is_blank c = true) [sp; sp]).
    repeat constructor.
  - vm_compute. reflexivity.
  - reflexivity.
  - vm_compute. reflexivity.
Defined.

(** X19. The target table that sort.py reads from a statement is an
    identifier spelled in the statement. *)
Theorem sort_target_table_is_identifier : forall stmt t : str,
  Sort.extract_target_table stmt = Some t ->
  is_identifier t = true /\ is_infix t stmt = true.
Proof. exact extract_target_table_ident. Qed.

Lemma sort_target_table_is_identifier_witness :
  is_identifier (L "result") = true /\ is_infix (L "result") scenario_B = true.
Proof.
  apply (@sort_target_table_is_identifier scenario_B (L "result")).
  vm_compute. reflexivity.
Defined.

Lemma read_itab_is_name_or_field_symbol_witness :
  is_infix (L "itab") scenario_D = true
  /\ (is_identifier (L "itab") = true
      \/ exists name c,
           L "itab" = [lt_sign] ++ name ++ [gt_sign] /\ is_identifier name = true
           /\ is_word_char c = true /\ is_infix (L "itab" ++ [c]) scenario_D = true).
Proof.
  apply (@read_itab_is_name_or_field_symbol scenario_D (L "itab")).
  vm_compute. reflexivity.
Defined.

(** X16. On a list without quote, backquote, bar or parenthesis the
    tokenizer of sort.py yields the stripped pieces between the commas
    that are not empty. *)
Theorem sort_tokenizer_cuts_at_commas : forall s : str,
  forallb plain_char s = true ->
  tokenize false s = Ok (filter not_empty (map strip (split_on comma s))).
Proof. exact tokenize_plain. Qed.

Lemma sort_tokenizer_cuts_at_commas_witness :
  tokenize false (L "a , b,,c")
  = Ok (filter not_empty (map strip (split_on comma (L "a , b,,c")))).
Proof.
  apply (@sort_tokenizer_cuts_at_commas (L "a , b,,c")). vm_compute. reflexivity.
Defined.

Lemma concat_prefix (out : list str) (x rest : str) :
  exists rest', concat (out ++ [x]) ++ rest = concat out ++ x ++ rest'.
Proof. exists rest. rewrite concat_snoc, <- app_assoc. reflexivity. Qed.

(** What a main loop returns begins with what it has collected. *)
Lemma main_loop_prefix (p : pass) (today code : str) : forall fuel i out r,
  main_loop_of p fuel today code i out = Ok r -> exists rest, r = concat out ++ rest.
Proof.
  destruct p; cbn [main_loop_of];
    (induction fuel as [|fuel IH]; intros i out r H; [discriminate H|];
     cbn [Select.main_loop Sort.main_loop Orderby.main_loop Read.main_loop] in H;
     destruct (length code <=? i);
     [injection H as <-; exists []; rewrite app_nil_r; reflexivity|];
     apply bind_ok in H; destruct H as ([k|] & _ & H);
     [|injection H as <-; exists (from_ code i); apply concat_snoc];
     apply bind_ok in H; destruct H as ([e|] & _ & H);
     [|injection H as <-; rewrite !concat_snoc, <- app_assoc; eexists; reflexivity];
     apply bind_ok in H; destruct H as (x & _ & H);
     apply IH in H; destruct H as (rest & ->)).
  - rewrite !concat_snoc, <- !app_assoc. eexists; reflexivity.
  - rewrite !concat_snoc, <- !app_assoc. eexists; reflexivity.
  - rewrite !concat_snoc, <- !app_assoc. eexists; reflexivity.
  - destruct x; rewrite ?concat_app, ?concat_snoc, <- ?app_assoc; eexists; reflexivity.
Qed.

Lemma main_loop_step_prefix (p : pass) (today code : str) (fuel i k : nat)
  (out : list str) (r : str) :
  i < length code ->
  scan_next (trigger_of p) code i = Ok (Some k) ->
  main_loop_of p (S fuel) today code i out = Ok r ->
  exists rest, r = concat out ++ slice code i k ++ rest.
Proof.
  intros Hi Hscan H. apply Nat.leb_gt in Hi.
  pose proof (@main_loop_prefix p today code fuel) as Hprefix.
  destruct p; cbn [main_loop_of trigger_of Select.main_loop Sort.main_loop
                   Orderby.main_loop Read.main_loop] in *;
    rewrite Hi, Hscan in H; cbn [bind] in H;
    (apply bind_ok in H; destruct H as ([e|] & _ & H);
     [|injection H as <-; rewrite !concat_snoc, <- app_assoc; eexists; reflexivity];
     apply bind_ok in H; destruct H as (x & _ & H);
     apply Hprefix in H; destruct H as (rest & ->)).
  - rewrite !concat_snoc, <- !app_assoc. eexists; reflexivity.
  - rewrite !concat_snoc, <- !app_assoc. eexists; reflexivity.
  - rewrite !concat_snoc, <- !app_assoc. eexists; reflexivity.
  - destruct x; rewrite ?concat_app; cbn [concat]; rewrite ?app_nil_r, <- ?app_assoc;
      eexists; reflexivity.
Qed.

(** X8. A pass returns the text unchanged when its trigger test holds
    at no index in code state; otherwise what it returns begins with
    the text before the first such index. *)
Theorem pass_keeps_text_before_first_trigger : forall (p : pass) (today code : str),
  match first_in_code (fun k => holds (trigger_of p code k)) code 0 with
  | None => run p today code = Ok code
  | Some k => exists rest, run p today code = Ok (upto code k ++ rest)
  end.
Proof.
  intros p today code.
  pose proof (scan_next_first_trigger p code 0) as Hscan.
  destruct code as [|c code'] eqn:Ec.
  { rewrite run_empty. reflexivity. }
  rewrite <- Ec in *.
  assert (Hlen : 0 < length code) by (rewrite Ec; cbn; lia).
  destruct (first_in_code (fun k => holds (trigger_of p code k)) code 0) as [k|].
  - destruct (run_returns p today code) as [r Hr].
    assert (Hloop : main_loop_of p (S (length code)) today code 0 [] = Ok r).
    { destruct p; exact Hr. }
    destruct (@main_loop_step_prefix p today code (length code) 0 k [] r Hlen Hscan Hloop)
      as (rest & Hrest).
    exists rest. rewrite Hr, Hrest. cbn [concat app].
    unfold slice, upto. rewrite Nat.sub_0_r. reflexivity.
  - pose proof (@main_loop_no_trigger p (length code) today code 0 [] Hlen Hscan) as Hm.
    rewrite from_0 in Hm. destruct p; exact Hm.
Qed.

Lemma at_statement_lead_first (s : str) (pos : nat) :
  at_statement_lead s pos = Ok true ->
  first_of_line s pos /\ peek_is s pos star = false.
Proof.
  unfold at_statement_lead, skip_blanks_upto. cbv zeta.
  destruct (_ && _); cbn [bind]; [discriminate|].
  destruct (peek_is s (line_start_of s pos
                       + span is_blank (slice s (line_start_of s pos) pos)) star) eqn:Es;
    [discriminate|].
  intros H. injection H as H. apply Nat.eqb_eq in H.
  split.
  - unfold first_of_line.
    pose proof (span_firstn_blank s (line_start_of s pos) pos) as Hb.
    rewrite H in Hb. exact Hb.
  - rewrite H in Es. exact Es.
Qed.

(** X5. Where the trigger test of sort.py or orderby.py holds, only
    blanks stand between the start of the line and the index, the six
    characters from the index spell [select] and no word character
    follows them. *)
Theorem lead_trigger_needs_line_start : forall (code : str) (k : nat),
  Sort.trigger code k = Ok true \/ Orderby.trigger code k = Ok true ->
  first_of_line code k
  /\ lower (slice code k (k + 6)) = L "select"
  /\ peek is_word_char code (k + 6) = false.
Proof.
  intros code k H.
  assert (Ht : Orderby.trigger code k = Ok true) by (destruct H as [H|H]; exact H).
  clear H. unfold Orderby.trigger in Ht.
  destruct (str_eqb (lower (slice code k (k + 6))) (L "select")) eqn:E; [|discriminate].
  apply str_eqb_eq in E.
  apply bind_ok in Ht. destruct Ht as (right_ok & Hr & Ht).
  destruct right_ok; [|discriminate].
  apply at_statement_lead_first in Ht. destruct Ht as [Hfirst _].
  split; [exact Hfirst|]. split; [exact E|].
  unfold peek. destruct (Nat.eqb_spec (k + 6) (length code)) as [Heq|Hne].
  - rewrite (proj2 (nth_error_None code (k + 6))) by lia. reflexivity.
  - apply bind_ok in Hr. destruct Hr as (c & Hc & Hr).
    unfold get in Hc. destruct (nth_error code (k + 6)) as [c'|]; [|discriminate].
    injection Hc as ->. injection Hr as Hr. apply negb_true_iff in Hr. exact Hr.
Qed.

Lemma lead_trigger_needs_line_start_witness :
  first_of_line scenario_B 0
  /\ lower (slice scenario_B 0 (0 + 6)) = L "select"
  /\ peek is_word_char scenario_B (0 + 6) = false.
Proof.
  apply (@lead_trigger_needs_line_start scenario_B 0).
  left. vm_compute. reflexivity.
Defined.



Lemma peek_app_r (p : ascii -> bool) (a b : str) (k : nat) :
  peek p (a ++ b) (length a + k) = peek p b k.
Proof. unfold peek. rewrite nth_error_app_length. reflexivity. Qed.



Lemma word_before_app_r (a b : str) (i : nat) :
  0 < i -> word_before (a ++ b) (length a + i) = word_before b i.
Proof.
  intros H. destruct i as [|i]; [lia|]. rewrite Nat.add_succ_r. cbn [word_before].
  apply peek_app_r.
Qed.

Lemma slice_app_r (a b : str) (i j : nat) :
  slice (a ++ b) (length a + i) (length a + j) = slice b i j.
Proof.
  unfold slice. rewrite skipn_app, skipn_all2 by lia.
  replace (length a + i - length a) with i by lia.
  replace (length a + j - (length a + i)) with (j - i) by lia. reflexivity.
Qed.

Section Words.

Variable w : str.
Hypothesis w_word : forallb is_word_char w = true.
Hypothesis w_not_empty : w <> [].






End Words.


Lemma search_loop_none (r : re) (s : str) : forall cnt i,
  search_loop r s i cnt = None ->
  forall p, i <= p <= i + cnt -> match_at r s p = None.
Proof.
  induction cnt as [|cnt IH]; intros i H p Hp; cbn [search_loop] in H;
    destruct (match_at r s i) as [m|] eqn:E; try discriminate.
  - replace p with i by lia. exact E.
  - destruct (Nat.eq_dec p i) as [->|Hne]; [exact E|].
    apply (@IH (S i) H). lia.
Qed.


Lemma search_pos_none (r : re) (s : str) (pos : nat) :
  search_pos r s pos = None -> pos <= length s ->
  forall p, pos <= p <= length s -> match_at r s p = None.
Proof.
  unfold search_pos. intros H Hpos p Hp.
  destruct (Nat.ltb_spec (length s) pos) as [?|_]; [lia|].
  apply (@search_loop_none r s (length s - pos) pos H). lia.
Qed.




Section Deletion.

Variable w : str.
Hypothesis w_word : forallb is_word_char w = true.
Hypothesis w_not_empty : w <> [].

Variable r : re.
Hypothesis r_shape : forall s a j g,
  matches s r a j g ->
  a < j <= length s /\ word_before s a = false /\ peek is_word_char s j = false.





End Deletion.






Lemma rx_ilit_of {X : Type} (s : str) (g : groups) (k : nat -> groups -> option X) :
  forall (v : str) (i : nat),
  lower (slice s i (i + length v)) = lower v ->
  rx (ilit_of v) s i g k = k (i + length v) g.
Proof.
  induction v as [|c v IH]; intros i Hs.
  - cbn [ilit_of rx length]. rewrite Nat.add_0_r. reflexivity.
  - assert (Hr : i + length (c :: v) <= length s).
    { pose proof (f_equal (@length ascii) Hs) as Hl.
      unfold lower in Hl. rewrite !length_map, length_slice in Hl. cbn [length] in *. lia. }
    cbn [length] in Hr.
    destruct (nth_error s i) as [x|] eqn:Ex;
      [|apply nth_error_None in Ex; lia].
    assert (Hsl : slice s i (i + length (c :: v)) = x :: slice s (i + 1) (i + 1 + length v)).
    { cbn [length]. rewrite (@slice_at s i (length v) x Ex). reflexivity. }
    rewrite Hsl in Hs. cbn [lower map] in Hs. injection Hs as Hx Hrest.
    destruct v as [|c' v'].
    + cbn [ilit_of rx length]. rewrite Ex. cbv beta. rewrite Hx, Ascii.eqb_refl.
      f_equal. lia.
    + change (ilit_of (c :: c' :: v'))
        with (Seq (Chr (fun y => Ascii.eqb (lower_chr y) (lower_chr c))) (ilit_of (c' :: v'))).
      cbn [rx]. rewrite Ex. cbv beta. rewrite Hx, Ascii.eqb_refl.
      replace (S i) with (i + 1) by lia. rewrite (IH (i + 1) Hrest).
      f_equal. cbn [length]. lia.
Qed.





Lemma match_kw_at_boundary (s kw : str) (k : nat) :
  match_kw_at s k kw = Ok true -> word_before s k = false.
Proof.
  unfold match_kw_at. cbv zeta.
  destruct (length s <? k + length kw); [discriminate|].
  destruct (negb _); [discriminate|].
  intros H. apply bind_ok in H. destruct H as (left_ok & Hl & H).
  apply bind_ok in H. destruct H as (right_ok & _ & H).
  injection H as H. apply andb_prop in H. destruct H as [-> _].
  destruct k as [|k]; [reflexivity|]. cbn [Nat.eqb] in Hl.
  apply bind_ok in Hl. destruct Hl as (c & Hc & Hl).
  replace (S k - 1) with k in Hc by lia.
  unfold get in Hc. cbn [word_before]. unfold peek.
  destruct (nth_error s k) as [c'|]; [|discriminate]. injection Hc as ->.
  injection Hl as Hl. apply negb_true_iff in Hl. exact Hl.
Qed.

Lemma select_find_kw_loop_hit (kw : str) : forall fuel s i q k,
  Select.find_kw_loop fuel s kw i q = Ok (Some k) -> match_kw_at s k kw = Ok true.
Proof.
  induction fuel as [|fuel IH]; intros s i q k H; [discriminate|].
  cbn [Select.find_kw_loop] in H.
  destruct (length s <=? i); [discriminate|].
  apply bind_ok in H. destruct H as (c & _ & H).
  destruct q.
  - destruct (is_chr dq c); [exact (IH _ _ _ _ H)|].
    apply bind_ok in H. destruct H as (bol & _ & H).
    destruct bol; [exact (IH _ _ _ _ H)|].
    destruct (match_kw_at s i kw) as [[|]|e] eqn:E; cbn [bind] in H.
    + injection H as <-. exact E.
    + exact (IH _ _ _ _ H).
    + discriminate.
  - destruct (quoted_step s i InSq c) as [i' q']. exact (IH _ _ _ _ H).
  - destruct (quoted_step s i InBt c) as [i' q']. exact (IH _ _ _ _ H).
  - destruct (quoted_step s i InTpl c) as [i' q']. exact (IH _ _ _ _ H).
Qed.

Lemma select_find_kw_boundary (s kw : str) (start k : nat) :
  Select.find_kw s kw start = Ok (Some k) -> word_before s k = false.
Proof.
  intros H. apply select_find_kw_loop_hit in H. exact (@match_kw_at_boundary s kw k H).
Qed.








Section NoWord.

Variable w : str.
Hypothesis w_word : forallb is_word_char w = true.
Hypothesis w_not_empty : w <> [].






End NoWord.



Section SqueezeWords.

Variable w : str.
Hypothesis w_word : forallb is_word_char w = true.
Hypothesis w_not_empty : w <> [].

Variable repl : str -> str.
Hypothesis repl_blanks : forall run, blanks run -> run <> [] ->
  blanks (repl run) /\ repl run <> [].




End SqueezeWords.











(** The clause of orderby.py begins with the phrase and a space. *)
Lemma orderby_clause_phrase (fields : list str) :
  exists rest, Orderby.orderby_clause_of fields = Ok (L " ORDER BY " ++ rest).
Proof.
  unfold Orderby.orderby_clause_of.
  destruct (no_usable_fields fields); [exists (L "PRIMARY KEY"); reflexivity|].
  destruct (orderby_clean_fields_returns fields) as [cleaned Hc]. rewrite Hc. cbn [bind].
  eexists. reflexivity.
Qed.

Lemma dropwhile_snoc (p : ascii -> bool) (c : ascii) (u : str) :
  dropwhile p (u ++ [c]) = [] \/ exists v, dropwhile p (u ++ [c]) = v ++ [c].
Proof.
  induction u as [|x u IH]; cbn [app dropwhile].
  - destruct (p c); [left; reflexivity|right; exists []; reflexivity].
  - destruct (p x); [exact IH|]. right. exists (x :: u). reflexivity.
Qed.

Lemma rstrip_head (c : ascii) (b : str) :
  rstrip (c :: b) = [] \/ exists v, rstrip (c :: b) = c :: v.
Proof.
  unfold rstrip. cbn [rev].
  destruct (dropwhile_snoc isspace c (rev b)) as [E|[v E]]; rewrite E.
  - left. reflexivity.
  - right. exists (rev v). rewrite rev_app_distr. reflexivity.
Qed.

(** After a run of blanks the collapsed text goes on with one space. *)
Lemma squeeze_from_blank_head (s : str) :
  forall run, run <> [] -> blanks run ->
  exists b, squeeze_from orderby_repl run s = sp :: b.
Proof.
  induction s as [|c s IH]; intros run Hne Hb; cbn [squeeze_from].
  - destruct run as [|r run']; [congruence|]. cbn [is_empty].
    rewrite (orderby_repl_run Hb) by discriminate. exists []. reflexivity.
  - destruct (is_blank c) eqn:Ec.
    + apply IH; [destruct run; discriminate|apply blanks_snoc; assumption].
    + destruct run as [|r run']; [congruence|]. cbn [is_empty].
      rewrite (orderby_repl_run Hb) by discriminate. eexists. reflexivity.
Qed.

Lemma search_pos_hit (r : re) (s : str) (p : nat) (m : rmatch) :
  match_at r s p = Some m -> p <= length s -> is_some (re_search r s) = true.
Proof.
  intros Hm Hp. unfold re_search. destruct (search_pos r s 0) eqn:E; [reflexivity|].
  pose proof (@search_pos_none r s 0 E ltac:(lia) p ltac:(lia)) as Hn. congruence.
Qed.

(** The pattern of [has_order_by] matches the phrase where it stands
    between spaces or the ends of the text. *)
Lemma order_by_matches (a b : str) :
  (a = [] \/ exists a', a = a' ++ [sp]) ->
  (b = [] \/ exists b', b = sp :: b') ->
  match_at Orderby.order_by_re (a ++ L "ORDER BY" ++ b) (length a)
  = Some (length a, length a + 8, []).
Proof.
  intros Ha Hb.
  remember (a ++ L "ORDER BY" ++ b) as s eqn:Es.
  assert (Hwb : word_before s (length a) = false).
  { destruct Ha as [->|[a' ->]]; [reflexivity|].
    rewrite length_app, Nat.add_comm. cbn [length Nat.add word_before].
    subst s. rewrite <- app_assoc.
    pose proof (peek_app_r is_word_char a' ([sp] ++ L "ORDER BY" ++ b) 0) as Hp.
    rewrite Nat.add_0_r in Hp. rewrite Hp. reflexivity. }
  assert (Hpk : forall k, peek is_word_char s (length a + k)
                          = peek is_word_char (L "ORDER BY" ++ b) k).
  { intros k. subst s. apply peek_app_r. }
  assert (Hsl : forall i j, slice s (length a + i) (length a + j)
                            = slice (L "ORDER BY" ++ b) i j).
  { intros i j. subst s. apply slice_app_r. }
  assert (Hsk : skipn (length a + 5) s = L " BY" ++ b).
  { subst s. rewrite skipn_app, skipn_all2 by lia.
    replace (length a + 5 - length a) with 5 by lia. reflexivity. }
  assert (Hwe : word_before s (length a + 8) = true).
  { subst s. rewrite word_before_app_r by lia. reflexivity. }
  assert (Hpe : peek is_word_char s (length a + 8) = false).
  { rewrite Hpk. destruct Hb as [->|[b' ->]]; reflexivity. }
  unfold match_at, Orderby.order_by_re. cbn [seqs rx].
  rewrite Hwb. pose proof (Hpk 0) as H0. rewrite Nat.add_0_r in H0. rewrite H0.
  replace (xorb false (peek is_word_char (L "ORDER BY" ++ b) 0)) with true by reflexivity.
  unfold ilit. rewrite rx_ilit_of.
  2:{ pose proof (Hsl 0 5) as H5. rewrite Nat.add_0_r in H5.
      change (length (L "order")) with 5. rewrite H5. reflexivity. }
  change (length (L "order")) with 5.
  unfold ws1. cbn [rx]. rewrite Hsk.
  replace (span isspace (L " BY" ++ b)) with 1 by reflexivity.
  apply rep_down_first; [lia|].
  rewrite rx_ilit_of.
  2:{ change (length (L "by")) with 2.
      replace (length a + 5 + 1) with (length a + 6) by lia.
      replace (length a + 6 + 2) with (length a + 8) by lia.
      rewrite Hsl. reflexivity. }
  change (length (L "by")) with 2.
  replace (length a + 5 + 1 + 2) with (length a + 8) by lia.
  cbn [rx]. rewrite Hwe, Hpe. reflexivity.
Qed.

(** The statement that orderby.py builds matches the pattern by which
    [has_order_by] recognises a statement that has the clause. *)
Lemma orderby_phrase_matches (x y : str) :
  is_some (re_search Orderby.order_by_re
    (strip (Orderby.normalize_spaces_preserve_newlines (rstrip x ++ L " ORDER BY " ++ y))))
  = true.
Proof.
  unfold Orderby.normalize_spaces_preserve_newlines. rewrite re_sub_blank_runs.
  change (fun m : str => if contains_chr nl m then m else [sp]) with orderby_repl.
  assert (Hsq : exists sx b,
            squeeze orderby_repl (rstrip x ++ L " ORDER BY " ++ y)
            = sx ++ L " ORDER BY" ++ sp :: b).
  { destruct (@squeeze_from_blank_head y [sp] ltac:(discriminate)
                ltac:(constructor; [reflexivity|constructor])) as [b Hb].
    assert (Hpy : squeeze orderby_repl (L " ORDER BY " ++ y) = L " ORDER BY" ++ sp :: b).
    { unfold squeeze.
      change (L " ORDER BY " ++ y) with (L " ORDER B" ++ "Y"%char :: sp :: y).
      rewrite squeeze_from_snoc_plain by reflexivity.
      change (squeeze_from orderby_repl [] (sp :: y)) with (squeeze_from orderby_repl [sp] y).
      rewrite Hb. reflexivity. }
    destruct (rstrip_shape x) as [->|(a & c & -> & Hc)].
    - exists [], b. exact Hpy.
    - exists (squeeze orderby_repl (a ++ [c])), b. unfold squeeze in *.
      rewrite <- app_assoc. cbn [app].
      rewrite squeeze_from_snoc_plain by (apply not_space_not_blank; exact Hc).
      f_equal. exact Hpy. }
  destruct Hsq as (sx & b & ->). unfold strip.
  change (sx ++ L " ORDER BY" ++ sp :: b) with (sx ++ L " ORDER B" ++ "Y"%char :: sp :: b).
  rewrite app_assoc, rstrip_keep by reflexivity.
  rewrite <- app_assoc.
  change (sx ++ L " ORDER B" ++ "Y"%char :: rstrip (sp :: b))
    with (sx ++ [sp] ++ "O"%char :: L "RDER BY" ++ rstrip (sp :: b)).
  rewrite app_assoc, lstrip_keep by reflexivity.
  change ("O"%char :: L "RDER BY" ++ rstrip (sp :: b))
    with (L "ORDER BY" ++ rstrip (sp :: b)).
  apply (@search_pos_hit _ _ (length (lstrip (sx ++ [sp]))) _
           (@order_by_matches (lstrip (sx ++ [sp])) (rstrip (sp :: b))
              (dropwhile_snoc isspace sp sx) (rstrip_head sp b))).
  rewrite length_app. lia.
Qed.

(** ** Indentation of the replacements *)

(** [get_line_indent_before] returns the blanks at the start of the
    line. *)
Lemma get_line_indent_before_indent (code : str) (pos : nat) :
  pos <= length code ->
  exists indent, get_line_indent_before code pos = Ok indent
                 /\ line_indent code pos indent.
Proof.
  intros Hpos. unfold get_line_indent_before.
  rewrite (skip_blanks_upto_ok code (line_start_of code pos) Hpos). cbn [bind].
  eexists. split; [reflexivity|].
  pose proof (line_start_of_le code pos) as Hls.
  pose proof (span_le is_blank (slice code (line_start_of code pos) pos)) as Hsp.
  rewrite length_slice in Hsp.
  set (ls := line_start_of code pos) in *.
  set (n := span is_blank (slice code ls pos)) in *.
  assert (Hlen : length (slice code ls (ls + n)) = n) by (rewrite length_slice; lia).
  unfold line_indent. fold ls. rewrite Hlen.
  split; [apply span_firstn_blank|]. split; [reflexivity|]. split; [lia|].
  destruct (Nat.eq_dec (ls + n) pos) as [He|Hne]; [left; exact He|right].
  unfold peek. destruct (nth_error code (ls + n)) as [c|] eqn:Ec; [|reflexivity].
  apply (@after_blanks code ls pos c); [fold n; lia|exact Ec].
Qed.

(** At the lead of a statement the blanks of the line are the text
    between the start of the line and the index. *)
Lemma lead_indent (s : str) (pos : nat) :
  at_statement_lead s pos = Ok true ->
  get_line_indent_before s pos = Ok (slice s (line_start_of s pos) pos).
Proof.
  unfold at_statement_lead, get_line_indent_before. cbv zeta.
  destruct (skip_blanks_upto s (line_start_of s pos) pos) as [k|]; cbn [bind];
    [|discriminate].
  destruct (peek_is s k star); [discriminate|].
  intros H. injection H as H. apply Nat.eqb_eq in H. subst k. reflexivity.
Qed.

Lemma orderby_trigger_lead (code : str) (k : nat) :
  Orderby.trigger code k = Ok true -> at_statement_lead code k = Ok true.
Proof.
  unfold Orderby.trigger.
  destruct (str_eqb (lower (slice code k (k + 6))) (L "select")); [|discriminate].
  intros Ht. apply bind_ok in Ht. destruct Ht as (right_ok & _ & Ht).
  destruct right_ok; [exact Ht|discriminate].
Qed.

(** X11. The text that select.py puts for a statement is the blanks at
    the start of the line of the statement, the tag line, the new
    statement, which holds [UP TO 1 ROWS], and a period; then a new line
    with the same blanks and [ENDSELECT.] when none follows the
    statement, and otherwise the text between the period and the
    [ENDSELECT.] that follows. *)
Theorem select_replacement_closes_with_endselect :
  forall (today code : str) (sel_start period_pos : nat),
  sel_start <= length code ->
  exists indent new_stmt,
    line_indent code sel_start indent
    /\ Select.new_stmt_of (slice code sel_start period_pos) = Ok new_stmt
    /\ is_infix (L "UP TO 1 ROWS") new_stmt = true
    /\ ((Select.has_endselect_after code period_pos = Ok false
         /\ Select.replacement_of today code sel_start period_pos
            = Ok (indent ++ pwc_tag_line today ++ new_stmt ++ [dot]
                  ++ [nl] ++ indent ++ L "ENDSELECT."))
        \/ (exists k,
              Select.skip_ws_and_comments code (period_pos + 1) = Ok k
              /\ k < length code
              /\ lower (slice code k (k + 10)) = L "endselect."
              /\ Select.replacement_of today code sel_start period_pos
                 = Ok (indent ++ pwc_tag_line today ++ new_stmt ++ [dot]
                       ++ slice code (period_pos + 1) k))).
Proof.
  intros today code sel_start period_pos Hpos.
  destruct (get_line_indent_before_indent code Hpos) as (indent & Hindent & Hblanks).
  destruct (select_new_stmt_row_limit (slice code sel_start period_pos))
    as (new_stmt & Hnew & Hlimit).
  destruct (select_skip_ws_and_comments_returns code (period_pos + 1)) as (k & Hk).
  exists indent, new_stmt. split; [exact Hblanks|]. split; [exact Hnew|].
  split; [exact Hlimit|].
  unfold Select.replacement_of, Select.has_endselect_after.
  rewrite Hindent, Hnew, Hk. cbn [bind].
  destruct (Nat.ltb_spec k (length code)) as [Hlt|Hge]; cbn [andb negb bind].
  - destruct (str_eqb (lower (slice code k (k + 10))) (L "endselect.")) eqn:E;
      cbn [negb bind].
    + right. exists k. split; [reflexivity|]. split; [exact Hlt|].
      split; [apply str_eqb_eq; exact E|].
      cbn [concat app]. rewrite app_nil_r, <- !app_assoc. reflexivity.
    + left. split; [reflexivity|].
      cbn [concat app]. rewrite !app_nil_r, <- !app_assoc. reflexivity.
  - left. split; [reflexivity|].
    cbn [concat app]. rewrite !app_nil_r, <- !app_assoc. reflexivity.
Qed.

Lemma select_replacement_closes_with_endselect_witness :
  exists indent new_stmt,
    line_indent indented_single 2 indent
    /\ Select.new_stmt_of (slice indented_single 2 37) = Ok new_stmt
    /\ is_infix (L "UP TO 1 ROWS") new_stmt = true
    /\ ((Select.has_endselect_after indented_single 37 = Ok false
         /\ Select.replacement_of sample_date indented_single 2 37
            = Ok (indent ++ pwc_tag_line sample_date ++ new_stmt ++ [dot]
                  ++ [nl] ++ indent ++ L "ENDSELECT."))
        \/ (exists k,
              Select.skip_ws_and_comments indented_single (37 + 1) = Ok k
              /\ k < length indented_single
              /\ lower (slice indented_single k (k + 10)) = L "endselect."
              /\ Select.replacement_of sample_date indented_single 2 37
                 = Ok (indent ++ pwc_tag_line sample_date ++ new_stmt ++ [dot]
                       ++ slice indented_single (37 + 1) k))).
Proof.
  apply (@select_replacement_closes_with_endselect sample_date indented_single 2 37).
  vm_compute. lia.
Defined.

(** X13. orderby.py copies a statement in which the pattern for
    [FOR ALL ENTRIES] or for [ORDER BY] matches, and otherwise replaces
    it by the text between the start of its line and its keyword, which
    is blanks only, the tag line and a statement, closed by a period,
    that holds [ORDER BY] and in which the pattern for [ORDER BY]
    matches. *)
Theorem orderby_rewrites_unmarked_statements :
  forall (today code : str) (sel_pos period : nat),
  Orderby.trigger code sel_pos = Ok true -> sel_pos < period ->
  (is_some (re_search fae_re (slice code sel_pos period))
   || is_some (re_search Orderby.order_by_re (slice code sel_pos period)) = true ->
   Orderby.replacement_of today code sel_pos period = Ok (slice code sel_pos (period + 1)))
  /\ (is_some (re_search fae_re (slice code sel_pos period))
      || is_some (re_search Orderby.order_by_re (slice code sel_pos period)) = false ->
      exists new_stmt,
        Orderby.replacement_of today code sel_pos period
        = Ok (slice code (line_start_of code sel_pos) sel_pos
              ++ pwc_tag_line today ++ new_stmt ++ [dot])
        /\ blanks (slice code (line_start_of code sel_pos) sel_pos)
        /\ is_infix (L "ORDER BY") new_stmt = true
        /\ is_some (re_search Orderby.order_by_re new_stmt) = true).
Proof.
  intros today code sel_pos period Ht Hp.
  split; [apply orderby_skips_marked; assumption|].
  intros Hm.
  pose proof (@orderby_trigger_word code sel_pos Ht) as Hword.
  pose proof (@select_word_plain code sel_pos Hword period Hp) as Hplain.
  pose proof (keyword6_in_range code (L "select") sel_pos eq_refl Hword) as Hr.
  pose proof (orderby_trigger_lead code sel_pos Ht) as Hlead.
  unfold Orderby.replacement_of, Orderby.has_for_all_entries, Orderby.has_order_by.
  rewrite !(@find_phrase_plain _ _ _ Hplain). cbn [bind].
  unfold re_search in Hm. apply orb_false_elim in Hm. destruct Hm as [Hm1 Hm2].
  destruct (search_pos fae_re (slice code sel_pos period) 0); [discriminate|].
  cbn [option_map bind].
  destruct (search_pos Orderby.order_by_re (slice code sel_pos period) 0); [discriminate|].
  cbn [option_map bind].
  rewrite (lead_indent code sel_pos Hlead). cbn [bind].
  destruct (extract_select_list_returns (slice code sel_pos period)) as [sl Hsl].
  rewrite Hsl. cbn [bind].
  destruct (orderby_split_fields_returns sl) as [fields Hf]. rewrite Hf. cbn [bind].
  destruct (orderby_clause_phrase fields) as [rest Hc]. rewrite Hc. cbn [bind].
  destruct (orderby_insert_pos_of_returns (slice code sel_pos period)) as [ip Hip].
  rewrite Hip. cbn [bind].
  eexists. split; [reflexivity|].
  split; [apply (proj1 (at_statement_lead_first code sel_pos Hlead))|].
  match goal with
  | |- context [if ?b then _ else _] => destruct b
  end.
  - split; [apply (orderby_phrase_kept _ (sp :: rest))|apply orderby_phrase_matches].
  - rewrite <- !app_assoc.
    split; [apply (orderby_phrase_kept _ (sp :: rest ++ _))|apply orderby_phrase_matches].
Qed.

Lemma orderby_rewrites_unmarked_statements_witness :
  Orderby.replacement_of sample_date (L "SELECT a FROM t ORDER BY a.") 0 26
  = Ok (L "SELECT a FROM t ORDER BY a.")
  /\ exists new_stmt,
       Orderby.replacement_of sample_date indented_query 2 29
       = Ok (slice indented_query (line_start_of indented_query 2) 2
             ++ pwc_tag_line sample_date ++ new_stmt ++ [dot])
       /\ blanks (slice indented_query (line_start_of indented_query 2) 2)
       /\ is_infix (L "ORDER BY") new_stmt = true
       /\ is_some (re_search Orderby.order_by_re new_stmt) = true.
Proof.
  split.
  - apply (proj1 (@orderby_rewrites_unmarked_statements sample_date
                    (L "SELECT a FROM t ORDER BY a.") 0 26 eq_refl ltac:(lia))).
    vm_compute. reflexivity.
  - apply (proj2 (@orderby_rewrites_unmarked_statements sample_date indented_query 2 29
                    eq_refl ltac:(lia))).
    vm_compute. reflexivity.
Defined.

(** ** Places of the insertions *)

Ltac flat_app := repeat (progress (cbn [app]; rewrite <- ?app_assoc)); reflexivity.

Lemma first_code_hit (hit : nat -> bool) :
  forall sts k n, first_code hit sts k = Some n -> hit n = true.
Proof.
  induction sts as [|st sts IH]; intros k n; cbn [first_code]; [discriminate|].
  destruct (is_code st && hit k) eqn:E.
  - intros [= <-]. apply andb_prop in E. apply E.
  - apply IH.
Qed.

(** The index that the scan of a pass returns is one where its trigger
    test holds. *)
Lemma scan_next_trigger (p : pass) (code : str) (i k : nat) :
  scan_next (trigger_of p) code i = Ok (Some k) -> trigger_of p code k = Ok true.
Proof.
  rewrite scan_next_first_trigger. intros [= H].
  apply holds_true. unfold first_in_code in H.
  apply (first_code_hit _ _ _ H).
Qed.

(** The index that [find_statement_period] returns holds a period. *)
Lemma find_statement_period_dot (code : str) (start k : nat) :
  find_statement_period code start = Ok (Some k) -> nth_error code k = Some dot.
Proof.
  intros H. pose proof (period_loop_first _ _ _ _ H) as Hf.
  symmetry in Hf. apply first_code_hit in Hf.
  apply peek_is_lt in Hf. apply Hf.
Qed.

Lemma places_go_up_weaken (hi : nat) (places : list (nat * str)) (lo lo' : nat) :
  lo' <= lo -> places_go_up lo hi places -> places_go_up lo' hi places.
Proof.
  destruct places as [|[p f] rest]; cbn [places_go_up]; [trivial|].
  intros Hl [Hp Hr]. split; [lia|exact Hr].
Qed.

(** Text before the first place is copied. *)
Lemma put_from_shift (code : str) (hi : nat) (places : list (nat * str)) (i q : nat) :
  i <= q -> places_go_up q hi places ->
  put_from code i places = slice code i q ++ put_from code q places.
Proof.
  intros Hq. destruct places as [|[p f] rest]; cbn [places_go_up put_from].
  - intros _. apply from_split. exact Hq.
  - intros [Hp _]. rewrite (@slice_split code i q p) by lia.
    rewrite <- app_assoc. reflexivity.
Qed.

(** What [insertion_of] of sort.py returns for a query found by the
    pass. *)
Lemma sort_insertion_shape (today code ins : str) (sel_pos period_pos : nat) :
  Sort.trigger code sel_pos = Ok true ->
  Sort.insertion_of today code sel_pos period_pos = Ok (Some ins) ->
  exists target b,
    Sort.extract_target_table (slice code sel_pos period_pos) = Some target
    /\ blanks (slice code (line_start_of code sel_pos) sel_pos)
    /\ by_part b
    /\ ins = [nl] ++ slice code (line_start_of code sel_pos) sel_pos
             ++ L "SORT " ++ target ++ b ++ [dot] ++ [nl]
             ++ slice code (line_start_of code sel_pos) sel_pos ++ pwc_tag_line today.
Proof.
  intros Ht. 
  assert (Hlead : at_statement_lead code sel_pos = Ok true).
  { unfold Sort.trigger in Ht.
    destruct (str_eqb (lower (slice code sel_pos (sel_pos + 6))) (L "select"));
      [|discriminate].
    apply bind_ok in Ht. destruct Ht as (right_ok & _ & Ht).
    destruct right_ok; [exact Ht|discriminate]. }
  unfold Sort.insertion_of.
  destruct (negb (Sort.has_for_all_entries (slice code sel_pos period_pos)));
    [discriminate|].
  destruct (Sort.extract_target_table (slice code sel_pos period_pos)) as [target|];
    [|discriminate].
  intros H. apply bind_ok in H. destruct H as (sorted & _ & H).
  destruct sorted; [discriminate|].
  apply bind_ok in H. destruct H as (select_list & _ & H).
  apply bind_ok in H. destruct H as (fields & _ & H).
  rewrite (lead_indent code sel_pos Hlead) in H. cbn [bind] in H.
  injection H as <-.
  exists target.
  destruct (no_usable_fields fields).
  - exists []. split; [reflexivity|].
    split; [apply (proj1 (at_statement_lead_first code sel_pos Hlead))|].
    split; [left; reflexivity|].
    flat_app.
  - exists (L " BY " ++ join [sp] fields). split; [reflexivity|].
    split; [apply (proj1 (at_statement_lead_first code sel_pos Hlead))|].
    split; [right; exists fields; reflexivity|].
    flat_app.
Qed.

(** What [insertion_of] of read_statement.py returns. *)
Lemma read_insertion_shape (today code ins : str) (read_pos period_pos : nat) :
  Read.insertion_of today code read_pos period_pos = Ok (Some ins) ->
  exists itab b indent,
    Read.extract_itab (slice code read_pos period_pos) = Some itab
    /\ blanks indent
    /\ by_part b
    /\ ins = indent ++ L "SORT " ++ itab ++ b ++ [dot] ++ [nl]
             ++ indent ++ pwc_tag_line today.
Proof.
  unfold Read.insertion_of.
  destruct (Read.extract_itab (slice code read_pos period_pos)) as [itab|];
    [|discriminate].
  destruct (is_empty itab); [discriminate|]. cbv zeta.
  destruct (negb _); [discriminate|].
  intros H. apply bind_ok in H. destruct H as (sorted & _ & H).
  destruct sorted; [discriminate|].
  apply bind_ok in H. destruct H as (indent & Hindent & H).
  apply get_line_indent_before_blanks in Hindent.
  injection H as <-. exists itab.
  destruct (Read.read_has_index (slice code read_pos period_pos)).
  - exists [], indent. split; [reflexivity|]. split; [exact Hindent|].
    split; [left; reflexivity|]. flat_app.
  - destruct (Read.extract_key_fields (slice code read_pos period_pos)) as [|f fs].
    + exists [], indent. split; [reflexivity|]. split; [exact Hindent|].
      split; [left; reflexivity|]. flat_app.
    + exists (L " BY " ++ join [sp] (dedupe (f :: fs))), indent.
      split; [reflexivity|]. split; [exact Hindent|].
      split; [right; eexists; reflexivity|]. flat_app.
Qed.

(** The main loop of sort.py returns what it had collected, followed by
    the rest of the text with the fragments at their places. *)
Lemma sort_main_loop_places : forall fuel today code i out_parts,
  length code - i < fuel ->
  exists places,
    Sort.main_loop fuel today code i out_parts
    = Ok (concat out_parts ++ put_from code i places)
    /\ places_go_up (S i) (length code) places
    /\ Forall (fun pf => sort_place today code (fst pf) (snd pf)) places.
Proof.
  induction fuel as [|fuel IH]; intros today code i out_parts Hf; [lia|].
  cbn [Sort.main_loop].
  destruct (Nat.leb_spec (length code) i) as [Hge|Hlt].
  { exists []. cbn [put_from]. rewrite from_beyond, app_nil_r by exact Hge.
    split; [reflexivity|]. split; constructor. }
  destruct (@scan_next_spec Sort.trigger (fun c k _ => select_lead_trigger_returns c k) code i)
    as (found & Hfound & Hb).
  rewrite Hfound. cbn [bind].
  destruct found as [sel_pos|].
  2:{ exists []. cbn [put_from]. rewrite concat_snoc.
      split; [reflexivity|]. split; constructor. }
  specialize (Hb sel_pos eq_refl).
  pose proof (@scan_next_trigger PSort code i sel_pos Hfound) as Htrig.
  cbn [trigger_of] in Htrig.
  destruct (find_statement_period_spec code sel_pos) as (period & Hperiod & Hp).
  rewrite Hperiod. cbn [bind].
  destruct period as [period_pos|].
  2:{ exists []. cbn [put_from]. rewrite !concat_snoc, <- app_assoc.
      rewrite <- from_split by lia. split; [reflexivity|]. split; constructor. }
  specialize (Hp period_pos eq_refl).
  destruct (@sort_insertion_of_spec today code sel_pos period_pos ltac:(lia))
    as (ins & Hins & _).
  rewrite Hins. cbn [bind].
  match goal with
  | |- context [Sort.main_loop fuel today code (period_pos + 1) ?out] =>
      destruct (IH today code (period_pos + 1) out ltac:(lia)) as (places & Ht & Hup & Hall)
  end.
  rewrite Ht, !concat_snoc.
  destruct ins as [insertion|].
  - exists ((period_pos + 1, insertion) :: places). cbn [put_from places_go_up].
    split; [|split].
    + rewrite (@slice_split code i sel_pos (period_pos + 1)) by lia.
      rewrite <- !app_assoc. reflexivity.
    + split; [lia|exact Hup].
    + constructor; [|exact Hall]. cbn [fst snd].
      destruct (sort_insertion_shape today code sel_pos period_pos Htrig Hins)
        as (target & b & Htarget & Hblanks & Hby & Hshape).
      exists sel_pos, period_pos, target, b.
      split; [reflexivity|]. split; [exact Htrig|]. split; [exact Hperiod|].
      split; [apply (find_statement_period_dot code sel_pos Hperiod)|].
      split; [exact Htarget|]. split; [exact Hblanks|]. split; [exact Hby|exact Hshape].
  - exists places. split; [|split; [|exact Hall]].
    + assert (Hup' : places_go_up (period_pos + 1) (length code) places)
        by (apply places_go_up_weaken with (S (period_pos + 1)); [lia|exact Hup]).
      rewrite (@put_from_shift code (length code) places i (period_pos + 1) ltac:(lia) Hup').
      rewrite (@slice_split code i sel_pos (period_pos + 1)) by lia.
      rewrite <- !app_assoc. reflexivity.
    + apply places_go_up_weaken with (S (period_pos + 1)); [lia|exact Hup].
Qed.

(** The same for the main loop of read_statement.py. *)
Lemma read_main_loop_places : forall fuel today code i out_parts,
  length code - i < fuel ->
  exists places,
    Read.main_loop fuel today code i out_parts
    = Ok (concat out_parts ++ put_from code i places)
    /\ places_go_up i (length code) places
    /\ Forall (fun pf => read_place today code (fst pf) (snd pf)) places.
Proof.
  induction fuel as [|fuel IH]; intros today code i out_parts Hf; [lia|].
  cbn [Read.main_loop].
  destruct (Nat.leb_spec (length code) i) as [Hge|Hlt].
  { exists []. cbn [put_from]. rewrite from_beyond, app_nil_r by exact Hge.
    split; [reflexivity|]. split; constructor. }
  destruct (@scan_next_spec Read.trigger (fun c k _ => read_trigger_returns c k) code i)
    as (found & Hfound & Hb).
  rewrite Hfound. cbn [bind].
  destruct found as [read_pos|].
  2:{ exists []. cbn [put_from]. rewrite concat_snoc.
      split; [reflexivity|]. split; constructor. }
  specialize (Hb read_pos eq_refl).
  pose proof (@scan_next_trigger PRead code i read_pos Hfound) as Htrig.
  cbn [trigger_of] in Htrig.
  destruct (find_statement_period_spec code read_pos) as (period & Hperiod & Hp).
  rewrite Hperiod. cbn [bind].
  destruct period as [period_pos|].
  2:{ exists []. cbn [put_from]. rewrite !concat_snoc, <- app_assoc.
      rewrite <- from_split by lia. split; [reflexivity|]. split; constructor. }
  specialize (Hp period_pos eq_refl).
  destruct (@read_insertion_of_spec today code read_pos period_pos ltac:(lia))
    as (ins & Hins & _).
  rewrite Hins. cbn [bind].
  match goal with
  | |- context [Read.main_loop fuel today code (period_pos + 1) ?out] =>
      destruct (IH today code (period_pos + 1) out ltac:(lia)) as (places & Ht & Hup & Hall)
  end.
  rewrite Ht.
  assert (Hrest : put_from code read_pos places
                  = slice code read_pos (period_pos + 1)
                    ++ put_from code (period_pos + 1) places).
  { apply put_from_shift with (length code); [lia|exact Hup]. }
  destruct ins as [insertion|].
  - exists ((read_pos, insertion) :: places). cbn [put_from places_go_up].
    split; [|split].
    + rewrite Hrest, !concat_app. cbn [concat app].
      rewrite !app_nil_r, <- !app_assoc. reflexivity.
    + split; [lia|]. apply places_go_up_weaken with (period_pos + 1); [lia|exact Hup].
    + constructor; [|exact Hall]. cbn [fst snd].
      destruct (read_insertion_shape today code read_pos period_pos Hins)
        as (itab & b & indent & Hitab & Hblanks & Hby & Hshape).
      exists period_pos, itab, b, indent.
      split; [exact Htrig|]. split; [exact Hperiod|]. split; [exact Hitab|].
      split; [exact Hblanks|]. split; [exact Hby|exact Hshape].
  - exists places. split; [|split; [|exact Hall]].
    + assert (Hup' : places_go_up read_pos (length code) places)
        by (apply places_go_up_weaken with (period_pos + 1); [lia|exact Hup]).
      rewrite (@put_from_shift code (length code) places i read_pos ltac:(lia) Hup').
      rewrite Hrest, !concat_snoc, <- !app_assoc. reflexivity.
    + apply places_go_up_weaken with (period_pos + 1); [lia|exact Hup].
Qed.

(** C10 as worded fails: where another statement follows a bulk lookup
    on its line, that line is not among the lines of the output of
    [process_sort], as the fragment goes right behind the period. *)
Lemma sort_breaks_line_after_period :
  exists out, Sort.process_sort sample_date query_before_text = Ok out
              /\ out = scenario_B ++ [nl] ++ L "SORT result BY a b." ++ [nl]
                       ++ pwc_tag_line sample_date ++ L " CLEAR wa."
              /\ is_subseq (lines query_before_text) (lines out) = false.
Proof. eexists; split; [|split]; vm_compute; reflexivity. Qed.

(** C10 (amended). [process_sort] and [process_read] only insert: the
    output is the input with fragments put in at places that go up
    through the text, so every character of the input is in the output,
    unchanged and in its place.  [process_sort] puts a fragment right
    behind the period that ends a query: a newline, the [SORT] statement
    for the target table of the query and the tag line, both behind the
    blanks that stand before the query on its line.  [process_read] puts
    a fragment right before the keyword of a read: the [SORT] statement
    for the table of the read, a newline and the tag line, each behind a
    run of blanks. *)
Theorem sort_and_read_only_insert : forall (today code : str),
  (exists places,
     Sort.process_sort today code = Ok (put_from code 0 places)
     /\ places_go_up 1 (length code) places
     /\ Forall (fun pf => sort_place today code (fst pf) (snd pf)) places
     /\ inserted (sort_fragment today) code (put_from code 0 places))
  /\ (exists places,
        Read.process_read today code = Ok (put_from code 0 places)
        /\ places_go_up 0 (length code) places
        /\ Forall (fun pf => read_place today code (fst pf) (snd pf)) places
        /\ inserted (read_fragment today) code (put_from code 0 places)).
Proof.
  intros today code. split.
  - destruct (@sort_main_loop_places (S (length code)) today code 0 [] ltac:(lia))
      as (places & Ht & Hup & Hall).
    exists places. split; [exact Ht|]. split; [exact Hup|]. split; [exact Hall|].
    destruct (process_sort_spec today code) as (out & Hout & Hins).
    unfold Sort.process_sort in Hout. rewrite Ht in Hout. injection Hout as <-.
    exact Hins.
  - destruct (@read_main_loop_places (S (length code)) today code 0 [] ltac:(lia))
      as (places & Ht & Hup & Hall).
    exists places. split; [exact Ht|]. split; [exact Hup|]. split; [exact Hall|].
    destruct (process_read_spec today code) as (out & Hout & Hins).
    unfold Read.process_read in Hout. rewrite Ht in Hout. injection Hout as <-.
    exact Hins.
Qed.

(** ** Calls in the column list *)






















(** Illustrations: the items and what becomes of them. *)
Example sort_items_of_calls :
  sort_items (L "MAX( price ), b AS m") = Ok [L "MAX( price )"; L "b AS m"]
  /\ is_bare_call (L "MAX( price )") = true
  /\ Sort.split_fields (L "MAX( price ), b AS m") = Ok [L "m"].
Proof. repeat split; vm_compute; reflexivity. Qed.

Example orderby_items_of_calls :
  orderby_items (L "k, MAX( price )") = Ok [L "k"; L "MAX( price )"]
  /\ Orderby.split_fields (L "k, MAX( price )") = Ok [L "k"; L "MAX( price )"]
  /\ Orderby.orderby_clause_of [L "k"; L "MAX( price )"]
     = Ok (L " ORDER BY k, MAX( price )").
Proof. repeat split; vm_compute; reflexivity. Qed.
